(** * morphoBPE: incremental BPE trainer, suffix-automaton oracle and
      linked-list merge variant

    Shallow embedding of
      - src/bpe.cpp          (tf-weighted trainer),
      - src/bpes/bpe.cpp     (trainer reporting rescanned original frequencies),
      - src/bpes/bpe_sa.cpp  (trainer reporting suffix-automaton frequencies),
      - src/bpes/bpe2.cpp    (doubly linked list variant).

    Conventions.  A C++ [int] is a [Z].  The sums into which the [tf] of
    the input enters (the frequency of a pair, bpe.cpp:171-175, and the
    final count of a token, bpe.cpp:229-233) are computed as the program
    computes them, in 32-bit [int]: [int_add] and [int_mul] reduce the exact
    result modulo 2^32 into [INT_MIN .. INT_MAX] (signed overflow is
    undefined in C++; two's complement is what the compiled program
    yields).  Counters that are bounded by the size of the data held in
    memory (token identifiers, positions, occurrence counts of a substring)
    are on [Z].  A [std::string] is a [string] (a sequence of bytes).
    [std::vector] is a [list] with stdpp's lookup; an access outside the
    vector is undefined behaviour in C++ and is [None] in the model.
    [std::unordered_map] and [std::unordered_set] are [gmap] and [gset]; the
    order in which C++ enumerates them is unspecified and is a parameter of
    the model (class [HashOrder]). *)

From Stdlib Require Import ZArith String Ascii List Lia.
From stdpp Require Import base option list gmap sets fin_maps fin_sets strings sorting.

Open Scope Z_scope.
Set Warnings "-clear-no-such-hyp".

(** ** Machine integers *)

Definition INT_MIN : Z := - 2 ^ 31.
Definition INT_MAX : Z := 2 ^ 31 - 1.

(** The value an [int] holds after an operation whose exact result is [z]:
    the number of [INT_MIN .. INT_MAX] that is congruent to [z] modulo
    2^32. *)
Definition wrap_int (z : Z) : Z := (z - INT_MIN) mod 2 ^ 32 + INT_MIN.

(** [a + b] and [a * b] on [int]. *)
Definition int_add (a b : Z) : Z := wrap_int (a + b).
Definition int_mul (a b : Z) : Z := wrap_int (a * b).

(** ** Token identifiers and the global symbol table *)

(** [std::pair<int,int>] *)
Abbreviation Pair := (Z * Z)%type.

(** The globals [token_to_id] and [id_to_token]. *)
Record SymbolTable := mkSymbolTable {
  token_to_id : gmap string Z;
  id_to_token : list string;
}.

Definition empty_table : SymbolTable := mkSymbolTable ∅ [].

(** [get_token_id] (bpe.cpp:40, bpe_sa.cpp:147; [getTokenId] of bpe2.cpp:45):
    the identifier of [token], allocated as [id_to_token.size()] when new. *)
Definition get_token_id (token : string) (t : SymbolTable) : Z * SymbolTable :=
  match token_to_id t !! token with
  | Some id => (id, t)
  | None =>
      let new_id := Z.of_nat (length (id_to_token t)) in
      (new_id, mkSymbolTable (<[token := new_id]> (token_to_id t))
                             (id_to_token t ++ [token]))
  end.

(** [id_to_token[id]]; a negative or too large [id] is out of bounds. *)
Definition token_string (t : SymbolTable) (id : Z) : option string :=
  if decide (0 ≤ id) then id_to_token t !! Z.to_nat id else None.

(** ** Per-word helpers *)

(** [compute_pairs] (bpe.cpp:53): the set of adjacent pairs of a token vector. *)
Fixpoint compute_pairs (tokens : list Z) : gset Pair :=
  match tokens with
  | a :: tl =>
      match tl with
      | b :: _ => {[ (a, b) ]} ∪ compute_pairs tl
      | [] => ∅
      end
  | [] => ∅
  end.

(** [count_occurrences_in_word] (bpe.cpp:62): number of positions [i] with
    [tokens[i] == p.first && tokens[i+1] == p.second]. *)
Fixpoint count_occurrences_in_word (tokens : list Z) (p : Pair) : Z :=
  match tokens with
  | a :: tl =>
      match tl with
      | b :: _ =>
          (if decide (a = p.1 ∧ b = p.2) then 1 else 0)
          + count_occurrences_in_word tl p
      | [] => 0
      end
  | [] => 0
  end.

(** [merge_pair_in_word] (bpe.cpp:72): greedy left-to-right replacement of
    [target_pair] by [new_token_id]; a match consumes two tokens. *)
Fixpoint merge_pair_in_word (tokens : list Z) (target_pair : Pair)
    (new_token_id : Z) : list Z :=
  match tokens with
  | [] => []
  | a :: tl =>
      match tl with
      | b :: tl' =>
          if decide (a = target_pair.1 ∧ b = target_pair.2)
          then new_token_id :: merge_pair_in_word tl' target_pair new_token_id
          else a :: merge_pair_in_word tl target_pair new_token_id
      | [] => [a]
      end
  end.

(** ** Faults

    The trainers have no error handling of their own inside the algorithms:
    an access outside a vector is undefined behaviour and an exception of
    the UTF-8 converter is never caught.  The model makes both explicit;
    [OutOfFuel] is the model's own bound on a loop, not a behaviour of the
    program. *)
Inductive Fault := OutOfBounds | DecodeFailure | OutOfFuel.

Inductive result (A : Type) :=
  | Ok (a : A)
  | Err (e : Fault).
Arguments Ok {A} a.
Arguments Err {A} e.

#[global] Instance result_ret : MRet result := λ A a, Ok a.
#[global] Instance result_bind : MBind result := λ A B f m,
  match m with
  | Ok a => f a
  | Err e => Err e
  end.

Definition of_option {A} (o : option A) (e : Fault) : result A :=
  match o with
  | Some a => Ok a
  | None => Err e
  end.

(** [v[i]] for a vector [v] and an [int] or [size_t] index. *)
Definition at_ {A} (v : list A) (i : Z) : result A :=
  if decide (0 ≤ i) then of_option (v !! Z.to_nat i) OutOfBounds
  else Err OutOfBounds.

(** [v[i] = f(v[i])] *)
Definition modify_at {A} (v : list A) (i : Z) (f : A → A) : result (list A) :=
  x ← at_ v i; Ok (<[Z.to_nat i := f x]> v).

(** [v.resize(n)] with value-initialised new elements. *)
Definition resize_vec {A} (n : nat) (dflt : A) (v : list A) : list A :=
  take n v ++ replicate (n - length v) dflt.

(** ** The naive substring counter

    [count_occurrences] (bpe_sa.cpp:17, bpes/bpe.cpp:25).  [str.find(sub, pos)]
    is [String.index pos sub str]: the first position at or after [pos] where
    [sub] occurs in [str].  The loop restarts one past each match, so
    overlapping occurrences are counted.  Every round moves [pos] forward, so
    [S (length str)] rounds are enough. *)
Fixpoint count_occurrences_loop (rounds : nat) (str sub : string)
    (pos : nat) (count : Z) : Z :=
  match rounds with
  | O => count
  | S rounds' =>
      match String.index pos sub str with
      | Some found => count_occurrences_loop rounds' str sub (S found) (count + 1)
      | None => count
      end
  end.

Definition count_occurrences (str sub : string) : Z :=
  if decide (sub = EmptyString) then 0
  else count_occurrences_loop (S (String.length str)) str sub 0 0.

(** ** The suffix automaton (bpe_sa.cpp:32-111) *)
Module Sa.

Record SAState := mkSAState {
  len : Z;
  link : Z;
  next : gmap ascii Z;
  occ : Z;
}.

(** A value-initialised [SAState]. *)
Definition SAState_zero : SAState := mkSAState 0 0 ∅ 0.

Definition set_len (v : Z) (s : SAState) := mkSAState v (link s) (next s) (occ s).
Definition set_link (v : Z) (s : SAState) := mkSAState (len s) v (next s) (occ s).
Definition set_next (v : gmap ascii Z) (s : SAState) := mkSAState (len s) (link s) v (occ s).
Definition set_occ (v : Z) (s : SAState) := mkSAState (len s) (link s) (next s) v.

(** [for (; p != -1 && !st[p].next.count(c); p = st[p].link) st[p].next[c] = cur;]
    Returns the vector and the [p] at which the loop stopped. *)
Fixpoint extend_link_walk (fuel : nat) (c : ascii) (cur : Z)
    (st : list SAState) (p : Z) : result (list SAState * Z) :=
  if decide (p = -1) then Ok (st, p)
  else
    sp ← at_ st p;
    match next sp !! c with
    | Some _ => Ok (st, p)
    | None =>
        match fuel with
        | O => Err OutOfFuel
        | S fuel' =>
            st' ← modify_at st p (set_next (<[c := cur]> (next sp)));
            extend_link_walk fuel' c cur st' (link sp)
        end
    end.

(** [m[c]] of [std::unordered_map::operator[]]: the mapped value, inserting a
    value-initialised one (0) when the key is absent. *)
Definition index_or_insert (m : gmap ascii Z) (c : ascii) : Z * gmap ascii Z :=
  match m !! c with
  | Some v => (v, m)
  | None => (0, <[c := 0]> m)
  end.

(** [for (; p != -1 && st[p].next[c] == q; p = st[p].link) st[p].next[c] = clone;] *)
Fixpoint extend_redirect (fuel : nat) (c : ascii) (q clone : Z)
    (st : list SAState) (p : Z) : result (list SAState) :=
  if decide (p = -1) then Ok st
  else
    sp ← at_ st p;
    let '(v, nx) := index_or_insert (next sp) c in
    st1 ← modify_at st p (set_next nx);
    if decide (v = q) then
      match fuel with
      | O => Err OutOfFuel
      | S fuel' =>
          st2 ← modify_at st1 p (set_next (<[c := clone]> nx));
          extend_redirect fuel' c q clone st2 (link sp)
      end
    else Ok st1.

(** The object: the vector [st] and [last]. *)
Record SuffixAutomaton := mkSuffixAutomaton {
  st : list SAState;
  last : Z;
}.

(** [SuffixAutomaton::extend] (bpe_sa.cpp:71).  The vector, [last] (passed by
    reference) and the returned size are threaded explicitly. *)
Definition extend (c : ascii) (sz : Z) (sa : SuffixAutomaton)
    : result (Z * SuffixAutomaton) :=
  let fuel := S (length (st sa)) in
  let cur := sz in
  let sz := sz + 1 in
  slast ← at_ (st sa) (last sa);
  st1 ← modify_at (st sa) cur (set_len (len slast + 1));
  st2 ← modify_at st1 cur (set_occ 1);
  '(st3, p) ← extend_link_walk fuel c cur st2 (last sa);
  '(sz, st4) ←
    (if decide (p = -1) then
       st4 ← modify_at st3 cur (set_link 0); Ok (sz, st4)
     else
       sp ← at_ st3 p;
       let '(q, nx) := index_or_insert (next sp) c in
       st4 ← modify_at st3 p (set_next nx);
       sp ← at_ st4 p;
       sq ← at_ st4 q;
       if decide (len sp + 1 = len sq) then
         st5 ← modify_at st4 cur (set_link q); Ok (sz, st5)
       else
         let clone := sz in
         let sz := sz + 1 in
         st5 ← modify_at st4 clone (set_len (len sp + 1));
         sq ← at_ st5 q;
         st6 ← modify_at st5 clone (set_next (next sq));
         sq ← at_ st6 q;
         st7 ← modify_at st6 clone (set_link (link sq));
         st8 ← modify_at st7 clone (set_occ 0);
         st9 ← extend_redirect fuel c q clone st8 p;
         st10 ← modify_at st9 cur (set_link clone);
         st11 ← modify_at st10 q (set_link clone);
         Ok (sz, st11));
  Ok (sz, mkSuffixAutomaton st4 cur).

(** [for (char c : s) sz = extend(c, sz, last);] *)
Fixpoint extend_all (s : string) (sz : Z) (sa : SuffixAutomaton)
    : result (Z * SuffixAutomaton) :=
  match s with
  | EmptyString => Ok (sz, sa)
  | String c s' => '(sz', sa') ← extend c sz sa; extend_all s' sz' sa'
  end.

(** The propagation loop of the constructor (bpe_sa.cpp:63-67), over the
    indices it is given:
    [if (st[i].link != -1) st[st[i].link].occ += st[i].occ;] *)
Fixpoint propagate (st : list SAState) (indices : list Z) : result (list SAState) :=
  match indices with
  | [] => Ok st
  | i :: rest =>
      si ← at_ st i;
      if decide (link si ≠ -1) then
        st' ← modify_at st (link si) (λ t, set_occ (occ t + occ si) t);
        propagate st' rest
      else propagate st rest
  end.

(** The vector [order] of the constructor (bpe_sa.cpp:57-61): the state
    indices sorted by decreasing [len]. *)
Definition longer_first (st : list SAState) (a b : Z) : Prop :=
  default 0 (len <$> st !! Z.to_nat b) ≤ default 0 (len <$> st !! Z.to_nat a).

#[global] Instance longer_first_dec st a b : Decision (longer_first st a b).
Proof. unfold longer_first. apply _. Defined.

Definition order (st : list SAState) (sz : nat) : list Z :=
  merge_sort (longer_first st) (Z.of_nat <$> seq 0 sz).

(** The constructor [SuffixAutomaton::SuffixAutomaton(const string &s)]
    (bpe_sa.cpp:44).  The constructor fills [order] and then runs the
    propagation loop over [i = 0 .. sz-1], reading [st[i]], not
    [st[order[i]]]. *)
Definition SuffixAutomaton_ctor (s : string) : result SuffixAutomaton :=
  let n := String.length s in
  let st0 := resize_vec (2 * n) SAState_zero [] in
  st1 ← modify_at st0 0 (set_len 0);
  st2 ← modify_at st1 0 (set_link (-1));
  st3 ← modify_at st2 0 (set_occ 0);
  '(sz, sa) ← extend_all s 1 (mkSuffixAutomaton st3 0);
  let st4 := resize_vec (Z.to_nat sz) SAState_zero (st sa) in
  let order_unused := order st4 (Z.to_nat sz) in
  st5 ← propagate st4 (Z.of_nat <$> seq 0 (Z.to_nat sz));
  Ok (mkSuffixAutomaton st5 (last sa)).

(** [SuffixAutomaton::countOccurrences] (bpe_sa.cpp:102) *)
Fixpoint countOccurrences_from (st : list SAState) (cur : Z) (pattern : string)
    : result Z :=
  match pattern with
  | EmptyString => s ← at_ st cur; Ok (occ s)
  | String c pattern' =>
      s ← at_ st cur;
      match next s !! c with
      | None => Ok 0
      | Some cur' => countOccurrences_from st cur' pattern'
      end
  end.

Definition countOccurrences (sa : SuffixAutomaton) (pattern : string) : result Z :=
  countOccurrences_from (st sa) 0 pattern.

(** The constructor as section 4.5 of the specification describes it: the
    propagation visits the states in decreasing order of [len]. *)
Definition SuffixAutomaton_ctor_by_length (s : string) : result SuffixAutomaton :=
  let n := String.length s in
  let st0 := resize_vec (2 * n) SAState_zero [] in
  st1 ← modify_at st0 0 (set_len 0);
  st2 ← modify_at st1 0 (set_link (-1));
  st3 ← modify_at st2 0 (set_occ 0);
  '(sz, sa) ← extend_all s 1 (mkSuffixAutomaton st3 0);
  let st4 := resize_vec (Z.to_nat sz) SAState_zero (st sa) in
  st5 ← propagate st4 (order st4 (Z.to_nat sz));
  Ok (mkSuffixAutomaton st5 (last sa)).

End Sa.

(** ** The trainers (bpe.cpp, bpes/bpe.cpp, bpes/bpe_sa.cpp)

    The three files share the loader, the pair index and the merge loop
    line by line.  They differ in three places, selected by [Variant]:
    the fields a record must have, the weight of a word in the frequency
    of a pair, and the number stored in [MergeRule::frequency]. *)
Inductive Variant :=
  | bpe_cpp        (* src/bpe.cpp *)
  | bpes_bpe_cpp   (* src/bpes/bpe.cpp *)
  | bpe_sa_cpp.    (* src/bpes/bpe_sa.cpp *)

(** [struct WordEntry].  bpe.cpp has [tokens], [pairSet], [tf], [df];
    bpes/bpe.cpp and bpe_sa.cpp have [original], [tokens], [pairSet].  The
    record carries all five; bpe.cpp never reads [original] and the other
    two never read [tf] and [df]. *)
Record WordEntry := mkWordEntry {
  original : string;
  tokens : list Z;
  pairSet : gset Pair;
  tf : Z;
  df : Z;
}.

(** [struct MergeRule] *)
Record MergeRule := mkMergeRule {
  merge_pair : Pair;
  new_token : Z;
  frequency : Z;
}.

(** The variables of [main] that the merge loop reads and writes. *)
Record Trainer := mkTrainer {
  table : SymbolTable;
  words : list WordEntry;
  pair_to_word_indices : gmap Pair (gset nat);
  merges : list MergeRule;
  automaton : Sa.SuffixAutomaton;   (* bpe_sa.cpp only *)
}.

(** The factor by which a word's occurrence count enters the frequency of
    a pair: [words[word_idx].tf] in bpe.cpp:174, nothing (1) in
    bpes/bpe.cpp:193 and bpe_sa.cpp:287. *)
Definition word_weight (v : Variant) (w : WordEntry) : Z :=
  match v with
  | bpe_cpp => tf w
  | bpes_bpe_cpp | bpe_sa_cpp => 1
  end.

(** The enumeration order of the hash containers.  C++ leaves it
    unspecified; every property below is proved for every order. *)
Class HashOrder := {
  iter_index : gmap Pair (gset nat) → list (Pair * gset nat);
  iter_index_perm m : iter_index m ≡ₚ map_to_list m;
  iter_words : gset nat → list nat;
  iter_words_perm X : iter_words X ≡ₚ elements X;
  iter_pairs : gset Pair → list Pair;
  iter_pairs_perm X : iter_pairs X ≡ₚ elements X;
  iter_freqs : gmap Z Z → list (Z * Z);
  iter_freqs_perm m : iter_freqs m ≡ₚ map_to_list m;
}.

(** One admissible order, used to run the model. *)
Definition canonical_order : HashOrder :=
  {| iter_index := map_to_list; iter_index_perm := λ _, reflexivity _;
     iter_words := elements; iter_words_perm := λ _, reflexivity _;
     iter_pairs := elements; iter_pairs_perm := λ _, reflexivity _;
     iter_freqs := map_to_list; iter_freqs_perm := λ _, reflexivity _ |}.

(** [it->second.erase(idx); if (it->second.empty()) pair_to_word_indices.erase(it);]
    guarded by [it != end()] (bpe.cpp:207-212). *)
Definition unregister_word (idx : nat) (m : gmap Pair (gset nat)) (p : Pair)
    : gmap Pair (gset nat) :=
  match m !! p with
  | Some X =>
      let X' := X ∖ {[idx]} in
      if decide (X' = ∅) then delete p m else <[p := X']> m
  | None => m
  end.

(** [pair_to_word_indices[p].insert(idx);] *)
Definition register_word (idx : nat) (m : gmap Pair (gset nat)) (p : Pair)
    : gmap Pair (gset nat) :=
  <[p := {[idx]} ∪ default ∅ (m !! p)]> m.

Section Trainer.
Context `{HashOrder}.

(** The inner loop of the search (bpe.cpp:173-175), on [int freq]:
    [freq += count_occurrences_in_word(words[word_idx].tokens, p) * words[word_idx].tf]
    (bpes/bpe.cpp:193 and bpe_sa.cpp:287 add the [int] count itself). *)
Fixpoint sum_frequency (v : Variant) (ws : list WordEntry) (p : Pair)
    (idxs : list nat) (freq : Z) : result Z :=
  match idxs with
  | [] => Ok freq
  | word_idx :: rest =>
      w ← of_option (ws !! word_idx) OutOfBounds;
      sum_frequency v ws p rest
        (int_add freq
           (int_mul (count_occurrences_in_word (tokens w) p) (word_weight v w)))
  end.

(** The search for the best pair (bpe.cpp:169-180); [best_freq] and [freq]
    are [int]s. *)
Fixpoint find_best (v : Variant) (ws : list WordEntry)
    (kvs : list (Pair * gset nat)) (best_pair : Pair) (best_freq : Z)
    : result (Pair * Z) :=
  match kvs with
  | [] => Ok (best_pair, best_freq)
  | (p, idxs) :: rest =>
      freq ← sum_frequency v ws p (iter_words idxs) 0;
      if decide (freq > best_freq) then find_best v ws rest p freq
      else find_best v ws rest best_pair best_freq
  end.

(** [best_pair] and [best_freq] as the loop body computes them from
    [{-1,-1}] and [0]. *)
Definition select (v : Variant) (s : Trainer) : result (Pair * Z) :=
  find_best v (words s) (iter_index (pair_to_word_indices s)) (-1, -1) 0.

(** The body of [for (int idx : affected_words)] (bpe.cpp:196-221). *)
Definition update_word (best_pair : Pair) (new_token_id : Z)
    (st : list WordEntry * gmap Pair (gset nat)) (idx : nat)
    : result (list WordEntry * gmap Pair (gset nat)) :=
  word ← of_option (st.1 !! idx) OutOfBounds;
  let old_pairSet := pairSet word in
  let new_tokens := merge_pair_in_word (tokens word) best_pair new_token_id in
  let new_pairSet := compute_pairs new_tokens in
  let index1 :=
    foldl (λ m p, if decide (p ∉ new_pairSet) then unregister_word idx m p else m)
          st.2 (iter_pairs old_pairSet) in
  let index2 :=
    foldl (λ m p, if decide (p ∉ old_pairSet) then register_word idx m p else m)
          index1 (iter_pairs new_pairSet) in
  Ok (<[idx := mkWordEntry (original word) new_tokens new_pairSet (tf word) (df word)]> st.1,
      index2).

Fixpoint update_words (best_pair : Pair) (new_token_id : Z)
    (affected : list nat) (st : list WordEntry * gmap Pair (gset nat))
    : result (list WordEntry * gmap Pair (gset nat)) :=
  match affected with
  | [] => Ok st
  | idx :: rest =>
      st' ← update_word best_pair new_token_id st idx;
      update_words best_pair new_token_id rest st'
  end.

(** The number stored in [MergeRule::frequency]:
    [best_freq] in bpe.cpp:187, the rescan of the original words in
    bpes/bpe.cpp:208-212, [automaton.countOccurrences(new_token_str)] in
    bpe_sa.cpp:302. *)
Definition reported_frequency (v : Variant) (s : Trainer)
    (new_token_str : string) (best_freq : Z) : result Z :=
  match v with
  | bpe_cpp => Ok best_freq
  | bpes_bpe_cpp =>
      Ok (foldl (λ original_freq w,
                   original_freq + count_occurrences (original w) new_token_str)
                0 (words s))
  | bpe_sa_cpp => Sa.countOccurrences (automaton s) new_token_str
  end.

Inductive Step :=
  | Merged (s : Trainer)   (* the body ran to its end *)
  | Finished.              (* [break] *)

(** One pass through the body of [while (true)] (bpe.cpp:164-225).
    [pair_to_word_indices[best_pair]] cannot insert: [best_freq >= 2] only
    for a key of the map; an inserted empty set would be erased by the
    last statement anyway. *)
Definition iteration (v : Variant) (s : Trainer) : result Step :=
  '(best_pair, best_freq) ← select v s;
  if decide (best_freq < 2) then Ok Finished
  else
    first_str ← of_option (token_string (table s) best_pair.1) OutOfBounds;
    second_str ← of_option (token_string (table s) best_pair.2) OutOfBounds;
    let new_token_str := (first_str ++ second_str)%string in
    let '(new_token_id, table') := get_token_id new_token_str (table s) in
    reported ← reported_frequency v s new_token_str best_freq;
    let merges' := merges s ++ [mkMergeRule best_pair new_token_id reported] in
    let affected_words := default ∅ (pair_to_word_indices s !! best_pair) in
    '(words', index') ←
      update_words best_pair new_token_id (iter_words affected_words)
                   (words s, pair_to_word_indices s);
    Ok (Merged (mkTrainer table' words' (delete best_pair index') merges'
                          (automaton s))).

(** [while (true) { ... }] with a bound on the number of passes. *)
Fixpoint merge_loop (fuel : nat) (v : Variant) (s : Trainer) : result Trainer :=
  match fuel with
  | O => Err OutOfFuel
  | S fuel' =>
      r ← iteration v s;
      match r with
      | Finished => Ok s
      | Merged s' => merge_loop fuel' v s'
      end
  end.

(** The construction of [pair_to_word_indices] (bpe.cpp:152-157). *)
Fixpoint build_index (i : nat) (ws : list WordEntry) (m : gmap Pair (gset nat))
    : gmap Pair (gset nat) :=
  match ws with
  | [] => m
  | w :: rest =>
      build_index (S i) rest (foldl (register_word i) m (iter_pairs (pairSet w)))
  end.

End Trainer.

(** ** The corpus loader (bpe.cpp:122-146, bpes/bpe.cpp:145-168,
       bpe_sa.cpp:229-251)

    The input file is the list of its lines as [std::getline] yields them.
    [operator>>] on the [istringstream] of a line is modelled on the rest of
    the line that is still unread: [None] is a stream with [failbit] set. *)

(** [std::isspace] for a [char]: space, [\t], [\n], [\v], [\f], [\r]. *)
Definition isspace (c : ascii) : bool :=
  let n := nat_of_ascii c in
  ((9 <=? n)%nat && (n <=? 13)%nat) || (n =? 32)%nat.

Definition isdigit (c : ascii) : bool :=
  let n := nat_of_ascii c in (48 <=? n)%nat && (n <=? 57)%nat.

Fixpoint skipws (s : string) : string :=
  match s with
  | String c s' => if isspace c then skipws s' else s
  | EmptyString => EmptyString
  end.

(** The longest prefix without white space, and what follows it. *)
Fixpoint take_nonspace (s : string) : string * string :=
  match s with
  | String c s' =>
      if isspace c then (EmptyString, s)
      else let '(w, r) := take_nonspace s' in (String c w, r)
  | EmptyString => (EmptyString, EmptyString)
  end.

(** [iss >> word_str]: skips white space, then extracts up to the next white
    space; fails when nothing is extracted. *)
Definition read_string (s : string) : option (string * string) :=
  let '(w, r) := take_nonspace (skipws s) in
  if decide (w = EmptyString) then None else Some (w, r).

(** [std::locale::global(std::locale("en_US.UTF-8"))] (bpe.cpp:89,
    bpes/bpe.cpp:114) runs before the first [istringstream] is built, so
    [iss >> tf] reads with the [numpunct] facet of that locale: the
    thousands separator is the comma and digits are grouped by three. *)
Definition thousands_sep : ascii := ","%char.
Definition grouping : nat := 3.

(** The extraction loop of [num_get] in base ten.  [sep_pos] counts the
    digits read since the last separator and [found_grouping] lists the
    sizes of the groups that a separator has closed.  A separator before
    any digit of its group sets [testfail] and ends the scan; any other
    character that is not a digit ends it too.  The result is [testfail],
    the number read, [sep_pos], [found_grouping] and what is left unread. *)
Fixpoint scan_int (s : string) (result : Z) (sep_pos : nat)
    (found_grouping : list nat) : bool * Z * nat * list nat * string :=
  match s with
  | String c s' =>
      if Ascii.eqb c thousands_sep then
        if (sep_pos =? 0)%nat then (true, result, sep_pos, found_grouping, s)
        else scan_int s' result 0 (found_grouping ++ [sep_pos])
      else if isdigit c then
        scan_int s' (10 * result + (Z.of_nat (nat_of_ascii c) - 48)) (S sep_pos)
                 found_grouping
      else (false, result, sep_pos, found_grouping, s)
  | EmptyString => (false, result, sep_pos, found_grouping, EmptyString)
  end.

(** [std::__verify_grouping]: every group but the first has exactly
    [grouping] digits and the first has at most that many. *)
Definition verify_grouping (found_grouping : list nat) : bool :=
  match found_grouping with
  | first_group :: others =>
      forallb (λ g, g =? grouping)%nat others && (first_group <=? grouping)%nat
  | [] => true
  end.

(** [iss >> tf] for an [int]: skips white space, reads an optional sign and
    the digits that follow, with or without separators.  The extraction
    fails when there is no digit, when a separator has no digit before it,
    when separators were read and the groups are not groups of three, and
    when the value does not fit an [int]. *)
Definition read_int (s : string) : option (Z * string) :=
  let s1 := skipws s in
  let '(negative, s2) :=
    match s1 with
    | String "-"%char r => (true, r)
    | String "+"%char r => (false, r)
    | _ => (false, s1)
    end in
  let '(testfail, result, sep_pos, found_grouping, rest) := scan_int s2 0 0 [] in
  let no_digit := (sep_pos =? 0)%nat && bool_decide (found_grouping = []) in
  let grouping_ok :=
    bool_decide (found_grouping = []) || verify_grouping (found_grouping ++ [sep_pos]) in
  let value := if negative then - result else result in
  if negb testfail && negb no_digit && grouping_ok
     && bool_decide (INT_MIN ≤ value ≤ INT_MAX)
  then Some (value, rest)
  else None.

(** The extraction that decides whether a line is a record:
    [iss >> word_str >> tf >> df] in bpe.cpp:128, [iss >> word_str] in
    bpes/bpe.cpp:151 and bpe_sa.cpp:235 (there the model fills [tf] and [df],
    which those files do not have, with 1). *)
Definition parse_record (v : Variant) (line : string) : option (string * Z * Z) :=
  match v with
  | bpe_cpp =>
      '(word_str, r1) ← read_string line;
      '(tf, r2) ← read_int r1;
      '(df, _) ← read_int r2;
      Some (word_str, tf, df)
  | bpes_bpe_cpp | bpe_sa_cpp =>
      '(word_str, _) ← read_string line;
      Some (word_str, 1, 1)
  end.

(** [std::wstring_convert<std::codecvt_utf8<wchar_t>>], which is not part of
    the repository: [code_points w] is the list of [to_bytes(wc)] for the wide
    characters [wc] of [from_bytes(w)], and [None] when [from_bytes] throws.
    The encoding of a code point has at least one byte. *)
Class Codecvt := {
  code_points : string → option (list string);
  code_points_nonempty w cps :
    code_points w = Some cps → Forall (λ t, t ≠ EmptyString) cps;
}.

(** The converter restricted to ASCII words (one byte per code point), used
    to run the model on ASCII input; it declines every other word. *)
Fixpoint ascii_code_points (w : string) : option (list string) :=
  match w with
  | EmptyString => Some []
  | String c w' =>
      if (nat_of_ascii c <? 128)%nat
      then cps ← ascii_code_points w'; Some (String c EmptyString :: cps)
      else None
  end.

Lemma ascii_code_points_nonempty w cps :
  ascii_code_points w = Some cps → Forall (λ t, t ≠ EmptyString) cps.
Proof.
  revert cps. induction w as [|c w IH]; intros cps; simpl.
  - intros [= <-]. constructor.
  - destruct (nat_of_ascii c <? 128)%nat; [|done].
    destruct (ascii_code_points w) as [l|]; [|done].
    intros [= <-]. constructor; [done|]. by apply IH.
Defined.

Definition ascii_codecvt : Codecvt :=
  {| code_points := ascii_code_points;
     code_points_nonempty := ascii_code_points_nonempty |}.

(** What the loader has produced so far: the symbol table, [words] and the
    lines reported on [std::cerr] (the offending line, without the fixed
    text printed before it). *)
Record Loaded := mkLoaded {
  l_table : SymbolTable;
  l_words : list WordEntry;
  l_cerr : list string;
}.

(** [for (wc : wide_word) entry.tokens.push_back(get_token_id(to_bytes(wc)))] *)
Fixpoint intern_all (cps : list string) (t : SymbolTable) : list Z * SymbolTable :=
  match cps with
  | [] => ([], t)
  | token :: rest =>
      let '(token_id, t1) := get_token_id token t in
      let '(ids, t2) := intern_all rest t1 in
      (token_id :: ids, t2)
  end.

Section Loader.
Context `{Codecvt}.

(** The body of [while (getline(infile, line))]. *)
Definition load_line (v : Variant) (acc : Loaded) (line : string) : result Loaded :=
  if decide (line = EmptyString) then Ok acc
  else
    match parse_record v line with
    | None => Ok (mkLoaded (l_table acc) (l_words acc) (l_cerr acc ++ [line]))
    | Some (word_str, tf, df) =>
        cps ← of_option (code_points word_str) DecodeFailure;
        let '(tokens, t') := intern_all cps (l_table acc) in
        let entry := mkWordEntry word_str tokens (compute_pairs tokens) tf df in
        Ok (mkLoaded t' (l_words acc ++ [entry]) (l_cerr acc))
    end.

Fixpoint load_lines (v : Variant) (acc : Loaded) (lines : list string)
    : result Loaded :=
  match lines with
  | [] => Ok acc
  | line :: rest => acc' ← load_line v acc line; load_lines v acc' rest
  end.

Definition load (v : Variant) (lines : list string) : result Loaded :=
  load_lines v (mkLoaded empty_table [] []) lines.

End Loader.

(** ** [main] *)

(** The two output files, what went to [std::cerr], and the exit status.
    The files are kept as the values streamed into them, column by column;
    how a number is spelled in the file is not modelled. *)
Record Output := mkOutput {
  tokens_file : list (string * Z);
  merges_file : list (string * string * string * Z);
  cerr : list string;
  exit_status : Z;
}.

Definition EXIT_SUCCESS : Z := 0.

(** [corpus += w.original + "#"] (bpe_sa.cpp:257-260) *)
Definition corpus_of (ws : list WordEntry) : string :=
  foldl (λ corpus w, (corpus ++ original w ++ "#")%string) EmptyString ws.

(** [final_frequencies[token_id] += word.tf] over all tokens of all words
    (bpe.cpp:229-234); the values of the map are [int]s. *)
Definition add_frequency (m : gmap Z Z) (token_id : Z) (weight : Z) : gmap Z Z :=
  <[token_id := int_add (default 0 (m !! token_id)) weight]> m.

Definition final_frequencies_tf (ws : list WordEntry) : gmap Z Z :=
  foldl (λ m w, foldl (λ m token_id, add_frequency m token_id (tf w)) m (tokens w))
        ∅ ws.

(** [final_frequencies] of bpes/bpe.cpp:254-263 and bpe_sa.cpp:342-347: the
    reported count of every string of [id_to_token], kept when positive. *)
Fixpoint final_frequencies_oracle (count : string → result Z)
    (token_id : nat) (strs : list string) (m : gmap Z Z) : result (gmap Z Z) :=
  match strs with
  | [] => Ok m
  | token_str :: rest =>
      freq ← count token_str;
      final_frequencies_oracle count (S token_id) rest
        (if decide (freq > 0) then <[Z.of_nat token_id := freq]> m else m)
  end.

Section Main.
Context `{HashOrder} `{Codecvt}.

Definition final_frequencies (v : Variant) (s : Trainer) : result (gmap Z Z) :=
  match v with
  | bpe_cpp => Ok (final_frequencies_tf (words s))
  | bpes_bpe_cpp =>
      final_frequencies_oracle
        (λ token_str,
           Ok (foldl (λ freq w, freq + count_occurrences (original w) token_str)
                     0 (words s)))
        0 (id_to_token (table s)) ∅
  | bpe_sa_cpp =>
      final_frequencies_oracle (Sa.countOccurrences (automaton s))
        0 (id_to_token (table s)) ∅
  end.

(** The state in which the merge loop is entered. *)
Definition initial_trainer (v : Variant) (l : Loaded) : result Trainer :=
  sa ← match v with
       | bpe_sa_cpp => Sa.SuffixAutomaton_ctor (corpus_of (l_words l))
       | bpe_cpp | bpes_bpe_cpp => Ok (Sa.mkSuffixAutomaton [] 0)
       end;
  Ok (mkTrainer (l_table l) (l_words l) (build_index 0 (l_words l) ∅) [] sa).

(** [main] from the first [getline] on, for an input file that could be
    opened and output files that could be created.  [fuel] bounds the
    number of passes of the merge loop. *)
Definition main (v : Variant) (fuel : nat) (lines : list string) : result Output :=
  l ← load v lines;
  s0 ← initial_trainer v l;
  s ← merge_loop fuel v s0;
  ff ← final_frequencies v s;
  toks ← mapM (λ kv : Z * Z,
                 str ← of_option (token_string (table s) kv.1) OutOfBounds;
                 Ok (str, kv.2))
              (iter_freqs ff);
  rules ← mapM (λ rule,
                 a ← of_option (token_string (table s) (merge_pair rule).1) OutOfBounds;
                 b ← of_option (token_string (table s) (merge_pair rule).2) OutOfBounds;
                 c ← of_option (token_string (table s) (new_token rule)) OutOfBounds;
                 Ok (a, b, c, frequency rule))
               (merges s);
  Ok (mkOutput toks rules (l_cerr l) EXIT_SUCCESS).

End Main.

(** ** The linked-list variant (bpes/bpe2.cpp)

    Nodes live in a store addressed by [nat]; a [Node*] is an [option nat]
    ([None] is [nullptr]) where the program tests it and a [nat] where it
    cannot be null.  Reading an address that holds no node is a fault. *)
Module Bpe2.

Record Node := mkNode {
  token : Z;
  prev : option nat;
  next : option nat;
  removed : bool;
}.

Definition set_token (v : Z) (n : Node) := mkNode v (prev n) (next n) (removed n).
Definition set_prev (v : option nat) (n : Node) := mkNode (token n) v (next n) (removed n).
Definition set_next (v : option nat) (n : Node) := mkNode (token n) (prev n) v (removed n).
Definition set_removed (v : bool) (n : Node) := mkNode (token n) (prev n) (next n) v.

(** The store with the globals [head] and [tail]. *)
Record Heap := mkHeap {
  nodes : gmap nat Node;
  fresh : nat;
  head : option nat;
  tail : option nat;
}.

Definition deref (h : gmap nat Node) (a : nat) : result Node :=
  of_option (h !! a) OutOfBounds.

Definition store (h : gmap nat Node) (a : nat) (f : Node → Node)
    : result (gmap nat Node) :=
  n ← deref h a; Ok (<[a := f n]> h).

(** [new Node(t)] followed by [appendNode] (bpe2.cpp:27). *)
Definition appendNode (t : Z) (h : Heap) : result Heap :=
  let node := fresh h in
  let nodes1 := <[node := mkNode t None None false]> (nodes h) in
  match head h with
  | None => Ok (mkHeap nodes1 (S node) (Some node) (Some node))
  | Some _ =>
      tl ← of_option (tail h) OutOfBounds;
      nodes2 ← store nodes1 tl (set_next (Some node));
      nodes3 ← store nodes2 node (set_prev (Some tl));
      Ok (mkHeap nodes3 (S node) (head h) (Some node))
  end.

(** [struct PairData] *)
Record PairData := mkPairData {
  freq : Z;
  occ : list nat;
}.

Abbreviation PairMap := (gmap Pair PairData).

(** [addOccurrence] (bpe2.cpp:72) *)
Definition addOccurrence (pmap : PairMap) (p : Pair) (node : nat) : PairMap :=
  let occ' := occ (default (mkPairData 0 []) (pmap !! p)) ++ [node] in
  <[p := mkPairData (Z.of_nat (length occ')) occ']> pmap.

(** [removeOccurrence] (bpe2.cpp:78) *)
Definition removeOccurrence (pmap : PairMap) (p : Pair) (node : nat) : PairMap :=
  match pmap !! p with
  | Some d =>
      let vec := filter (λ x, x ≠ node) (occ d) in
      if decide (vec = []) then delete p pmap
      else <[p := mkPairData (Z.of_nat (length vec)) vec]> pmap
  | None => pmap
  end.

(** The loop of [buildPairMap] (bpe2.cpp:92-99). *)
Fixpoint buildPairMap_from (fuel : nat) (h : gmap nat Node) (cur : option nat)
    (pmap : PairMap) : result PairMap :=
  match cur with
  | None => Ok pmap
  | Some c =>
      n ← deref h c;
      match next n with
      | None => Ok pmap
      | Some nx =>
          nn ← deref h nx;
          let pmap' :=
            if decide (token n ≠ 0 ∧ token nn ≠ 0)
            then addOccurrence pmap (token n, token nn) c
            else pmap in
          match fuel with
          | O => Err OutOfFuel
          | S fuel' => buildPairMap_from fuel' h (Some nx) pmap'
          end
      end
  end.

(** [buildPairMap] (bpe2.cpp:89); the list has at most [fresh h] nodes. *)
Definition buildPairMap (h : Heap) : result PairMap :=
  buildPairMap_from (fresh h) (nodes h) (head h) ∅.

(** The variables of [main]. *)
Record State := mkState {
  heap : Heap;
  table : SymbolTable;
  pairMap : PairMap;
}.

(** Lines 115-116: the spacer takes identifier 0. *)
Definition spacer_table : SymbolTable :=
  mkSymbolTable {[ "<spacer>"%string := 0 ]} ["<spacer>"%string].

(** [for (char c : line) appendNode(new Node(getTokenId(string(1, c))))] *)
Fixpoint append_chars (line : string) (st : Heap * SymbolTable)
    : result (Heap * SymbolTable) :=
  match line with
  | EmptyString => Ok st
  | String c line' =>
      let '(tid, t') := get_token_id (String c EmptyString) st.2 in
      h' ← appendNode tid st.1;
      append_chars line' (h', t')
  end.

(** The reading loop (bpe2.cpp:123-136): the characters of every non-empty
    line, then a spacer node. *)
Fixpoint read_lines (lines : list string) (st : Heap * SymbolTable)
    : result (Heap * SymbolTable) :=
  match lines with
  | [] => Ok st
  | line :: rest =>
      if decide (line = EmptyString) then read_lines rest st
      else
        '(h1, t1) ← append_chars line st;
        h2 ← appendNode 0 h1;
        read_lines rest (h2, t1)
  end.

(** Lines 139-145: the trailing spacer is unlinked and deleted. *)
Definition drop_last_spacer (h : Heap) : result Heap :=
  match tail h with
  | None => Ok h
  | Some tl =>
      n ← deref (nodes h) tl;
      if decide (token n = 0) then
        match prev n with
        | Some tl' =>
            nodes1 ← store (nodes h) tl' (set_next None);
            Ok (mkHeap (delete tl nodes1) (fresh h) (head h) (Some tl'))
        | None => Ok (mkHeap (delete tl (nodes h)) (fresh h) None None)
        end
      else Ok h
  end.

(** The state in which the merge loop is entered. *)
Definition initial_state (lines : list string) : result State :=
  '(h1, t1) ← read_lines lines (mkHeap ∅ 0 None None, spacer_table);
  h2 ← drop_last_spacer h1;
  pmap ← buildPairMap h2;
  Ok (mkState h2 t1 pmap).

(** The search for the most frequent pair (bpe2.cpp:154-162). *)
Fixpoint find_best (entries : list (Pair * PairData)) (bestPair : Pair)
    (bestFreq : Z) : Pair * Z :=
  match entries with
  | [] => (bestPair, bestFreq)
  | (p, d) :: rest =>
      if decide (freq d > bestFreq) then find_best rest p (freq d)
      else find_best rest bestPair bestFreq
  end.

(** The body of [for (Node* left : occList)] (bpe2.cpp:180-212). *)
Definition merge_occurrence (bestPair : Pair) (newTokenId : Z)
    (st : gmap nat Node * PairMap) (left_ : nat) : result (gmap nat Node * PairMap) :=
  let '(h, pmap) := st in
  l ← deref h left_;
  if removed l then Ok st else
  match next l with
  | None => Ok st
  | Some right_ =>
      r ← deref h right_;
      if removed r then Ok st else
      if decide (token l ≠ bestPair.1 ∨ token r ≠ bestPair.2) then Ok st else
      h1 ← store h left_ (set_token newTokenId);
      let after := next r in
      h2 ← store h1 left_ (set_next after);
      h3 ← match after with
           | Some a => store h2 a (set_prev (Some left_))
           | None => Ok h2
           end;
      h4 ← store h3 right_ (set_removed true);
      l ← deref h4 left_;
      pmap1 ←
        match prev l with
        | Some pv =>
            pn ← deref h4 pv;
            if negb (removed pn) && bool_decide (token pn ≠ 0)
               && bool_decide (token l ≠ 0)
            then
              let oldPair := (token pn, bestPair.1) in
              let pmap' := removeOccurrence pmap oldPair pv in
              let newPair := (token pn, newTokenId) in
              Ok (addOccurrence pmap' newPair pv)
            else Ok pmap
        | None => Ok pmap
        end;
      pmap2 ←
        match next l with
        | Some nx =>
            nn ← deref h4 nx;
            if negb (removed nn) && bool_decide (token l ≠ 0)
               && bool_decide (token nn ≠ 0)
            then
              let oldPair := (bestPair.2, token nn) in
              let pmap' := removeOccurrence pmap1 oldPair right_ in
              let newPair := (newTokenId, token nn) in
              Ok (addOccurrence pmap' newPair left_)
            else Ok pmap1
        | None => Ok pmap1
        end;
      Ok (h4, pmap2)
  end.

Fixpoint merge_occurrences (bestPair : Pair) (newTokenId : Z)
    (occList : list nat) (st : gmap nat Node * PairMap)
    : result (gmap nat Node * PairMap) :=
  match occList with
  | [] => Ok st
  | left_ :: rest =>
      st' ← merge_occurrence bestPair newTokenId st left_;
      merge_occurrences bestPair newTokenId rest st'
  end.

Inductive Step :=
  | Merged (s : State)
  | Finished.

Section Loop.
(** The order in which [for (auto &entry : pairMap)] visits the map. *)
Variable iter_pairMap : PairMap → list (Pair * PairData).
Hypothesis iter_pairMap_perm : ∀ m, iter_pairMap m ≡ₚ map_to_list m.

Definition select (s : State) : Pair * Z :=
  find_best (iter_pairMap (pairMap s)) (-1, -1) 0.

(** One pass through the body of [while(true)] (bpe2.cpp:153-216). *)
Definition iteration (s : State) : result Step :=
  let '(bestPair, bestFreq) := select s in
  if decide (bestFreq < 2) then Ok Finished
  else
    first_str ← of_option (token_string (table s) bestPair.1) OutOfBounds;
    second_str ← of_option (token_string (table s) bestPair.2) OutOfBounds;
    let newTokenStr := (first_str ++ second_str)%string in
    let '(newTokenId, table') := get_token_id newTokenStr (table s) in
    let occList := occ (default (mkPairData 0 []) (pairMap s !! bestPair)) in
    '(nodes', pmap') ←
      merge_occurrences bestPair newTokenId occList (nodes (heap s), pairMap s);
    Ok (Merged (mkState (mkHeap nodes' (fresh (heap s)) (head (heap s)) (tail (heap s)))
                        table' (delete bestPair pmap'))).

Fixpoint merge_loop (fuel : nat) (s : State) : result State :=
  match fuel with
  | O => Err OutOfFuel
  | S fuel' =>
      r ← iteration s;
      match r with
      | Finished => Ok s
      | Merged s' => merge_loop fuel' s'
      end
  end.

(** The final walk over the list (bpe2.cpp:220-228), as the list of
    token identifiers met. *)
Fixpoint token_sequence (fuel : nat) (h : gmap nat Node) (cur : option nat)
    : result (list Z) :=
  match cur with
  | None => Ok []
  | Some c =>
      n ← deref h c;
      match fuel with
      | O => Err OutOfFuel
      | S fuel' => rest ← token_sequence fuel' h (next n); Ok (token n :: rest)
      end
  end.

End Loop.

End Bpe2.

(** ** Specification vocabulary *)

(** [p] occurs in [tokens] as two adjacent elements. *)
Definition adjacent (p : Pair) (tokens : list Z) : Prop :=
  ∃ l1 l2, tokens = l1 ++ p.1 :: p.2 :: l2.

(** Word [idx] is registered under the key [p] of the pair index. *)
Definition registered (m : gmap Pair (gset nat)) (p : Pair) (idx : nat) : Prop :=
  ∃ X, m !! p = Some X ∧ idx ∈ X.

(** The pair index tracks adjacency: every registration is backed by an
    adjacent occurrence in the current tokens of the word (nothing stale),
    and every adjacent pair of every word is registered (nothing missing). *)
Definition index_tracks (ws : list WordEntry) (m : gmap Pair (gset nat)) : Prop :=
  (∀ p idx, registered m p idx →
     ∃ w, ws !! idx = Some w ∧ adjacent p (tokens w))
  ∧ (∀ idx w p, ws !! idx = Some w → adjacent p (tokens w) → registered m p idx).

(** No key of the index is mapped to the empty set. *)
Definition no_empty_key (m : gmap Pair (gset nat)) : Prop :=
  ∀ p X, m !! p = Some X → X ≠ ∅.

(** The index registers word [j] under [q] exactly when [q] is in the
    cached [pairSet] of the word. *)
Definition pairs_tracked (ws : list WordEntry) (m : gmap Pair (gset nat)) : Prop :=
  ∀ q j, registered m q j ↔ ∃ w, ws !! j = Some w ∧ q ∈ pairSet w.

(** A word after the merge of [best_pair] into [new_token_id]. *)
Definition merge_word (best_pair : Pair) (new_token_id : Z) (w : WordEntry) : WordEntry :=
  let new_tokens := merge_pair_in_word (tokens w) best_pair new_token_id in
  mkWordEntry (original w) new_tokens (compute_pairs new_tokens) (tf w) (df w).

(** The sum of a list of integers. *)
Definition Zsum (l : list Z) : Z := foldr Z.add 0 l.

(** The weighted frequency of a pair by a full rescan: the sum, over the
    words that contain the pair, of its number of adjacent occurrences in
    the word times the weight of the word. *)
Definition weighted_frequency (v : Variant) (ws : list WordEntry) (p : Pair) : Z :=
  Zsum ((λ w, count_occurrences_in_word (tokens w) p * word_weight v w)
          <$> filter (λ w, p ∈ compute_pairs (tokens w)) ws).

(** The weighted frequency as an [int] holds it. *)
Definition int_frequency (v : Variant) (ws : list WordEntry) (p : Pair) : Z :=
  wrap_int (weighted_frequency v ws p).

(** The weighted frequency of every key of the index fits an [int]. *)
Definition frequencies_fit (v : Variant) (s : Trainer) : Prop :=
  ∀ p, p ∈ dom (pair_to_word_indices s) →
    INT_MIN ≤ weighted_frequency v (words s) p ≤ INT_MAX.

(** A bound on the size of every weighted frequency: the tokens of the
    corpus, each counted with the size of the weight of its word. *)
Definition corpus_mass (v : Variant) (ws : list WordEntry) : Z :=
  Zsum ((λ w, Z.of_nat (length (tokens w)) * Z.abs (word_weight v w)) <$> ws).

(** What word [i] adds to the frequency of [p]. *)
Definition contribution (v : Variant) (ws : list WordEntry) (p : Pair) (i : nat) : Z :=
  from_option (λ w, count_occurrences_in_word (tokens w) p * word_weight v w) 0
              (ws !! i).

(** The number of tokens of the whole corpus. *)
Definition total_tokens (ws : list WordEntry) : nat :=
  foldr (λ w acc, (length (tokens w) + acc)%nat) 0%nat ws.

(** The set of distinct adjacent pairs of the corpus. *)
Definition distinct_pairs (ws : list WordEntry) : gset Pair :=
  foldr (λ w acc, compute_pairs (tokens w) ∪ acc) ∅ ws.

(** The number of positions of [str] at which [sub] starts. *)
Fixpoint occurrences (str sub : string) : Z :=
  match str with
  | EmptyString => 0
  | String _ str' =>
      (if String.prefix sub str then 1 else 0) + occurrences str' sub
  end.

(** The symbol table maps every interned string to an identifier that maps
    back to it, and holds no empty string. *)
Definition table_ok (t : SymbolTable) : Prop :=
  (∀ str id, token_to_id t !! str = Some id → token_string t id = Some str)
  ∧ Forall (λ str, str ≠ EmptyString) (id_to_token t).

(** Every transition of the automaton leads to a state of the vector. *)
Definition automaton_closed (bound : Z) (st : list Sa.SAState) : Prop :=
  ∀ i s c t, st !! i = Some s → Sa.next s !! c = Some t → 0 ≤ t < bound.

(** The invariant of the merge loop. *)
Record well_formed (v : Variant) (s : Trainer) : Prop := {
  wf_table : table_ok (table s);
  wf_tokens : ∀ idx w, words s !! idx = Some w →
    Forall (λ t, 0 ≤ t < Z.of_nat (length (id_to_token (table s)))) (tokens w);
  wf_pairSet : ∀ idx w, words s !! idx = Some w →
    pairSet w = compute_pairs (tokens w);
  wf_index : index_tracks (words s) (pair_to_word_indices s);
  wf_nonempty : no_empty_key (pair_to_word_indices s);
  wf_automaton : v = bpe_sa_cpp →
    automaton_closed (Z.of_nat (length (Sa.st (automaton s)))) (Sa.st (automaton s))
    ∧ (0 < length (Sa.st (automaton s)))%nat;
}.

Section Reachability.
Context `{HashOrder} `{Codecvt}.

(** [s] is the state of the trainer after some number of complete passes
    through the loop body, started in [s0]. *)
Inductive reachable (v : Variant) (s0 : Trainer) : Trainer → Prop :=
  | reachable_start : reachable v s0 s0
  | reachable_step s s' :
      reachable v s0 s → iteration v s = Ok (Merged s') → reachable v s0 s'.

(** [s] is a state of the merge loop of variant [v] on the input [lines]. *)
Definition trained (v : Variant) (lines : list string) (s : Trainer) : Prop :=
  ∃ l s0, load v lines = Ok l ∧ initial_trainer v l = Ok s0 ∧ reachable v s0 s.

End Reachability.

(** What the loader maintains. *)
Definition loaded_ok (l : Loaded) : Prop :=
  table_ok (l_table l)
  ∧ ∀ w, w ∈ l_words l →
      Forall (λ t, 0 ≤ t < Z.of_nat (length (id_to_token (l_table l)))) (tokens w)
      ∧ pairSet w = compute_pairs (tokens w).

(** The key of the index whose frequency, as the program computes it, is
    the largest, when there is one at or above the floor, is the only one
    with that frequency. *)
Definition no_tie (v : Variant) (s : Trainer) : Prop :=
  ∀ p q, p ∈ dom (pair_to_word_indices s) → q ∈ dom (pair_to_word_indices s) →
    2 ≤ int_frequency v (words s) p →
    int_frequency v (words s) p = int_frequency v (words s) q →
    (∀ r, r ∈ dom (pair_to_word_indices s) →
       int_frequency v (words s) r ≤ int_frequency v (words s) p) →
    p = q.

(** bpe2.cpp: no key of the pair map has the spacer as a component. *)
Definition spacer_free (pmap : Bpe2.PairMap) : Prop :=
  ∀ p d, pmap !! p = Some d → p.1 ≠ 0 ∧ p.2 ≠ 0.

(** bpe2.cpp: every node that carries the spacer token in [h] is still in
    [h'], with the spacer token and its [removed] flag as before. *)
Definition spacers_untouched (h h' : gmap nat Bpe2.Node) : Prop :=
  ∀ a n, h !! a = Some n → Bpe2.token n = 0 →
    ∃ n', h' !! a = Some n' ∧ Bpe2.token n' = 0 ∧ Bpe2.removed n' = Bpe2.removed n.

(** bpe2.cpp: the states of the merge loop started in [s0]. *)
Inductive bpe2_reachable (iter_pairMap : Bpe2.PairMap → list (Pair * Bpe2.PairData))
    (s0 : Bpe2.State) : Bpe2.State → Prop :=
  | bpe2_reachable_start : bpe2_reachable iter_pairMap s0 s0
  | bpe2_reachable_step s s' :
      bpe2_reachable iter_pairMap s0 s →
      Bpe2.iteration iter_pairMap s = Ok (Bpe2.Merged s') →
      bpe2_reachable iter_pairMap s0 s'.

(** ** Sample inputs on which the model is run *)

Definition from_ok {A} (dflt : A) (r : result A) : A :=
  match r with
  | Ok a => a
  | Err _ => dflt
  end.

Definition from_merged (dflt : Trainer) (r : result Step) : Trainer :=
  match r with
  | Ok (Merged s) => s
  | _ => dflt
  end.

Definition no_words : Loaded := mkLoaded empty_table [] [].

Definition no_trainer : Trainer :=
  mkTrainer empty_table [] ∅ [] (Sa.mkSuffixAutomaton [] 0).

(** Three records for bpe.cpp; the loaded words, the state in which the loop
    is entered and the state after its first pass, under [canonical_order]. *)
Definition sample_lines : list string :=
  ["abab 1 1"; "ab 2 1"; "ba 1 1"]%string.

Definition sample_loaded : Loaded :=
  Eval vm_compute in from_ok no_words (@load ascii_codecvt bpe_cpp sample_lines).

Definition sample_s0 : Trainer :=
  Eval vm_compute in
    from_ok no_trainer (@initial_trainer canonical_order bpe_cpp sample_loaded).

Definition sample_s1 : Trainer :=
  Eval vm_compute in from_merged no_trainer (@iteration canonical_order bpe_cpp sample_s0).

(** The single word [aaaa] with weight 1, for each of the three trainers. *)
Definition aaaa_lines : list string := ["aaaa 1 1"%string].

Definition aaaa_loaded : Loaded :=
  Eval vm_compute in from_ok no_words (@load ascii_codecvt bpe_cpp aaaa_lines).

Definition aaaa_s0_bpe : Trainer :=
  Eval vm_compute in
    from_ok no_trainer (@initial_trainer canonical_order bpe_cpp aaaa_loaded).

Definition aaaa_s0_rescan : Trainer :=
  Eval vm_compute in
    from_ok no_trainer (@initial_trainer canonical_order bpes_bpe_cpp aaaa_loaded).

Definition aaaa_s0_sa : Trainer :=
  Eval vm_compute in
    from_ok no_trainer (@initial_trainer canonical_order bpe_sa_cpp aaaa_loaded).

Definition aaaa_s0 (v : Variant) : Trainer :=
  match v with
  | bpe_cpp => aaaa_s0_bpe
  | bpes_bpe_cpp => aaaa_s0_rescan
  | bpe_sa_cpp => aaaa_s0_sa
  end.

Definition aaaa_s1_bpe : Trainer :=
  Eval vm_compute in
    from_merged no_trainer (@iteration canonical_order bpe_cpp aaaa_s0_bpe).

Definition aaaa_s1_rescan : Trainer :=
  Eval vm_compute in
    from_merged no_trainer (@iteration canonical_order bpes_bpe_cpp aaaa_s0_rescan).

Definition aaaa_s1_sa : Trainer :=
  Eval vm_compute in
    from_merged no_trainer (@iteration canonical_order bpe_sa_cpp aaaa_s0_sa).

Definition aaaa_s1 (v : Variant) : Trainer :=
  match v with
  | bpe_cpp => aaaa_s1_bpe
  | bpes_bpe_cpp => aaaa_s1_rescan
  | bpe_sa_cpp => aaaa_s1_sa
  end.

(** The word [aaaa] with [tf = 2] for bpe.cpp, and its final state. *)
Definition aaaa_twice_lines : list string := ["aaaa 2 1"%string].

Definition aaaa_twice_loaded : Loaded :=
  Eval vm_compute in from_ok no_words (@load ascii_codecvt bpe_cpp aaaa_twice_lines).

Definition aaaa_twice_s0 : Trainer :=
  Eval vm_compute in
    from_ok no_trainer (@initial_trainer canonical_order bpe_cpp aaaa_twice_loaded).

Definition aaaa_twice_final : Trainer :=
  Eval vm_compute in
    from_ok no_trainer (@merge_loop canonical_order 5 bpe_cpp aaaa_twice_s0).

(** Records of bpe.cpp whose [tf] add up to more than an [int] holds: the
    pair (a,b) has the weighted frequency 4000000000, the pair (c,d) has 3. *)
Definition big_lines : list string :=
  ["ab 2000000000 1"; "ab 2000000000 1"; "cd 3 1"]%string.

Definition big_loaded : Loaded :=
  Eval vm_compute in from_ok no_words (@load ascii_codecvt bpe_cpp big_lines).

Definition big_s0 : Trainer :=
  Eval vm_compute in
    from_ok no_trainer (@initial_trainer canonical_order bpe_cpp big_loaded).

Definition big_s1 : Trainer :=
  Eval vm_compute in
    from_merged no_trainer (@iteration canonical_order bpe_cpp big_s0).

(** The same without the third record. *)
Definition big_pair_lines : list string :=
  ["ab 2000000000 1"; "ab 2000000000 1"]%string.

Definition big_pair_loaded : Loaded :=
  Eval vm_compute in from_ok no_words (@load ascii_codecvt bpe_cpp big_pair_lines).

Definition big_pair_s0 : Trainer :=
  Eval vm_compute in
    from_ok no_trainer (@initial_trainer canonical_order bpe_cpp big_pair_loaded).

(** Records whose [tf] add up to 2^32 + 2. *)
Definition wrapped_lines : list string :=
  ["ab 2147483647 1"; "ab 2147483647 1"; "ab 4 1"]%string.

Definition wrapped_loaded : Loaded :=
  Eval vm_compute in from_ok no_words (@load ascii_codecvt bpe_cpp wrapped_lines).

Definition wrapped_s0 : Trainer :=
  Eval vm_compute in
    from_ok no_trainer (@initial_trainer canonical_order bpe_cpp wrapped_loaded).

Definition wrapped_s1 : Trainer :=
  Eval vm_compute in
    from_merged no_trainer (@iteration canonical_order bpe_cpp wrapped_s0).

(** A record whose word is the byte 255, which no UTF-8 sequence contains. *)
Definition invalid_utf8_lines : list string :=
  [String (ascii_of_nat 255) " 1 1"]%string.

(** The record [ab 5 1] for bpe.cpp. *)
Definition ab_lines : list string := ["ab 5 1"%string].

Definition ab_loaded : Loaded :=
  Eval vm_compute in from_ok no_words (@load ascii_codecvt bpe_cpp ab_lines).

Definition ab_s0 : Trainer :=
  Eval vm_compute in
    from_ok no_trainer (@initial_trainer canonical_order bpe_cpp ab_loaded).

Definition ab_s1 : Trainer :=
  Eval vm_compute in from_merged no_trainer (@iteration canonical_order bpe_cpp ab_s0).

(** The file with the single line [aaaa] for bpe_sa.cpp, and its final
    state. *)
Definition aaaa_sa_loaded : Loaded :=
  Eval vm_compute in from_ok no_words (@load ascii_codecvt bpe_sa_cpp ["aaaa"%string]).

Definition aaaa_sa_s0 : Trainer :=
  Eval vm_compute in
    from_ok no_trainer (@initial_trainer canonical_order bpe_sa_cpp aaaa_sa_loaded).

Definition aaaa_sa_final : Trainer :=
  Eval vm_compute in
    from_ok no_trainer (@merge_loop canonical_order 10 bpe_sa_cpp aaaa_sa_s0).

(** Four lines for bpe2.cpp; the state in which its loop is entered and the
    state after its first pass, enumerating the pair map by [map_to_list]. *)
Definition bpe2_sample_lines : list string :=
  ["abab"; "ab"; ""; "aaa"]%string.

Definition bpe2_no_state : Bpe2.State :=
  Bpe2.mkState (Bpe2.mkHeap ∅ 0 None None) empty_table ∅.

Definition bpe2_sample_s0 : Bpe2.State :=
  Eval vm_compute in from_ok bpe2_no_state (Bpe2.initial_state bpe2_sample_lines).

Definition bpe2_sample_s1 : Bpe2.State :=
  Eval vm_compute in
    match Bpe2.iteration map_to_list bpe2_sample_s0 with
    | Ok (Bpe2.Merged s) => s
    | _ => bpe2_no_state
    end.


(** ** Further specification vocabulary *)

(** The concatenation of a list of strings. *)
Definition spell (strs : list string) : string :=
  foldr String.append EmptyString strs.

(** The string a token vector stands for: the concatenation of the strings
    of its tokens, as the output loops print them ([id_to_token[token]] for
    every token in turn). *)
Fixpoint render (t : SymbolTable) (tokens : list Z) : option string :=
  match tokens with
  | [] => Some EmptyString
  | id :: rest =>
      s ← token_string t id; r ← render t rest; Some (s ++ r)%string
  end.

(** The inverse of a merge: every [new_token_id] is replaced by the two
    tokens of [target_pair]. *)
Definition unmerge (target_pair : Pair) (new_token_id : Z) (tokens : list Z) : list Z :=
  flat_map (λ t, if decide (t = new_token_id) then [target_pair.1; target_pair.2] else [t])
           tokens.

(** The number of elements of [tokens] equal to [t]. *)
Definition token_count (t : Z) (tokens : list Z) : Z :=
  Z.of_nat (length (filter (λ x, x = t) tokens)).

(** The two halves of the symbol table are inverse to each other. *)
Definition table_inverse (t : SymbolTable) : Prop :=
  ∀ str id, token_to_id t !! str = Some id ↔ token_string t id = Some str.

(** Every rule of [rules] names identifiers of the table, and the string of
    its new token is the concatenation of the strings of its pair. *)
Definition rules_spelled (t : SymbolTable) (rules : list MergeRule) : Prop :=
  ∀ rule, rule ∈ rules →
    ∃ a b, token_string t (merge_pair rule).1 = Some a
           ∧ token_string t (merge_pair rule).2 = Some b
           ∧ token_string t (new_token rule) = Some (a ++ b)%string.

(** The enumeration order opposite to [canonical_order]. *)
Definition reversed_order : HashOrder :=
  {| iter_index := λ m, reverse (map_to_list m);
     iter_index_perm := λ m, reverse_Permutation (map_to_list m);
     iter_words := λ X, reverse (elements X);
     iter_words_perm := λ X, reverse_Permutation (elements X);
     iter_pairs := λ X, reverse (elements X);
     iter_pairs_perm := λ X, reverse_Permutation (elements X);
     iter_freqs := λ m, reverse (map_to_list m);
     iter_freqs_perm := λ m, reverse_Permutation (map_to_list m) |}.

(** Every identifier of [t] stands for the same string in [t']. *)
Definition table_extends (t t' : SymbolTable) : Prop :=
  ∀ id str, token_string t id = Some str → token_string t' id = Some str.

(** The words of [ws] as the loader tokenises them: one token for every code
    point of the word, in order. *)
Definition tokenised `{Codecvt} (t : SymbolTable) (ws : list WordEntry) : Prop :=
  ∀ w, w ∈ ws →
    ∃ cps, code_points (original w) = Some cps
           ∧ token_string t <$> tokens w = Some <$> cps.

(** The words of [ws] read as the words of the input: the strings of the
    tokens of a word, concatenated, are the code points of the word,
    concatenated. *)
Definition spelled `{Codecvt} (t : SymbolTable) (ws : list WordEntry) : Prop :=
  ∀ idx w, ws !! idx = Some w →
    ∃ cps, code_points (original w) = Some cps
           ∧ render t (tokens w) = Some (spell cps).

(** Three lines for bpes/bpe.cpp; the loaded words, the state in which the
    loop is entered and the state after its first pass, under
    [canonical_order]. *)
Definition rescan_lines : list string := ["abab"; "ab"; "ba"]%string.

Definition rescan_loaded : Loaded :=
  Eval vm_compute in from_ok no_words (@load ascii_codecvt bpes_bpe_cpp rescan_lines).

Definition rescan_s0 : Trainer :=
  Eval vm_compute in
    from_ok no_trainer (@initial_trainer canonical_order bpes_bpe_cpp rescan_loaded).

Definition rescan_s1 : Trainer :=
  Eval vm_compute in
    from_merged no_trainer (@iteration canonical_order bpes_bpe_cpp rescan_s0).

(** Two records for bpe.cpp in which a word has two pairs and a pair
    occurs in two words, and the states of the run under
    [canonical_order]. *)
Definition order_lines : list string := ["abc 5 1"; "bca 2 1"]%string.

Definition order_loaded : Loaded :=
  Eval vm_compute in from_ok no_words (@load ascii_codecvt bpe_cpp order_lines).

Definition order_s0 : Trainer :=
  Eval vm_compute in
    from_ok no_trainer (@initial_trainer canonical_order bpe_cpp order_loaded).

Definition order_s1 : Trainer :=
  Eval vm_compute in
    from_merged no_trainer (@iteration canonical_order bpe_cpp order_s0).

Definition order_s2 : Trainer :=
  Eval vm_compute in
    from_merged no_trainer (@iteration canonical_order bpe_cpp order_s1).

Definition order_s3 : Trainer :=
  Eval vm_compute in
    from_merged no_trainer (@iteration canonical_order bpe_cpp order_s2).


(** ** bpe2.cpp: the linked list *)

(** The nodes at [addrs], in this order, are linked into a list whose first
    node has [p] as its [prev]: each address holds a node that is not marked
    removed, carries its token of [toks], and has its two neighbours as
    [prev] and [next]; the last node has no [next]. *)
Fixpoint dll (h : gmap nat Bpe2.Node) (p : option nat) (addrs : list nat)
    (toks : list Z) : Prop :=
  match addrs, toks with
  | [], [] => True
  | a :: addrs', t :: toks' =>
      ∃ n, h !! a = Some n ∧ Bpe2.token n = t ∧ Bpe2.removed n = false
           ∧ Bpe2.prev n = p ∧ Bpe2.next n = head addrs'
           ∧ dll h (Some a) addrs' toks'
  | _, _ => False
  end.

(** The characters of a line, each as a string of its own
    ([string s(1, c)] in bpe2.cpp:128). *)
Fixpoint chars (line : string) : list string :=
  match line with
  | EmptyString => []
  | String c line' => String c EmptyString :: chars line'
  end.

(** The strings of the words, with the string of the spacer between two
    consecutive words. *)
Fixpoint spaced (ws : list (list string)) : list string :=
  match ws with
  | [] => []
  | w :: rest =>
      match rest with
      | [] => w
      | _ :: _ => w ++ "<spacer>"%string :: spaced rest
      end
  end.

(** The final output loop of bpe2.cpp (lines 220-229) on the tokens met: a
    space for the spacer, [id_to_token[token]] for every other token. *)
Fixpoint print_tokens (t : SymbolTable) (toks : list Z) : result string :=
  match toks with
  | [] => Ok EmptyString
  | tok :: rest =>
      s ← (if decide (tok = 0) then Ok " "%string
           else of_option (token_string t tok) OutOfBounds);
      r ← print_tokens t rest;
      Ok (s ++ r)%string
  end.

(** The words of the input, separated by single spaces. *)
Fixpoint words_with_spaces (ws : list string) : string :=
  match ws with
  | [] => EmptyString
  | w :: rest =>
      match rest with
      | [] => w
      | _ :: _ => (w ++ " " ++ words_with_spaces rest)%string
      end
  end.

(** What the reading loop of bpe2.cpp maintains: the allocated nodes are
    exactly the nodes of the list, in the order [addrs], with [head] and
    [tail] at its two ends, and every address in use is below [fresh]. *)
Definition reader_inv (h : Bpe2.Heap) (addrs : list nat) (toks : list Z) : Prop :=
  dll (Bpe2.nodes h) None addrs toks
  ∧ NoDup addrs
  ∧ Bpe2.head h = head addrs
  ∧ Bpe2.tail h = last addrs
  ∧ (∀ a, is_Some (Bpe2.nodes h !! a) ↔ a ∈ addrs)
  ∧ (∀ a, a ∈ addrs → (a < Bpe2.fresh h)%nat).

(** A segment of the list: as [dll], but the [next] of the last node of the
    segment is [q]. *)
Fixpoint dll_seg (h : gmap nat Bpe2.Node) (p : option nat) (addrs : list nat)
    (toks : list Z) (q : option nat) : Prop :=
  match addrs, toks with
  | [], [] => True
  | a :: addrs', t :: toks' =>
      ∃ n, h !! a = Some n ∧ Bpe2.token n = t ∧ Bpe2.removed n = false
           ∧ Bpe2.prev n = p
           ∧ Bpe2.next n = (if addrs' is b :: _ then Some b else q)
           ∧ dll_seg h (Some a) addrs' toks' q
  | _, _ => False
  end.

(** What the merge loop of bpe2.cpp maintains, for the symbol table [t], the
    node store [h], the pair map [pmap] and the list [addrs] of the nodes
    that are linked, with their tokens [toks]: the nodes that are not marked
    removed are exactly the nodes of the list; no pointer of a node and no
    recorded occurrence dangles; every token of a node and of a key of the
    pair map is an identifier of the table; and the spacer keeps the
    identifier 0. *)
Record heap_inv (t : SymbolTable) (h : gmap nat Bpe2.Node) (pmap : Bpe2.PairMap)
    (addrs : list nat) (toks : list Z) : Prop := {
  inv_list : dll h None addrs toks;
  inv_nodup : NoDup addrs;
  inv_live : ∀ a n, h !! a = Some n → Bpe2.removed n = false → a ∈ addrs;
  inv_next : ∀ a n b, h !! a = Some n → Bpe2.next n = Some b → is_Some (h !! b);
  inv_prev : ∀ a n b, h !! a = Some n → Bpe2.prev n = Some b → is_Some (h !! b);
  inv_occ : ∀ p d a, pmap !! p = Some d → a ∈ Bpe2.occ d → is_Some (h !! a);
  inv_keys : ∀ p d, pmap !! p = Some d →
    is_Some (token_string t p.1) ∧ is_Some (token_string t p.2);
  inv_tokens : ∀ a n, h !! a = Some n → is_Some (token_string t (Bpe2.token n));
  inv_table : table_ok t;
  inv_spacer : token_string t 0 = Some "<spacer>"%string;
}.

Definition bpe2_inv (s : Bpe2.State) (addrs : list nat) (toks : list Z) : Prop :=
  heap_inv (Bpe2.table s) (Bpe2.nodes (Bpe2.heap s)) (Bpe2.pairMap s) addrs toks
  ∧ Bpe2.head (Bpe2.heap s) = head addrs
  ∧ (length addrs ≤ Bpe2.fresh (Bpe2.heap s))%nat.

(** The quantity that every pass of the loop of bpe2.cpp makes smaller. *)
Definition bpe2_measure (s : Bpe2.State) (addrs : list nat) : nat :=
  3 * length addrs + size (Bpe2.pairMap s).

(** The part of [heap_inv] that concerns the pair map. *)
Definition pmap_ok (t : SymbolTable) (h : gmap nat Bpe2.Node) (pmap : Bpe2.PairMap)
    : Prop :=
  (∀ p d a, pmap !! p = Some d → a ∈ Bpe2.occ d → is_Some (h !! a))
  ∧ (∀ p d, pmap !! p = Some d →
       is_Some (token_string t p.1) ∧ is_Some (token_string t p.2)).

(** One splice of the merge loop of bpe2.cpp, seen on the tokens of the
    list: one adjacent occurrence of the pair [bp] becomes the token [N]. *)
Definition splice (bp : Pair) (N : Z) (toks toks' : list Z) : Prop :=
  ∃ t1 t2, toks = t1 ++ bp.1 :: bp.2 :: t2 ∧ toks' = t1 ++ N :: t2.

(** Every entry of the pair map counts the occurrences it records, and
    records at least one. *)
Definition counts_ok (pmap : Bpe2.PairMap) : Prop :=
  ∀ p d, pmap !! p = Some d →
    Bpe2.occ d ≠ [] ∧ Bpe2.freq d = Z.of_nat (length (Bpe2.occ d)).

(** [n] passes of the loop of bpe2.cpp, the pair map enumerated by
    [map_to_list]. *)
Fixpoint bpe2_passes (n : nat) (s : Bpe2.State) : Bpe2.State :=
  match n with
  | O => s
  | S n' =>
      match Bpe2.iteration map_to_list s with
      | Ok (Bpe2.Merged s') => bpe2_passes n' s'
      | _ => s
      end
  end.

(** One line for bpe2.cpp that holds the text of the spacer twice; the
    state in which the loop is entered and the state after six passes. *)
Definition spacer_text_lines : list string := ["<spacer><spacer>"]%string.

Definition spacer_text_s0 : Bpe2.State :=
  Eval vm_compute in from_ok bpe2_no_state (Bpe2.initial_state spacer_text_lines).

Definition spacer_text_s6 : Bpe2.State :=
  Eval vm_compute in bpe2_passes 6 spacer_text_s0.

(** bpe_sa.cpp: every transition of the state [s] is labelled by a
    character that satisfies [P]. *)
Definition labelled (P : ascii → Prop) (s : Sa.SAState) : Prop :=
  ∀ c t, Sa.next s !! c = Some t → P c.

(** bpe2.cpp: the pair map records the node [x] under the pair [p]. *)
Definition recorded (pmap : Bpe2.PairMap) (p : Pair) (x : nat) : Prop :=
  ∃ d, pmap !! p = Some d ∧ x ∈ Bpe2.occ d.

(** bpe2.cpp: [x] and [y] are two neighbours of the list, neither marked
    removed, with the tokens [tx] and [ty]. *)
Definition neighbours (h : gmap nat Bpe2.Node) (x y : nat) (tx ty : Z) : Prop :=
  ∃ n m, h !! x = Some n ∧ h !! y = Some m ∧ Bpe2.next n = Some y
         ∧ Bpe2.removed n = false ∧ Bpe2.removed m = false
         ∧ Bpe2.token n = tx ∧ Bpe2.token m = ty.

(** bpe2.cpp: every two neighbours without a spacer are recorded, under
    their pair of tokens, at the left node. *)
Definition pairs_recorded (h : gmap nat Bpe2.Node) (pmap : Bpe2.PairMap) : Prop :=
  ∀ x y tx ty, neighbours h x y tx ty → tx ≠ 0 → ty ≠ 0 → recorded pmap (tx, ty) x.

(** bpe2.cpp, inside a pass that merges [bp]: the neighbours with the pair
    [bp] are still to be visited, all others are recorded. *)
Definition pairs_pending (bp : Pair) (rest : list nat) (h : gmap nat Bpe2.Node)
    (pmap : Bpe2.PairMap) : Prop :=
  ∀ x y tx ty, neighbours h x y tx ty → tx ≠ 0 → ty ≠ 0 →
    if decide ((tx, ty) = bp) then x ∈ rest else recorded pmap (tx, ty) x.

(** * Properties *)

(** ** Adjacent pairs of a token vector *)

Lemma adjacent_nil p : ¬ adjacent p [].
Proof. intros (l1 & l2 & Heq). by destruct l1. Qed.

Lemma adjacent_singleton p a : ¬ adjacent p [a].
Proof. intros (l1 & l2 & Heq). destruct l1 as [|? [|? ?]]; discriminate. Qed.

Lemma adjacent_cons p a b l :
  adjacent p (a :: b :: l) ↔ p = (a, b) ∨ adjacent p (b :: l).
Proof.
  destruct p as [x y]. split.
  - intros (l1 & l2 & Heq). destruct l1 as [|c l1]; simpl in *.
    + left. by simplify_eq.
    + right. exists l1, l2. by simplify_eq.
  - intros [[= -> ->] | (l1 & l2 & Heq)].
    + by exists [], l.
    + exists (a :: l1), l2. simpl in *. by rewrite Heq.
Qed.

Lemma count_occurrences_in_word_cons a b l p :
  count_occurrences_in_word (a :: b :: l) p
  = (if decide (a = p.1 ∧ b = p.2) then 1 else 0)
    + count_occurrences_in_word (b :: l) p.
Proof. reflexivity. Qed.

Lemma compute_pairs_cons a b l :
  compute_pairs (a :: b :: l) = {[ (a, b) ]} ∪ compute_pairs (b :: l).
Proof. reflexivity. Qed.

Lemma elem_of_compute_pairs p l : p ∈ compute_pairs l ↔ adjacent p l.
Proof.
  induction l as [|a l IH].
  - simpl. split; [set_solver | intros []%adjacent_nil].
  - destruct l as [|b l].
    + simpl. split; [set_solver | intros []%adjacent_singleton].
    + rewrite adjacent_cons, <- IH, compute_pairs_cons. set_solver.
Qed.

Lemma count_occurrences_in_word_nonneg l p : 0 ≤ count_occurrences_in_word l p.
Proof.
  induction l as [|a l IH]; [done|].
  destruct l as [|b l]; [done|].
  rewrite count_occurrences_in_word_cons. case_decide; lia.
Qed.

Lemma count_occurrences_in_word_pos l p :
  0 < count_occurrences_in_word l p ↔ adjacent p l.
Proof.
  induction l as [|a l IH].
  - simpl. split; [lia | intros []%adjacent_nil].
  - destruct l as [|b l].
    + simpl. split; [lia | intros []%adjacent_singleton].
    + rewrite adjacent_cons, <- IH, count_occurrences_in_word_cons.
      pose proof (count_occurrences_in_word_nonneg (b :: l) p).
      destruct p as [x y]; cbn [fst snd]. case_decide as Hd.
      * destruct Hd as [-> ->]. split; [by left | lia].
      * split; [intros; right; lia | intros [[= ? ?] | ?]; [subst; tauto | lia]].
Qed.

(** ** Merging a pair inside a word *)

Lemma list_ind2 {A} (P : list A → Prop) :
  P [] → (∀ a, P [a]) → (∀ a b l, P l → P (b :: l) → P (a :: b :: l)) →
  ∀ l, P l.
Proof.
  intros Hnil Hone Hstep l.
  cut (P l ∧ ∀ a, P (a :: l)); [tauto|].
  induction l as [|b l [IH1 IH2]]; split; auto.
Qed.

Lemma merge_pair_in_word_cons a b l p n :
  merge_pair_in_word (a :: b :: l) p n
  = if decide (a = p.1 ∧ b = p.2) then n :: merge_pair_in_word l p n
    else a :: merge_pair_in_word (b :: l) p n.
Proof. reflexivity. Qed.

Lemma merge_pair_in_word_head b l p n :
  head (merge_pair_in_word (b :: l) p n) = Some n
  ∨ head (merge_pair_in_word (b :: l) p n) = Some b.
Proof.
  destruct l as [|c l]; [by right|].
  rewrite merge_pair_in_word_cons. case_decide; [by left | by right].
Qed.

Lemma adjacent_cons_head p a l :
  adjacent p (a :: l) → (a = p.1 ∧ head l = Some p.2) ∨ adjacent p l.
Proof.
  destruct l as [|b l]; [intros []%adjacent_singleton|].
  rewrite adjacent_cons. intros [-> | ?]; [by left | by right].
Qed.

(** After the greedy merge of [p] into a token different from both of its
    components, [p] no longer occurs in the word. *)
Lemma merge_pair_in_word_removes l p n :
  n ≠ p.1 → n ≠ p.2 → ¬ adjacent p (merge_pair_in_word l p n).
Proof.
  intros Hn1 Hn2. induction l as [| a | a b l IH1 IH2] using list_ind2.
  - apply adjacent_nil.
  - apply adjacent_singleton.
  - rewrite merge_pair_in_word_cons. case_decide as Hd.
    + intros [[? _] | ?]%adjacent_cons_head; [done | by apply IH1].
    + intros [[-> Hhd] | ?]%adjacent_cons_head; [| by apply IH2].
      destruct (merge_pair_in_word_head b l p n) as [Hh | Hh];
        rewrite Hh in Hhd; simplify_eq; tauto.
Qed.

Lemma merge_pair_in_word_length l p n :
  (length (merge_pair_in_word l p n) ≤ length l)%nat.
Proof.
  induction l as [| a | a b l IH1 IH2] using list_ind2; [done..|].
  rewrite merge_pair_in_word_cons. case_decide; simpl in *; lia.
Qed.

(** A word that contains the pair gets strictly shorter. *)
Lemma merge_pair_in_word_shrinks l p n :
  adjacent p l → (length (merge_pair_in_word l p n) < length l)%nat.
Proof.
  induction l as [| a | a b l IH1 IH2] using list_ind2.
  - intros []%adjacent_nil.
  - intros []%adjacent_singleton.
  - rewrite merge_pair_in_word_cons, adjacent_cons. intros Hadj.
    pose proof (merge_pair_in_word_length l p n).
    case_decide as Hd; simpl in *; [lia|].
    destruct Hadj as [-> | Hadj]; [simpl in Hd; tauto|].
    specialize (IH2 Hadj). lia.
Qed.

(** A word that does not contain the pair is left as it is. *)
Lemma merge_pair_in_word_id l p n :
  ¬ adjacent p l → merge_pair_in_word l p n = l.
Proof.
  induction l as [| a | a b l IH1 IH2] using list_ind2; [done..|].
  rewrite merge_pair_in_word_cons, adjacent_cons. intros Hadj.
  case_decide as Hd.
  - destruct p as [x y]; simpl in Hd. destruct Hd as [-> ->]. tauto.
  - f_equal. apply IH2. tauto.
Qed.

Lemma merge_pair_in_word_Forall (P : Z → Prop) l p n :
  P n → Forall P l → Forall P (merge_pair_in_word l p n).
Proof.
  intros Hn. induction l as [| a | a b l IH1 IH2] using list_ind2; [done..|].
  rewrite merge_pair_in_word_cons. intros Hall.
  inversion Hall as [|? ? Ha Hall']; subst.
  inversion Hall' as [|? ? Hb Hl]; subst.
  case_decide; constructor; auto.
Qed.

(** ** The symbol table *)

Lemma string_length_append (s1 s2 : string) :
  String.length (s1 ++ s2) = (String.length s1 + String.length s2)%nat.
Proof. induction s1 as [|c s1 IH]; simpl; [done | by rewrite IH]. Qed.

Lemma string_append_eq_l (s1 s2 : string) : (s1 ++ s2)%string = s1 → s2 = EmptyString.
Proof.
  intros Heq. apply (f_equal String.length) in Heq.
  rewrite string_length_append in Heq. destruct s2; [done | simpl in Heq; lia].
Qed.

Lemma string_append_eq_r (s1 s2 : string) : (s1 ++ s2)%string = s2 → s1 = EmptyString.
Proof.
  intros Heq. apply (f_equal String.length) in Heq.
  rewrite string_length_append in Heq. destruct s1; [done | simpl in Heq; lia].
Qed.

Lemma string_append_nonempty (s1 s2 : string) :
  s1 ≠ EmptyString → (s1 ++ s2)%string ≠ EmptyString.
Proof. by destruct s1. Qed.

Lemma token_string_Some t id str :
  token_string t id = Some str ↔ 0 ≤ id ∧ id_to_token t !! Z.to_nat id = Some str.
Proof. unfold token_string. case_decide; naive_solver. Qed.

Lemma token_string_bound t id str :
  token_string t id = Some str → 0 ≤ id < Z.of_nat (length (id_to_token t)).
Proof.
  intros [? Hl%lookup_lt_Some]%token_string_Some. lia.
Qed.

Lemma token_string_in_range t id :
  0 ≤ id < Z.of_nat (length (id_to_token t)) → is_Some (token_string t id).
Proof.
  intros [? ?]. unfold token_string. rewrite decide_True by done.
  apply lookup_lt_is_Some. lia.
Qed.

Lemma token_string_nonempty t id str :
  table_ok t → token_string t id = Some str → str ≠ EmptyString.
Proof.
  intros [_ Hne] [_ Hl]%token_string_Some.
  rewrite Forall_forall in Hne. apply Hne. by eapply list_elem_of_lookup_2.
Qed.

Lemma empty_table_ok : table_ok empty_table.
Proof. split; [intros ?? Hl; simpl in Hl; by rewrite lookup_empty in Hl | constructor]. Qed.

(** [get_token_id] returns an identifier of the string, keeps the table
    well formed and only appends to [id_to_token]. *)
Lemma get_token_id_spec str t id t' :
  table_ok t → str ≠ EmptyString → get_token_id str t = (id, t') →
  table_ok t'
  ∧ token_string t' id = Some str
  ∧ (∃ new, id_to_token t' = id_to_token t ++ new)
  ∧ (∀ i s, token_string t i = Some s → token_string t' i = Some s).
Proof.
  intros [Hmap Hne] Hstr. unfold get_token_id.
  destruct (token_to_id t !! str) as [id0|] eqn:Hlk; intros [= <- <-].
  - split_and!; [by split | by apply Hmap | by exists []; rewrite app_nil_r | done].
  - assert (Hmono : ∀ i s, token_string t i = Some s →
      token_string (mkSymbolTable (<[str:=Z.of_nat (length (id_to_token t))]> (token_to_id t))
                                  (id_to_token t ++ [str])) i = Some s).
    { intros i s [? Hl]%token_string_Some. apply token_string_Some. split; [done|].
      simpl. by apply lookup_app_l_Some. }
    assert (Hnew : token_string
      (mkSymbolTable (<[str:=Z.of_nat (length (id_to_token t))]> (token_to_id t))
                     (id_to_token t ++ [str])) (Z.of_nat (length (id_to_token t))) = Some str).
    { apply token_string_Some. split; [lia|]. simpl. rewrite Nat2Z.id.
      rewrite lookup_app_r by lia. by rewrite Nat.sub_diag. }
    split_and!; [split | done | by eexists | done].
    + intros s i. simpl. rewrite lookup_insert. case_decide as Hd.
      * intros [= <-]. by subst.
      * intros Hs. apply Hmono. by apply Hmap.
    + simpl. apply Forall_app. split; [done | by constructor].
Qed.

(** The identifier of a concatenation differs from both components. *)
Lemma get_token_id_fresh_pair t x y sx sy id t' :
  table_ok t → token_string t x = Some sx → token_string t y = Some sy →
  get_token_id (sx ++ sy) t = (id, t') → id ≠ x ∧ id ≠ y.
Proof.
  intros Hok Hx Hy Hget.
  pose proof (token_string_nonempty _ _ _ Hok Hx) as Hnx.
  pose proof (token_string_nonempty _ _ _ Hok Hy) as Hny.
  destruct (get_token_id_spec _ _ _ _ Hok (string_append_nonempty _ sy Hnx) Hget)
    as (_ & Hid & _ & Hmono).
  split; intros ->.
  - apply Hmono in Hx. rewrite Hid in Hx. injection Hx as Heq.
    by apply string_append_eq_l in Heq.
  - apply Hmono in Hy. rewrite Hid in Hy. injection Hy as Heq.
    by apply string_append_eq_r in Heq.
Qed.

(** ** Registrations in the pair index *)

Lemma registered_unregister i m p q j :
  registered (unregister_word i m p) q j ↔ registered m q j ∧ ¬ (q = p ∧ j = i).
Proof.
  unfold registered, unregister_word.
  destruct (m !! p) as [X|] eqn:Hp.
  - case_decide as He.
    + split.
      * intros (Y & HY & Hj). destruct (decide (q = p)) as [->|Hne].
        { by rewrite lookup_delete_eq in HY. }
        rewrite lookup_delete_ne in HY by done. naive_solver.
      * intros [(Y & HY & Hj) Hn]. destruct (decide (q = p)) as [->|Hne].
        { simplify_eq. set_solver. }
        exists Y. by rewrite lookup_delete_ne.
    + split.
      * intros (Y & HY & Hj). destruct (decide (q = p)) as [->|Hne].
        { rewrite lookup_insert_eq in HY. simplify_eq. set_solver. }
        rewrite lookup_insert_ne in HY by done. naive_solver.
      * intros [(Y & HY & Hj) Hn]. destruct (decide (q = p)) as [->|Hne].
        { simplify_eq. exists (X ∖ {[i]}). rewrite lookup_insert_eq. set_solver. }
        exists Y. by rewrite lookup_insert_ne.
  - split; [|tauto]. intros (Y & HY & Hj). split; [by exists Y|].
    intros [-> _]. congruence.
Qed.

Lemma registered_register i m p q j :
  registered (register_word i m p) q j ↔ registered m q j ∨ (q = p ∧ j = i).
Proof.
  unfold registered, register_word. split.
  - intros (Y & HY & Hj). destruct (decide (q = p)) as [->|Hne].
    + rewrite lookup_insert_eq in HY. simplify_eq.
      apply elem_of_union in Hj as [Hj%elem_of_singleton | Hj]; [by right|].
      left. destruct (m !! p) as [X|]; [by exists X | set_solver].
    + rewrite lookup_insert_ne in HY by done. left. by exists Y.
  - intros [(Y & HY & Hj) | [-> ->]].
    + destruct (decide (q = p)) as [->|Hne].
      * eexists. rewrite lookup_insert_eq. split; [done|]. rewrite HY. set_solver.
      * exists Y. by rewrite lookup_insert_ne.
    + eexists. rewrite lookup_insert_eq. split; [done|]. set_solver.
Qed.

Lemma no_empty_key_unregister i m p :
  no_empty_key m → no_empty_key (unregister_word i m p).
Proof.
  intros Hm q Y. unfold unregister_word.
  destruct (m !! p) as [X|] eqn:Hp; [|by apply Hm].
  case_decide as He.
  - destruct (decide (q = p)) as [->|Hne].
    + by rewrite lookup_delete_eq.
    + rewrite lookup_delete_ne by done. apply Hm.
  - destruct (decide (q = p)) as [->|Hne].
    + rewrite lookup_insert_eq. by intros [= <-].
    + rewrite lookup_insert_ne by done. apply Hm.
Qed.

Lemma no_empty_key_register i m p :
  no_empty_key m → no_empty_key (register_word i m p).
Proof.
  intros Hm q Y. unfold register_word.
  destruct (decide (q = p)) as [->|Hne].
  - rewrite lookup_insert_eq. intros [= <-]. set_solver.
  - rewrite lookup_insert_ne by done. apply Hm.
Qed.

Lemma no_empty_key_delete m p : no_empty_key m → no_empty_key (delete p m).
Proof.
  intros Hm q Y. destruct (decide (q = p)) as [->|Hne].
  - by rewrite lookup_delete_eq.
  - rewrite lookup_delete_ne by done. apply Hm.
Qed.

Lemma registered_delete m p q j :
  registered (delete p m) q j ↔ registered m q j ∧ q ≠ p.
Proof.
  unfold registered. destruct (decide (q = p)) as [->|Hne].
  - rewrite lookup_delete_eq. naive_solver.
  - rewrite lookup_delete_ne by done. naive_solver.
Qed.

(** The two diff loops of the word update. *)
Lemma registered_foldl_unregister (i : nat) (new_pairSet : gset Pair) (l : list Pair)
    (m : gmap Pair (gset nat)) (q : Pair) (j : nat) :
  registered
    (foldl (λ m p, if decide (p ∉ new_pairSet) then unregister_word i m p else m) m l) q j
  ↔ registered m q j ∧ ¬ (q ∈ l ∧ (q ∉ new_pairSet) ∧ j = i).
Proof.
  revert m. induction l as [|p l IH]; intros m; simpl.
  - set_solver.
  - rewrite IH. case_decide.
    + rewrite registered_unregister, elem_of_cons.
      split; [intros [[? ?] ?] | intros [? ?]]; split_and?; try done; naive_solver.
    + rewrite elem_of_cons. split; intros [? ?]; split; try done; naive_solver.
Qed.

Lemma registered_foldl_register (i : nat) (old_pairSet : gset Pair) (l : list Pair)
    (m : gmap Pair (gset nat)) (q : Pair) (j : nat) :
  registered
    (foldl (λ m p, if decide (p ∉ old_pairSet) then register_word i m p else m) m l) q j
  ↔ registered m q j ∨ (q ∈ l ∧ (q ∉ old_pairSet) ∧ j = i).
Proof.
  revert m. induction l as [|p l IH]; intros m; simpl.
  - set_solver.
  - rewrite IH. case_decide.
    + rewrite registered_register, elem_of_cons. naive_solver.
    + rewrite elem_of_cons. naive_solver.
Qed.

Lemma no_empty_key_foldl_unregister (i : nat) (new_pairSet : gset Pair) (l : list Pair)
    (m : gmap Pair (gset nat)) :
  no_empty_key m →
  no_empty_key (foldl (λ m p, if decide (p ∉ new_pairSet) then unregister_word i m p else m) m l).
Proof.
  revert m. induction l as [|p l IH]; intros m Hm; simpl; [done|].
  apply IH. case_decide; [by apply no_empty_key_unregister | done].
Qed.

Lemma no_empty_key_foldl_register (i : nat) (old_pairSet : gset Pair) (l : list Pair)
    (m : gmap Pair (gset nat)) :
  no_empty_key m →
  no_empty_key (foldl (λ m p, if decide (p ∉ old_pairSet) then register_word i m p else m) m l).
Proof.
  revert m. induction l as [|p l IH]; intros m Hm; simpl; [done|].
  apply IH. case_decide; [by apply no_empty_key_register | done].
Qed.


(** ** The fault monad *)

Lemma bind_Ok {A B} (m : result A) (f : A → result B) (b : B) :
  m ≫= f = Ok b ↔ ∃ a, m = Ok a ∧ f a = Ok b.
Proof. destruct m; simpl; naive_solver. Qed.

Lemma of_option_Ok {A} (o : option A) (e : Fault) (a : A) :
  of_option o e = Ok a ↔ o = Some a.
Proof. destruct o; simpl; naive_solver. Qed.

Lemma at_Ok {A} (v : list A) (i : Z) (a : A) :
  at_ v i = Ok a ↔ 0 ≤ i ∧ v !! Z.to_nat i = Some a.
Proof.
  unfold at_. case_decide; [rewrite of_option_Ok|]; naive_solver.
Qed.

Lemma modify_at_Ok {A} (v : list A) (i : Z) (f : A → A) (v' : list A) :
  modify_at v i f = Ok v' ↔
  ∃ a, 0 ≤ i ∧ v !! Z.to_nat i = Some a ∧ v' = <[Z.to_nat i := f a]> v.
Proof.
  unfold modify_at. rewrite bind_Ok. setoid_rewrite at_Ok. naive_solver.
Qed.

(** ** Sums over lists of integers *)

Lemma Zsum_cons x l : Zsum (x :: l) = x + Zsum l.
Proof. reflexivity. Qed.

Lemma Zsum_app l1 l2 : Zsum (l1 ++ l2) = Zsum l1 + Zsum l2.
Proof.
  induction l1 as [|x l1 IH]; [done|].
  rewrite <- app_comm_cons, !Zsum_cons, IH. lia.
Qed.

Lemma Zsum_perm l1 l2 : l1 ≡ₚ l2 → Zsum l1 = Zsum l2.
Proof. induction 1; rewrite ?Zsum_cons; lia. Qed.

Lemma Zsum_filter {A} (P : A → Prop) `{!∀ x, Decision (P x)} (g : A → Z) l :
  Zsum (g <$> filter P l) = Zsum ((λ x, if decide (P x) then g x else 0) <$> l).
Proof.
  induction l as [|x l IH]; [done|].
  rewrite filter_cons, fmap_cons, Zsum_cons. case_decide; rewrite ?fmap_cons, ?Zsum_cons; lia.
Qed.

Lemma Zsum_ext {A} (f g : A → Z) l :
  (∀ x, x ∈ l → f x = g x) → Zsum (f <$> l) = Zsum (g <$> l).
Proof.
  induction l as [|x l IH]; intros Hfg; [done|]. rewrite !fmap_cons, !Zsum_cons.
  rewrite Hfg by left. rewrite IH; [done|]. intros y ?. apply Hfg. by right.
Qed.

Lemma Zsum_zero {A} (l : list A) : Zsum ((λ _, 0) <$> l) = 0.
Proof. induction l as [|x l IH]; [done|]. rewrite fmap_cons, Zsum_cons. lia. Qed.

Lemma fmap_lookup_seq {A} (g : A → Z) (l : list A) :
  (λ i, from_option g 0 (l !! i)) <$> seq 0 (length l) = g <$> l.
Proof.
  apply list_eq. intros i. rewrite !list_lookup_fmap.
  destruct (l !! i) as [x|] eqn:Hi; simpl.
  - rewrite lookup_seq_lt by (by eapply lookup_lt_Some). simpl. by rewrite Hi.
  - rewrite lookup_seq_ge; [done|]. by apply lookup_ge_None.
Qed.


(** ** The incremental update of the pair index *)

Section UpdateFacts.
Context `{HashOrder}.

Lemma elem_of_iter_pairs (X : gset Pair) p : p ∈ iter_pairs X ↔ p ∈ X.
Proof. by rewrite (iter_pairs_perm X), elem_of_elements. Qed.

Lemma elem_of_iter_words (X : gset nat) i : i ∈ iter_words X ↔ i ∈ X.
Proof. by rewrite (iter_words_perm X), elem_of_elements. Qed.

Lemma NoDup_iter_words (X : gset nat) : NoDup (iter_words X).
Proof. rewrite (iter_words_perm X). apply NoDup_elements. Qed.

Lemma elem_of_iter_index (m : gmap Pair (gset nat)) p X :
  (p, X) ∈ iter_index m ↔ m !! p = Some X.
Proof. by rewrite (iter_index_perm m), elem_of_map_to_list. Qed.

Lemma index_tracks_pairs_tracked ws m :
  (∀ j w, ws !! j = Some w → pairSet w = compute_pairs (tokens w)) →
  index_tracks ws m ↔ pairs_tracked ws m.
Proof.
  intros Hps. split.
  - intros [Hstale Hmiss] q j. split.
    + intros (w & Hw & Hadj)%Hstale. exists w. split; [done|].
      rewrite (Hps _ _ Hw). by apply elem_of_compute_pairs.
    + intros (w & Hw & Hq). eapply Hmiss; [done|].
      apply elem_of_compute_pairs. by rewrite <- (Hps _ _ Hw).
  - intros Htr. split.
    + intros p idx (w & Hw & Hq)%Htr. exists w. split; [done|].
      apply elem_of_compute_pairs. by rewrite <- (Hps _ _ Hw).
    + intros idx w p Hw Hadj. apply Htr. exists w. split; [done|].
      rewrite (Hps _ _ Hw). by apply elem_of_compute_pairs.
Qed.

(** One word update: the word is replaced by its merged version and the
    index follows the change of its pair set. *)
Lemma update_word_spec best n ws m idx word :
  ws !! idx = Some word → pairs_tracked ws m → no_empty_key m →
  ∃ m', update_word best n (ws, m) idx = Ok (<[idx := merge_word best n word]> ws, m')
        ∧ pairs_tracked (<[idx := merge_word best n word]> ws) m'
        ∧ no_empty_key m'.
Proof.
  intros Hidx Htr Hne. unfold update_word. simpl. rewrite Hidx. simpl.
  eexists. split; [reflexivity|]. split.
  - intros q j. rewrite registered_foldl_register, registered_foldl_unregister.
    rewrite !elem_of_iter_pairs, (Htr q j).
    pose proof (lookup_lt_Some _ _ _ Hidx) as Hlt.
    destruct (decide (j = idx)) as [->|Hj].
    + rewrite list_lookup_insert_eq by done. rewrite Hidx.
      destruct (decide (q ∈ pairSet word));
        destruct (decide (q ∈ compute_pairs
                    (merge_pair_in_word (tokens word) best n)));
        unfold merge_word; naive_solver.
    + rewrite list_lookup_insert_ne by done. naive_solver.
  - by apply no_empty_key_foldl_register, no_empty_key_foldl_unregister.
Qed.

(** The loop over the affected words. *)
Lemma update_words_spec best n affected ws m :
  NoDup affected → (∀ i, i ∈ affected → is_Some (ws !! i)) →
  pairs_tracked ws m → no_empty_key m →
  ∃ ws' m',
    update_words best n affected (ws, m) = Ok (ws', m')
    ∧ (∀ j, ws' !! j =
            (λ w, if decide (j ∈ affected) then merge_word best n w else w)
              <$> ws !! j)
    ∧ pairs_tracked ws' m'
    ∧ no_empty_key m'.
Proof.
  revert ws m. induction affected as [|idx rest IH]; intros ws m Hnd Hin Htr Hne.
  - exists ws, m. split_and!; [done | | done | done].
    intros j. by destruct (ws !! j).
  - apply NoDup_cons in Hnd as [Hnotin Hnd].
    destruct (Hin idx) as [word Hword]; [by left|].
    destruct (update_word_spec best n ws m idx word Hword Htr Hne)
      as (m1 & Hupd & Htr1 & Hne1).
    destruct (IH (<[idx := merge_word best n word]> ws) m1 Hnd) as (ws' & m' & Hrun & Hlk & Htr' & Hne');
      [| done | done |].
    { intros i Hi. apply lookup_lt_is_Some. rewrite length_insert.
      apply lookup_lt_is_Some, Hin. by right. }
    exists ws', m'. split_and!; [| | done | done].
    + simpl. rewrite Hupd. simpl. exact Hrun.
    + intros j. rewrite Hlk. destruct (decide (j = idx)) as [->|Hj].
      * rewrite list_lookup_insert_eq by (by eapply lookup_lt_Some).
        rewrite Hword. cbn [fmap option_fmap option_map].
        rewrite decide_False by done. by rewrite decide_True by left.
      * rewrite list_lookup_insert_ne by done.
        destruct (ws !! j); [|done]. cbn [fmap option_fmap option_map]. f_equal.
        destruct (decide (j ∈ rest)).
        -- by rewrite decide_True by (by right).
        -- rewrite decide_False; [done|]. rewrite elem_of_cons. naive_solver.
Qed.

End UpdateFacts.


(** ** Arithmetic on [int] *)

Lemma wrap_int_range z : INT_MIN ≤ wrap_int z ≤ INT_MAX.
Proof.
  unfold wrap_int, INT_MIN, INT_MAX.
  pose proof (Z.mod_pos_bound (z - - 2 ^ 31) (2 ^ 32) ltac:(lia)). lia.
Qed.

Lemma wrap_int_fits z : INT_MIN ≤ z ≤ INT_MAX → wrap_int z = z.
Proof.
  unfold wrap_int, INT_MIN, INT_MAX. intros Hz.
  rewrite Z.mod_small by lia. lia.
Qed.

Lemma wrap_int_idemp z : wrap_int (wrap_int z) = wrap_int z.
Proof. apply wrap_int_fits, wrap_int_range. Qed.

Lemma wrap_int_add_l a b : wrap_int (wrap_int a + b) = wrap_int (a + b).
Proof.
  unfold wrap_int. f_equal.
  replace ((a - INT_MIN) mod 2 ^ 32 + INT_MIN + b - INT_MIN)
    with ((a - INT_MIN) mod 2 ^ 32 + b) by lia.
  rewrite Zplus_mod_idemp_l. f_equal. lia.
Qed.

Lemma wrap_int_add_r a b : wrap_int (a + wrap_int b) = wrap_int (a + b).
Proof. by rewrite Z.add_comm, wrap_int_add_l, Z.add_comm. Qed.

Lemma wrap_int_0 : wrap_int 0 = 0.
Proof. done. Qed.

(** ** The search for the best pair *)

Lemma count_occurrences_in_word_zero l p :
  p ∉ compute_pairs l → count_occurrences_in_word l p = 0.
Proof.
  rewrite elem_of_compute_pairs, <- count_occurrences_in_word_pos.
  pose proof (count_occurrences_in_word_nonneg l p). lia.
Qed.

(** The rescan may as well run over all words: a word without the pair
    adds nothing. *)
Lemma weighted_frequency_all v ws p :
  weighted_frequency v ws p
  = Zsum ((λ w, count_occurrences_in_word (tokens w) p * word_weight v w) <$> ws).
Proof.
  unfold weighted_frequency. rewrite Zsum_filter. apply Zsum_ext.
  intros w _. case_decide; [done|]. by rewrite count_occurrences_in_word_zero.
Qed.

Lemma weighted_frequency_seq v ws p :
  weighted_frequency v ws p = Zsum (contribution v ws p <$> seq 0 (length ws)).
Proof.
  rewrite weighted_frequency_all. unfold contribution.
  by rewrite <- (fmap_lookup_seq _ ws).
Qed.

Section SelectFacts.
Context `{HashOrder}.

(** The [int] sum of the loop is the exact sum reduced to an [int]: the
    reduction commutes with every addition and multiplication on the
    way. *)
Lemma sum_frequency_spec v ws p idxs freq :
  (∀ i, i ∈ idxs → is_Some (ws !! i)) → wrap_int freq = freq →
  sum_frequency v ws p idxs freq
  = Ok (wrap_int (freq + Zsum (contribution v ws p <$> idxs))).
Proof.
  revert freq. induction idxs as [|i idxs IH]; intros freq Hin Hfreq.
  - simpl. f_equal. unfold Zsum. simpl. by rewrite Z.add_0_r.
  - destruct (Hin i) as [w Hw]; [by left|].
    cbn [sum_frequency]. rewrite Hw. cbn [of_option mbind result_bind].
    rewrite IH; [|intros; apply Hin; by right|apply wrap_int_idemp].
    f_equal. rewrite fmap_cons, Zsum_cons. unfold contribution at 2.
    rewrite Hw. simpl. unfold int_add, int_mul.
    rewrite wrap_int_add_l, <- Z.add_assoc, (Z.add_comm (wrap_int _)),
      Z.add_assoc, wrap_int_add_r.
    f_equal. lia.
Qed.

(** Under a tracking index, the frequency summed over the registered
    words is the weighted frequency of the full rescan, reduced to an
    [int]. *)
Lemma registered_frequency v ws m p X :
  index_tracks ws m → m !! p = Some X →
  sum_frequency v ws p (iter_words X) 0 = Ok (int_frequency v ws p).
Proof.
  intros [Hstale Hmiss] Hp.
  assert (Hin : ∀ i, i ∈ X → is_Some (ws !! i)).
  { intros i Hi. destruct (Hstale p i) as (w & -> & _); [by exists X | by eexists]. }
  rewrite sum_frequency_spec;
    [|intros i ?%elem_of_iter_words; by apply Hin|done].
  unfold int_frequency. do 2 f_equal. rewrite Z.add_0_l, weighted_frequency_seq.
  assert (Hperm : iter_words X ≡ₚ filter (λ i, i ∈ X) (seq 0 (length ws))).
  { apply NoDup_Permutation.
    - apply NoDup_iter_words.
    - apply NoDup_filter, NoDup_seq.
    - intros i. rewrite elem_of_iter_words, list_elem_of_filter, elem_of_seq.
      split; [|tauto]. intros Hi. split; [done|].
      destruct (Hin i Hi) as [w Hw%lookup_lt_Some]. lia. }
  rewrite (Zsum_perm _ _ (fmap_Permutation _ _ _ Hperm)), Zsum_filter.
  apply Zsum_ext. intros i _. case_decide as Hi; [done|].
  unfold contribution. destruct (ws !! i) as [w|] eqn:Hw; [|done]. simpl.
  rewrite count_occurrences_in_word_zero; [done|].
  rewrite elem_of_compute_pairs. intros Hadj.
  destruct (Hmiss i w p Hw Hadj) as (Y & HY & HiY). congruence.
Qed.

(** The scan returns a maximum: nothing it has seen is more frequent than
    what it returns, and what it returns is either what it started with
    or a key of the list with its frequency. *)
Lemma find_best_spec v ws (F : Pair → Z) kvs best_pair best_freq :
  (∀ p X, (p, X) ∈ kvs → sum_frequency v ws p (iter_words X) 0 = Ok (F p)) →
  ∃ bp bf,
    find_best v ws kvs best_pair best_freq = Ok (bp, bf)
    ∧ best_freq ≤ bf
    ∧ (∀ p X, (p, X) ∈ kvs → F p ≤ bf)
    ∧ ((bp = best_pair ∧ bf = best_freq)
       ∨ ((∃ X, (bp, X) ∈ kvs) ∧ bf = F bp ∧ best_freq < bf)).
Proof.
  revert best_pair best_freq.
  induction kvs as [|[p X] kvs IH]; intros best_pair best_freq Hsum.
  - exists best_pair, best_freq. split_and!; [done | lia | | by left].
    intros p X Hin. by apply elem_of_nil in Hin.
  - cbn [find_best]. rewrite (Hsum p X) by left. cbn [mbind result_bind].
    assert (Hsum' : ∀ q Y, (q, Y) ∈ kvs →
              sum_frequency v ws q (iter_words Y) 0 = Ok (F q)).
    { intros q Y Hq. apply Hsum. by right. }
    case_decide as Hgt.
    + destruct (IH p (F p) Hsum') as (bp & bf & Hfb & Hle & Hmax & Hsrc).
      exists bp, bf. split_and!; [done | lia | |].
      * intros q Y [[= -> ->] | Hq]%elem_of_cons; [done | by eapply Hmax].
      * right. destruct Hsrc as [[-> ->] | ([Y HY] & -> & Hlt)].
        -- split_and!; [exists X; by left | done | lia].
        -- split_and!; [exists Y; by right | done | lia].
    + destruct (IH best_pair best_freq Hsum') as (bp & bf & Hfb & Hle & Hmax & Hsrc).
      exists bp, bf. split_and!; [done | done | |].
      * intros q Y [[= -> ->] | Hq]%elem_of_cons; [lia | by eapply Hmax].
      * destruct Hsrc as [[-> ->] | ([Y HY] & -> & Hlt)]; [by left|].
        right. split_and!; [exists Y; by right | done | done].
Qed.

(** The selection of a pass over a tracking index, in terms of the
    frequencies as [int] holds them. *)
Lemma select_spec v s :
  index_tracks (words s) (pair_to_word_indices s) →
  ∃ best freq,
    select v s = Ok (best, freq)
    ∧ 0 ≤ freq
    ∧ (∀ p, p ∈ dom (pair_to_word_indices s) →
         int_frequency v (words s) p ≤ freq)
    ∧ (0 < freq →
         best ∈ dom (pair_to_word_indices s)
         ∧ freq = int_frequency v (words s) best).
Proof.
  intros Htr. unfold select.
  destruct (find_best_spec v (words s) (int_frequency v (words s))
              (iter_index (pair_to_word_indices s)) (-1, -1) 0)
    as (bp & bf & Hfb & Hle & Hmax & Hsrc).
  { intros p X Hin%elem_of_iter_index. by eapply registered_frequency. }
  exists bp, bf. split_and!; [done | done | |].
  - intros p [X HX]%elem_of_dom. eapply Hmax. by apply elem_of_iter_index.
  - intros Hpos. destruct Hsrc as [[-> ->] | ([X HX%elem_of_iter_index] & -> & _)]; [lia|].
    split; [|done]. apply elem_of_dom. by exists X.
Qed.

(** Where the weighted frequencies fit an [int], the [int] holds them. *)
Lemma int_frequency_fits v s p :
  frequencies_fit v s → p ∈ dom (pair_to_word_indices s) →
  int_frequency v (words s) p = weighted_frequency v (words s) p.
Proof. intros Hfit Hp. by apply wrap_int_fits, Hfit. Qed.

End SelectFacts.


(** ** The transitions of the suffix automaton stay inside the vector *)

Lemma automaton_closed_mono b b' st :
  b ≤ b' → automaton_closed b st → automaton_closed b' st.
Proof. intros Hle Hcl i s c t Hs Ht. specialize (Hcl i s c t Hs Ht). lia. Qed.

Lemma automaton_closed_at b st i s c t :
  automaton_closed b st → at_ st i = Ok s → Sa.next s !! c = Some t → 0 ≤ t < b.
Proof. intros Hcl [_ Hs]%at_Ok Ht. by eapply Hcl. Qed.

Lemma automaton_closed_modify b st i f st' :
  (∀ s c t, st !! Z.to_nat i = Some s → Sa.next (f s) !! c = Some t → 0 ≤ t < b) →
  automaton_closed b st → modify_at st i f = Ok st' → automaton_closed b st'.
Proof.
  intros Hf Hcl (a & Hi & Ha & ->)%modify_at_Ok j s c t Hs Ht.
  destruct (decide (j = Z.to_nat i)) as [->|Hne].
  - rewrite list_lookup_insert_eq in Hs by (by eapply lookup_lt_Some).
    injection Hs as <-. by eapply Hf.
  - rewrite list_lookup_insert_ne in Hs by done. by eapply Hcl.
Qed.

Lemma automaton_closed_modify_keep b st i f st' :
  (∀ s, Sa.next (f s) = Sa.next s) →
  automaton_closed b st → modify_at st i f = Ok st' → automaton_closed b st'.
Proof.
  intros Hf Hcl. apply automaton_closed_modify; [|done].
  intros s c t Hs. rewrite Hf. by eapply Hcl.
Qed.

Lemma automaton_closed_modify_next b st i nx st' :
  (∀ c t, nx !! c = Some t → 0 ≤ t < b) →
  automaton_closed b st → modify_at st i (Sa.set_next nx) = Ok st' →
  automaton_closed b st'.
Proof.
  intros Hnx Hcl. apply automaton_closed_modify; [|done].
  intros s c t _. simpl. apply Hnx.
Qed.

Lemma index_or_insert_closed b m c v nx :
  0 < b → (∀ c t, m !! c = Some t → 0 ≤ t < b) →
  Sa.index_or_insert m c = (v, nx) →
  0 ≤ v < b ∧ ∀ c t, nx !! c = Some t → 0 ≤ t < b.
Proof.
  intros Hb Hm. unfold Sa.index_or_insert.
  destruct (m !! c) as [t0|] eqn:Hc; intros [= <- <-].
  - split; [by eapply Hm | done].
  - split; [lia|]. intros c' t. rewrite lookup_insert. case_decide.
    + intros [= <-]. lia.
    + apply Hm.
Qed.

Lemma insert_closed b (m : gmap ascii Z) c v :
  0 ≤ v < b → (∀ c t, m !! c = Some t → 0 ≤ t < b) →
  ∀ c' t, <[c := v]> m !! c' = Some t → 0 ≤ t < b.
Proof.
  intros Hv Hm c' t. rewrite lookup_insert. case_decide.
  - intros [= <-]. lia.
  - apply Hm.
Qed.

Lemma extend_link_walk_closed b fuel c cur st p st' p' :
  0 ≤ cur < b → automaton_closed b st →
  Sa.extend_link_walk fuel c cur st p = Ok (st', p') → automaton_closed b st'.
Proof.
  intros Hcur. revert st p. induction fuel as [|fuel IH]; intros st p Hcl Hrun;
    simpl in Hrun; case_decide; try (by simplify_eq);
    apply bind_Ok in Hrun as (sp & Hsp & Hrun);
    destruct (Sa.next sp !! c) eqn:Hc; try (by simplify_eq).
  apply bind_Ok in Hrun as (st1 & Hst1 & Hrun).
  eapply IH; [|done].
  eapply automaton_closed_modify_next; [|done|done].
  apply insert_closed; [done|]. intros. by eapply automaton_closed_at.
Qed.

Lemma extend_redirect_closed b fuel c q clone st p st' :
  0 < b → 0 ≤ clone < b → automaton_closed b st →
  Sa.extend_redirect fuel c q clone st p = Ok st' → automaton_closed b st'.
Proof.
  intros Hb Hclone. revert st p.
  induction fuel as [|fuel IH]; intros st p Hcl Hrun;
    simpl in Hrun; case_decide; try (by simplify_eq);
    apply bind_Ok in Hrun as (sp & Hsp & Hrun);
    destruct (Sa.index_or_insert (Sa.next sp) c) as [v nx] eqn:Hix;
    apply bind_Ok in Hrun as (st1 & Hst1 & Hrun);
    (destruct (index_or_insert_closed b _ _ _ _ Hb
                (λ c t, automaton_closed_at b st p sp c t Hcl Hsp) Hix) as [Hv Hnx]);
    pose proof (automaton_closed_modify_next _ _ _ _ _ Hnx Hcl Hst1) as Hcl1;
    case_decide; try (by simplify_eq).
  apply bind_Ok in Hrun as (st2 & Hst2 & Hrun).
  eapply IH; [|done].
  eapply automaton_closed_modify_next; [|done|done].
  by apply insert_closed.
Qed.

Lemma extend_closed c sz sa sz' sa' :
  1 ≤ sz → automaton_closed sz (Sa.st sa) →
  Sa.extend c sz sa = Ok (sz', sa') →
  sz < sz' ∧ automaton_closed sz' (Sa.st sa').
Proof.
  intros Hsz Hcl0 Hrun. unfold Sa.extend in Hrun.
  apply bind_Ok in Hrun as (slast & _ & Hrun).
  apply bind_Ok in Hrun as (st1 & Hst1 & Hrun).
  apply bind_Ok in Hrun as (st2 & Hst2 & Hrun).
  apply bind_Ok in Hrun as ([st3 p] & Hst3 & Hrun).
  apply bind_Ok in Hrun as ([sz1 st4] & Hbranch & Hrun).
  injection Hrun as <- <-. simpl.
  assert (Hcl : automaton_closed (sz + 1) (Sa.st sa)).
  { eapply automaton_closed_mono; [|done]. lia. }
  eapply automaton_closed_modify_keep in Hst1; [|done|done].
  eapply automaton_closed_modify_keep in Hst2; [|done|done].
  eapply (extend_link_walk_closed (sz + 1)) in Hst3; [|lia|done].
  case_decide.
  { apply bind_Ok in Hbranch as (st5 & Hst5 & Hbranch). injection Hbranch as <- <-.
    split; [lia|]. by eapply automaton_closed_modify_keep in Hst5. }
  apply bind_Ok in Hbranch as (sp & Hsp & Hbranch).
  destruct (Sa.index_or_insert (Sa.next sp) c) as [q nx] eqn:Hix.
  destruct (index_or_insert_closed (sz + 1) _ _ _ _ ltac:(lia)
              (λ c t, automaton_closed_at _ st3 p sp c t Hst3 Hsp) Hix) as [Hq Hnx].
  apply bind_Ok in Hbranch as (st5 & Hst5 & Hbranch).
  eapply automaton_closed_modify_next in Hst5; [|done|done].
  apply bind_Ok in Hbranch as (sp' & Hsp' & Hbranch).
  apply bind_Ok in Hbranch as (sq & Hsq & Hbranch).
  case_decide.
  { apply bind_Ok in Hbranch as (st6 & Hst6 & Hbranch). injection Hbranch as <- <-.
    split; [lia|]. by eapply automaton_closed_modify_keep in Hst6. }
  apply bind_Ok in Hbranch as (st6 & Hst6 & Hbranch).
  apply bind_Ok in Hbranch as (sq1 & Hsq1 & Hbranch).
  apply bind_Ok in Hbranch as (st7 & Hst7 & Hbranch).
  apply bind_Ok in Hbranch as (sq2 & Hsq2 & Hbranch).
  apply bind_Ok in Hbranch as (st8 & Hst8 & Hbranch).
  apply bind_Ok in Hbranch as (st9 & Hst9 & Hbranch).
  apply bind_Ok in Hbranch as (st10 & Hst10 & Hbranch).
  apply bind_Ok in Hbranch as (st11 & Hst11 & Hbranch).
  apply bind_Ok in Hbranch as (st12 & Hst12 & Hbranch).
  injection Hbranch as <- <-. split; [lia|].
  apply (automaton_closed_mono _ (sz + 1 + 1)) in Hst5; [|lia].
  eapply automaton_closed_modify_keep in Hst6; [|done|done].
  eapply automaton_closed_modify_next in Hst7;
    [| intros; by eapply automaton_closed_at | done].
  eapply automaton_closed_modify_keep in Hst8; [|done|done].
  eapply automaton_closed_modify_keep in Hst9; [|done|done].
  eapply (extend_redirect_closed (sz + 1 + 1)) in Hst10; [|lia|lia|done].
  eapply automaton_closed_modify_keep in Hst11; [|done|done].
  by eapply automaton_closed_modify_keep in Hst12.
Qed.

Lemma extend_all_closed s sz sa sz' sa' :
  1 ≤ sz → automaton_closed sz (Sa.st sa) →
  Sa.extend_all s sz sa = Ok (sz', sa') →
  sz ≤ sz' ∧ automaton_closed sz' (Sa.st sa').
Proof.
  revert sz sa. induction s as [|c s IH]; intros sz sa Hsz Hcl Hrun; simpl in Hrun.
  - injection Hrun as <- <-. split; [lia | done].
  - apply bind_Ok in Hrun as ([sz1 sa1] & Hext & Hrun).
    destruct (extend_closed _ _ _ _ _ Hsz Hcl Hext) as [Hlt Hcl1].
    destruct (IH sz1 sa1 ltac:(lia) Hcl1 Hrun). split; [lia | done].
Qed.

Lemma propagate_closed b st indices st' :
  automaton_closed b st → Sa.propagate st indices = Ok st' →
  automaton_closed b st' ∧ length st' = length st.
Proof.
  revert st. induction indices as [|i rest IH]; intros st Hcl Hrun; simpl in Hrun.
  - by injection Hrun as <-.
  - apply bind_Ok in Hrun as (si & Hsi & Hrun). case_decide.
    + apply bind_Ok in Hrun as (st1 & Hst1 & Hrun).
      pose proof Hst1 as (a & _ & _ & ->)%modify_at_Ok.
      eapply automaton_closed_modify_keep in Hst1; [|done|done].
      destruct (IH _ Hst1 Hrun) as [? Hlen]. split; [done|].
      by rewrite Hlen, length_insert.
    + by apply IH.
Qed.

Lemma resize_vec_closed b n st :
  automaton_closed b st → automaton_closed b (resize_vec n Sa.SAState_zero st).
Proof.
  intros Hcl i s c t Hs Ht. unfold resize_vec in Hs.
  apply lookup_app_Some in Hs as [Hs | [_ Hs]].
  - apply lookup_take_Some in Hs as [Hs _]. by eapply Hcl.
  - apply lookup_replicate in Hs as [-> _]. simpl in Ht. by rewrite lookup_empty in Ht.
Qed.

Lemma length_resize_vec {A} n (d : A) v : length (resize_vec n d v) = n.
Proof.
  unfold resize_vec. rewrite length_app, length_take, length_replicate. lia.
Qed.

(** A constructed automaton has a non-empty vector of states and all its
    transitions lead into that vector. *)
Lemma SuffixAutomaton_ctor_closed s sa :
  Sa.SuffixAutomaton_ctor s = Ok sa →
  automaton_closed (Z.of_nat (length (Sa.st sa))) (Sa.st sa)
  ∧ (0 < length (Sa.st sa))%nat.
Proof.
  unfold Sa.SuffixAutomaton_ctor. intros Hrun.
  apply bind_Ok in Hrun as (st1 & Hst1 & Hrun).
  apply bind_Ok in Hrun as (st2 & Hst2 & Hrun).
  apply bind_Ok in Hrun as (st3 & Hst3 & Hrun).
  apply bind_Ok in Hrun as ([sz sa1] & Hext & Hrun).
  apply bind_Ok in Hrun as (st5 & Hprop & Hrun).
  injection Hrun as <-. simpl.
  assert (Hcl0 : automaton_closed 1 (resize_vec (2 * String.length s) Sa.SAState_zero [])).
  { apply resize_vec_closed. intros i ? ? ? Hi. by rewrite lookup_nil in Hi. }
  eapply automaton_closed_modify_keep in Hst1; [|done|done].
  eapply automaton_closed_modify_keep in Hst2; [|done|done].
  eapply automaton_closed_modify_keep in Hst3; [|done|done].
  destruct (extend_all_closed s 1 (Sa.mkSuffixAutomaton st3 0) sz sa1 ltac:(lia) Hst3 Hext)
    as [Hsz Hcl].
  apply (resize_vec_closed _ (Z.to_nat sz)) in Hcl.
  destruct (propagate_closed _ _ _ _ Hcl Hprop) as [Hcl5 Hlen].
  rewrite Hlen, length_resize_vec. split; [|lia].
  by rewrite Z2Nat.id by lia.
Qed.

(** A query on a closed automaton never leaves the vector. *)
Lemma countOccurrences_from_Ok st cur pattern :
  automaton_closed (Z.of_nat (length st)) st →
  0 ≤ cur < Z.of_nat (length st) →
  ∃ n, Sa.countOccurrences_from st cur pattern = Ok n.
Proof.
  intros Hcl. revert cur. induction pattern as [|c pattern IH]; intros cur Hcur;
    destruct (lookup_lt_is_Some_2 st (Z.to_nat cur) ltac:(lia)) as [s Hs];
    assert (Hat : at_ st cur = Ok s) by (apply at_Ok; split; [lia|done]);
    simpl; rewrite Hat; simpl.
  - by eexists.
  - destruct (Sa.next s !! c) as [t|] eqn:Ht; [|by eexists].
    apply IH. by eapply Hcl.
Qed.

Lemma countOccurrences_Ok sa pattern :
  automaton_closed (Z.of_nat (length (Sa.st sa))) (Sa.st sa) →
  (0 < length (Sa.st sa))%nat →
  ∃ n, Sa.countOccurrences sa pattern = Ok n.
Proof.
  intros Hcl Hlen. apply countOccurrences_from_Ok; [done | lia].
Qed.


(** ** One pass of the merge loop *)

Lemma adjacent_elem_of p l : adjacent p l → p.1 ∈ l ∧ p.2 ∈ l.
Proof. intros (l1 & l2 & ->). set_solver. Qed.

Section IterationFacts.
Context `{HashOrder}.

Lemma reported_frequency_Ok v s str freq :
  well_formed v s → ∃ reported, reported_frequency v s str freq = Ok reported.
Proof.
  intros Hwf. destruct v; simpl; [by eexists | by eexists |].
  destruct (wf_automaton _ _ Hwf eq_refl) as [Hcl Hlen].
  by apply countOccurrences_Ok.
Qed.

(** What a pass does in a well-formed state: it selects a most frequent
    pair; below the floor it stops; otherwise it appends one rule, rewrites
    exactly the words registered under the pair and reaches a well-formed
    state again. *)
Lemma iteration_spec v s :
  well_formed v s →
  ∃ best freq,
    select v s = Ok (best, freq)
    ∧ (freq < 2 → iteration v s = Ok Finished)
    ∧ (2 ≤ freq →
       ∃ X first_str second_str n table' reported ws' m',
         pair_to_word_indices s !! best = Some X
         ∧ token_string (table s) best.1 = Some first_str
         ∧ token_string (table s) best.2 = Some second_str
         ∧ get_token_id (first_str ++ second_str) (table s) = (n, table')
         ∧ reported_frequency v s (first_str ++ second_str) freq = Ok reported
         ∧ iteration v s =
             Ok (Merged (mkTrainer table' ws' m'
                           (merges s ++ [mkMergeRule best n reported])
                           (automaton s)))
         ∧ (∀ j, ws' !! j =
                 (λ w, if decide (j ∈ X) then merge_word best n w else w)
                   <$> words s !! j)
         ∧ well_formed v (mkTrainer table' ws' m'
                            (merges s ++ [mkMergeRule best n reported])
                            (automaton s))).
Proof.
  intros Hwf. pose proof (wf_index _ _ Hwf) as Htr.
  destruct (select_spec v s Htr) as (best & freq & Hsel & Hnn & Hmax & Hpos).
  exists best, freq. split; [done|]. split.
  { intros Hlt. unfold iteration. rewrite Hsel. simpl. by rewrite decide_True. }
  intros Hge. destruct (Hpos ltac:(lia)) as [[X HX]%elem_of_dom Hfreq].
  (* a word that contains the pair, hence valid token identifiers *)
  destruct (set_choose_L X (wf_nonempty _ _ Hwf _ _ HX)) as [i Hi].
  destruct Htr as [Hstale Hmiss].
  destruct (Hstale best i) as (w & Hw & Hadj); [by exists X|].
  apply adjacent_elem_of in Hadj as [Hb1 Hb2].
  pose proof (wf_tokens _ _ Hwf _ _ Hw) as Hrange. rewrite Forall_forall in Hrange.
  destruct (token_string_in_range _ _ (Hrange _ Hb1)) as [first_str Hfirst].
  destruct (token_string_in_range _ _ (Hrange _ Hb2)) as [second_str Hsecond].
  destruct (get_token_id (first_str ++ second_str) (table s)) as [n table'] eqn:Hget.
  pose proof (wf_table _ _ Hwf) as Htab.
  destruct (get_token_id_spec _ _ _ _ Htab
              (string_append_nonempty _ second_str
                 (token_string_nonempty _ _ _ Htab Hfirst)) Hget)
    as (Htab' & Hn & [new Hnew] & Hmono).
  destruct (get_token_id_fresh_pair _ _ _ _ _ _ _ Htab Hfirst Hsecond Hget)
    as [Hn1 Hn2].
  destruct (reported_frequency_Ok v s (first_str ++ second_str) freq Hwf)
    as [reported Hrep].
  assert (Hps : ∀ j w, words s !! j = Some w → pairSet w = compute_pairs (tokens w))
    by apply (wf_pairSet _ _ Hwf).
  assert (Htr : pairs_tracked (words s) (pair_to_word_indices s)).
  { by apply index_tracks_pairs_tracked. }
  destruct (update_words_spec best n (iter_words X) (words s) (pair_to_word_indices s))
    as (ws' & m' & Hupd & Hlk & Htr' & Hne'); [apply NoDup_iter_words | | done | apply Hwf |].
  { intros j Hj%elem_of_iter_words.
    destruct (Hstale best j) as (wj & -> & _); [by exists X | by eexists]. }
  assert (Hlk' : ∀ j, ws' !! j =
            (λ w, if decide (j ∈ X) then merge_word best n w else w) <$> words s !! j).
  { intros j. rewrite Hlk. destruct (words s !! j); [|done]. simpl. f_equal.
    apply decide_ext, elem_of_iter_words. }
  assert (Hps' : ∀ j w, ws' !! j = Some w → pairSet w = compute_pairs (tokens w)).
  { intros j w'. rewrite Hlk'. destruct (words s !! j) as [wj|] eqn:Hwj; [|done].
    simpl. intros [= <-]. case_decide; [done | by eapply Hps]. }
  assert (Hnobest : ∀ j w, ws' !! j = Some w → best ∉ pairSet w).
  { intros j w'. rewrite Hlk'. destruct (words s !! j) as [wj|] eqn:Hwj; [|done].
    simpl. intros [= <-]. case_decide as Hj.
    - simpl. rewrite elem_of_compute_pairs. by apply merge_pair_in_word_removes.
    - intros Hin. destruct (proj2 (Htr best j)) as (Y & HY & HjY); [by exists wj|].
      congruence. }
  exists X, first_str, second_str, n, table', reported, ws', (delete best m').
  split_and!; try done.
  - unfold iteration. rewrite Hsel. simpl. rewrite decide_False by lia.
    rewrite Hfirst, Hsecond. simpl. rewrite Hget, Hrep. simpl.
    rewrite HX. simpl. by rewrite Hupd.
  - split; simpl.
    + done.
    + intros j w'. rewrite Hlk'. destruct (words s !! j) as [wj|] eqn:Hwj; [|done].
      simpl. intros [= <-].
      assert (Hold : Forall (λ t, 0 ≤ t < Z.of_nat (length (id_to_token table')))
                            (tokens wj)).
      { eapply Forall_impl; [by eapply (wf_tokens _ _ Hwf)|].
        intros t. simpl. rewrite Hnew, length_app. lia. }
      case_decide; [|done]. simpl.
      apply merge_pair_in_word_Forall; [|done]. by eapply token_string_bound.
    + done.
    + apply index_tracks_pairs_tracked; [done|].
      intros q j. rewrite registered_delete, (Htr' q j). split; [tauto|].
      intros (w' & Hw' & Hq). split; [by exists w'|].
      intros ->. by eapply Hnobest.
    + by apply no_empty_key_delete.
    + apply (wf_automaton _ _ Hwf).
Qed.

End IterationFacts.


(** ** The state in which the loop is entered *)

Lemma intern_all_spec cps t ids t' :
  table_ok t → Forall (λ str, str ≠ EmptyString) cps →
  intern_all cps t = (ids, t') →
  table_ok t'
  ∧ Forall (λ id, 0 ≤ id < Z.of_nat (length (id_to_token t'))) ids
  ∧ ∃ new, id_to_token t' = id_to_token t ++ new.
Proof.
  revert t ids t'. induction cps as [|token rest IH]; intros t ids t' Hok Hne; simpl.
  - intros [= <- <-]. split_and!; [done | constructor | by exists []; rewrite app_nil_r].
  - apply Forall_cons in Hne as [Htoken Hrest].
    destruct (get_token_id token t) as [token_id t1] eqn:Hget.
    destruct (intern_all rest t1) as [ids' t2] eqn:Hrec. intros [= <- <-].
    destruct (get_token_id_spec _ _ _ _ Hok Htoken Hget) as (Hok1 & Hid & [new1 Hnew1] & _).
    destruct (IH _ _ _ Hok1 Hrest Hrec) as (Hok2 & Hids & [new2 Hnew2]).
    split_and!; [done | |].
    + constructor; [|done]. apply token_string_bound in Hid.
      rewrite Hnew2, length_app. lia.
    + exists (new1 ++ new2). by rewrite Hnew2, Hnew1, <- app_assoc.
Qed.

Section LoaderFacts.
Context `{Codecvt}.

Lemma load_line_ok v acc line acc' :
  loaded_ok acc → load_line v acc line = Ok acc' → loaded_ok acc'.
Proof.
  intros [Htab Hws]. unfold load_line. case_decide; [by intros [= <-]|].
  destruct (parse_record v line) as [[[word_str tf0] df0]|]; [|by intros [= <-]].
  intros Hrun. apply bind_Ok in Hrun as (cps & Hcps%of_option_Ok & Hrun).
  destruct (intern_all cps (l_table acc)) as [ids t'] eqn:Hint.
  injection Hrun as <-.
  destruct (intern_all_spec _ _ _ _ Htab (code_points_nonempty _ _ Hcps) Hint)
    as (Htab' & Hids & [new Hnew]).
  split; [done|]. simpl. intros w [Hw | ->%list_elem_of_singleton]%elem_of_app.
  - destruct (Hws w Hw) as [Hrange Hps]. split; [|done].
    eapply Forall_impl; [done|]. intros t. simpl. rewrite Hnew, length_app. lia.
  - by split.
Qed.

Lemma load_lines_ok v acc lines acc' :
  loaded_ok acc → load_lines v acc lines = Ok acc' → loaded_ok acc'.
Proof.
  revert acc. induction lines as [|line rest IH]; intros acc Hok; simpl.
  - by intros [= <-].
  - intros Hrun. apply bind_Ok in Hrun as (acc1 & Hline & Hrun).
    eapply IH; [|done]. by eapply load_line_ok.
Qed.

Lemma load_ok v lines l : load v lines = Ok l → loaded_ok l.
Proof.
  apply load_lines_ok. split; [apply empty_table_ok|].
  intros w Hw. by apply elem_of_nil in Hw.
Qed.

End LoaderFacts.

Section InitialFacts.
Context `{HashOrder} `{Codecvt}.

Lemma registered_foldl_register_all i (l : list Pair) m q j :
  registered (foldl (register_word i) m l) q j
  ↔ registered m q j ∨ (q ∈ l ∧ j = i).
Proof.
  revert m. induction l as [|p l IH]; intros m; simpl.
  - set_solver.
  - rewrite IH, registered_register, elem_of_cons. naive_solver.
Qed.

Lemma no_empty_key_foldl_register_all i (l : list Pair) m :
  no_empty_key m → no_empty_key (foldl (register_word i) m l).
Proof.
  revert m. induction l as [|p l IH]; intros m Hm; simpl; [done|].
  by apply IH, no_empty_key_register.
Qed.

Lemma registered_build_index i ws m q j :
  registered (build_index i ws m) q j
  ↔ registered m q j
    ∨ ((i ≤ j)%nat ∧ ∃ w, ws !! (j - i)%nat = Some w ∧ q ∈ pairSet w).
Proof.
  revert i m. induction ws as [|w ws IH]; intros i m; simpl.
  - split; [by left | intros [? | (_ & ? & Hw & _)]; [done | by rewrite lookup_nil in Hw]].
  - rewrite IH, registered_foldl_register_all, elem_of_iter_pairs. split.
    + intros [[? | [Hq ->]] | (Hle & w' & Hw' & Hq)].
      * by left.
      * right. split; [lia|]. exists w. by rewrite Nat.sub_diag.
      * right. split; [lia|]. exists w'. split; [|done].
        replace (j - i)%nat with (S (j - S i)) by lia. done.
    + intros [? | (Hle & w' & Hw' & Hq)]; [by left; left|].
      destruct (decide (j = i)) as [->|Hne].
      * rewrite Nat.sub_diag in Hw'. injection Hw' as <-. left. by right.
      * right. split; [lia|]. exists w'. split; [|done].
        replace (j - i)%nat with (S (j - S i)) in Hw' by lia. done.
Qed.

Lemma no_empty_key_build_index i ws m :
  no_empty_key m → no_empty_key (build_index i ws m).
Proof.
  revert i m. induction ws as [|w ws IH]; intros i m Hm; simpl; [done|].
  by apply IH, no_empty_key_foldl_register_all.
Qed.

Lemma build_index_tracked ws : pairs_tracked ws (build_index 0 ws ∅).
Proof.
  intros q j. rewrite registered_build_index, Nat.sub_0_r. split.
  - intros [(X & HX & _) | [_ ?]]; [by rewrite lookup_empty in HX | done].
  - intros ?. right. split; [lia | done].
Qed.

(** The loop is entered in a well-formed state. *)
Lemma initial_trainer_wf v lines l s0 :
  load v lines = Ok l → initial_trainer v l = Ok s0 → well_formed v s0.
Proof.
  intros [Htab Hws]%load_ok Hinit. unfold initial_trainer in Hinit.
  apply bind_Ok in Hinit as (sa & Hsa & Hinit). injection Hinit as <-.
  assert (Hps : ∀ j w, l_words l !! j = Some w → pairSet w = compute_pairs (tokens w)).
  { intros j w Hw%list_elem_of_lookup_2. by apply Hws. }
  split; simpl.
  - done.
  - intros j w Hw%list_elem_of_lookup_2. by apply Hws.
  - done.
  - apply index_tracks_pairs_tracked; [done | apply build_index_tracked].
  - apply no_empty_key_build_index. intros p X HX. by rewrite lookup_empty in HX.
  - intros ->. by eapply SuffixAutomaton_ctor_closed.
Qed.

Lemma reachable_wf v s0 s : well_formed v s0 → reachable v s0 s → well_formed v s.
Proof.
  intros Hwf0. induction 1 as [|s s' Hreach IH Hstep]; [done|].
  destruct (iteration_spec v s IH) as (best & freq & Hsel & Hstop & Hmerge).
  destruct (decide (freq < 2)) as [Hlt|Hge].
  - rewrite (Hstop Hlt) in Hstep. discriminate.
  - destruct (Hmerge ltac:(lia))
      as (X & f1 & f2 & n & t' & rep & ws' & m' & _ & _ & _ & _ & _ & Hit & _ & Hwf').
    rewrite Hit in Hstep. by injection Hstep as <-.
Qed.

Lemma trained_wf v lines s : trained v lines s → well_formed v s.
Proof.
  intros (l & s0 & Hload & Hinit & Hreach).
  eapply reachable_wf; [|done]. by eapply initial_trainer_wf.
Qed.

End InitialFacts.


(** ** Token counts *)

Lemma total_tokens_imap_le (f : nat → WordEntry → WordEntry) ws :
  (∀ j w, ws !! j = Some w → (length (tokens (f j w)) ≤ length (tokens w))%nat) →
  (total_tokens (imap f ws) ≤ total_tokens ws)%nat.
Proof.
  revert f. induction ws as [|w ws IH]; intros f Hle; [done|].
  rewrite imap_cons. unfold total_tokens in *. simpl.
  pose proof (Hle 0%nat w eq_refl).
  specialize (IH (f ∘ S) (λ j w', Hle (S j) w')). lia.
Qed.

Lemma total_tokens_imap_lt (f : nat → WordEntry → WordEntry) ws i wi :
  (∀ j w, ws !! j = Some w → (length (tokens (f j w)) ≤ length (tokens w))%nat) →
  ws !! i = Some wi → (length (tokens (f i wi)) < length (tokens wi))%nat →
  (total_tokens (imap f ws) < total_tokens ws)%nat.
Proof.
  revert f i. induction ws as [|w ws IH]; intros f i Hle Hi Hlt; [done|].
  rewrite imap_cons. unfold total_tokens in *. simpl.
  pose proof (Hle 0%nat w eq_refl).
  destruct i as [|i]; simpl in Hi.
  - injection Hi as ->.
    pose proof (total_tokens_imap_le (f ∘ S) ws (λ j w', Hle (S j) w')) as Hrest.
    unfold total_tokens in Hrest. lia.
  - specialize (IH (f ∘ S) i (λ j w', Hle (S j) w') Hi Hlt). lia.
Qed.

Lemma lookup_imap_eq (f : nat → WordEntry → WordEntry) ws ws' :
  (∀ j, ws' !! j = f j <$> ws !! j) → ws' = imap f ws.
Proof. intros Hlk. apply list_eq. intros j. by rewrite Hlk, list_lookup_imap. Qed.

(** ** A bound on the frequencies *)

Lemma count_occurrences_in_word_le_length l p :
  count_occurrences_in_word l p ≤ Z.of_nat (length l).
Proof.
  induction l as [|a l IH]; [done|].
  destruct l as [|b l]; [simpl; lia|].
  change (count_occurrences_in_word (a :: b :: l) p)
    with ((if decide (a = p.1 ∧ b = p.2) then 1 else 0)
          + count_occurrences_in_word (b :: l) p).
  rewrite (length_cons a). case_decide; lia.
Qed.

Lemma Zsum_abs_le {A} (f g : A → Z) (l : list A) :
  (∀ x, x ∈ l → Z.abs (f x) ≤ g x) → Z.abs (Zsum (f <$> l)) ≤ Zsum (g <$> l).
Proof.
  induction l as [|x l IH]; intros Hle; [done|].
  rewrite !fmap_cons, !Zsum_cons.
  pose proof (Hle x ltac:(left)). pose proof (IH (λ y Hy, Hle y ltac:(by right))).
  lia.
Qed.

Lemma weighted_frequency_mass v ws p :
  Z.abs (weighted_frequency v ws p) ≤ corpus_mass v ws.
Proof.
  rewrite weighted_frequency_all. apply Zsum_abs_le. intros w _.
  pose proof (count_occurrences_in_word_nonneg (tokens w) p).
  pose proof (count_occurrences_in_word_le_length (tokens w) p).
  rewrite Z.abs_mul. pose proof (Z.abs_nonneg (word_weight v w)). nia.
Qed.

Lemma corpus_mass_imap_le v (f : nat → WordEntry → WordEntry) ws :
  (∀ j w, ws !! j = Some w →
     (length (tokens (f j w)) ≤ length (tokens w))%nat
     ∧ word_weight v (f j w) = word_weight v w) →
  corpus_mass v (imap f ws) ≤ corpus_mass v ws.
Proof.
  revert f. induction ws as [|w ws IH]; intros f Hle; [done|].
  rewrite imap_cons. unfold corpus_mass in *. rewrite !fmap_cons, !Zsum_cons.
  destruct (Hle 0%nat w eq_refl) as [Hlen ->].
  specialize (IH (f ∘ S) (λ j w', Hle (S j) w')).
  pose proof (Z.abs_nonneg (word_weight v w)). nia.
Qed.

(** ** Consequences for one pass and for the whole run *)

Section RunFacts.
Context `{HashOrder} `{Codecvt}.

(** A pair that is not a key of a tracking index occurs in no word. *)
Lemma weighted_frequency_outside v ws m p :
  index_tracks ws m → p ∉ dom m → weighted_frequency v ws p = 0.
Proof.
  intros [_ Hmiss] Hp. rewrite weighted_frequency_all.
  rewrite (Zsum_ext _ (λ _, 0)).
  - apply Zsum_zero.
  - intros w Hw. rewrite count_occurrences_in_word_zero; [done|].
    intros Hin%elem_of_compute_pairs.
    apply list_elem_of_lookup in Hw as [j Hj].
    destruct (Hmiss j w p Hj Hin) as (X & HX & _).
    apply Hp, elem_of_dom. by exists X.
Qed.

Lemma int_frequency_outside v ws m p :
  index_tracks ws m → p ∉ dom m → int_frequency v ws p = 0.
Proof.
  intros Htr Hp. unfold int_frequency.
  by rewrite (weighted_frequency_outside v ws m p Htr Hp).
Qed.

(** A pass stops the loop exactly when no pair reaches the floor with the
    frequency that the program computes for it. *)
Lemma iteration_Finished_iff v s :
  well_formed v s →
  iteration v s = Ok Finished ↔ ∀ p, int_frequency v (words s) p < 2.
Proof.
  intros Hwf. pose proof (wf_index _ _ Hwf) as Htr.
  destruct (select_spec v s Htr) as (best & freq & Hsel & Hnn & Hmax & Hpos).
  destruct (iteration_spec v s Hwf) as (best' & freq' & Hsel' & Hstop & Hmerge).
  rewrite Hsel in Hsel'. injection Hsel' as <- <-.
  split.
  - intros Hfin. destruct (decide (freq < 2)) as [Hlt|Hge].
    + intros p. destruct (decide (p ∈ dom (pair_to_word_indices s))) as [Hp|Hp].
      * specialize (Hmax p Hp). lia.
      * by rewrite (int_frequency_outside v _ _ _ Htr Hp).
    + destruct (Hmerge ltac:(lia))
        as (? & ? & ? & ? & ? & ? & ? & ? & _ & _ & _ & _ & _ & Hit & _).
      rewrite Hit in Hfin. discriminate.
  - intros Hall. apply Hstop.
    destruct (decide (0 < freq)) as [Hp|Hp]; [|lia].
    destruct (Hpos Hp) as [_ ->]. apply Hall.
Qed.

(** Where the frequencies fit an [int], it is the weighted frequency of
    the rescan that decides. *)
Lemma frequencies_fit_floor v s :
  well_formed v s → frequencies_fit v s →
  (∀ p, int_frequency v (words s) p < 2)
  ↔ (∀ p, weighted_frequency v (words s) p < 2).
Proof.
  intros Hwf Hfit. pose proof (wf_index _ _ Hwf) as Htr.
  assert (Heq : ∀ p, int_frequency v (words s) p = weighted_frequency v (words s) p).
  { intros p. destruct (decide (p ∈ dom (pair_to_word_indices s))) as [Hp|Hp].
    - by apply int_frequency_fits.
    - by rewrite (int_frequency_outside v _ _ _ Htr Hp),
           (weighted_frequency_outside v _ _ _ Htr Hp). }
  split; intros Hall p; specialize (Hall p); by rewrite ?Heq in *.
Qed.

(** A merging pass leaves the automaton, the originals and the weights
    alone and removes at least one token. *)
Lemma iteration_Merged_frame v s s' :
  well_formed v s → iteration v s = Ok (Merged s') →
  well_formed v s'
  ∧ automaton s' = automaton s
  ∧ length (merges s') = S (length (merges s))
  ∧ (original <$> words s') = (original <$> words s)
  ∧ (tf <$> words s') = (tf <$> words s)
  ∧ (total_tokens (words s') < total_tokens (words s))%nat.
Proof.
  intros Hwf Hstep.
  destruct (iteration_spec v s Hwf) as (best & freq & Hsel & Hstop & Hmerge).
  destruct (decide (freq < 2)) as [Hlt|Hge].
  { rewrite (Hstop Hlt) in Hstep. discriminate. }
  destruct (Hmerge ltac:(lia))
    as (X & f1 & f2 & n & t' & rep & ws' & m' & HX & _ & _ & _ & _ & Hit & Hlk & Hwf').
  rewrite Hit in Hstep. injection Hstep as <-. simpl.
  apply lookup_imap_eq in Hlk. split_and!; [done | done | | | |].
  - rewrite length_app. simpl. lia.
  - rewrite Hlk. apply list_eq. intros j.
    rewrite !list_lookup_fmap, list_lookup_imap.
    destruct (words s !! j); [|done]. simpl. by case_decide.
  - rewrite Hlk. apply list_eq. intros j.
    rewrite !list_lookup_fmap, list_lookup_imap.
    destruct (words s !! j); [|done]. simpl. by case_decide.
  - destruct (set_choose_L X (wf_nonempty _ _ Hwf _ _ HX)) as [i Hi].
    destruct (wf_index _ _ Hwf) as [Hstale _].
    destruct (Hstale best i) as (w & Hw & Hadj); [by exists X|].
    rewrite Hlk. eapply total_tokens_imap_lt; [|done|].
    + intros j wj _. case_decide; [|done]. apply merge_pair_in_word_length.
    + rewrite decide_True by done. by apply merge_pair_in_word_shrinks.
Qed.

(** A merging pass does not make the corpus heavier, so a corpus that is
    light enough when the loop is entered keeps all its frequencies
    within [int]. *)
Lemma iteration_Merged_mass v s s' :
  well_formed v s → iteration v s = Ok (Merged s') →
  corpus_mass v (words s') ≤ corpus_mass v (words s).
Proof.
  intros Hwf Hstep.
  destruct (iteration_spec v s Hwf) as (best & freq & Hsel & Hstop & Hmerge).
  destruct (decide (freq < 2)) as [Hlt|Hge].
  { rewrite (Hstop Hlt) in Hstep. discriminate. }
  destruct (Hmerge ltac:(lia))
    as (X & f1 & f2 & n & t' & rep & ws' & m' & HX & _ & _ & _ & _ & Hit & Hlk & Hwf').
  rewrite Hit in Hstep. injection Hstep as <-. simpl.
  apply lookup_imap_eq in Hlk. rewrite Hlk.
  apply corpus_mass_imap_le. intros j w _. case_decide; [|done].
  split; [apply merge_pair_in_word_length | by destruct v].
Qed.

Lemma reachable_mass v s0 s :
  well_formed v s0 → reachable v s0 s →
  corpus_mass v (words s) ≤ corpus_mass v (words s0).
Proof.
  intros Hwf0. induction 1 as [|s s' Hreach IH Hstep]; [done|].
  pose proof (iteration_Merged_mass v s s' (reachable_wf v s0 s Hwf0 Hreach) Hstep).
  lia.
Qed.

Lemma frequencies_fit_of_mass v s0 s :
  well_formed v s0 → reachable v s0 s → corpus_mass v (words s0) ≤ INT_MAX →
  frequencies_fit v s.
Proof.
  intros Hwf0 Hreach Hmass p _.
  pose proof (reachable_mass v s0 s Hwf0 Hreach).
  pose proof (weighted_frequency_mass v (words s) p).
  unfold INT_MIN, INT_MAX in *. lia.
Qed.

(** With as many passes allowed as there are tokens, plus one, the loop
    ends by its [break]. *)
Lemma merge_loop_total v fuel s :
  well_formed v s → (total_tokens (words s) < fuel)%nat →
  ∃ s', merge_loop fuel v s = Ok s'
        ∧ reachable v s s'
        ∧ (length (merges s') ≤ length (merges s) + total_tokens (words s))%nat
        ∧ iteration v s' = Ok Finished.
Proof.
  revert s. induction fuel as [|fuel IH]; intros s Hwf Hfuel; [lia|].
  cbn [merge_loop].
  destruct (iteration_spec v s Hwf) as (best & freq & Hsel & Hstop & Hmerge).
  destruct (decide (freq < 2)) as [Hlt|Hge].
  - rewrite (Hstop Hlt). simpl. exists s.
    split_and!; [done | constructor | lia | by apply Hstop].
  - destruct (Hmerge ltac:(lia))
      as (? & ? & ? & ? & ? & ? & ? & ? & _ & _ & _ & _ & _ & Hit & _ & _).
    rewrite Hit. simpl.
    destruct (iteration_Merged_frame v s _ Hwf Hit) as (Hwf' & _ & Hlen & _ & _ & Hlt).
    destruct (IH _ Hwf' ltac:(lia)) as (s' & Hrun & Hreach & Hbound & Hfin).
    exists s'. split_and!; [done | | lia | done].
    clear -Hreach Hit. induction Hreach; [|by econstructor].
    econstructor; [constructor | done].
Qed.

End RunFacts.


(** ** The index invariant (claim C1) *)

Section Claims.
Context `{HashOrder} `{Codecvt}.

(** C1.  In every state of the merge loop — when the loop is entered and
    after every pass — the pair index tracks adjacency exactly: every word
    index registered under a key has that pair adjacent in its current
    tokens, and every adjacent pair of every word is a key under which the
    word is registered. *)
Theorem index_consistency v lines s :
  trained v lines s →
  (∀ p X idx, pair_to_word_indices s !! p = Some X → idx ∈ X →
     ∃ w, words s !! idx = Some w ∧ adjacent p (tokens w))
  ∧ (∀ idx w p, words s !! idx = Some w → adjacent p (tokens w) →
     ∃ X, pair_to_word_indices s !! p = Some X ∧ idx ∈ X).
Proof.
  intros Htr. destruct (wf_index _ _ (trained_wf v lines s Htr)) as [Hstale Hmiss].
  split.
  - intros p X idx HX Hidx. apply Hstale. by exists X.
  - intros idx w p Hw Hadj. by apply (Hmiss idx w p).
Qed.

(** C2.  The pair merged by a pass is a key of the pair index, and the
    frequency the program computes for it — the weighted frequency of a
    full rescan of the corpus, held in a 32-bit [int] — is at least the
    floor and at least the frequency it computes for every key of the
    index.  Where the weighted frequency of every key fits an [int], the
    merged pair has a weighted frequency that is at least the floor and at
    least the weighted frequency of every key. *)
Theorem selected_pair_is_most_frequent v lines s s' :
  trained v lines s → iteration v s = Ok (Merged s') →
  ∃ rule,
    merges s' = merges s ++ [rule]
    ∧ merge_pair rule ∈ dom (pair_to_word_indices s)
    ∧ 2 ≤ int_frequency v (words s) (merge_pair rule)
    ∧ (∀ p, p ∈ dom (pair_to_word_indices s) →
         int_frequency v (words s) p
         ≤ int_frequency v (words s) (merge_pair rule))
    ∧ (frequencies_fit v s →
         2 ≤ weighted_frequency v (words s) (merge_pair rule)
         ∧ ∀ p, p ∈ dom (pair_to_word_indices s) →
             weighted_frequency v (words s) p
             ≤ weighted_frequency v (words s) (merge_pair rule)).
Proof.
  intros Hwf%trained_wf Hstep.
  destruct (select_spec v s (wf_index _ _ Hwf)) as (best & freq & Hsel & _ & Hmax & Hpos).
  destruct (iteration_spec v s Hwf) as (best' & freq' & Hsel' & Hstop & Hmerge).
  rewrite Hsel in Hsel'. injection Hsel' as <- <-.
  destruct (decide (freq < 2)) as [Hlt|Hge].
  { rewrite (Hstop Hlt) in Hstep. discriminate. }
  destruct (Hmerge ltac:(lia))
    as (X & f1 & f2 & n & t' & rep & ws' & m' & _ & _ & _ & _ & _ & Hit & _ & _).
  rewrite Hit in Hstep. injection Hstep as <-.
  destruct (Hpos ltac:(lia)) as [Hdom Hfreq].
  exists (mkMergeRule best n rep). simpl. rewrite <- Hfreq.
  split_and!; [done | done | lia | done |].
  intros Hfit. rewrite <- (int_frequency_fits v s best Hfit Hdom), <- Hfreq.
  split; [lia|]. intros p Hp.
  rewrite <- (int_frequency_fits v s p Hfit Hp). by apply Hmax.
Qed.

(** C9.  A pass changes the tokens of no word but those registered under
    the merged pair when the pass begins, and it changes the original
    string, [tf] and [df] (hence the weight) of no word at all. *)
Theorem merge_touches_only_registered_words v lines s s' :
  trained v lines s → iteration v s = Ok (Merged s') →
  ∃ rule,
    merges s' = merges s ++ [rule]
    ∧ length (words s') = length (words s)
    ∧ ∀ idx w, words s !! idx = Some w →
        ∃ w', words s' !! idx = Some w'
              ∧ original w' = original w
              ∧ tf w' = tf w ∧ df w' = df w
              ∧ word_weight v w' = word_weight v w
              ∧ (¬ registered (pair_to_word_indices s) (merge_pair rule) idx →
                 tokens w' = tokens w).
Proof.
  intros Hwf%trained_wf Hstep.
  destruct (iteration_spec v s Hwf) as (best & freq & Hsel & Hstop & Hmerge).
  destruct (decide (freq < 2)) as [Hlt|Hge].
  { rewrite (Hstop Hlt) in Hstep. discriminate. }
  destruct (Hmerge ltac:(lia))
    as (X & f1 & f2 & n & t' & rep & ws' & m' & HX & _ & _ & _ & _ & Hit & Hlk & _).
  rewrite Hit in Hstep. injection Hstep as <-.
  exists (mkMergeRule best n rep). simpl. split_and!; [done | |].
  - apply lookup_imap_eq in Hlk. by rewrite Hlk, length_imap.
  - intros idx w Hw. rewrite Hlk, Hw. simpl. eexists. split; [done|].
    case_decide as Hidx.
    + split_and!; try done.
      intros Hnot. destruct Hnot. by exists X.
    + by split_and!.
Qed.

End Claims.


(** ** The naive counter counts every occurrence *)

Lemma count_occurrences_loop_shift rounds b str sub pos count :
  count_occurrences_loop rounds (String b str) sub (S pos) count
  = count_occurrences_loop rounds str sub pos count.
Proof.
  revert pos count. induction rounds as [|rounds IH]; intros pos count; [done|].
  simpl. destruct (String.index pos sub str) as [found|]; [apply IH | done].
Qed.

Lemma count_occurrences_loop_head rounds b str sub count :
  count_occurrences_loop (S rounds) (String b str) sub 0 count
  = if String.prefix sub (String b str)
    then count_occurrences_loop rounds str sub 0 (count + 1)
    else count_occurrences_loop (S rounds) str sub 0 count.
Proof.
  cbn [count_occurrences_loop String.index].
  destruct (String.prefix sub (String b str)).
  - apply count_occurrences_loop_shift.
  - destruct (String.index 0 sub str) as [found|]; [|done].
    apply count_occurrences_loop_shift.
Qed.

Lemma count_occurrences_loop_exact rounds str sub count :
  sub ≠ EmptyString → (String.length str < rounds)%nat →
  count_occurrences_loop rounds str sub 0 count = count + occurrences str sub.
Proof.
  intros Hsub. revert rounds count.
  induction str as [|b str IH]; intros rounds count Hlen.
  - destruct rounds as [|rounds]; [simpl in Hlen; lia|].
    destruct sub; [done|]. simpl. lia.
  - destruct rounds as [|rounds]; [simpl in Hlen; lia|]. simpl in Hlen.
    rewrite count_occurrences_loop_head. cbn [occurrences].
    destruct (String.prefix sub (String b str)).
    + rewrite IH by lia. lia.
    + rewrite IH by (simpl; lia). lia.
Qed.

(** [count_occurrences] is the number of positions at which the pattern
    starts, overlapping occurrences included. *)
Lemma count_occurrences_exact str sub :
  sub ≠ EmptyString → count_occurrences str sub = occurrences str sub.
Proof.
  intros Hsub. unfold count_occurrences. rewrite decide_False by done.
  rewrite count_occurrences_loop_exact by (done || lia). lia.
Qed.

Lemma foldl_Zsum {A} (g : A → Z) (l : list A) (a : Z) :
  foldl (λ acc x, acc + g x) a l = a + Zsum (g <$> l).
Proof.
  revert a. induction l as [|x l IH]; intros a.
  - unfold Zsum. simpl. lia.
  - cbn [foldl]. rewrite IH, fmap_cons, Zsum_cons. lia.
Qed.

Section ReportFacts.
Context `{HashOrder} `{Codecvt}.

Lemma reachable_frame v s0 s :
  well_formed v s0 → reachable v s0 s →
  automaton s = automaton s0
  ∧ (original <$> words s) = (original <$> words s0)
  ∧ (tf <$> words s) = (tf <$> words s0)
  ∧ (length (merges s) + total_tokens (words s)
     ≤ length (merges s0) + total_tokens (words s0))%nat.
Proof.
  intros Hwf0. induction 1 as [|s s' Hreach IH Hstep]; [done|].
  destruct IH as (Ha & Ho & Ht & Hm).
  destruct (iteration_Merged_frame v s s' (reachable_wf v s0 s Hwf0 Hreach) Hstep)
    as (_ & Ha' & Hlen & Ho' & Ht' & Hlt).
  split_and!; [congruence | congruence | congruence | lia].
Qed.

End ReportFacts.


(** ** The enumeration order matters for ties only *)

(** A tracking index without empty keys is determined by the words. *)
Lemma index_unique ws m1 m2 :
  pairs_tracked ws m1 → no_empty_key m1 →
  pairs_tracked ws m2 → no_empty_key m2 → m1 = m2.
Proof.
  assert (Hhalf : ∀ m1 m2 p X,
    pairs_tracked ws m1 → no_empty_key m1 → pairs_tracked ws m2 →
    m1 !! p = Some X → m2 !! p = Some X).
  { clear. intros m1 m2 p X Htr1 Hne1 Htr2 HX.
    destruct (set_choose_L X (Hne1 _ _ HX)) as [i Hi].
    assert (registered m2 p i) as (Y & HY & _).
    { apply Htr2, Htr1. by exists X. }
    rewrite HY. f_equal. apply set_eq. intros j. split.
    - intros Hj. assert (registered m1 p j) as (X' & HX' & Hj').
      { apply Htr1, Htr2. by exists Y. }
      congruence.
    - intros Hj. assert (registered m2 p j) as (Y' & HY' & Hj').
      { apply Htr2, Htr1. by exists X. }
      congruence. }
  intros Htr1 Hne1 Htr2 Hne2. apply map_eq. intros p.
  destruct (m1 !! p) as [X|] eqn:H1.
  - symmetry. by eapply (Hhalf m1 m2).
  - destruct (m2 !! p) as [Y|] eqn:H2; [|done].
    rewrite (Hhalf m2 m1 p Y Htr2 Hne2 Htr1 H2) in H1. discriminate.
Qed.

Lemma well_formed_pairs_tracked v s :
  well_formed v s → pairs_tracked (words s) (pair_to_word_indices s).
Proof.
  intros Hwf. apply index_tracks_pairs_tracked; [apply (wf_pairSet _ _ Hwf)|].
  apply (wf_index _ _ Hwf).
Qed.

(** The state in which the loop is entered does not depend on the order. *)
Lemma initial_trainer_order_independent (H1 H2 : HashOrder) v l :
  @initial_trainer H1 v l = @initial_trainer H2 v l.
Proof.
  unfold initial_trainer.
  replace (@build_index H1 0 (l_words l) ∅) with (@build_index H2 0 (l_words l) ∅);
    [done|].
  apply (index_unique (l_words l)).
  - apply (build_index_tracked (H:=H2)).
  - apply (no_empty_key_build_index (H:=H2)). intros p X HX. by rewrite lookup_empty in HX.
  - apply (build_index_tracked (H:=H1)).
  - apply (no_empty_key_build_index (H:=H1)). intros p X HX. by rewrite lookup_empty in HX.
Qed.

(** Without a tie for the first place, a pass has the same outcome under
    every enumeration order. *)
Lemma iteration_order_independent (H1 H2 : HashOrder) v s :
  well_formed v s → no_tie v s → @iteration H1 v s = @iteration H2 v s.
Proof.
  intros Hwf Htie. pose proof (wf_index _ _ Hwf) as Htr.
  destruct (select_spec (H:=H1) v s Htr) as (b1 & f1 & Hsel1 & Hnn1 & Hmax1 & Hpos1).
  destruct (select_spec (H:=H2) v s Htr) as (b2 & f2 & Hsel2 & Hnn2 & Hmax2 & Hpos2).
  destruct (iteration_spec (H:=H1) v s Hwf) as (b1' & f1' & Hsel1' & Hstop1 & Hmerge1).
  destruct (iteration_spec (H:=H2) v s Hwf) as (b2' & f2' & Hsel2' & Hstop2 & Hmerge2).
  rewrite Hsel1 in Hsel1'. injection Hsel1' as <- <-.
  rewrite Hsel2 in Hsel2'. injection Hsel2' as <- <-.
  assert (f1 = f2) as <-.
  { destruct (decide (0 < f1)) as [Hp1|Hp1];
      destruct (decide (0 < f2)) as [Hp2|Hp2]; [| | |lia].
    - destruct (Hpos1 Hp1) as [Hd1 He1]. destruct (Hpos2 Hp2) as [Hd2 He2].
      pose proof (Hmax1 _ Hd2). pose proof (Hmax2 _ Hd1). lia.
    - destruct (Hpos1 Hp1) as [Hd1 He1]. pose proof (Hmax2 _ Hd1). lia.
    - destruct (Hpos2 Hp2) as [Hd2 He2]. pose proof (Hmax1 _ Hd2). lia. }
  destruct (decide (f1 < 2)) as [Hlt|Hge].
  { by rewrite (Hstop1 Hlt), (Hstop2 Hlt). }
  destruct (Hpos1 ltac:(lia)) as [Hd1 He1]. destruct (Hpos2 ltac:(lia)) as [Hd2 He2].
  assert (b1 = b2) as <-.
  { apply Htie; [done | done | lia | congruence |]. intros r Hr. rewrite <- He1. by apply Hmax1. }
  destruct (Hmerge1 ltac:(lia))
    as (X & fs & ss & n & t' & rep & ws1 & m1 & HX & Hfs & Hss & Hget & Hrep & Hit1 & Hlk1 & Hwf1).
  destruct (Hmerge2 ltac:(lia))
    as (X' & fs' & ss' & n' & t'' & rep' & ws2 & m2 & HX' & Hfs' & Hss' & Hget' & Hrep' & Hit2 & Hlk2 & Hwf2).
  rewrite HX in HX'. injection HX' as <-.
  rewrite Hfs in Hfs'. injection Hfs' as <-.
  rewrite Hss in Hss'. injection Hss' as <-.
  rewrite Hget in Hget'. injection Hget' as <- <-.
  assert (rep = rep') as <-.
  { destruct v; simpl in Hrep, Hrep'; congruence. }
  assert (ws1 = ws2) as <-.
  { apply lookup_imap_eq in Hlk1, Hlk2. congruence. }
  assert (m1 = m2) as <-.
  { apply (index_unique ws1).
    - apply (well_formed_pairs_tracked _ _ Hwf1).
    - apply (wf_nonempty _ _ Hwf1).
    - apply (well_formed_pairs_tracked _ _ Hwf2).
    - apply (wf_nonempty _ _ Hwf2). }
  by rewrite Hit1, Hit2.
Qed.


(** ** Termination and the reported frequency (claims C5 and C4) *)

Lemma initial_trainer_fields `{HashOrder} v l s0 :
  initial_trainer v l = Ok s0 →
  words s0 = l_words l ∧ table s0 = l_table l ∧ merges s0 = []
  ∧ (v = bpe_sa_cpp → Sa.SuffixAutomaton_ctor (corpus_of (l_words l)) = Ok (automaton s0)).
Proof.
  unfold initial_trainer. intros Hinit.
  apply bind_Ok in Hinit as (sa & Hsa & Hinit). injection Hinit as <-. simpl.
  split_and!; try done. by intros ->.
Qed.

Section Claims2.
Context `{HashOrder} `{Codecvt}.

(** C5, as the code has it.  For every input the merge loop ends by its
    [break] after at most as many passes as the initial segmentation has
    tokens.  A pass stops the loop exactly when no pair reaches the floor
    of 2 with the frequency the program computes for it, the weighted
    frequency held in a 32-bit [int]; where the weighted frequency of
    every key of the index fits an [int], that is exactly when no pair has
    a weighted frequency of at least 2.  Every merging pass makes the
    total number of tokens of the corpus strictly smaller. *)
Theorem merge_loop_terminates v lines l s0 :
  load v lines = Ok l → initial_trainer v l = Ok s0 →
  (∀ fuel, (total_tokens (words s0) < fuel)%nat →
     ∃ s, merge_loop fuel v s0 = Ok s
          ∧ (length (merges s) ≤ total_tokens (words s0))%nat
          ∧ (∀ p, int_frequency v (words s) p < 2)
          ∧ (frequencies_fit v s → ∀ p, weighted_frequency v (words s) p < 2))
  ∧ (∀ s, reachable v s0 s →
       (iteration v s = Ok Finished ↔ ∀ p, int_frequency v (words s) p < 2)
       ∧ (frequencies_fit v s →
            (iteration v s = Ok Finished
             ↔ ∀ p, weighted_frequency v (words s) p < 2)))
  ∧ (∀ s s', reachable v s0 s → iteration v s = Ok (Merged s') →
       (total_tokens (words s') < total_tokens (words s))%nat).
Proof.
  intros Hload Hinit.
  pose proof (initial_trainer_wf v lines l s0 Hload Hinit) as Hwf0.
  destruct (initial_trainer_fields v l s0 Hinit) as (_ & _ & Hm0 & _).
  split_and!.
  - intros fuel Hfuel.
    destruct (merge_loop_total v fuel s0 Hwf0 Hfuel) as (s & Hrun & Hreach & Hlen & Hfin).
    pose proof (reachable_wf v s0 s Hwf0 Hreach) as Hwf.
    pose proof (proj1 (iteration_Finished_iff v s Hwf) Hfin) as Hint.
    exists s. split_and!; [done | rewrite Hm0 in Hlen; simpl in Hlen; lia | done |].
    intros Hfit. by apply (proj1 (frequencies_fit_floor v s Hwf Hfit)).
  - intros s Hreach. pose proof (reachable_wf v s0 s Hwf0 Hreach) as Hwf.
    split; [by apply iteration_Finished_iff|].
    intros Hfit. rewrite <- (frequencies_fit_floor v s Hwf Hfit).
    by apply iteration_Finished_iff.
  - intros s s' Hreach Hstep.
    by destruct (iteration_Merged_frame v s s' (reachable_wf v s0 s Hwf0 Hreach) Hstep)
      as (_ & _ & _ & _ & _ & Hlt).
Qed.

(** C4, as the code has it.  The rule appended by a pass names the string
    of its new token, the concatenation of the strings of the merged pair,
    and stores as its frequency: in bpe.cpp the [int] [best_freq] by which
    the pair was selected, which is the weighted frequency of the pair
    held in 32 bits, and the weighted frequency itself when that fits an
    [int]; in bpes/bpe.cpp the number of occurrences of the new string in
    the original words, overlaps included; in bpe_sa.cpp what
    [countOccurrences] of the automaton built over the corpus of the
    loaded words returns for the new string. *)
Theorem reported_frequency_by_variant v lines l s0 s s' :
  load v lines = Ok l → initial_trainer v l = Ok s0 →
  reachable v s0 s → iteration v s = Ok (Merged s') →
  ∃ rule first_str second_str,
    merges s' = merges s ++ [rule]
    ∧ token_string (table s) (merge_pair rule).1 = Some first_str
    ∧ token_string (table s) (merge_pair rule).2 = Some second_str
    ∧ token_string (table s') (new_token rule) = Some (first_str ++ second_str)%string
    ∧ match v with
      | bpe_cpp =>
          select v s = Ok (merge_pair rule, frequency rule)
          ∧ frequency rule = int_frequency v (words s) (merge_pair rule)
          ∧ (INT_MIN ≤ weighted_frequency v (words s) (merge_pair rule) ≤ INT_MAX →
               frequency rule
               = weighted_frequency v (words s) (merge_pair rule))
      | bpes_bpe_cpp =>
          frequency rule
          = Zsum ((λ w, occurrences (original w) (first_str ++ second_str))
                    <$> l_words l)
      | bpe_sa_cpp =>
          ∃ sa, Sa.SuffixAutomaton_ctor (corpus_of (l_words l)) = Ok sa
                ∧ Sa.countOccurrences sa (first_str ++ second_str) = Ok (frequency rule)
      end.
Proof.
  intros Hload Hinit Hreach Hstep.
  pose proof (initial_trainer_wf v lines l s0 Hload Hinit) as Hwf0.
  pose proof (reachable_wf v s0 s Hwf0 Hreach) as Hwf.
  destruct (initial_trainer_fields v l s0 Hinit) as (Hw0 & _ & _ & Hsa0).
  destruct (reachable_frame v s0 s Hwf0 Hreach) as (Haut & Horig & _ & _).
  destruct (select_spec v s (wf_index _ _ Hwf)) as (best & freq & Hsel & _ & _ & Hpos).
  destruct (iteration_spec v s Hwf) as (best' & freq' & Hsel' & Hstop & Hmerge).
  rewrite Hsel in Hsel'. injection Hsel' as <- <-.
  destruct (decide (freq < 2)) as [Hlt|Hge].
  { rewrite (Hstop Hlt) in Hstep. discriminate. }
  destruct (Hmerge ltac:(lia))
    as (X & fs & ss & n & t' & rep & ws' & m' & _ & Hfs & Hss & Hget & Hrep & Hit & _ & _).
  rewrite Hit in Hstep. injection Hstep as <-.
  pose proof (wf_table _ _ Hwf) as Htab.
  assert (Hne : (fs ++ ss)%string ≠ EmptyString).
  { apply string_append_nonempty. by eapply token_string_nonempty. }
  destruct (get_token_id_spec _ _ _ _ Htab Hne Hget) as (_ & Hn & _ & _).
  exists (mkMergeRule best n rep), fs, ss. simpl. split_and!; try done.
  destruct v; simpl in Hrep.
  - injection Hrep as <-. destruct (Hpos ltac:(lia)) as [_ Hfreq].
    split_and!; [done | done |].
    intros Hfit. rewrite Hfreq. by apply wrap_int_fits.
  - injection Hrep as <-. rewrite foldl_Zsum, Z.add_0_l.
    rewrite (Zsum_ext _ (λ w, occurrences (original w) (fs ++ ss))).
    + rewrite <- Hw0.
      change (λ w : WordEntry, occurrences (original w) (fs ++ ss))
        with ((λ o, occurrences o (fs ++ ss)) ∘ original).
      by rewrite !list_fmap_compose, Horig.
    + intros w _. by apply count_occurrences_exact.
  - exists (automaton s0). split; [by apply Hsa0 | by rewrite <- Haut].
Qed.

End Claims2.

(** ** The claims on the sample corpus *)

Lemma sample_s0_trained :
  @trained canonical_order ascii_codecvt bpe_cpp sample_lines sample_s0.
Proof.
  exists sample_loaded, sample_s0. split_and!.
  - vm_compute. reflexivity.
  - vm_compute. reflexivity.
  - apply reachable_start.
Defined.

Lemma sample_s0_step : @iteration canonical_order bpe_cpp sample_s0 = Ok (Merged sample_s1).
Proof. vm_compute. reflexivity. Defined.

Lemma sample_s1_trained :
  @trained canonical_order ascii_codecvt bpe_cpp sample_lines sample_s1.
Proof.
  exists sample_loaded, sample_s0. split_and!.
  - vm_compute. reflexivity.
  - vm_compute. reflexivity.
  - eapply reachable_step; [apply reachable_start|]. vm_compute. reflexivity.
Defined.

Lemma index_consistency_witness :
  @trained canonical_order ascii_codecvt bpe_cpp sample_lines sample_s1
  ∧ ((∀ p X idx, pair_to_word_indices sample_s1 !! p = Some X → idx ∈ X →
        ∃ w, words sample_s1 !! idx = Some w ∧ adjacent p (tokens w))
     ∧ (∀ idx w p, words sample_s1 !! idx = Some w → adjacent p (tokens w) →
        ∃ X, pair_to_word_indices sample_s1 !! p = Some X ∧ idx ∈ X)).
Proof.
  split; [exact sample_s1_trained|].
  exact (@index_consistency canonical_order ascii_codecvt bpe_cpp sample_lines
           sample_s1 sample_s1_trained).
Defined.

Lemma sample_s0_fits : frequencies_fit bpe_cpp sample_s0.
Proof.
  apply (@frequencies_fit_of_mass canonical_order bpe_cpp sample_s0 sample_s0).
  - apply (@initial_trainer_wf canonical_order ascii_codecvt bpe_cpp sample_lines
             sample_loaded); vm_compute; reflexivity.
  - apply reachable_start.
  - vm_compute. discriminate.
Qed.

Lemma selected_pair_is_most_frequent_witness :
  @trained canonical_order ascii_codecvt bpe_cpp sample_lines sample_s0
  ∧ @iteration canonical_order bpe_cpp sample_s0 = Ok (Merged sample_s1)
  ∧ frequencies_fit bpe_cpp sample_s0
  ∧ ∃ rule,
      merges sample_s1 = merges sample_s0 ++ [rule]
      ∧ merge_pair rule ∈ dom (pair_to_word_indices sample_s0)
      ∧ 2 ≤ int_frequency bpe_cpp (words sample_s0) (merge_pair rule)
      ∧ (∀ p, p ∈ dom (pair_to_word_indices sample_s0) →
           int_frequency bpe_cpp (words sample_s0) p
           ≤ int_frequency bpe_cpp (words sample_s0) (merge_pair rule))
      ∧ (frequencies_fit bpe_cpp sample_s0 →
           2 ≤ weighted_frequency bpe_cpp (words sample_s0) (merge_pair rule)
           ∧ ∀ p, p ∈ dom (pair_to_word_indices sample_s0) →
               weighted_frequency bpe_cpp (words sample_s0) p
               ≤ weighted_frequency bpe_cpp (words sample_s0) (merge_pair rule)).
Proof.
  split; [exact sample_s0_trained|]. split; [exact sample_s0_step|].
  split; [exact sample_s0_fits|].
  exact (@selected_pair_is_most_frequent canonical_order ascii_codecvt
           bpe_cpp sample_lines sample_s0 sample_s1 sample_s0_trained sample_s0_step).
Defined.

Lemma merge_touches_only_registered_words_witness :
  @trained canonical_order ascii_codecvt bpe_cpp sample_lines sample_s0
  ∧ @iteration canonical_order bpe_cpp sample_s0 = Ok (Merged sample_s1)
  ∧ ∃ rule,
      merges sample_s1 = merges sample_s0 ++ [rule]
      ∧ length (words sample_s1) = length (words sample_s0)
      ∧ ∀ idx w, words sample_s0 !! idx = Some w →
          ∃ w', words sample_s1 !! idx = Some w'
                ∧ original w' = original w
                ∧ tf w' = tf w ∧ df w' = df w
                ∧ word_weight bpe_cpp w' = word_weight bpe_cpp w
                ∧ (¬ registered (pair_to_word_indices sample_s0) (merge_pair rule) idx →
                   tokens w' = tokens w).
Proof.
  split; [exact sample_s0_trained|]. split; [exact sample_s0_step|].
  exact (@merge_touches_only_registered_words canonical_order ascii_codecvt
           bpe_cpp sample_lines sample_s0 sample_s1 sample_s0_trained sample_s0_step).
Defined.


Lemma sample_load : @load ascii_codecvt bpe_cpp sample_lines = Ok sample_loaded.
Proof. vm_compute. reflexivity. Defined.

Lemma sample_initial : @initial_trainer canonical_order bpe_cpp sample_loaded = Ok sample_s0.
Proof. vm_compute. reflexivity. Defined.

Lemma merge_loop_terminates_witness :
  @load ascii_codecvt bpe_cpp sample_lines = Ok sample_loaded
  ∧ @initial_trainer canonical_order bpe_cpp sample_loaded = Ok sample_s0
  ∧ (∀ fuel, (total_tokens (words sample_s0) < fuel)%nat →
       ∃ s, @merge_loop canonical_order fuel bpe_cpp sample_s0 = Ok s
            ∧ (length (merges s) ≤ total_tokens (words sample_s0))%nat
            ∧ (∀ p, int_frequency bpe_cpp (words s) p < 2)
            ∧ (frequencies_fit bpe_cpp s →
                 ∀ p, weighted_frequency bpe_cpp (words s) p < 2))
  ∧ (∀ s, @reachable canonical_order bpe_cpp sample_s0 s →
       (@iteration canonical_order bpe_cpp s = Ok Finished
        ↔ ∀ p, int_frequency bpe_cpp (words s) p < 2)
       ∧ (frequencies_fit bpe_cpp s →
            (@iteration canonical_order bpe_cpp s = Ok Finished
             ↔ ∀ p, weighted_frequency bpe_cpp (words s) p < 2)))
  ∧ (∀ s s', @reachable canonical_order bpe_cpp sample_s0 s →
       @iteration canonical_order bpe_cpp s = Ok (Merged s') →
       (total_tokens (words s') < total_tokens (words s))%nat).
Proof.
  split; [exact sample_load|]. split; [exact sample_initial|].
  exact (@merge_loop_terminates canonical_order ascii_codecvt bpe_cpp sample_lines
           sample_loaded sample_s0 sample_load sample_initial).
Defined.

(** C5 as stated fails twice.  On the one word [aaaa] with [tf = 2] the
    initial segmentation has one distinct adjacent pair, [(a,a)], and the
    loop of bpe.cpp performs two merges, [(a,a)] and then [(aa,aa)].  On two
    records [ab] with [tf = 2000000000] the loop stops at once, although the
    pair [(a,b)] has the weighted frequency 4000000000: the [int] in which
    bpe.cpp adds it up holds -294967296. *)
Lemma merge_count_exceeds_distinct_pairs :
  (@load ascii_codecvt bpe_cpp aaaa_twice_lines = Ok aaaa_twice_loaded
   ∧ @initial_trainer canonical_order bpe_cpp aaaa_twice_loaded = Ok aaaa_twice_s0
   ∧ @merge_loop canonical_order 5 bpe_cpp aaaa_twice_s0 = Ok aaaa_twice_final
   ∧ (tokens <$> words aaaa_twice_s0) = [[0; 0; 0; 0]]
   ∧ size (distinct_pairs (words aaaa_twice_s0)) = 1%nat
   ∧ (merge_pair <$> merges aaaa_twice_final) = [(0, 0); (1, 1)]
   ∧ id_to_token (table aaaa_twice_final) = ["a"; "aa"; "aaaa"]%string
   ∧ ¬ (length (merges aaaa_twice_final)
        ≤ size (distinct_pairs (words aaaa_twice_s0)))%nat)
  ∧ (@load ascii_codecvt bpe_cpp big_pair_lines = Ok big_pair_loaded
     ∧ @initial_trainer canonical_order bpe_cpp big_pair_loaded = Ok big_pair_s0
     ∧ (tokens <$> words big_pair_s0) = [[0; 1]; [0; 1]]
     ∧ (tf <$> words big_pair_s0) = [2000000000; 2000000000]
     ∧ @iteration canonical_order bpe_cpp big_pair_s0 = Ok Finished
     ∧ weighted_frequency bpe_cpp (words big_pair_s0) (0, 1) = 4000000000
     ∧ int_frequency bpe_cpp (words big_pair_s0) (0, 1) = -294967296
     ∧ ¬ (∀ p, weighted_frequency bpe_cpp (words big_pair_s0) p < 2)).
Proof.
  split.
  - split_and!; try (vm_compute; reflexivity).
    vm_compute. lia.
  - split_and!; try (vm_compute; reflexivity).
    intros Hall. specialize (Hall (0, 1)). vm_compute in Hall. discriminate.
Qed.

Lemma reported_frequency_by_variant_witness :
  @load ascii_codecvt bpe_cpp sample_lines = Ok sample_loaded
  ∧ @initial_trainer canonical_order bpe_cpp sample_loaded = Ok sample_s0
  ∧ @reachable canonical_order bpe_cpp sample_s0 sample_s0
  ∧ @iteration canonical_order bpe_cpp sample_s0 = Ok (Merged sample_s1)
  ∧ ∃ rule first_str second_str,
      merges sample_s1 = merges sample_s0 ++ [rule]
      ∧ token_string (table sample_s0) (merge_pair rule).1 = Some first_str
      ∧ token_string (table sample_s0) (merge_pair rule).2 = Some second_str
      ∧ token_string (table sample_s1) (new_token rule)
        = Some (first_str ++ second_str)%string
      ∧ @select canonical_order bpe_cpp sample_s0
        = Ok (merge_pair rule, frequency rule)
      ∧ frequency rule
        = int_frequency bpe_cpp (words sample_s0) (merge_pair rule)
      ∧ (INT_MIN ≤ weighted_frequency bpe_cpp (words sample_s0) (merge_pair rule)
         ≤ INT_MAX →
           frequency rule
           = weighted_frequency bpe_cpp (words sample_s0) (merge_pair rule)).
Proof.
  split; [exact sample_load|]. split; [exact sample_initial|].
  split; [apply reachable_start|]. split; [exact sample_s0_step|].
  exact (@reported_frequency_by_variant canonical_order ascii_codecvt bpe_cpp
           sample_lines sample_loaded sample_s0 sample_s0 sample_s1
           sample_load sample_initial
           (@reachable_start canonical_order bpe_cpp sample_s0) sample_s0_step).
Defined.

(** C4 as stated fails in bpe.cpp: for the one record [ab 5 1] the rule of
    the only merge stores 5, the weighted frequency of the pair [(a,b)],
    while [ab] occurs once in the original corpus. *)
Lemma bpe_cpp_reports_weighted_pair_frequency :
  @load ascii_codecvt bpe_cpp ab_lines = Ok ab_loaded
  ∧ @initial_trainer canonical_order bpe_cpp ab_loaded = Ok ab_s0
  ∧ @iteration canonical_order bpe_cpp ab_s0 = Ok (Merged ab_s1)
  ∧ merges ab_s1 = [mkMergeRule (0, 1) 2 5]
  ∧ token_string (table ab_s1) 2 = Some "ab"%string
  ∧ corpus_of (l_words ab_loaded) = "ab#"%string
  ∧ occurrences (corpus_of (l_words ab_loaded)) "ab" = 1
  ∧ weighted_frequency bpe_cpp (words ab_s0) (0, 1) = 5
  ∧ ∃ rule, rule ∈ merges ab_s1
            ∧ frequency rule = weighted_frequency bpe_cpp (words ab_s0) (merge_pair rule)
            ∧ frequency rule ≠ occurrences (corpus_of (l_words ab_loaded)) "ab".
Proof.
  split_and!; try (vm_compute; reflexivity).
  exists (mkMergeRule (0, 1) 2 5). split_and!.
  - replace (merges ab_s1) with [mkMergeRule (0, 1) 2 5] by (vm_compute; reflexivity).
    by apply list_elem_of_singleton.
  - vm_compute. reflexivity.
  - vm_compute. discriminate.
Qed.

(** The frequency bpe.cpp stores is the [int] it has summed: for the
    records [ab 2147483647 1] (twice) and [ab 4 1] the pair [(a,b)] has the
    weighted frequency 2^32 + 2 and the rule stores 2. *)
Lemma bpe_cpp_reports_the_int_sum :
  @load ascii_codecvt bpe_cpp wrapped_lines = Ok wrapped_loaded
  ∧ @initial_trainer canonical_order bpe_cpp wrapped_loaded = Ok wrapped_s0
  ∧ @iteration canonical_order bpe_cpp wrapped_s0 = Ok (Merged wrapped_s1)
  ∧ weighted_frequency bpe_cpp (words wrapped_s0) (0, 1) = 4294967298
  ∧ merges wrapped_s1 = [mkMergeRule (0, 1) 2 2].
Proof. split_and!; vm_compute; reflexivity. Qed.

(** C2 as stated fails in bpe.cpp: for the records [ab 2000000000 1]
    (twice) and [cd 3 1] the pair [(a,b)] has the weighted frequency
    4000000000, the [int] in which the program adds it up holds -294967296,
    and the pass merges [(c,d)], whose weighted frequency is 3. *)
Lemma bpe_cpp_merges_a_less_frequent_pair :
  @load ascii_codecvt bpe_cpp big_lines = Ok big_loaded
  ∧ @initial_trainer canonical_order bpe_cpp big_loaded = Ok big_s0
  ∧ @trained canonical_order ascii_codecvt bpe_cpp big_lines big_s0
  ∧ @iteration canonical_order bpe_cpp big_s0 = Ok (Merged big_s1)
  ∧ merges big_s0 = [] ∧ merges big_s1 = [mkMergeRule (2, 3) 4 3]
  ∧ (0, 1) ∈ dom (pair_to_word_indices big_s0)
  ∧ weighted_frequency bpe_cpp (words big_s0) (0, 1) = 4000000000
  ∧ int_frequency bpe_cpp (words big_s0) (0, 1) = -294967296
  ∧ weighted_frequency bpe_cpp (words big_s0) (2, 3) = 3
  ∧ ¬ (∃ rule, merges big_s1 = merges big_s0 ++ [rule]
               ∧ ∀ p, p ∈ dom (pair_to_word_indices big_s0) →
                   weighted_frequency bpe_cpp (words big_s0) p
                   ≤ weighted_frequency bpe_cpp (words big_s0) (merge_pair rule)).
Proof.
  assert (Hdom : (0, 1) ∈ dom (pair_to_word_indices big_s0)).
  { apply elem_of_dom. vm_compute. by eexists. }
  split_and!; try (vm_compute; reflexivity); try done.
  - exists big_loaded, big_s0. split_and!; [done | done | apply reachable_start].
  - intros (rule & Hrule & Hmax).
    change (merges big_s1) with [mkMergeRule (2, 3) 4 3] in Hrule.
    change (merges big_s0) with (@nil MergeRule) in Hrule.
    simpl in Hrule. injection Hrule as <-.
    specialize (Hmax (0, 1) Hdom). vm_compute in Hmax. by apply Hmax.
Qed.


(** ** The scenario of the single word [aaaa] (claim C6) *)

Lemma no_tie_singleton v s p0 :
  dom (pair_to_word_indices s) = {[ p0 ]} → no_tie v s.
Proof.
  intros Hdom p q Hp Hq _ _ _. rewrite Hdom in Hp, Hq.
  apply elem_of_singleton in Hp, Hq. congruence.
Qed.

Section Scenario.
Context `{HashOrder} `{Codecvt}.

Lemma load_aaaa v :
  code_points "aaaa" = Some ["a"; "a"; "a"; "a"]%string →
  load v aaaa_lines = Ok aaaa_loaded.
Proof.
  intros Hcp. unfold load, aaaa_lines. cbn [load_lines]. unfold load_line.
  rewrite decide_False by done.
  replace (parse_record v "aaaa 1 1") with (Some ("aaaa"%string, 1, 1))
    by (by destruct v).
  cbn beta iota. rewrite Hcp. vm_compute. reflexivity.
Qed.

Lemma aaaa_run v :
  @initial_trainer canonical_order v aaaa_loaded = Ok (aaaa_s0 v)
  ∧ @iteration canonical_order v (aaaa_s0 v) = Ok (Merged (aaaa_s1 v))
  ∧ @iteration canonical_order v (aaaa_s1 v) = Ok Finished
  ∧ dom (pair_to_word_indices (aaaa_s0 v)) = {[ (0, 0) ]}
  ∧ dom (pair_to_word_indices (aaaa_s1 v)) = {[ (1, 1) ]}.
Proof. destruct v; split_and!; vm_compute; reflexivity. Qed.

Lemma aaaa_states v :
  id_to_token (table (aaaa_s0 v)) = ["a"]%string
  ∧ (tokens <$> words (aaaa_s0 v)) = [[0; 0; 0; 0]]
  ∧ weighted_frequency v (words (aaaa_s0 v)) (0, 0) = 3
  ∧ (merge_pair <$> merges (aaaa_s1 v)) = [(0, 0)]
  ∧ (new_token <$> merges (aaaa_s1 v)) = [1]
  ∧ id_to_token (table (aaaa_s1 v)) = ["a"; "aa"]%string
  ∧ (tokens <$> words (aaaa_s1 v)) = [[1; 1]]
  ∧ weighted_frequency v (words (aaaa_s1 v)) (1, 1) = 1.
Proof. destruct v; split_and!; vm_compute; reflexivity. Qed.

(** C6, as the code has it.  On the single word [aaaa] of weight 1, under
    every enumeration order, the loop merges [(a,a)], whose frequency is 3
    (the adjacent occurrences overlap), into [aa], leaves the word as
    [aa aa], and then stops: the only pair left, [(aa,aa)], has frequency 1,
    below the floor.  The symbol [aaaa] is never created. *)
Theorem aaaa_is_merged_once v fuel :
  code_points "aaaa" = Some ["a"; "a"; "a"; "a"]%string → (2 ≤ fuel)%nat →
  ∃ l s0 s,
    load v aaaa_lines = Ok l
    ∧ initial_trainer v l = Ok s0
    ∧ merge_loop fuel v s0 = Ok s
    ∧ id_to_token (table s0) = ["a"]%string
    ∧ (tokens <$> words s0) = [[0; 0; 0; 0]]
    ∧ weighted_frequency v (words s0) (0, 0) = 3
    ∧ (merge_pair <$> merges s) = [(0, 0)]
    ∧ (new_token <$> merges s) = [1]
    ∧ id_to_token (table s) = ["a"; "aa"]%string
    ∧ (tokens <$> words s) = [[1; 1]]
    ∧ weighted_frequency v (words s) (1, 1) = 1.
Proof.
  intros Hcp Hfuel. destruct fuel as [|[|fuel]]; [lia | lia |].
  pose proof (load_aaaa v Hcp) as Hload.
  destruct (aaaa_run v) as (Hinit & Hstep1 & Hstep2 & Hdom0 & Hdom1).
  rewrite (initial_trainer_order_independent canonical_order H v aaaa_loaded) in Hinit.
  pose proof (initial_trainer_wf v _ _ _ Hload Hinit) as Hwf0.
  pose proof (iteration_Merged_frame (H:=canonical_order) v _ _ Hwf0 Hstep1)
    as (Hwf1 & _).
  rewrite (iteration_order_independent canonical_order H v _ Hwf0
             (no_tie_singleton v _ _ Hdom0)) in Hstep1.
  rewrite (iteration_order_independent canonical_order H v _ Hwf1
             (no_tie_singleton v _ _ Hdom1)) in Hstep2.
  exists aaaa_loaded, (aaaa_s0 v), (aaaa_s1 v).
  split; [done|]. split; [done|]. split.
  { cbn [merge_loop]. rewrite Hstep1. cbn [mbind result_bind]. by rewrite Hstep2. }
  apply aaaa_states.
Qed.

End Scenario.

Lemma aaaa_is_merged_once_witness :
  @code_points ascii_codecvt "aaaa" = Some ["a"; "a"; "a"; "a"]%string
  ∧ (2 ≤ 2)%nat
  ∧ ∃ l s0 s,
      @load ascii_codecvt bpe_sa_cpp aaaa_lines = Ok l
      ∧ @initial_trainer canonical_order bpe_sa_cpp l = Ok s0
      ∧ @merge_loop canonical_order 2 bpe_sa_cpp s0 = Ok s
      ∧ id_to_token (table s0) = ["a"]%string
      ∧ (tokens <$> words s0) = [[0; 0; 0; 0]]
      ∧ weighted_frequency bpe_sa_cpp (words s0) (0, 0) = 3
      ∧ (merge_pair <$> merges s) = [(0, 0)]
      ∧ (new_token <$> merges s) = [1]
      ∧ id_to_token (table s) = ["a"; "aa"]%string
      ∧ (tokens <$> words s) = [[1; 1]]
      ∧ weighted_frequency bpe_sa_cpp (words s) (1, 1) = 1.
Proof.
  split; [reflexivity|]. split; [lia|].
  exact (@aaaa_is_merged_once canonical_order ascii_codecvt bpe_sa_cpp 2%nat
           eq_refl (le_n 2)).
Defined.

(** C6 as stated fails: on the file whose only line is [aaaa] the loop of
    bpe_sa.cpp ends after one merge; there is no second rule and [aaaa] is
    not in the vocabulary. *)
Lemma aaaa_second_merge_does_not_happen :
  @load ascii_codecvt bpe_sa_cpp ["aaaa"%string] = Ok aaaa_sa_loaded
  ∧ @initial_trainer canonical_order bpe_sa_cpp aaaa_sa_loaded = Ok aaaa_sa_s0
  ∧ @merge_loop canonical_order 10 bpe_sa_cpp aaaa_sa_s0 = Ok aaaa_sa_final
  ∧ (merge_pair <$> merges aaaa_sa_final) = [(0, 0)]
  ∧ id_to_token (table aaaa_sa_final) = ["a"; "aa"]%string
  ∧ (tokens <$> words aaaa_sa_final) = [[1; 1]]
  ∧ ¬ (∃ r1 r2, merges aaaa_sa_final = [r1; r2]).
Proof.
  split_and!; try (vm_compute; reflexivity).
  intros (r1 & r2 & Heq). apply (f_equal length) in Heq.
  vm_compute in Heq. discriminate.
Qed.


(** ** The suffix automaton as an oracle (claims C3 and C8) *)

(** C3.  The constructor sorts the states by decreasing length into [order]
    and then propagates [occ] in index order, not in the sorted order.  On
    the corpus [aaa#] (the single word [aaa]) [countOccurrences("a")]
    returns 2, while the sliding-window count of the same file is 3 — the
    value the automaton returns when the propagation follows [order], as
    the specification describes it. *)
Theorem countOccurrences_undercounts :
  corpus_of [mkWordEntry "aaa" [0; 0; 0] (compute_pairs [0; 0; 0]) 1 1] = "aaa#"%string
  ∧ (sa ← Sa.SuffixAutomaton_ctor "aaa#"; Sa.countOccurrences sa "a") = Ok 2
  ∧ count_occurrences "aaa#" "a" = 3
  ∧ occurrences "aaa#" "a" = 3
  ∧ (sa ← Sa.SuffixAutomaton_ctor_by_length "aaa#"; Sa.countOccurrences sa "a") = Ok 3.
Proof. split_and!; vm_compute; reflexivity. Qed.

Section EmptyInput.
Context `{HashOrder} `{Codecvt}.

Lemma iter_index_empty : iter_index ∅ = [].
Proof.
  apply Permutation_nil_r. rewrite (iter_index_perm ∅). by rewrite map_to_list_empty.
Qed.

Lemma iter_freqs_empty : iter_freqs ∅ = [].
Proof.
  apply Permutation_nil_r. rewrite (iter_freqs_perm ∅). by rewrite map_to_list_empty.
Qed.

Lemma merge_loop_no_words v fuel t sa :
  merge_loop (S fuel) v (mkTrainer t [] ∅ [] sa) = Ok (mkTrainer t [] ∅ [] sa).
Proof.
  cbn [merge_loop]. unfold iteration, select. cbn [pair_to_word_indices words].
  rewrite iter_index_empty. cbn [find_best mbind result_bind].
  by rewrite decide_True by lia.
Qed.

(** C8.  With no valid word the corpus string of bpe_sa.cpp is empty, the
    constructor resizes [st] to [2 * 0] elements and then writes [st[0]]:
    an access outside the vector.  The same input runs through bpe.cpp,
    which has no automaton, and yields the two empty outputs and exit
    status 0. *)
Theorem empty_input_faults_in_bpe_sa fuel :
  Sa.SuffixAutomaton_ctor EmptyString = Err OutOfBounds
  ∧ main bpe_sa_cpp fuel [] = Err OutOfBounds
  ∧ main bpe_sa_cpp fuel [EmptyString; "  "%string] = Err OutOfBounds
  ∧ main bpe_cpp (S fuel) [] = Ok (mkOutput [] [] [] EXIT_SUCCESS)
  ∧ main bpe_cpp (S fuel) [EmptyString; "  "%string]
    = Ok (mkOutput [] [] ["  "%string] EXIT_SUCCESS).
Proof.
  split_and!; try reflexivity.
  - unfold main. cbn [load load_lines load_line mbind result_bind].
    unfold initial_trainer. cbn [l_words l_table l_cerr build_index mbind result_bind].
    rewrite merge_loop_no_words. cbn [mbind result_bind].
    unfold final_frequencies. cbn [mbind result_bind words final_frequencies_tf foldl].
    rewrite iter_freqs_empty. reflexivity.
  - unfold main, load. cbn [load_lines]. unfold load_line.
    rewrite decide_True by done. cbn [mbind result_bind].
    rewrite decide_False by done.
    replace (parse_record bpe_cpp "  ") with (@None (string * Z * Z)) by done.
    cbn [mbind result_bind].
    unfold initial_trainer. cbn [l_words l_table l_cerr build_index mbind result_bind].
    rewrite merge_loop_no_words. cbn [mbind result_bind].
    unfold final_frequencies. cbn [mbind result_bind words final_frequencies_tf foldl].
    rewrite iter_freqs_empty. reflexivity.
Qed.

End EmptyInput.


(** ** The loader (claim C7) *)

Lemma read_int_at_end rest : skipws rest = EmptyString → read_int rest = None.
Proof. intros Hrest. unfold read_int. by rewrite Hrest. Qed.

Lemma read_string_nonempty line word_str rest :
  read_string line = Some (word_str, rest) → line ≠ EmptyString.
Proof. intros Hread ->. discriminate Hread. Qed.

Section LoaderClaims.
Context `{Codecvt}.

(** C7, as the code has it.  An empty line is skipped without a
    diagnostic.  bpes/bpe.cpp and bpe_sa.cpp extract the word only: a line
    that starts, after white space, with a word is a record of weight 1,
    whatever follows the word, and a non-empty line without a word is
    reported on [cerr] and skipped.  bpe.cpp extracts a word and then the
    integers [tf] and [df], in this order: when the three extractions
    succeed the line is a record with these [tf] and [df] and with weight
    [tf]; when one of them fails, as the first integer does on a line
    with a word and nothing else, the line is reported on [cerr] and
    skipped.  In each of these cases the loader goes on with the next
    line.  A record whose word the converter rejects is not skipped: the
    exception ends the run. *)
Theorem loader_records v acc line :
  load_line v acc EmptyString = Ok acc
  ∧ (v ≠ bpe_cpp → line ≠ EmptyString → read_string line = None →
       load_line v acc line
       = Ok (mkLoaded (l_table acc) (l_words acc) (l_cerr acc ++ [line])))
  ∧ (v ≠ bpe_cpp → ∀ word_str rest,
       read_string line = Some (word_str, rest) →
       match code_points word_str with
       | Some cps =>
           ∃ entry t',
             load_line v acc line
             = Ok (mkLoaded t' (l_words acc ++ [entry]) (l_cerr acc))
             ∧ original entry = word_str
             ∧ word_weight v entry = 1
       | None => load_line v acc line = Err DecodeFailure
       end)
  ∧ (∀ word_str r1 first_int r2 second_int r3,
       read_string line = Some (word_str, r1) →
       read_int r1 = Some (first_int, r2) →
       read_int r2 = Some (second_int, r3) →
       match code_points word_str with
       | Some cps =>
           ∃ entry t',
             load_line bpe_cpp acc line
             = Ok (mkLoaded t' (l_words acc ++ [entry]) (l_cerr acc))
             ∧ original entry = word_str
             ∧ tf entry = first_int
             ∧ df entry = second_int
             ∧ word_weight bpe_cpp entry = first_int
       | None => load_line bpe_cpp acc line = Err DecodeFailure
       end)
  ∧ (line ≠ EmptyString →
     (read_string line = None
      ∨ ∃ word_str r1,
          read_string line = Some (word_str, r1)
          ∧ (read_int r1 = None
             ∨ ∃ first_int r2, read_int r1 = Some (first_int, r2)
                               ∧ read_int r2 = None)) →
     load_line bpe_cpp acc line
     = Ok (mkLoaded (l_table acc) (l_words acc) (l_cerr acc ++ [line])))
  ∧ (∀ word_str rest,
       read_string line = Some (word_str, rest) → skipws rest = EmptyString →
       load_line bpe_cpp acc line
       = Ok (mkLoaded (l_table acc) (l_words acc) (l_cerr acc ++ [line])))
  ∧ (∀ acc' rest,
       load_line v acc line = Ok acc' →
       load_lines v acc (line :: rest) = load_lines v acc' rest).
Proof.
  assert (Hdiag : line ≠ EmptyString →
    (read_string line = None
     ∨ ∃ word_str r1,
         read_string line = Some (word_str, r1)
         ∧ (read_int r1 = None
            ∨ ∃ first_int r2, read_int r1 = Some (first_int, r2)
                              ∧ read_int r2 = None)) →
    load_line bpe_cpp acc line
    = Ok (mkLoaded (l_table acc) (l_words acc) (l_cerr acc ++ [line]))).
  { intros Hne Hfail.
    assert (Hparse : parse_record bpe_cpp line = None).
    { simpl. destruct Hfail as [Hread | (w & r1 & Hread & Hints)];
        rewrite Hread; [done|]. simpl.
      destruct Hints as [Ha | (a & r2 & Ha & Hb)]; rewrite Ha; [done|].
      simpl. by rewrite Hb. }
    unfold load_line. by rewrite decide_False, Hparse. }
  split_and!.
  - unfold load_line. by rewrite decide_True.
  - intros Hv Hne Hread.
    assert (Hparse : parse_record v line = None).
    { destruct v; [done | |]; simpl; by rewrite Hread. }
    unfold load_line. by rewrite decide_False, Hparse.
  - intros Hv word_str rest Hread.
    assert (Hparse : parse_record v line = Some (word_str, 1, 1)).
    { destruct v; [done | |]; simpl; by rewrite Hread. }
    pose proof (read_string_nonempty _ _ _ Hread) as Hne.
    unfold load_line. rewrite decide_False, Hparse by done.
    destruct (code_points word_str) as [cps|]; [|done].
    cbn [of_option mbind result_bind].
    destruct (intern_all cps (l_table acc)) as [ids t'].
    eexists _, t'. split; [reflexivity|]. by destruct v.
  - intros word_str r1 a r2 b r3 Hread Ha Hb.
    assert (Hparse : parse_record bpe_cpp line = Some (word_str, a, b)).
    { simpl. rewrite Hread. simpl. rewrite Ha. simpl. by rewrite Hb. }
    pose proof (read_string_nonempty _ _ _ Hread) as Hne.
    unfold load_line. rewrite decide_False, Hparse by done.
    destruct (code_points word_str) as [cps|]; [|done].
    cbn [of_option mbind result_bind].
    destruct (intern_all cps (l_table acc)) as [ids t'].
    eexists _, t'. by split.
  - exact Hdiag.
  - intros word_str rest Hread Hrest.
    apply Hdiag; [by eapply read_string_nonempty|].
    right. exists word_str, rest. split; [done|]. left.
    by apply read_int_at_end.
  - intros acc' rest Hline. cbn [load_lines]. by rewrite Hline.
Qed.

End LoaderClaims.

Lemma loader_records_witness :
  (∃ entry t',
     @load_line ascii_codecvt bpe_cpp no_words "low 1,000 2"
     = Ok (mkLoaded t' [entry] [])
     ∧ original entry = "low"%string
     ∧ tf entry = 1000
     ∧ df entry = 2
     ∧ word_weight bpe_cpp entry = 1000)
  ∧ (∃ entry t',
       @load_line ascii_codecvt bpe_sa_cpp no_words "low 5 2"
       = Ok (mkLoaded t' [entry] [])
       ∧ original entry = "low"%string
       ∧ word_weight bpe_sa_cpp entry = 1)
  ∧ @load_line ascii_codecvt bpe_cpp no_words "low"
    = Ok (mkLoaded empty_table [] ["low"%string])
  ∧ @load_line ascii_codecvt bpe_sa_cpp no_words EmptyString = Ok no_words.
Proof.
  pose proof (@loader_records ascii_codecvt bpe_cpp no_words "low 1,000 2"%string)
    as (_ & _ & _ & Hrecord & _).
  pose proof (@loader_records ascii_codecvt bpe_sa_cpp no_words "low 5 2"%string)
    as (_ & _ & Hword & _).
  pose proof (@loader_records ascii_codecvt bpe_cpp no_words "low"%string)
    as (_ & _ & _ & _ & _ & Honly & _).
  pose proof (@loader_records ascii_codecvt bpe_sa_cpp no_words EmptyString)
    as (Hempty & _).
  split_and!.
  - exact (Hrecord "low"%string " 1,000 2"%string 1000 " 2"%string 2 EmptyString
             eq_refl eq_refl eq_refl).
  - exact (Hword ltac:(discriminate) "low"%string " 5 2"%string eq_refl).
  - exact (Honly "low"%string EmptyString eq_refl eq_refl).
  - exact Hempty.
Defined.

(** C7 as stated fails: bpe.cpp does not accept a record without a weight
    (the line [hello] is a word and nothing else; it yields no word, only a
    diagnostic); an empty line is skipped without any diagnostic; and a
    record whose word is not UTF-8 is not skipped, it ends the loading. *)
Lemma bpe_cpp_skips_word_without_weight :
  read_string "hello" = Some ("hello"%string, EmptyString)
  ∧ @load ascii_codecvt bpe_cpp ["hello"%string]
    = Ok (mkLoaded empty_table [] ["hello"%string])
  ∧ ¬ (∃ l entry, @load ascii_codecvt bpe_cpp ["hello"%string] = Ok l
                  ∧ entry ∈ l_words l)
  ∧ @load ascii_codecvt bpe_sa_cpp [EmptyString] = Ok (mkLoaded empty_table [] [])
  ∧ ¬ (∃ l, @load ascii_codecvt bpe_sa_cpp [EmptyString] = Ok l ∧ l_cerr l ≠ [])
  ∧ @load ascii_codecvt bpe_cpp invalid_utf8_lines = Err DecodeFailure
  ∧ ¬ (∃ l, @load ascii_codecvt bpe_cpp invalid_utf8_lines = Ok l).
Proof.
  split_and!; try reflexivity.
  - intros (l & entry & Hl & Hin).
    change (@load ascii_codecvt bpe_cpp ["hello"%string])
      with (Ok (mkLoaded empty_table [] ["hello"%string])) in Hl.
    injection Hl as <-. by apply elem_of_nil in Hin.
  - intros (l & Hl & Hne).
    change (@load ascii_codecvt bpe_sa_cpp [EmptyString])
      with (Ok (mkLoaded empty_table [] [])) in Hl.
    injection Hl as <-. by apply Hne.
  - intros (l & Hl). vm_compute in Hl. discriminate.
Qed.


(** ** The linked-list variant: the spacer stays out of the pair map
       (claim C10) *)

Lemma addOccurrence_spacer_free pmap p node :
  p.1 ≠ 0 → p.2 ≠ 0 → spacer_free pmap →
  spacer_free (Bpe2.addOccurrence pmap p node).
Proof.
  intros Hp1 Hp2 Hfree q d. unfold Bpe2.addOccurrence.
  rewrite lookup_insert. case_decide as Hq.
  - subst. done.
  - apply Hfree.
Qed.

Lemma removeOccurrence_spacer_free pmap p node :
  spacer_free pmap → spacer_free (Bpe2.removeOccurrence pmap p node).
Proof.
  intros Hfree q d. unfold Bpe2.removeOccurrence.
  destruct (pmap !! p) as [d0|] eqn:Hp; [|apply Hfree].
  case_decide.
  - rewrite lookup_delete. case_decide; [done | apply Hfree].
  - rewrite lookup_insert. case_decide as Hq; [|apply Hfree].
    subst. intros _. by eapply Hfree.
Qed.

Lemma delete_spacer_free (pmap : Bpe2.PairMap) p :
  spacer_free pmap → spacer_free (delete p pmap).
Proof.
  intros Hfree q d. rewrite lookup_delete. case_decide; [done | apply Hfree].
Qed.

Lemma buildPairMap_from_spacer_free fuel h cur pmap pmap' :
  spacer_free pmap → Bpe2.buildPairMap_from fuel h cur pmap = Ok pmap' →
  spacer_free pmap'.
Proof.
  revert cur pmap. induction fuel as [|fuel IH]; intros cur pmap Hfree Hrun;
    destruct cur as [c|]; simpl in Hrun; try (by simplify_eq);
    apply bind_Ok in Hrun as (n & Hn & Hrun);
    destruct (Bpe2.next n) as [nx|]; try (by simplify_eq);
    apply bind_Ok in Hrun as (nn & Hnn & Hrun); [done|].
  eapply IH; [|done]. case_decide as Hd; [|done].
  destruct Hd. by apply addOccurrence_spacer_free.
Qed.

Lemma store_lookup h a f h' x :
  Bpe2.store h a f = Ok h' →
  h' !! x = if decide (x = a) then f <$> h !! x else h !! x.
Proof.
  unfold Bpe2.store, Bpe2.deref. intros Hst.
  apply bind_Ok in Hst as (n & Hn%of_option_Ok & Hst). injection Hst as <-.
  rewrite lookup_insert. case_decide; case_decide; try congruence.
  subst. by rewrite Hn.
Qed.

Lemma deref_Ok h a n : Bpe2.deref h a = Ok n ↔ h !! a = Some n.
Proof. unfold Bpe2.deref. apply of_option_Ok. Qed.

Lemma store_keeps (P : Bpe2.Node → Bpe2.Node → Prop) h a f h' x n' :
  (∀ n, P n n) → (∀ n, P n (f n)) →
  Bpe2.store h a f = Ok h' → h' !! x = Some n' →
  ∃ n, h !! x = Some n ∧ P n n'.
Proof.
  intros Hrefl Hf Hst Hx. rewrite (store_lookup _ _ _ _ x Hst) in Hx.
  case_decide; [|by exists n'].
  destruct (h !! x) as [n|]; [|done]. injection Hx as <-. by exists n.
Qed.

Lemma store_forward (P : Bpe2.Node → Bpe2.Node → Prop) h a f h' x n :
  (∀ n, P n n) → (∀ n, P n (f n)) →
  Bpe2.store h a f = Ok h' → h !! x = Some n →
  ∃ n', h' !! x = Some n' ∧ P n n'.
Proof.
  intros Hrefl Hf Hst Hx. rewrite (store_lookup _ _ _ _ x Hst), Hx.
  case_decide; [by exists (f n) | by exists n].
Qed.

(** One splice: the pairs it adds have no spacer component, and it rewrites
    no node that carries the spacer token. *)
Lemma merge_occurrence_spec bestPair newTokenId h pmap left_ h' pmap' :
  bestPair.1 ≠ 0 → bestPair.2 ≠ 0 → spacer_free pmap →
  Bpe2.merge_occurrence bestPair newTokenId (h, pmap) left_ = Ok (h', pmap') →
  spacer_free pmap' ∧ spacers_untouched h h'.
Proof.
  intros Hb1 Hb2 Hfree Hrun.
  assert (Hid : spacers_untouched h h).
  { intros a n Hn Ht. by exists n. }
  unfold Bpe2.merge_occurrence in Hrun.
  apply bind_Ok in Hrun as (l & Hl%deref_Ok & Hrun).
  destruct (Bpe2.removed l); [by simplify_eq|].
  destruct (Bpe2.next l) as [right_|]; [|by simplify_eq].
  apply bind_Ok in Hrun as (r & Hr%deref_Ok & Hrun).
  destruct (Bpe2.removed r); [by simplify_eq|].
  case_decide as Hmatch; [by simplify_eq|].
  assert (Hlt : Bpe2.token l = bestPair.1).
  { destruct (decide (Bpe2.token l = bestPair.1)); [done|]. destruct Hmatch. by left. }
  assert (Hrt : Bpe2.token r = bestPair.2).
  { destruct (decide (Bpe2.token r = bestPair.2)); [done|]. destruct Hmatch. by right. }
  apply bind_Ok in Hrun as (h1 & Hh1 & Hrun).
  apply bind_Ok in Hrun as (h2 & Hh2 & Hrun).
  apply bind_Ok in Hrun as (h3 & Hh3 & Hrun).
  apply bind_Ok in Hrun as (h4 & Hh4 & Hrun).
  apply bind_Ok in Hrun as (l4 & Hl4%deref_Ok & Hrun).
  apply bind_Ok in Hrun as (pmap1 & Hp1 & Hrun).
  apply bind_Ok in Hrun as (pmap2 & Hp2 & Hrun).
  injection Hrun as <- <-.
  assert (Hh3' : ∀ x n', h3 !! x = Some n' →
            ∃ n, h2 !! x = Some n ∧ Bpe2.token n' = Bpe2.token n
                 ∧ Bpe2.removed n' = Bpe2.removed n).
  { intros x n' Hx. destruct (Bpe2.next r) as [after|].
    - eapply (store_keeps (λ n n', Bpe2.token n' = Bpe2.token n
                                   ∧ Bpe2.removed n' = Bpe2.removed n));
        [ | | exact Hh3 | exact Hx]; by intros.
    - injection Hh3 as <-. by exists n'. }
  assert (Hnew : Bpe2.token l4 = newTokenId).
  { assert (∃ n3, h3 !! left_ = Some n3 ∧ Bpe2.token l4 = Bpe2.token n3)
      as (n3 & Hn3 & E4).
    { eapply (store_keeps (λ n n', Bpe2.token n' = Bpe2.token n));
        [ | | exact Hh4 | exact Hl4]; by intros. }
    destruct (Hh3' _ _ Hn3) as (n2 & Hn2 & E3 & _).
    rewrite (store_lookup _ _ _ _ left_ Hh2), decide_True in Hn2 by done.
    rewrite (store_lookup _ _ _ _ left_ Hh1), decide_True, Hl in Hn2 by done.
    simpl in Hn2. injection Hn2 as <-. simpl in E3. congruence. }
  split.
  - (* both guarded insertions use non-spacer components *)
    assert (Hfree1 : spacer_free pmap1).
    { destruct (Bpe2.prev l4) as [pv|]; [|by simplify_eq].
      apply bind_Ok in Hp1 as (pn & _ & Hp1).
      destruct (negb (Bpe2.removed pn) && bool_decide (Bpe2.token pn ≠ 0)
                && bool_decide (Bpe2.token l4 ≠ 0)) eqn:Hguard; [|by simplify_eq].
      injection Hp1 as <-.
      apply andb_prop in Hguard as [[_ Hpn%bool_decide_eq_true]%andb_prop
                                    Hl4t%bool_decide_eq_true].
      apply addOccurrence_spacer_free; [done | | by apply removeOccurrence_spacer_free].
      simpl. congruence. }
    destruct (Bpe2.next l4) as [nx|]; [|by simplify_eq].
    apply bind_Ok in Hp2 as (nn & _ & Hp2).
    destruct (negb (Bpe2.removed nn) && bool_decide (Bpe2.token l4 ≠ 0)
              && bool_decide (Bpe2.token nn ≠ 0)) eqn:Hguard; [|by simplify_eq].
    injection Hp2 as <-.
    apply andb_prop in Hguard as [[_ Hl4t%bool_decide_eq_true]%andb_prop
                                  Hnn%bool_decide_eq_true].
    apply addOccurrence_spacer_free; [ | done | by apply removeOccurrence_spacer_free].
    simpl. congruence.
  - (* a node with the spacer token is neither [left] nor [right] *)
    intros a n Hn Ht.
    assert (a ≠ left_) as Hal by (intros ->; congruence).
    assert (a ≠ right_) as Har by (intros ->; congruence).
    assert (h2 !! a = Some n) as Hn2.
    { rewrite (store_lookup _ _ _ _ a Hh2), decide_False by done.
      by rewrite (store_lookup _ _ _ _ a Hh1), decide_False by done. }
    assert (∃ n3, h3 !! a = Some n3 ∧ Bpe2.token n3 = Bpe2.token n
                  ∧ Bpe2.removed n3 = Bpe2.removed n) as (n3 & Hn3 & Et & Er).
    { destruct (Bpe2.next r) as [after|].
      - eapply (store_forward (λ n n', Bpe2.token n' = Bpe2.token n
                                       ∧ Bpe2.removed n' = Bpe2.removed n));
          [ | | exact Hh3 | exact Hn2]; by intros.
      - injection Hh3 as <-. by exists n. }
    exists n3. rewrite (store_lookup _ _ _ _ a Hh4), decide_False by done.
    split_and!; [done | congruence | done].
Qed.

Lemma spacers_untouched_trans h1 h2 h3 :
  spacers_untouched h1 h2 → spacers_untouched h2 h3 → spacers_untouched h1 h3.
Proof.
  intros H12 H23 a n Hn Ht.
  destruct (H12 a n Hn Ht) as (n2 & Hn2 & Ht2 & Hr2).
  destruct (H23 a n2 Hn2 Ht2) as (n3 & Hn3 & Ht3 & Hr3).
  exists n3. split_and!; [done | done | congruence].
Qed.

Lemma merge_occurrences_spec bestPair newTokenId occList h pmap h' pmap' :
  bestPair.1 ≠ 0 → bestPair.2 ≠ 0 → spacer_free pmap →
  Bpe2.merge_occurrences bestPair newTokenId occList (h, pmap) = Ok (h', pmap') →
  spacer_free pmap' ∧ spacers_untouched h h'.
Proof.
  intros Hb1 Hb2. revert h pmap.
  induction occList as [|left_ rest IH]; intros h pmap Hfree Hrun; simpl in Hrun.
  - injection Hrun as <- <-. split; [done|]. intros a n Hn Ht. by exists n.
  - apply bind_Ok in Hrun as ([h1 pmap1] & Hone & Hrun).
    destruct (merge_occurrence_spec _ _ _ _ _ _ _ Hb1 Hb2 Hfree Hone) as [Hfree1 Hun1].
    destruct (IH _ _ Hfree1 Hrun) as [Hfree' Hun'].
    split; [done | by eapply spacers_untouched_trans].
Qed.

Lemma bpe2_find_best_spec entries bestPair bestFreq bp bf :
  Bpe2.find_best entries bestPair bestFreq = (bp, bf) →
  (bp = bestPair ∧ bf = bestFreq)
  ∨ (bestFreq < bf ∧ ∃ d, (bp, d) ∈ entries ∧ Bpe2.freq d = bf).
Proof.
  revert bestPair bestFreq. induction entries as [|[p d] rest IH];
    intros bestPair bestFreq Hfb; simpl in Hfb.
  - left. by injection Hfb as <- <-.
  - case_decide as Hgt.
    + right. destruct (IH _ _ Hfb) as [[-> ->] | (Hlt & d' & Hin & Hd')].
      * split; [lia|]. exists d. split; [by left | done].
      * split; [lia|]. exists d'. split; [by right | done].
    + destruct (IH _ _ Hfb) as [[-> ->] | (Hlt & d' & Hin & Hd')]; [by left|].
      right. split; [done|]. exists d'. split; [by right | done].
Qed.

Section Bpe2Claims.
Variable iter_pairMap : Bpe2.PairMap → list (Pair * Bpe2.PairData).
Hypothesis iter_pairMap_perm : ∀ m, iter_pairMap m ≡ₚ map_to_list m.

Lemma bpe2_initial_spacer_free lines s0 :
  Bpe2.initial_state lines = Ok s0 → spacer_free (Bpe2.pairMap s0).
Proof.
  unfold Bpe2.initial_state. intros Hrun.
  apply bind_Ok in Hrun as ([h1 t1] & _ & Hrun).
  apply bind_Ok in Hrun as (h2 & _ & Hrun).
  apply bind_Ok in Hrun as (pmap & Hbuild & Hrun). injection Hrun as <-. simpl.
  eapply buildPairMap_from_spacer_free; [|exact Hbuild].
  intros p d Hp. by rewrite lookup_empty in Hp.
Qed.

(** A merging pass: the pair it selects is a key of the pair map, so it
    has no spacer component; no spacer node is rewritten or removed; the
    pair map stays free of the spacer. *)
Lemma bpe2_iteration_spec s s' :
  spacer_free (Bpe2.pairMap s) →
  Bpe2.iteration iter_pairMap s = Ok (Bpe2.Merged s') →
  (Bpe2.select iter_pairMap s).1.1 ≠ 0
  ∧ (Bpe2.select iter_pairMap s).1.2 ≠ 0
  ∧ spacers_untouched (Bpe2.nodes (Bpe2.heap s)) (Bpe2.nodes (Bpe2.heap s'))
  ∧ spacer_free (Bpe2.pairMap s').
Proof.
  intros Hfree. unfold Bpe2.iteration.
  destruct (Bpe2.select iter_pairMap s) as [bestPair bestFreq] eqn:Hsel.
  case_decide as Hfloor; [discriminate|]. intros Hrun.
  assert (Hbest : bestPair.1 ≠ 0 ∧ bestPair.2 ≠ 0).
  { unfold Bpe2.select in Hsel.
    destruct (bpe2_find_best_spec _ _ _ _ _ Hsel) as [[_ ->] | (_ & d & Hin & _)]; [lia|].
    rewrite (iter_pairMap_perm (Bpe2.pairMap s)) in Hin.
    apply elem_of_map_to_list in Hin. by eapply Hfree. }
  destruct Hbest as [Hb1 Hb2].
  apply bind_Ok in Hrun as (first_str & _ & Hrun).
  apply bind_Ok in Hrun as (second_str & _ & Hrun).
  destruct (get_token_id (first_str ++ second_str) (Bpe2.table s)) as [newTokenId table'].
  apply bind_Ok in Hrun as ([nodes' pmap'] & Hocc & Hrun).
  injection Hrun as <-. simpl.
  destruct (merge_occurrences_spec _ _ _ _ _ _ _ Hb1 Hb2 Hfree Hocc) as [Hfree' Hun].
  split_and!; [done | done | done | by apply delete_spacer_free].
Qed.

(** C10.  In every state of the merge loop of bpe2.cpp — after
    [buildPairMap] and after every pass — no key of the pair map has the
    spacer (token 0) as a component.  Hence the pair a pass selects for
    merging has no spacer component, and the pass rewrites and removes no
    node that carries the spacer: no merge spans a word boundary. *)
Theorem spacer_never_paired lines s0 s :
  Bpe2.initial_state lines = Ok s0 → bpe2_reachable iter_pairMap s0 s →
  spacer_free (Bpe2.pairMap s)
  ∧ ∀ s', Bpe2.iteration iter_pairMap s = Ok (Bpe2.Merged s') →
      (Bpe2.select iter_pairMap s).1.1 ≠ 0
      ∧ (Bpe2.select iter_pairMap s).1.2 ≠ 0
      ∧ spacers_untouched (Bpe2.nodes (Bpe2.heap s)) (Bpe2.nodes (Bpe2.heap s'))
      ∧ spacer_free (Bpe2.pairMap s').
Proof.
  intros Hinit Hreach.
  assert (Hfree : spacer_free (Bpe2.pairMap s)).
  { induction Hreach as [|s s' Hreach IH Hstep]; [by eapply bpe2_initial_spacer_free|].
    by destruct (bpe2_iteration_spec s s' IH Hstep) as (_ & _ & _ & ?). }
  split; [done|]. intros s' Hstep. by apply bpe2_iteration_spec.
Qed.

End Bpe2Claims.

Lemma spacer_never_paired_witness :
  (∀ m : Bpe2.PairMap, map_to_list m ≡ₚ map_to_list m)
  ∧ Bpe2.initial_state bpe2_sample_lines = Ok bpe2_sample_s0
  ∧ bpe2_reachable map_to_list bpe2_sample_s0 bpe2_sample_s1
  ∧ spacer_free (Bpe2.pairMap bpe2_sample_s1)
  ∧ ∀ s', Bpe2.iteration map_to_list bpe2_sample_s1 = Ok (Bpe2.Merged s') →
      (Bpe2.select map_to_list bpe2_sample_s1).1.1 ≠ 0
      ∧ (Bpe2.select map_to_list bpe2_sample_s1).1.2 ≠ 0
      ∧ spacers_untouched (Bpe2.nodes (Bpe2.heap bpe2_sample_s1))
                          (Bpe2.nodes (Bpe2.heap s'))
      ∧ spacer_free (Bpe2.pairMap s').
Proof.
  assert (Hinit : Bpe2.initial_state bpe2_sample_lines = Ok bpe2_sample_s0)
    by (vm_compute; reflexivity).
  assert (Hstep : Bpe2.iteration map_to_list bpe2_sample_s0 = Ok (Bpe2.Merged bpe2_sample_s1))
    by (vm_compute; reflexivity).
  assert (Hreach : bpe2_reachable map_to_list bpe2_sample_s0 bpe2_sample_s1).
  { eapply bpe2_reachable_step; [apply bpe2_reachable_start | exact Hstep]. }
  split; [intros m; reflexivity|]. split; [done|]. split; [done|].
  exact (spacer_never_paired map_to_list (λ m, reflexivity _)
           bpe2_sample_lines bpe2_sample_s0 bpe2_sample_s1 Hinit Hreach).
Defined.


(** * Further properties of the code *)

(** ** The symbol table *)

(** X1.  [get_token_id] is an insert-or-lookup with a round trip: on a table
    whose map agrees with its vector, the identifier it returns stands for
    the token in the table it returns; asking again returns the same
    identifier and changes nothing; every identifier handed out earlier
    keeps its string; the returned table is again consistent; a new token
    receives the next free identifier, [id_to_token.size()], and a known
    token leaves the table as it was. *)
Theorem get_token_id_round_trip token t id t' :
  (∀ str i, token_to_id t !! str = Some i → token_string t i = Some str) →
  get_token_id token t = (id, t') →
  token_string t' id = Some token
  ∧ get_token_id token t' = (id, t')
  ∧ (∀ i s, token_string t i = Some s → token_string t' i = Some s)
  ∧ (∀ str i, token_to_id t' !! str = Some i → token_string t' i = Some str)
  ∧ (token_to_id t !! token = None →
       id = Z.of_nat (length (id_to_token t))
       ∧ id_to_token t' = id_to_token t ++ [token])
  ∧ (is_Some (token_to_id t !! token) → t' = t).
Proof.
  intros Hcons. unfold get_token_id.
  destruct (token_to_id t !! token) as [id0|] eqn:Hlook.
  - intros [= <- <-]. rewrite Hlook. split_and!; try done; by apply Hcons.
  - intros [= <- <-].
    assert (Hnew : token_string
                     (mkSymbolTable (<[token:=Z.of_nat (length (id_to_token t))]> (token_to_id t))
                                    (id_to_token t ++ [token]))
                     (Z.of_nat (length (id_to_token t))) = Some token).
    { apply token_string_Some. split; [lia|]. simpl.
      rewrite Nat2Z.id, lookup_app_r, Nat.sub_diag by lia. done. }
    assert (Hkeep : ∀ i s, token_string t i = Some s →
              token_string
                (mkSymbolTable (<[token:=Z.of_nat (length (id_to_token t))]> (token_to_id t))
                               (id_to_token t ++ [token])) i = Some s).
    { intros i s Hi. apply token_string_Some in Hi as [Hi0 Hi].
      apply token_string_Some. split; [done|]. simpl.
      by apply lookup_app_l_Some. }
    split; [done|]. split; [simpl; by rewrite lookup_insert_eq|].
    split; [done|]. split; [|split; [done|by intros [? ?]]].
    intros str i. simpl. rewrite lookup_insert. case_decide as Hstr.
    + intros [= <-]. by subst.
    + intros Hi. by apply Hkeep, Hcons.
Qed.

(** ** The helpers on one word *)

Lemma Zsum_indicator {A} `{EqDecision A} (a : A) (l : list A) :
  NoDup l → Zsum ((λ x, if decide (x = a) then 1 else 0) <$> l)
            = if decide (a ∈ l) then 1 else 0.
Proof.
  induction 1 as [|x l Hx Hnd IH]; [done|].
  rewrite fmap_cons, Zsum_cons, IH.
  destruct (decide (x = a)) as [->|Hne].
  - rewrite decide_False by done. rewrite decide_True by set_solver. done.
  - destruct (decide (a ∈ l)) as [Hin|Hin].
    + rewrite decide_True by set_solver. done.
    + rewrite decide_False by set_solver. done.
Qed.

Lemma Zsum_add {A} (f g : A → Z) (l : list A) :
  Zsum ((λ x, f x + g x) <$> l) = Zsum (f <$> l) + Zsum (g <$> l).
Proof.
  induction l as [|x l IH]; [done|].
  rewrite !fmap_cons, !Zsum_cons, IH. lia.
Qed.

Lemma count_occurrences_in_word_total (X : gset Pair) tokens :
  compute_pairs tokens ⊆ X →
  Zsum ((count_occurrences_in_word tokens) <$> elements X)
  = Z.of_nat (length tokens - 1).
Proof.
  revert X. induction tokens as [| |a b l _ IH] using list_ind2; intros X HX.
  - simpl. apply (Zsum_zero (elements X)).
  - simpl. apply (Zsum_zero (elements X)).
  - rewrite compute_pairs_cons in HX.
    rewrite (Zsum_ext _ (λ p, (if decide (p = (a, b)) then 1 else 0)
                              + count_occurrences_in_word (b :: l) p)).
    2:{ intros p _. rewrite count_occurrences_in_word_cons.
        f_equal. destruct p as [p1 p2]. simpl.
        destruct (decide (a = p1 ∧ b = p2)) as [[-> ->]|Hn].
        - by rewrite decide_True.
        - rewrite decide_False; [done|]. intros [= -> ->]. by apply Hn. }
    rewrite Zsum_add, Zsum_indicator by apply NoDup_elements.
    rewrite decide_True by set_solver.
    rewrite IH by set_solver. simpl length. lia.
Qed.

(** X2.  The set [compute_pairs] returns and the counter
    [count_occurrences_in_word] agree: a pair is in the set exactly when it
    is counted at least once; a count never exceeds the number of adjacent
    positions, [tokens.size() - 1] (0 for the empty vector, where the loop
    condition [i + 1 < tokens.size()] fails at once); and the counts of the
    pairs of the set add up to exactly that number, so every adjacent
    position is counted for one pair and one only. *)
Theorem pair_set_agrees_with_counts tokens p :
  (p ∈ compute_pairs tokens ↔ 0 < count_occurrences_in_word tokens p)
  ∧ 0 ≤ count_occurrences_in_word tokens p ≤ Z.of_nat (length tokens - 1)
  ∧ Zsum ((count_occurrences_in_word tokens) <$> elements (compute_pairs tokens))
    = Z.of_nat (length tokens - 1)
  ∧ ((length tokens < 2)%nat → compute_pairs tokens = ∅).
Proof.
  split_and!.
  - rewrite elem_of_compute_pairs. symmetry. apply count_occurrences_in_word_pos.
  - apply count_occurrences_in_word_nonneg.
  - pose proof (count_occurrences_in_word_total ({[p]} ∪ compute_pairs tokens) tokens)
      as Htotal.
    rewrite <- Htotal by set_solver.
    assert (Hnn : ∀ l : list Pair,
              Forall (λ x, 0 ≤ x) ((count_occurrences_in_word tokens) <$> l)).
    { intros l. apply Forall_fmap, Forall_forall. intros q _.
      apply count_occurrences_in_word_nonneg. }
    assert (Hin : p ∈ elements ({[p]} ∪ compute_pairs tokens)) by set_solver.
    apply list_elem_of_split in Hin as (l1 & l2 & ->).
    rewrite fmap_app, fmap_cons, Zsum_app, Zsum_cons.
    assert (Hge : ∀ l : list Pair, 0 ≤ Zsum ((count_occurrences_in_word tokens) <$> l)).
    { intros l. induction l as [|q l IH]; [done|].
      rewrite fmap_cons, Zsum_cons.
      pose proof (count_occurrences_in_word_nonneg tokens q). lia. }
    pose proof (Hge l1). pose proof (Hge l2). lia.
  - by apply count_occurrences_in_word_total.
  - destruct tokens as [|a [|b l]]; simpl; intros; try done; lia.
Qed.

Lemma token_count_cons t x l :
  token_count t (x :: l) = (if decide (x = t) then 1 else 0) + token_count t l.
Proof.
  unfold token_count. destruct (decide (x = t)) as [Hx|Hx].
  - rewrite filter_cons_True by done. simpl length. lia.
  - rewrite filter_cons_False by done. lia.
Qed.

Lemma token_count_nonneg t l : 0 ≤ token_count t l.
Proof. unfold token_count. lia. Qed.

Lemma unmerge_cons p n x l :
  unmerge p n (x :: l)
  = (if decide (x = n) then [p.1; p.2] else [x]) ++ unmerge p n l.
Proof. done. Qed.

(** X3.  [merge_pair_in_word] loses nothing: when the new token does not
    already occur in the word, putting the two tokens of the pair back in
    the place of every new token gives the vector the merge started from,
    and the vector has become shorter by exactly the number of new tokens
    written. *)
Theorem merge_pair_in_word_round_trip tokens target_pair new_token_id :
  new_token_id ∉ tokens →
  unmerge target_pair new_token_id
    (merge_pair_in_word tokens target_pair new_token_id) = tokens
  ∧ Z.of_nat (length (merge_pair_in_word tokens target_pair new_token_id))
    + token_count new_token_id (merge_pair_in_word tokens target_pair new_token_id)
    = Z.of_nat (length tokens).
Proof.
  induction tokens as [|a|a b l IHl IHbl] using list_ind2; intros Hfresh.
  - done.
  - change (merge_pair_in_word [a] target_pair new_token_id) with [a].
    rewrite unmerge_cons, token_count_cons.
    rewrite !decide_False by set_solver. done.
  - rewrite merge_pair_in_word_cons.
    destruct (decide (a = target_pair.1 ∧ b = target_pair.2)) as [[-> ->]|Hno].
    + destruct IHl as [IH1 IH2]; [set_solver|].
      rewrite unmerge_cons, token_count_cons, !decide_True by done.
      rewrite IH1. split; [done|]. simpl length. lia.
    + destruct IHbl as [IH1 IH2]; [set_solver|].
      rewrite unmerge_cons, token_count_cons, !decide_False by set_solver.
      rewrite IH1. split; [done|]. simpl length in *. lia.
Qed.

(** X4.  After [merge_pair_in_word] with a new token that is neither token
    of the pair, the pair no longer occurs in the word: it is counted zero
    times, it is out of the recomputed pair set, a second merge of the same
    pair changes nothing, the word is unchanged exactly when the pair did
    not occur in it, and it is strictly shorter when the pair did occur. *)
Theorem merge_pair_in_word_clears_the_pair tokens target_pair new_token_id :
  new_token_id ≠ target_pair.1 → new_token_id ≠ target_pair.2 →
  count_occurrences_in_word
    (merge_pair_in_word tokens target_pair new_token_id) target_pair = 0
  ∧ (target_pair ∉ compute_pairs (merge_pair_in_word tokens target_pair new_token_id))
  ∧ merge_pair_in_word (merge_pair_in_word tokens target_pair new_token_id)
      target_pair new_token_id
    = merge_pair_in_word tokens target_pair new_token_id
  ∧ (merge_pair_in_word tokens target_pair new_token_id = tokens
     ↔ target_pair ∉ compute_pairs tokens)
  ∧ (target_pair ∈ compute_pairs tokens →
     (length (merge_pair_in_word tokens target_pair new_token_id) < length tokens)%nat).
Proof.
  intros Hn1 Hn2.
  pose proof (merge_pair_in_word_removes tokens target_pair new_token_id Hn1 Hn2)
    as Hgone.
  split_and!.
  - apply count_occurrences_in_word_zero. by rewrite elem_of_compute_pairs.
  - by rewrite elem_of_compute_pairs.
  - by apply merge_pair_in_word_id.
  - rewrite elem_of_compute_pairs. split.
    + intros Heq. by rewrite Heq in Hgone.
    + apply merge_pair_in_word_id.
  - rewrite elem_of_compute_pairs. apply merge_pair_in_word_shrinks.
Qed.


(** ** The symbol table through loading and training *)

Lemma table_extends_refl t : table_extends t t.
Proof. by intros id str. Qed.

Lemma table_extends_trans t1 t2 t3 :
  table_extends t1 t2 → table_extends t2 t3 → table_extends t1 t3.
Proof. intros H12 H23 id str Hid. by apply H23, H12. Qed.

Lemma get_token_id_extends token t id t' :
  get_token_id token t = (id, t') →
  table_extends t t'
  ∧ ∃ new, id_to_token t' = id_to_token t ++ new ∧ (length new ≤ 1)%nat.
Proof.
  unfold get_token_id. destruct (token_to_id t !! token) as [id0|].
  - intros [= <- <-]. split; [apply table_extends_refl|].
    exists []. rewrite app_nil_r. split; [done|simpl; lia].
  - intros [= <- <-]. split.
    + intros i s Hi. apply token_string_Some in Hi as [Hi0 Hi].
      apply token_string_Some. split; [done|]. simpl. by apply lookup_app_l_Some.
    + exists [token]. simpl. split; [done|lia].
Qed.

Lemma empty_table_inverse : table_inverse empty_table.
Proof.
  intros str id. unfold token_string. simpl. rewrite lookup_empty.
  case_decide; [rewrite lookup_nil|]; done.
Qed.

Lemma get_token_id_inverse token t id t' :
  table_inverse t → get_token_id token t = (id, t') → table_inverse t'.
Proof.
  intros Hinv. unfold get_token_id.
  destruct (token_to_id t !! token) as [id0|] eqn:Hlook; intros [= <- <-]; [done|].
  intros str i. rewrite token_string_Some. simpl.
  rewrite lookup_insert. case_decide as Hstr.
  - subst str. split.
    + intros [= <-]. split; [lia|].
      by rewrite Nat2Z.id, lookup_app_r, Nat.sub_diag by lia.
    + intros [Hi0 Hi]. apply lookup_app_Some in Hi as [Hi | [Hlen Hi]].
      * assert (token_to_id t !! token = Some i) as Habs.
        { apply Hinv, token_string_Some. done. }
        congruence.
      * apply list_lookup_singleton_Some in Hi as [Hi _]. f_equal. lia.
  - rewrite (Hinv str i), token_string_Some. split.
    + intros [Hi0 Hi]. split; [done|]. by apply lookup_app_l_Some.
    + intros [Hi0 Hi]. split; [done|].
      apply lookup_app_Some in Hi as [Hi | [Hlen Hi]]; [done|].
      apply list_lookup_singleton_Some in Hi as [_ Hi]. congruence.
Qed.

Lemma table_inverse_NoDup t : table_inverse t → NoDup (id_to_token t).
Proof.
  intros Hinv. apply NoDup_alt. intros i j str Hi Hj.
  assert (token_to_id t !! str = Some (Z.of_nat i)) as Hi'.
  { apply Hinv, token_string_Some. rewrite Nat2Z.id. split; [lia|done]. }
  assert (token_to_id t !! str = Some (Z.of_nat j)) as Hj'.
  { apply Hinv, token_string_Some. rewrite Nat2Z.id. split; [lia|done]. }
  rewrite Hi' in Hj'. injection Hj' as Hij. lia.
Qed.

Lemma intern_all_inverse cps t ids t' :
  table_inverse t → intern_all cps t = (ids, t') → table_inverse t'.
Proof.
  revert t ids t'. induction cps as [|token rest IH]; intros t ids t' Hinv; simpl.
  - by intros [= <- <-].
  - destruct (get_token_id token t) as [token_id t1] eqn:Hget.
    destruct (intern_all rest t1) as [ids' t2] eqn:Hrec. intros [= <- <-].
    eapply IH; [|done]. by eapply get_token_id_inverse.
Qed.

Lemma intern_all_round_trip (cps : list string) t (ids : list Z) t' :
  table_ok t → Forall (λ str, str ≠ EmptyString) cps →
  intern_all cps t = (ids, t') →
  table_extends t t' ∧ token_string t' <$> ids = Some <$> cps.
Proof.
  revert t ids t'. induction cps as [|token rest IH]; intros t ids t' Hok Hne; simpl.
  - intros [= <- <-]. split; [apply table_extends_refl|done].
  - apply Forall_cons in Hne as [Htoken Hrest].
    destruct (get_token_id token t) as [token_id t1] eqn:Hget.
    destruct (intern_all rest t1) as [ids' t2] eqn:Hrec. intros [= <- <-].
    destruct (get_token_id_spec _ _ _ _ Hok Htoken Hget) as (Hok1 & Hid & _ & Hext1).
    destruct (IH _ _ _ Hok1 Hrest Hrec) as [Hext2 Hids].
    split.
    + by eapply table_extends_trans.
    + rewrite !fmap_cons, Hids. f_equal. by apply Hext2.
Qed.

Lemma fmap_token_string_extends t t' (ids : list Z) (strs : list string) :
  table_extends t t' →
  token_string t <$> ids = Some <$> strs → token_string t' <$> ids = Some <$> strs.
Proof.
  intros Hext. revert strs. induction ids as [|id ids IH]; intros [|str strs]; try done.
  rewrite !fmap_cons. intros [= Hid Hids]. f_equal; [by apply Hext|by apply IH].
Qed.

Lemma render_extends t t' ids str :
  table_extends t t' → render t ids = Some str → render t' ids = Some str.
Proof.
  intros Hext. revert str. induction ids as [|id ids IH]; intros str; simpl; [done|].
  destruct (token_string t id) as [s|] eqn:Hs; [|done]. simpl.
  destruct (render t ids) as [r|] eqn:Hr; [|done]. simpl. intros [= <-].
  by rewrite (Hext _ _ Hs), (IH _ eq_refl).
Qed.

Lemma render_of_strings t (ids : list Z) (strs : list string) :
  token_string t <$> ids = Some <$> strs → render t ids = Some (spell strs).
Proof.
  revert strs. induction ids as [|id ids IH]; intros [|str strs]; try done.
  rewrite !fmap_cons. intros [= Hid Hids]. simpl.
  by rewrite Hid, (IH _ Hids).
Qed.

Lemma string_app_assoc (s1 s2 s3 : string) :
  ((s1 ++ s2) ++ s3)%string = (s1 ++ (s2 ++ s3))%string.
Proof.
  induction s1 as [|c s1 IH]; [done|].
  change (String c ((s1 ++ s2) ++ s3) = String c (s1 ++ (s2 ++ s3)))%string.
  by f_equal.
Qed.

Lemma render_merge_pair_in_word t tokens p n a b :
  token_string t p.1 = Some a → token_string t p.2 = Some b →
  token_string t n = Some (a ++ b)%string →
  render t (merge_pair_in_word tokens p n) = render t tokens.
Proof.
  intros Ha Hb Hn.
  induction tokens as [|x|x y l IHl IHyl] using list_ind2; [done|done|].
  rewrite merge_pair_in_word_cons.
  destruct (decide (x = p.1 ∧ y = p.2)) as [[-> ->]|Hno].
  - cbn [render]. rewrite IHl, Hn, Ha, Hb.
    destruct (render t l) as [r|]; [|done].
    cbn [mbind option_bind]. by rewrite string_app_assoc.
  - cbn [render] in *. by rewrite IHyl.
Qed.

Section TableFacts.
Context `{HashOrder} `{Codecvt}.

Lemma load_line_tokenised v acc line acc' :
  table_ok (l_table acc) → table_inverse (l_table acc) →
  tokenised (l_table acc) (l_words acc) →
  load_line v acc line = Ok acc' →
  table_inverse (l_table acc') ∧ tokenised (l_table acc') (l_words acc').
Proof.
  intros Htab Hinv Htok. unfold load_line. case_decide; [by intros [= <-]|].
  destruct (parse_record v line) as [[[word_str tf0] df0]|]; [|by intros [= <-]].
  intros Hrun. apply bind_Ok in Hrun as (cps & Hcps%of_option_Ok & Hrun).
  destruct (intern_all cps (l_table acc)) as [ids t'] eqn:Hint.
  injection Hrun as <-. simpl.
  destruct (intern_all_round_trip _ _ _ _ Htab (code_points_nonempty _ _ Hcps) Hint)
    as [Hext Hids].
  split; [by eapply intern_all_inverse|].
  intros w [Hw | ->%list_elem_of_singleton]%elem_of_app.
  - destruct (Htok w Hw) as (cps' & Hcps' & Hspell).
    exists cps'. split; [done|]. by eapply fmap_token_string_extends.
  - exists cps. by split.
Qed.

Lemma load_lines_tokenised v acc lines acc' :
  loaded_ok acc → table_inverse (l_table acc) →
  tokenised (l_table acc) (l_words acc) →
  load_lines v acc lines = Ok acc' →
  table_inverse (l_table acc') ∧ tokenised (l_table acc') (l_words acc').
Proof.
  revert acc. induction lines as [|line rest IH]; intros acc Hok Hinv Htok; simpl.
  - by intros [= <-].
  - intros Hrun. apply bind_Ok in Hrun as (acc1 & Hline & Hrun).
    destruct (load_line_tokenised _ _ _ _ (proj1 Hok) Hinv Htok Hline) as [Hinv1 Htok1].
    eapply IH; [|done|done|done]. by eapply load_line_ok.
Qed.

Lemma load_tokenised v lines l :
  load v lines = Ok l → table_inverse (l_table l) ∧ tokenised (l_table l) (l_words l).
Proof.
  apply load_lines_tokenised.
  - split; [apply empty_table_ok|]. intros w Hw. by apply elem_of_nil in Hw.
  - apply empty_table_inverse.
  - intros w Hw. by apply elem_of_nil in Hw.
Qed.

(** X5.  The loader tokenises a word into its code points: after loading,
    every word has one token for each wide character the converter found
    in it, in order, and the string of that token in the symbol table is
    the converter's encoding of that character. *)
Theorem loaded_words_are_their_code_points v lines l w :
  load v lines = Ok l → w ∈ l_words l →
  ∃ cps, code_points (original w) = Some cps
         ∧ token_string (l_table l) <$> tokens w = Some <$> cps
         ∧ length (tokens w) = length cps
         ∧ render (l_table l) (tokens w) = Some (spell cps).
Proof.
  intros Hload Hw. destruct (load_tokenised _ _ _ Hload) as [_ Htok].
  destruct (Htok w Hw) as (cps & Hcps & Hids). exists cps.
  split_and!; [done|done| |by apply render_of_strings].
  apply (f_equal length) in Hids. by rewrite !length_fmap in Hids.
Qed.

End TableFacts.


(** ** What a merging pass keeps *)

Section LoopFacts.
Context `{HashOrder} `{Codecvt}.

Lemma iteration_Merged_inv v s s' :
  well_formed v s → iteration v s = Ok (Merged s') →
  ∃ best freq X first_str second_str n reported,
    select v s = Ok (best, freq) ∧ 2 ≤ freq
    ∧ pair_to_word_indices s !! best = Some X
    ∧ token_string (table s) best.1 = Some first_str
    ∧ token_string (table s) best.2 = Some second_str
    ∧ get_token_id (first_str ++ second_str) (table s) = (n, table s')
    ∧ reported_frequency v s (first_str ++ second_str) freq = Ok reported
    ∧ merges s' = merges s ++ [mkMergeRule best n reported]
    ∧ automaton s' = automaton s
    ∧ (∀ j, words s' !! j =
            (λ w, if decide (j ∈ X) then merge_word best n w else w)
              <$> words s !! j)
    ∧ well_formed v s'.
Proof.
  intros Hwf Hstep.
  destruct (iteration_spec v s Hwf) as (best & freq & Hsel & Hfin & Hmerge).
  destruct (decide (freq < 2)) as [Hlt|Hge].
  { rewrite (Hfin Hlt) in Hstep. discriminate. }
  destruct Hmerge as (X & first_str & second_str & n & table' & reported & ws' & m'
                      & HX & Hfirst & Hsecond & Hget & Hrep & Hit & Hws' & Hwf');
    [lia|].
  rewrite Hit in Hstep. injection Hstep as <-.
  exists best, freq, X, first_str, second_str, n, reported. simpl.
  split_and!; try done. lia.
Qed.

Lemma iteration_keeps_spelling v s s' :
  well_formed v s → table_inverse (table s) →
  spelled (table s) (words s) → rules_spelled (table s) (merges s) →
  iteration v s = Ok (Merged s') →
  table_extends (table s) (table s')
  ∧ table_inverse (table s')
  ∧ spelled (table s') (words s')
  ∧ rules_spelled (table s') (merges s')
  ∧ ∃ new, id_to_token (table s') = id_to_token (table s) ++ new
           ∧ (length new ≤ 1)%nat.
Proof.
  intros Hwf Hinv Hsp Hrules Hstep.
  destruct (iteration_Merged_inv v s s' Hwf Hstep)
    as (best & freq & X & first_str & second_str & n & reported & Hsel & Hfreq & HX
        & Hfirst & Hsecond & Hget & Hrep & Hmerges & Haut & Hws' & Hwf').
  destruct (get_token_id_extends _ _ _ _ Hget) as [Hext Hnew].
  assert (Hne : (first_str ++ second_str)%string ≠ EmptyString).
  { apply string_append_nonempty.
    eapply token_string_nonempty; [apply (wf_table v s Hwf)|done]. }
  destruct (get_token_id_spec _ _ _ _ (wf_table v s Hwf) Hne Hget)
    as (_ & Hn & _ & _).
  split_and!; [done | by eapply get_token_id_inverse | | | done].
  - intros idx w' Hw'. rewrite Hws' in Hw'.
    destruct (words s !! idx) as [w|] eqn:Hw; [|done].
    injection Hw' as <-.
    destruct (Hsp idx w Hw) as (cps & Hcps & Hrender).
    exists cps. apply (render_extends _ _ _ _ Hext) in Hrender.
    case_decide; [|done]. simpl. split; [done|].
    rewrite (render_merge_pair_in_word _ _ _ _ first_str second_str); try done.
    + by apply Hext.
    + by apply Hext.
  - intros rule. rewrite Hmerges.
    intros [Hrule | ->%list_elem_of_singleton]%elem_of_app.
    + destruct (Hrules rule Hrule) as (a & b & Ha & Hb & Hab).
      exists a, b. split_and!; by apply Hext.
    + exists first_str, second_str. simpl. split_and!; [by apply Hext|by apply Hext|done].
Qed.

Lemma initial_trainer_spelling v lines l s0 :
  load v lines = Ok l → initial_trainer v l = Ok s0 →
  table_inverse (table s0) ∧ spelled (table s0) (words s0)
  ∧ rules_spelled (table s0) (merges s0).
Proof.
  intros Hload Hinit.
  destruct (initial_trainer_fields v l s0 Hinit) as (Hws & Htab & Hm & _).
  destruct (load_tokenised v lines l Hload) as [Hinv Htok].
  rewrite Hws, Htab, Hm. split_and!; [done| |].
  - intros idx w Hw. destruct (Htok w) as (cps & Hcps & Hids).
    { by eapply list_elem_of_lookup_2. }
    exists cps. split; [done|]. by apply render_of_strings.
  - intros rule Hrule. by apply elem_of_nil in Hrule.
Qed.

Lemma reachable_spelling v s0 s :
  well_formed v s0 → table_inverse (table s0) →
  spelled (table s0) (words s0) → rules_spelled (table s0) (merges s0) →
  reachable v s0 s →
  table_extends (table s0) (table s)
  ∧ table_inverse (table s)
  ∧ spelled (table s) (words s)
  ∧ rules_spelled (table s) (merges s)
  ∧ ∃ new, id_to_token (table s) = id_to_token (table s0) ++ new
           ∧ (length new + length (merges s0) ≤ length (merges s))%nat.
Proof.
  intros Hwf0 Hinv0 Hsp0 Hrules0. induction 1 as [|s s' Hreach IH Hstep].
  - split_and!; try done; [apply table_extends_refl|].
    exists []. rewrite app_nil_r. split; [done|simpl; lia].
  - destruct IH as (Hext & Hinv & Hsp & Hrules & new & Hnew & Hlen).
    pose proof (reachable_wf v s0 s Hwf0 Hreach) as Hwf.
    destruct (iteration_keeps_spelling v s s' Hwf Hinv Hsp Hrules Hstep)
      as (Hext' & Hinv' & Hsp' & Hrules' & new' & Hnew' & Hlen').
    destruct (iteration_Merged_frame v s s' Hwf Hstep) as (_ & _ & Hm & _).
    split_and!; try done; [by eapply table_extends_trans|].
    exists (new ++ new'). rewrite Hnew', Hnew, <- app_assoc. split; [done|].
    rewrite length_app. lia.
Qed.

(** X6.  Merging never changes what a word reads as.  In every state of
    the merge loop, the strings of the tokens of a word, concatenated in
    order, are the code points of the word as it was read from the input,
    concatenated; so when the converter's pieces of a word add up to the
    word, the tokens of every word spell that word, however many merges
    have been applied to it.  ([original] is the word read from the line:
    bpes/bpe.cpp and bpe_sa.cpp keep it in the entry, and for bpe.cpp the
    model keeps it.) *)
Theorem merges_preserve_the_words v lines s idx w :
  trained v lines s → words s !! idx = Some w →
  ∃ cps, code_points (original w) = Some cps
         ∧ render (table s) (tokens w) = Some (spell cps)
         ∧ ((∀ word pieces, code_points word = Some pieces → spell pieces = word) →
            render (table s) (tokens w) = Some (original w)).
Proof.
  intros (l & s0 & Hload & Hinit & Hreach) Hw.
  pose proof (initial_trainer_wf v lines l s0 Hload Hinit) as Hwf0.
  destruct (initial_trainer_spelling v lines l s0 Hload Hinit)
    as (Hinv0 & Hsp0 & Hrules0).
  destruct (reachable_spelling v s0 s Hwf0 Hinv0 Hsp0 Hrules0 Hreach)
    as (_ & _ & Hsp & _).
  destruct (Hsp idx w Hw) as (cps & Hcps & Hrender).
  exists cps. split_and!; [done|done|].
  intros Hround. by rewrite Hrender, (Hround _ _ Hcps).
Qed.

(** X7.  The vocabulary is append-only.  In every state of the merge loop
    [id_to_token] is the vector the loader left, followed by at most one
    string for every merge made so far; it holds no string twice; and
    every rule recorded so far still names identifiers of the table whose
    strings satisfy [new = first + second], so the rules can be written
    out at the end whatever was merged after them. *)
Theorem vocabulary_is_append_only v lines l s0 s :
  load v lines = Ok l → initial_trainer v l = Ok s0 → reachable v s0 s →
  (∃ new, id_to_token (table s) = id_to_token (l_table l) ++ new
          ∧ (length new ≤ length (merges s))%nat)
  ∧ NoDup (id_to_token (table s))
  ∧ rules_spelled (table s) (merges s).
Proof.
  intros Hload Hinit Hreach.
  pose proof (initial_trainer_wf v lines l s0 Hload Hinit) as Hwf0.
  destruct (initial_trainer_spelling v lines l s0 Hload Hinit)
    as (Hinv0 & Hsp0 & Hrules0).
  destruct (reachable_spelling v s0 s Hwf0 Hinv0 Hsp0 Hrules0 Hreach)
    as (_ & Hinv & _ & Hrules & new & Hnew & Hlen).
  destruct (initial_trainer_fields v l s0 Hinit) as (_ & Htab & _ & _).
  split_and!; [|by apply table_inverse_NoDup|done].
  exists new. rewrite <- Htab. split; [done|lia].
Qed.

(** X8.  The incrementally maintained index is the index rebuilt from
    scratch.  In every state of the merge loop [pair_to_word_indices] is
    equal, as a map, to what the construction loop would build from the
    current words, and no key of it is left with an empty set of words:
    the erasures and insertions of a pass neither leave a stale entry nor
    lose one. *)
Theorem index_equals_rebuilt_index v lines s :
  trained v lines s →
  pair_to_word_indices s = build_index 0 (words s) ∅
  ∧ no_empty_key (pair_to_word_indices s).
Proof.
  intros Htrained. pose proof (trained_wf v lines s Htrained) as Hwf.
  split; [|apply (wf_nonempty v s Hwf)].
  apply (index_unique (words s)).
  - by eapply well_formed_pairs_tracked.
  - apply (wf_nonempty v s Hwf).
  - apply build_index_tracked.
  - apply no_empty_key_build_index. intros p X HpX. by rewrite lookup_empty in HpX.
Qed.

End LoopFacts.


(** ** The naive substring counter *)

Lemma string_cons_app (c : ascii) (s1 s2 : string) :
  (String c s1 ++ s2)%string = String c (s1 ++ s2)%string.
Proof. done. Qed.

Lemma prefix_app (sub str : string) :
  String.prefix sub str = true ↔ ∃ post, str = (sub ++ post)%string.
Proof.
  revert str. induction sub as [|c sub IH]; intros str.
  - split; [|by destruct str]. intros _. by exists str.
  - destruct str as [|b str]; simpl.
    + split; [done|]. by intros [post Hpost].
    + destruct (ascii_dec c b) as [->|Hcb].
      * rewrite IH. split; intros [post Hpost]; exists post.
        -- by rewrite string_cons_app, Hpost.
        -- rewrite string_cons_app in Hpost. by injection Hpost.
      * split; [done|]. intros [post Hpost].
        rewrite string_cons_app in Hpost. injection Hpost as Hb _. by subst.
Qed.

Lemma occurrences_bounds (str sub : string) :
  0 ≤ occurrences str sub ≤ Z.of_nat (String.length str).
Proof.
  induction str as [|c str IH]; [done|].
  cbn [occurrences String.length]. destruct (String.prefix sub (String c str)); lia.
Qed.

Lemma occurrences_pos (str sub : string) :
  sub ≠ EmptyString →
  0 < occurrences str sub ↔ ∃ pre post, str = (pre ++ sub ++ post)%string.
Proof.
  intros Hsub. induction str as [|c str IH].
  - split; [done|]. intros (pre & post & Heq).
    destruct pre; [|done]. destruct sub; done.
  - cbn [occurrences]. pose proof (occurrences_bounds str sub) as Hb. split.
    + intros Hpos. destruct (String.prefix sub (String c str)) eqn:Hpre.
      * apply prefix_app in Hpre as [post Hpost]. by exists EmptyString, post.
      * destruct IH as [IH _]. destruct IH as (pre & post & Heq); [lia|].
        exists (String c pre), post. by rewrite string_cons_app, Heq.
    + intros (pre & post & Heq). destruct pre as [|b pre].
      * assert (String.prefix sub (String c str) = true) as ->; [|lia].
        apply prefix_app. by exists post.
      * rewrite string_cons_app in Heq. injection Heq as _ Heq.
        destruct IH as [_ IH]. specialize (IH (ex_intro _ pre (ex_intro _ post Heq))).
        destruct (String.prefix sub (String c str)); lia.
Qed.

(** X9.  [count_occurrences] counts start positions, overlapping ones
    included: for a non-empty [sub] the loop of [find] calls, restarted one
    character past every match, returns the number of positions of [str] at
    which [sub] begins; for the empty [sub] it returns 0 without searching.
    The result is between 0 and the length of [str], and it is positive
    exactly when [sub] is non-empty and a substring of [str]. *)
Theorem count_occurrences_counts_start_positions str sub :
  count_occurrences str sub
  = (if decide (sub = EmptyString) then 0 else occurrences str sub)
  ∧ 0 ≤ count_occurrences str sub ≤ Z.of_nat (String.length str)
  ∧ (0 < count_occurrences str sub
     ↔ sub ≠ EmptyString ∧ ∃ pre post, str = (pre ++ sub ++ post)%string).
Proof.
  destruct (decide (sub = EmptyString)) as [->|Hsub].
  - unfold count_occurrences. rewrite decide_True by done.
    split; [done|]. split; [lia|]. split; [lia|]. by intros [? _].
  - rewrite (count_occurrences_exact _ _ Hsub).
    split; [done|]. split; [apply occurrences_bounds|].
    rewrite (occurrences_pos _ _ Hsub). naive_solver.
Qed.

(** ** The final frequencies *)

Lemma token_count_zero t l : t ∉ l → token_count t l = 0.
Proof.
  induction l as [|x l IH]; [done|]. intros Hnot.
  rewrite token_count_cons, decide_False by set_solver.
  rewrite IH by set_solver. done.
Qed.

Lemma foldl_add_frequency (l : list Z) c m t :
  foldl (λ m token_id, add_frequency m token_id c) m l !! t
  = if decide (t ∈ l)
    then Some (wrap_int (default 0 (m !! t) + token_count t l * c))
    else m !! t.
Proof.
  revert m. induction l as [|x l IH]; intros m.
  - cbn [foldl]. rewrite decide_False; [done|apply not_elem_of_nil].
  - cbn [foldl]. rewrite IH, token_count_cons. unfold add_frequency, int_add.
    rewrite lookup_insert.
    destruct (decide (x = t)) as [->|Hx].
    + rewrite (decide_True (P := t ∈ t :: l)) by set_solver.
      destruct (decide (t ∈ l)) as [Hin|Hin]; simpl.
      * f_equal. rewrite wrap_int_add_l. f_equal; lia.
      * f_equal. rewrite (token_count_zero _ _ Hin). f_equal; lia.
    + destruct (decide (t ∈ l)) as [Hin|Hin].
      * rewrite decide_True by set_solver. do 2 f_equal; lia.
      * rewrite decide_False by set_solver. done.
Qed.

Lemma final_frequencies_tf_from ws m t :
  foldl (λ m w, foldl (λ m token_id, add_frequency m token_id (tf w)) m (tokens w))
        m ws !! t
  = if decide (Exists (λ w, t ∈ tokens w) ws)
    then Some (wrap_int (default 0 (m !! t)
                         + Zsum ((λ w, token_count t (tokens w) * tf w) <$> ws)))
    else m !! t.
Proof.
  revert m. induction ws as [|w ws IH]; intros m.
  - cbn [foldl]. rewrite decide_False; [done|]. by intros ?%Exists_nil.
  - cbn [foldl]. rewrite IH, foldl_add_frequency, fmap_cons, Zsum_cons.
    pose proof (token_count_zero t (tokens w)) as Hzero.
    destruct (decide (Exists (λ w0, t ∈ tokens w0) ws)) as [Hex|Hex].
    + rewrite (decide_True (P := Exists _ (w :: ws))) by (by apply Exists_cons_tl).
      destruct (decide (t ∈ tokens w)) as [Hin|Hin]; simpl; f_equal.
      * rewrite wrap_int_add_l. f_equal; lia.
      * rewrite (Hzero Hin). f_equal; lia.
    + destruct (decide (t ∈ tokens w)) as [Hin|Hin].
      * rewrite (decide_True (P := Exists _ (w :: ws))) by (by apply Exists_cons_hd).
        do 2 f_equal.
        assert (Zsum ((λ w0, token_count t (tokens w0) * tf w0) <$> ws) = 0) as ->;
          [|lia].
        rewrite (Zsum_ext _ (λ _, 0)); [apply Zsum_zero|].
        intros w0 Hw0. rewrite token_count_zero; [done|]. intros Ht. apply Hex.
        apply Exists_exists. by exists w0.
      * rewrite (decide_False (P := Exists _ (w :: ws))); [done|].
        by intros [?|?]%Exists_cons.
Qed.

(** The keys of the final count of bpe.cpp are tokens of the final
    segmentation. *)
Lemma final_frequencies_tf_keys ws t :
  is_Some (final_frequencies_tf ws !! t) → Exists (λ w, t ∈ tokens w) ws.
Proof.
  unfold final_frequencies_tf. rewrite final_frequencies_tf_from, lookup_empty.
  case_decide; [done|]. by intros [? ?].
Qed.

(** X10.  The tokens file of bpe.cpp.  [final_frequencies] has a key for a
    token exactly when the token occurs in the final segmentation of some
    word, and the value under the key is the [int] into which the program
    has added, for every occurrence of the token in a word, the [tf] of the
    word: the sum, over all words, of the number of times the token occurs
    in the word times the [tf] of the word, reduced to 32 bits.  A token
    that every merge has consumed is not listed, and for a token that is
    listed the words that lack it add nothing. *)
Theorem final_frequencies_tf_spec ws t :
  final_frequencies_tf ws !! t
  = if decide (Exists (λ w, t ∈ tokens w) ws)
    then Some (wrap_int (Zsum ((λ w, token_count t (tokens w) * tf w) <$> ws)))
    else None.
Proof.
  unfold final_frequencies_tf. rewrite final_frequencies_tf_from, lookup_empty.
  case_decide; [|done]. simpl. do 2 f_equal; lia.
Qed.

Lemma final_frequencies_oracle_spec count (F : string → Z) strs token_id m :
  (∀ str, str ∈ strs → count str = Ok (F str)) →
  ∃ m', final_frequencies_oracle count token_id strs m = Ok m'
        ∧ ∀ id, m' !! id =
            if decide (id < Z.of_nat token_id) then m !! id
            else match strs !! (Z.to_nat id - token_id)%nat with
                 | Some str => if decide (F str > 0) then Some (F str) else m !! id
                 | None => m !! id
                 end.
Proof.
  revert token_id m. induction strs as [|str strs IH]; intros token_id m Hcount.
  - exists m. split; [done|]. intros id. by case_decide.
  - cbn [final_frequencies_oracle]. rewrite (Hcount str) by set_solver.
    cbn [mbind result_bind].
    destruct (IH (S token_id)
                 (if decide (F str > 0) then <[Z.of_nat token_id := F str]> m else m))
      as (m' & Hrun & Hm'); [intros; apply Hcount; set_solver|].
    exists m'. split; [done|]. intros id. rewrite Hm'.
    destruct (decide (id < Z.of_nat token_id)) as [Hlt|Hge].
    + rewrite decide_True by lia. case_decide; [|done].
      rewrite lookup_insert_ne by lia. done.
    + destruct (decide (id = Z.of_nat token_id)) as [->|Hne].
      * rewrite decide_True by lia. rewrite Nat2Z.id, Nat.sub_diag. simpl.
        case_decide; [by rewrite lookup_insert_eq|done].
      * rewrite decide_False by lia.
        replace (Z.to_nat id - token_id)%nat with (S (Z.to_nat id - S token_id)) by lia.
        simpl. destruct (strs !! (Z.to_nat id - S token_id)%nat) as [str'|].
        -- destruct (decide (F str' > 0)); [done|].
           destruct (decide (F str > 0)); [|done].
           rewrite lookup_insert_ne by lia. done.
        -- destruct (decide (F str > 0)); [|done].
           rewrite lookup_insert_ne by lia. done.
Qed.


(** ** Every vocabulary string occurs in the input *)

Lemma spell_app (l1 l2 : list string) :
  spell (l1 ++ l2) = (spell l1 ++ spell l2)%string.
Proof.
  induction l1 as [|s l1 IH]; [done|].
  change (spell ((s :: l1) ++ l2)) with (s ++ spell (l1 ++ l2))%string.
  change (spell (s :: l1)) with (s ++ spell l1)%string.
  by rewrite IH, string_app_assoc.
Qed.

Lemma string_app_nil_r (s : string) : (s ++ "")%string = s.
Proof.
  induction s as [|c s IH]; [done|]. by rewrite string_cons_app, IH.
Qed.

Lemma spell_elem_of (str : string) (strs : list string) :
  str ∈ strs → ∃ pre post, spell strs = (pre ++ str ++ post)%string.
Proof.
  intros (l1 & l2 & ->)%list_elem_of_split.
  exists (spell l1), (spell l2). by rewrite spell_app.
Qed.

Lemma render_app t (l1 l2 : list Z) :
  render t (l1 ++ l2)
  = (s1 ← render t l1; s2 ← render t l2; Some (s1 ++ s2)%string).
Proof.
  induction l1 as [|id l1 IH].
  - simpl. by destruct (render t l2).
  - cbn [render app]. rewrite IH.
    destruct (token_string t id) as [s|]; [|done].
    destruct (render t l1) as [s1|]; [|done].
    destruct (render t l2) as [s2|]; [|done].
    cbn [mbind option_bind]. by rewrite string_app_assoc.
Qed.

Lemma render_adjacent t tokens p str :
  adjacent p tokens → render t tokens = Some str →
  ∃ a b pre post,
    token_string t p.1 = Some a ∧ token_string t p.2 = Some b
    ∧ str = (pre ++ (a ++ b) ++ post)%string.
Proof.
  intros (l1 & l2 & ->). rewrite render_app. cbn [render].
  destruct (render t l1) as [s1|]; [|done].
  destruct (token_string t p.1) as [a|]; [|done].
  destruct (token_string t p.2) as [b|]; [|done].
  destruct (render t l2) as [s2|]; [|done].
  cbn [mbind option_bind]. intros [= <-].
  exists a, b, s1, s2. split_and!; [done|done|]. by rewrite string_app_assoc.
Qed.

Lemma token_string_elem_of t id str :
  token_string t id = Some str → str ∈ id_to_token t.
Proof.
  intros [_ Hid]%token_string_Some. by eapply list_elem_of_lookup_2.
Qed.

Lemma elem_of_token_string t str :
  str ∈ id_to_token t → ∃ id, token_string t id = Some str.
Proof.
  intros [i Hi]%list_elem_of_lookup_1. exists (Z.of_nat i).
  apply token_string_Some. rewrite Nat2Z.id. split; [lia|done].
Qed.

Lemma intern_all_new_strings (cps : list string) t (ids : list Z) t' str :
  intern_all cps t = (ids, t') → str ∈ id_to_token t' →
  str ∈ id_to_token t ∨ str ∈ cps.
Proof.
  revert t ids t'. induction cps as [|token rest IH]; intros t ids t'; simpl.
  - intros [= <- <-]. by left.
  - destruct (get_token_id token t) as [token_id t1] eqn:Hget.
    destruct (intern_all rest t1) as [ids' t2] eqn:Hrec. intros [= <- <-] Hstr.
    destruct (IH _ _ _ Hrec Hstr) as [Hin|Hin]; [|right; set_solver].
    unfold get_token_id in Hget. destruct (token_to_id t !! token).
    + injection Hget as <- <-. by left.
    + injection Hget as <- <-. simpl in Hin.
      apply elem_of_app in Hin as [Hin|Hin]; [by left|right; set_solver].
Qed.

Section Occurs.
Context `{HashOrder} `{Codecvt}.

Lemma load_lines_vocabulary v acc lines acc' str :
  load_lines v acc lines = Ok acc' → str ∈ id_to_token (l_table acc') →
  str ∈ id_to_token (l_table acc)
  ∨ ∃ w cps, w ∈ l_words acc' ∧ code_points (original w) = Some cps ∧ str ∈ cps.
Proof.
  revert acc. induction lines as [|line rest IH]; intros acc; simpl.
  - intros [= <-]. by left.
  - intros Hrun Hstr. apply bind_Ok in Hrun as (acc1 & Hline & Hrun).
    destruct (IH _ Hrun Hstr) as [Hin|Hin]; [|by right].
    unfold load_line in Hline. case_decide; [injection Hline as <-; by left|].
    destruct (parse_record v line) as [[[word_str tf0] df0]|];
      [|injection Hline as <-; by left].
    apply bind_Ok in Hline as (cps & Hcps%of_option_Ok & Hline).
    destruct (intern_all cps (l_table acc)) as [ids t'] eqn:Hint.
    injection Hline as <-. simpl in Hin.
    destruct (intern_all_new_strings _ _ _ _ _ Hint Hin) as [Hold|Hnew];
      [by left|].
    right. exists (mkWordEntry word_str ids (compute_pairs ids) tf0 df0), cps.
    split_and!; [|done|done].
    assert (Hsub : ∀ a lines', load_lines v a lines' = Ok acc' →
              ∀ w, w ∈ l_words a → w ∈ l_words acc').
    { clear. intros a lines'. revert a.
      induction lines' as [|line' rest' IH']; intros a; simpl.
      - by intros [= <-].
      - intros Hrun' w Hw. apply bind_Ok in Hrun' as (a1 & Hline' & Hrun').
        apply (IH' _ Hrun'). unfold load_line in Hline'.
        case_decide; [by injection Hline' as <-|].
        destruct (parse_record v line') as [[[ws' tf' ] df']|];
          [|by injection Hline' as <-].
        apply bind_Ok in Hline' as (cps' & _ & Hline').
        destruct (intern_all cps' (l_table a)) as [ids' t''].
        injection Hline' as <-. simpl. set_solver. }
    apply (Hsub _ _ Hrun). simpl. set_solver.
Qed.

Lemma iteration_vocabulary v s s' str :
  well_formed v s → spelled (table s) (words s) →
  iteration v s = Ok (Merged s') → str ∈ id_to_token (table s') →
  str ∈ id_to_token (table s)
  ∨ ∃ idx w cps pre post,
      words s !! idx = Some w ∧ code_points (original w) = Some cps
      ∧ spell cps = (pre ++ str ++ post)%string.
Proof.
  intros Hwf Hsp Hstep Hstr.
  destruct (iteration_Merged_inv v s s' Hwf Hstep)
    as (best & freq & X & first_str & second_str & n & reported & Hsel & Hfreq & HX
        & Hfirst & Hsecond & Hget & _).
  unfold get_token_id in Hget.
  destruct (token_to_id (table s) !! (first_str ++ second_str)%string).
  { injection Hget as _ Htab. rewrite <- Htab in Hstr. by left. }
  injection Hget as _ Htab. rewrite <- Htab in Hstr. simpl in Hstr.
  apply elem_of_app in Hstr as [Hstr|Hstr%list_elem_of_singleton]; [by left|].
  right. subst str.
  pose proof (wf_nonempty v s Hwf best X HX) as Hne.
  apply set_choose_L in Hne as [idx Hidx].
  destruct (proj1 (wf_index v s Hwf) best idx) as (w & Hw & Hadj).
  { by exists X. }
  destruct (Hsp idx w Hw) as (cps & Hcps & Hrender).
  destruct (render_adjacent _ _ _ _ Hadj Hrender)
    as (a & b & pre & post & Ha & Hb & Heq).
  rewrite Hfirst in Ha. rewrite Hsecond in Hb.
  injection Ha as <-. injection Hb as <-.
  by exists idx, w, cps, pre, post.
Qed.

Lemma reachable_vocabulary_occurs v lines l s0 s str :
  load v lines = Ok l → initial_trainer v l = Ok s0 → reachable v s0 s →
  str ∈ id_to_token (table s) →
  ∃ w cps pre post,
    w ∈ l_words l ∧ code_points (original w) = Some cps
    ∧ spell cps = (pre ++ str ++ post)%string.
Proof.
  intros Hload Hinit Hreach Hid.
  pose proof (initial_trainer_wf v lines l s0 Hload Hinit) as Hwf0.
  destruct (initial_trainer_spelling v lines l s0 Hload Hinit)
    as (Hinv0 & Hsp0 & Hrules0).
  destruct (initial_trainer_fields v l s0 Hinit) as (Hws0 & Htab0 & _ & _).
  induction Hreach as [|s s' Hreach IH Hstep].
  - rewrite Htab0 in Hid.
    destruct (load_lines_vocabulary _ _ _ _ _ Hload Hid) as [Hin|Hin].
    { by apply elem_of_nil in Hin. }
    destruct Hin as (w & cps & Hw & Hcps & Hin).
    destruct (spell_elem_of _ _ Hin) as (pre & post & Heq).
    by exists w, cps, pre, post.
  - pose proof (reachable_wf v s0 s Hwf0 Hreach) as Hwfs.
    destruct (reachable_spelling v s0 s Hwf0 Hinv0 Hsp0 Hrules0 Hreach)
      as (_ & _ & Hsp & _).
    destruct (iteration_vocabulary v s s' str Hwfs Hsp Hstep Hid) as [Hold|Hnew].
    { by apply IH. }
    destruct Hnew as (idx & w & cps & pre & post & Hw & Hcps & Heq).
    destruct (reachable_frame v s0 s Hwf0 Hreach) as (_ & Horig & _).
    rewrite Hws0 in Horig.
    assert ((original <$> l_words l) !! idx = Some (original w)) as Hlook.
    { rewrite <- Horig, list_lookup_fmap, Hw. done. }
    rewrite list_lookup_fmap in Hlook.
    destruct (l_words l !! idx) as [w0|] eqn:Hw0; [|done].
    injection Hlook as Hlook.
    exists w0, cps, pre, post. rewrite Hlook.
    split_and!; [by eapply list_elem_of_lookup_2|done|done].
Qed.

(** X11.  Every string of the vocabulary is a piece of the input.  In
    every state of the merge loop, each string of [id_to_token] is
    non-empty and is a substring of the concatenated code points of some
    word that was loaded; so when the converter's pieces of a word add up
    to the word, every token, initial or created by a merge, occurs
    literally in some input word. *)
Theorem every_token_occurs_in_the_input v lines l s0 s id str :
  load v lines = Ok l → initial_trainer v l = Ok s0 → reachable v s0 s →
  token_string (table s) id = Some str →
  str ≠ EmptyString
  ∧ ∃ w cps pre post,
      w ∈ l_words l ∧ code_points (original w) = Some cps
      ∧ spell cps = (pre ++ str ++ post)%string
      ∧ ((∀ word pieces, code_points word = Some pieces → spell pieces = word) →
         original w = (pre ++ str ++ post)%string).
Proof.
  intros Hload Hinit Hreach Hid.
  pose proof (initial_trainer_wf v lines l s0 Hload Hinit) as Hwf0.
  pose proof (reachable_wf v s0 s Hwf0 Hreach) as Hwf.
  split; [by eapply token_string_nonempty; [apply (wf_table v s Hwf)|]|].
  apply token_string_elem_of in Hid.
  destruct (reachable_vocabulary_occurs v lines l s0 s str Hload Hinit Hreach Hid)
    as (w & cps & pre & post & Hw & Hcps & Heq).
  exists w, cps, pre, post. split_and!; try done.
  intros Hround. by rewrite <- (Hround _ _ Hcps).
Qed.

End Occurs.


(** ** The output of bpes/bpe.cpp *)

Lemma Zsum_nonneg {A} (g : A → Z) (l : list A) :
  (∀ x, x ∈ l → 0 ≤ g x) → 0 ≤ Zsum (g <$> l).
Proof.
  induction l as [|x l IH]; intros Hg; [done|].
  rewrite fmap_cons, Zsum_cons.
  pose proof (Hg x ltac:(set_solver)). pose proof (IH ltac:(set_solver)). lia.
Qed.

Lemma Zsum_pos {A} (g : A → Z) (l : list A) x :
  (∀ y, y ∈ l → 0 ≤ g y) → x ∈ l → 0 < g x → 1 ≤ Zsum (g <$> l).
Proof.
  intros Hg (l1 & l2 & ->)%list_elem_of_split Hx.
  rewrite fmap_app, fmap_cons, Zsum_app, Zsum_cons.
  pose proof (Zsum_nonneg g l1 ltac:(set_solver)).
  pose proof (Zsum_nonneg g l2 ltac:(set_solver)). lia.
Qed.

Lemma Zsum_fmap_fmap {A B} (f : A → B) (g : B → Z) (l : list A) :
  Zsum ((λ x, g (f x)) <$> l) = Zsum (g <$> (f <$> l)).
Proof. by rewrite <- list_fmap_compose. Qed.

Section Rescan.
Context `{HashOrder} `{Codecvt}.

Lemma rescan_frequency v lines l s0 s str :
  load v lines = Ok l → initial_trainer v l = Ok s0 → reachable v s0 s →
  str ≠ EmptyString →
  foldl (λ freq w, freq + count_occurrences (original w) str) 0 (words s)
  = Zsum ((λ w, occurrences (original w) str) <$> l_words l).
Proof.
  intros Hload Hinit Hreach Hstr.
  pose proof (initial_trainer_wf v lines l s0 Hload Hinit) as Hwf0.
  destruct (initial_trainer_fields v l s0 Hinit) as (Hws0 & _).
  destruct (reachable_frame v s0 s Hwf0 Hreach) as (_ & Horig & _).
  rewrite Hws0 in Horig.
  rewrite (foldl_Zsum (λ w, count_occurrences (original w) str)), Z.add_0_l.
  rewrite (Zsum_ext _ (λ w, occurrences (original w) str)).
  2:{ intros w _. by apply count_occurrences_exact. }
  rewrite (Zsum_fmap_fmap original (λ o, occurrences o str)), Horig.
  by rewrite <- Zsum_fmap_fmap.
Qed.

Lemma vocabulary_frequency_pos v lines l s0 s str :
  (∀ word pieces, code_points word = Some pieces → spell pieces = word) →
  load v lines = Ok l → initial_trainer v l = Ok s0 → reachable v s0 s →
  str ∈ id_to_token (table s) →
  1 ≤ Zsum ((λ w, occurrences (original w) str) <$> l_words l).
Proof.
  intros Hround Hload Hinit Hreach Hstr.
  pose proof (initial_trainer_wf v lines l s0 Hload Hinit) as Hwf0.
  pose proof (reachable_wf v s0 s Hwf0 Hreach) as Hwf.
  assert (Hne : str ≠ EmptyString).
  { pose proof (proj2 (wf_table v s Hwf)) as Hall.
    rewrite Forall_forall in Hall. by apply Hall. }
  destruct (reachable_vocabulary_occurs v lines l s0 s str Hload Hinit Hreach Hstr)
    as (w & cps & pre & post & Hw & Hcps & Heq).
  rewrite (Hround _ _ Hcps) in Heq.
  apply (Zsum_pos _ _ w); [|done|].
  - intros y _. apply occurrences_bounds.
  - apply occurrences_pos; [done|]. by exists pre, post.
Qed.

(** X12.  The output of bpes/bpe.cpp lists the whole vocabulary.  When the
    converter's pieces of a word add up to the word, in every state of the
    merge loop of bpes/bpe.cpp the final count has an entry for every
    identifier of the symbol table and for nothing else, the entry is the
    number of (overlapping) occurrences of the token's string in the input
    words, and it is at least 1: no token is dropped by the [freq > 0]
    test.  For the same reason the frequency recorded in every merge rule
    is at least 1. *)
Theorem rescan_lists_the_whole_vocabulary lines l s0 s :
  (∀ word pieces, code_points word = Some pieces → spell pieces = word) →
  load bpes_bpe_cpp lines = Ok l → initial_trainer bpes_bpe_cpp l = Ok s0 →
  reachable bpes_bpe_cpp s0 s →
  (∃ m, final_frequencies bpes_bpe_cpp s = Ok m
        ∧ (∀ id, m !! id =
             (str ← token_string (table s) id;
              Some (Zsum ((λ w, occurrences (original w) str) <$> l_words l))))
        ∧ (∀ id f, m !! id = Some f → 1 ≤ f))
  ∧ (∀ rule, rule ∈ merges s → 1 ≤ frequency rule).
Proof.
  intros Hround Hload Hinit Hreach.
  pose proof (initial_trainer_wf bpes_bpe_cpp lines l s0 Hload Hinit) as Hwf0.
  split.
  - pose proof (reachable_wf _ s0 s Hwf0 Hreach) as Hwf.
    unfold final_frequencies.
    destruct (final_frequencies_oracle_spec
                (λ token_str,
                   Ok (foldl (λ freq w, freq + count_occurrences (original w) token_str)
                             0 (words s)))
                (λ token_str,
                   foldl (λ freq w, freq + count_occurrences (original w) token_str)
                         0 (words s))
                (id_to_token (table s)) 0 ∅) as (m & Hm & Hlook); [done|].
    exists m. split; [done|].
    assert (Hentry : ∀ id, m !! id =
              (str ← token_string (table s) id;
               Some (Zsum ((λ w, occurrences (original w) str) <$> l_words l)))).
    { intros id. rewrite Hlook, lookup_empty. unfold token_string.
      destruct (decide (id < Z.of_nat 0)) as [Hneg|Hpos].
      { rewrite decide_False by lia. done. }
      rewrite decide_True by lia. rewrite Nat.sub_0_r.
      destruct (id_to_token (table s) !! Z.to_nat id) as [str|] eqn:Hstr; [|done].
      cbn [mbind option_bind].
      assert (Hin : str ∈ id_to_token (table s)) by (by eapply list_elem_of_lookup_2).
      assert (Hne : str ≠ EmptyString).
      { pose proof (proj2 (wf_table _ s Hwf)) as Hall.
        rewrite Forall_forall in Hall. by apply Hall. }
      rewrite (rescan_frequency _ lines l s0 s str Hload Hinit Hreach Hne).
      pose proof (vocabulary_frequency_pos _ lines l s0 s str Hround Hload Hinit
                    Hreach Hin).
      rewrite decide_True by lia. done. }
    split; [done|]. intros id f. rewrite Hentry.
    destruct (token_string (table s) id) as [str|] eqn:Hstr; [|done].
    cbn [mbind option_bind]. intros [= <-].
    apply (vocabulary_frequency_pos _ lines l s0 s str Hround Hload Hinit Hreach).
    by eapply token_string_elem_of.
  - induction Hreach as [|s s' Hreach IH Hstep].
    + destruct (initial_trainer_fields _ l s0 Hinit) as (_ & _ & -> & _).
      intros rule Hrule. by apply elem_of_nil in Hrule.
    + pose proof (reachable_wf _ s0 s Hwf0 Hreach) as Hwf.
      destruct (iteration_Merged_inv _ s s' Hwf Hstep)
        as (best & freq & X & first_str & second_str & n & reported & Hsel & Hfreq & HX
            & Hfirst & Hsecond & Hget & Hrep & Hmerges & _).
      intros rule. rewrite Hmerges.
      intros [Hrule | ->%list_elem_of_singleton]%elem_of_app; [by apply IH|].
      simpl. unfold reported_frequency in Hrep. injection Hrep as <-.
      assert (Hne : (first_str ++ second_str)%string ≠ EmptyString).
      { apply string_append_nonempty.
        eapply token_string_nonempty; [apply (wf_table _ s Hwf)|done]. }
      rewrite (rescan_frequency _ lines l s0 s _ Hload Hinit Hreach Hne).
      apply (vocabulary_frequency_pos _ lines l s0 s' _ Hround Hload Hinit).
      * by eapply reachable_step.
      * destruct (get_token_id_spec _ _ _ _ (wf_table _ s Hwf) Hne Hget)
          as (_ & Hn & _).
        by eapply token_string_elem_of.
Qed.

End Rescan.


(** ** [main] runs to its end *)

Lemma mapM_Ok {A B} (f : A → result B) (l : list A) :
  (∀ x, x ∈ l → ∃ y, f x = Ok y) →
  ∃ ys, mapM f l = Ok ys ∧ Forall2 (λ x y, f x = Ok y) l ys.
Proof.
  induction l as [|x l IH]; intros Hf.
  - exists []. by split.
  - destruct (Hf x) as [y Hy]; [set_solver|].
    destruct IH as (ys & Hys & Hall); [intros; apply Hf; set_solver|].
    exists (y :: ys). split; [|by constructor].
    cbn [mapM]. rewrite Hy. cbn [mbind result_bind].
    change (mapM f l) with (mapM f l). rewrite Hys. done.
Qed.

Lemma Forall2_NoDup_inj {A B} (R : A → B → Prop) (l : list A) (k : list B) :
  (∀ x1 x2 y, R x1 y → R x2 y → x1 = x2) →
  Forall2 R l k → NoDup l → NoDup k.
Proof.
  intros Hinj. induction 1 as [|x y l k Hxy Hlk IH]; [intros _; apply NoDup_nil_2|].
  intros [Hx Hnd]%NoDup_cons. apply NoDup_cons. split; [|by apply IH].
  intros Hy. apply Hx.
  apply (list_elem_of_lookup_1 k) in Hy as [i Hi].
  destruct (Forall2_lookup_r _ _ _ _ _ Hlk Hi) as (x' & Hx' & Hx'y).
  rewrite (Hinj x x' y Hxy Hx'y). by eapply list_elem_of_lookup_2.
Qed.

Lemma table_inverse_inj t id1 id2 str :
  table_inverse t → token_string t id1 = Some str → token_string t id2 = Some str →
  id1 = id2.
Proof.
  intros Hinv H1%Hinv H2%Hinv. congruence.
Qed.

Section MainFacts.
Context `{HashOrder} `{Codecvt}.

Lemma final_frequencies_Ok v s :
  well_formed v s →
  ∃ ff, final_frequencies v s = Ok ff
        ∧ ∀ id f, ff !! id = Some f → is_Some (token_string (table s) id).
Proof.
  intros Hwf. destruct v; unfold final_frequencies.
  - eexists. split; [done|]. intros id f Hf.
    assert (Hex : Exists (λ w, id ∈ tokens w) (words s)).
    { apply final_frequencies_tf_keys. by exists f. }
    apply Exists_exists in Hex as (w & Hw & Hid).
    apply list_elem_of_lookup_1 in Hw as [idx Hw].
    pose proof (wf_tokens _ s Hwf idx w Hw) as Hrange.
    rewrite Forall_forall in Hrange. by apply token_string_in_range, Hrange.
  - destruct (final_frequencies_oracle_spec
                (λ token_str,
                   Ok (foldl (λ freq w, freq + count_occurrences (original w) token_str)
                             0 (words s)))
                (λ token_str,
                   foldl (λ freq w, freq + count_occurrences (original w) token_str)
                         0 (words s))
                (id_to_token (table s)) 0 ∅) as (m & Hm & Hlook); [done|].
    exists m. split; [done|]. intros id f. rewrite Hlook, lookup_empty.
    case_decide; [done|]. rewrite Nat.sub_0_r.
    destruct (id_to_token (table s) !! Z.to_nat id) as [str|] eqn:Hstr; [|done].
    intros _. exists str. apply token_string_Some. split; [lia|done].
  - destruct (wf_automaton _ s Hwf eq_refl) as [Hclosed Hlen].
    destruct (final_frequencies_oracle_spec
                (Sa.countOccurrences (automaton s))
                (λ token_str, from_ok 0 (Sa.countOccurrences (automaton s) token_str))
                (id_to_token (table s)) 0 ∅) as (m & Hm & Hlook).
    { intros str _.
      destruct (countOccurrences_Ok (automaton s) str Hclosed Hlen) as [n Hn].
      by rewrite Hn. }
    exists m. split; [done|]. intros id f. rewrite Hlook, lookup_empty.
    case_decide; [done|]. rewrite Nat.sub_0_r.
    destruct (id_to_token (table s) !! Z.to_nat id) as [str|] eqn:Hstr; [|done].
    intros _. exists str. apply token_string_Some. split; [lia|done].
Qed.

(** X13.  [main] runs to its end.  Once the input is loaded (every word
    decodes) and, in bpe_sa.cpp, the automaton is built, no vector is
    indexed outside its bounds any more: the merge loop ends, the final
    count is computed and both output loops find every identifier they
    print in [id_to_token].  The run returns [EXIT_SUCCESS]; what went to
    [cerr] is what the loader reported; the merges file has one line for
    every merge, at most as many as the initial segmentation has tokens,
    and on every line the new token is the concatenation of the two
    merged ones; and the tokens file names no token twice. *)
Theorem main_completes v fuel lines l s0 :
  load v lines = Ok l → initial_trainer v l = Ok s0 →
  (total_tokens (l_words l) < fuel)%nat →
  ∃ out, main v fuel lines = Ok out
         ∧ exit_status out = EXIT_SUCCESS
         ∧ cerr out = l_cerr l
         ∧ (length (merges_file out) ≤ total_tokens (l_words l))%nat
         ∧ Forall (λ r, r.1.2 = (r.1.1.1 ++ r.1.1.2)%string) (merges_file out)
         ∧ NoDup (tokens_file out).*1.
Proof.
  intros Hload Hinit Hfuel.
  pose proof (initial_trainer_wf v lines l s0 Hload Hinit) as Hwf0.
  destruct (initial_trainer_fields v l s0 Hinit) as (Hws0 & Htab0 & Hm0 & _).
  destruct (merge_loop_total v fuel s0 Hwf0) as (s & Hloop & Hreach & Hlen & _).
  { by rewrite Hws0. }
  pose proof (reachable_wf v s0 s Hwf0 Hreach) as Hwf.
  destruct (initial_trainer_spelling v lines l s0 Hload Hinit)
    as (Hinv0 & Hsp0 & Hrules0).
  destruct (reachable_spelling v s0 s Hwf0 Hinv0 Hsp0 Hrules0 Hreach)
    as (_ & Hinv & _ & Hrules & _).
  destruct (final_frequencies_Ok v s Hwf) as (ff & Hff & Hkeys).
  destruct (mapM_Ok
              (λ kv : Z * Z,
                 str ← of_option (token_string (table s) kv.1) OutOfBounds;
                 Ok (str, kv.2))
              (iter_freqs ff)) as (toks & Htoks & Htoks2).
  { intros [id f] Hkv. rewrite iter_freqs_perm in Hkv.
    apply elem_of_map_to_list in Hkv. destruct (Hkeys id f Hkv) as [str Hstr].
    exists (str, f). simpl. by rewrite Hstr. }
  destruct (mapM_Ok
              (λ rule,
                 a ← of_option (token_string (table s) (merge_pair rule).1) OutOfBounds;
                 b ← of_option (token_string (table s) (merge_pair rule).2) OutOfBounds;
                 c ← of_option (token_string (table s) (new_token rule)) OutOfBounds;
                 Ok (a, b, c, frequency rule))
              (merges s)) as (rules & Hrules1 & Hrules2).
  { intros rule Hrule. destruct (Hrules rule Hrule) as (a & b & Ha & Hb & Hab).
    exists (a, b, (a ++ b)%string, frequency rule). by rewrite Ha, Hb, Hab. }
  exists (mkOutput toks rules (l_cerr l) EXIT_SUCCESS).
  split.
  { unfold main. rewrite Hload. cbn [mbind result_bind]. rewrite Hinit.
    cbn [mbind result_bind]. rewrite Hloop. cbn [mbind result_bind].
    rewrite Hff. cbn [mbind result_bind]. rewrite Htoks. cbn [mbind result_bind].
    rewrite Hrules1. done. }
  cbn [exit_status cerr merges_file tokens_file].
  split; [done|]. split; [done|]. split; [|split].
  - rewrite <- (Forall2_length _ _ _ Hrules2). rewrite Hm0, Hws0 in Hlen. simpl in Hlen.
    lia.
  - apply Forall_forall. intros r Hr.
    apply list_elem_of_lookup_1 in Hr as [i Hi].
    destruct (Forall2_lookup_r _ _ _ _ _ Hrules2 Hi) as (rule & Hrule & Hrun).
    apply list_elem_of_lookup_2 in Hrule.
    destruct (Hrules rule Hrule) as (a & b & Ha & Hb & Hab).
    rewrite Ha, Hb, Hab in Hrun. by injection Hrun as <-.
  - apply (Forall2_NoDup_inj (λ id str, token_string (table s) id = Some str)
                             (iter_freqs ff).*1).
    + intros id1 id2 str. by apply table_inverse_inj.
    + apply Forall2_fmap. eapply Forall2_impl; [done|].
      intros [id f] [str f'] Hrun. simpl in *.
      destruct (token_string (table s) id); [|done]. by injection Hrun as <- _.
    + rewrite iter_freqs_perm. apply NoDup_fst_map_to_list.
Qed.

End MainFacts.


(** ** The loader accounts for every line *)

Section LoaderAccounting.
Context `{Codecvt}.

Lemma parse_record_empty v : parse_record v EmptyString = None.
Proof. by destruct v. Qed.

Lemma load_lines_accounting v acc lines :
  match load_lines v acc lines with
  | Ok l =>
      l_cerr l
      = l_cerr acc
        ++ filter (λ line, line ≠ EmptyString ∧ parse_record v line = None) lines
      ∧ (λ w, (original w, tf w, df w)) <$> l_words l
        = ((λ w, (original w, tf w, df w)) <$> l_words acc)
          ++ omap (parse_record v) lines
  | Err e =>
      e = DecodeFailure
      ∧ ∃ line word_str tf df,
          line ∈ lines ∧ parse_record v line = Some (word_str, tf, df)
          ∧ code_points word_str = None
  end.
Proof.
  revert acc. induction lines as [|line rest IH]; intros acc.
  - simpl. by rewrite !app_nil_r.
  - cbn [load_lines]. unfold load_line at 1.
    destruct (decide (line = EmptyString)) as [->|Hne].
    { cbn [mbind result_bind]. specialize (IH acc).
      destruct (load_lines v acc rest) as [l|e].
      - rewrite filter_cons_False by naive_solver.
        cbn [omap list_omap]. by rewrite parse_record_empty.
      - destruct IH as (-> & line & w & tf0 & df0 & Hin & Hparse & Hcps).
        split; [done|]. exists line, w, tf0, df0. split_and!; [set_solver|done|done]. }
    destruct (parse_record v line) as [[[word_str tf0] df0]|] eqn:Hparse.
    + destruct (code_points word_str) as [cps|] eqn:Hcps; cbn [of_option mbind result_bind].
      * destruct (intern_all cps (l_table acc)) as [ids t'].
        cbn [mbind result_bind].
        specialize (IH (mkLoaded t' (l_words acc
                            ++ [mkWordEntry word_str ids (compute_pairs ids) tf0 df0])
                          (l_cerr acc))).
        destruct (load_lines v _ rest) as [l|e].
        -- destruct IH as [IHc IHw]. simpl in IHc, IHw.
           rewrite filter_cons_False by (intros [_ ?]; congruence).
           cbn [omap list_omap]. rewrite Hparse. split; [done|].
           rewrite IHw, fmap_app. simpl. by rewrite <- app_assoc.
        -- destruct IH as (-> & line' & w & tf1 & df1 & Hin & Hparse' & Hcps').
           split; [done|]. exists line', w, tf1, df1.
           split_and!; [set_solver|done|done].
      * split; [done|]. exists line, word_str, tf0, df0.
        split_and!; [set_solver|done|done].
    + cbn [mbind result_bind].
      specialize (IH (mkLoaded (l_table acc) (l_words acc) (l_cerr acc ++ [line]))).
      destruct (load_lines v _ rest) as [l|e].
      * destruct IH as [IHc IHw]. simpl in IHc, IHw.
        rewrite filter_cons_True by done.
        cbn [omap list_omap]. rewrite Hparse. split; [|done].
        rewrite IHc. by rewrite <- app_assoc.
      * destruct IH as (-> & line' & w & tf1 & df1 & Hin & Hparse' & Hcps').
        split; [done|]. exists line', w, tf1, df1.
        split_and!; [set_solver|done|done].
Qed.

(** X14.  The loader accounts for every line of the input.  When loading
    succeeds, the words are, in the order of the file, exactly the
    records that could be extracted, each with the word and the weights
    extracted from its line, and the diagnostics are, in the order of the
    file, exactly the non-empty lines that are not records; nothing is
    loaded twice, reordered or silently lost.  Loading can fail in one way
    only: the converter rejects the word of some record, an exception the
    program never catches.  What can be extracted from a line is decided
    by [parse_record], the stream extractions as the program runs them,
    the integers under the locale that [main] installs. *)
Theorem loader_accounts_for_every_line v lines :
  match load v lines with
  | Ok l =>
      l_cerr l
      = filter (λ line, line ≠ EmptyString ∧ parse_record v line = None) lines
      ∧ (λ w, (original w, tf w, df w)) <$> l_words l
        = omap (parse_record v) lines
  | Err e =>
      e = DecodeFailure
      ∧ ∃ line word_str tf df,
          line ∈ lines ∧ parse_record v line = Some (word_str, tf, df)
          ∧ code_points word_str = None
  end.
Proof.
  unfold load.
  pose proof (load_lines_accounting v (mkLoaded empty_table [] []) lines) as Hacc.
  by destruct (load_lines v (mkLoaded empty_table [] []) lines).
Qed.

End LoaderAccounting.

(** A weight written with the thousands separator of the locale is read as
    one number: the line is a record, not a diagnostic.  A separator that
    does not close a group of three digits makes the line a diagnostic. *)
Lemma grouped_weight_is_a_record :
  parse_record bpe_cpp "ab 1,000 1" = Some ("ab"%string, 1000, 1)
  ∧ (λ w, (original w, tf w, df w))
      <$> l_words (from_ok no_words (@load ascii_codecvt bpe_cpp ["ab 1,000 1"%string]))
    = [("ab"%string, 1000, 1)]
  ∧ @load ascii_codecvt bpe_cpp ["ab 1,00 1"%string]
    = Ok (mkLoaded empty_table [] ["ab 1,00 1"%string]).
Proof. split_and!; vm_compute; reflexivity. Qed.

(** ** Independence of the enumeration order *)

Lemma reachable_prepend `{HashOrder} v s s' s'' :
  iteration v s = Ok (Merged s') → reachable v s' s'' → reachable v s s''.
Proof.
  intros Hstep. induction 1 as [|t t' Hreach IH Hstep'].
  - eapply reachable_step; [apply reachable_start|done].
  - by eapply reachable_step.
Qed.

Lemma merge_loop_order_independent_from (H1 H2 : HashOrder) v fuel s :
  well_formed v s → (∀ s', @reachable H1 v s s' → no_tie v s') →
  @merge_loop H1 fuel v s = @merge_loop H2 fuel v s.
Proof.
  revert s. induction fuel as [|fuel IH]; intros s Hwf Hnotie; [done|].
  cbn [merge_loop].
  rewrite <- (iteration_order_independent H1 H2 v s Hwf
                (Hnotie s (@reachable_start H1 v s))).
  destruct (@iteration H1 v s) as [[s'|]|e] eqn:Hstep; cbn [mbind result_bind]; try done.
  apply IH.
  - by destruct (@iteration_Merged_frame H1 v s s' Hwf Hstep) as [? _].
  - intros s'' Hreach. apply Hnotie. by eapply reachable_prepend.
Qed.

(** X15.  Without ties the run does not depend on the order in which the
    hash containers are enumerated.  If in every state the loop reaches the
    most frequent pair is the only one with its frequency, then two runs
    that enumerate [pair_to_word_indices], the sets of word indices and the
    pair sets in different orders enter the loop in the same state and
    leave it in the same state: the same words, symbol table, index and
    list of merge rules. *)
Theorem merge_loop_is_order_independent (H1 H2 : HashOrder) `{Codecvt}
    v lines l s0 fuel :
  load v lines = Ok l → @initial_trainer H1 v l = Ok s0 →
  (∀ s, @reachable H1 v s0 s → no_tie v s) →
  @initial_trainer H2 v l = Ok s0
  ∧ @merge_loop H1 fuel v s0 = @merge_loop H2 fuel v s0.
Proof.
  intros Hload Hinit Hnotie. split.
  - by rewrite <- (initial_trainer_order_independent H1 H2).
  - apply merge_loop_order_independent_from; [|done].
    by eapply (@initial_trainer_wf H1).
Qed.


(** ** The suffix automaton: bounds *)

Lemma modify_at_length {A} (v : list A) i f v' :
  modify_at v i f = Ok v' → length v' = length v ∧ 0 ≤ i < Z.of_nat (length v).
Proof.
  intros (a & Hi & Ha & ->)%modify_at_Ok. rewrite length_insert.
  apply lookup_lt_Some in Ha. lia.
Qed.

Lemma modify_at_Forall {A} (P : A → Prop) (v : list A) i f v' :
  (∀ a, P a → P (f a)) → Forall P v → modify_at v i f = Ok v' → Forall P v'.
Proof.
  intros Hf Hall (a & Hi & Ha & ->)%modify_at_Ok.
  apply Forall_insert; [done|]. apply Hf. by eapply Forall_lookup_1.
Qed.

Lemma extend_link_walk_frame (P : Sa.SAState → Prop) fuel c cur st p st' p' :
  (∀ nx s, P s → P (Sa.set_next nx s)) →
  Forall P st → Sa.extend_link_walk fuel c cur st p = Ok (st', p') →
  Forall P st' ∧ length st' = length st.
Proof.
  intros HP. revert st p. induction fuel as [|fuel IH]; intros st p Hall Hrun;
    simpl in Hrun; case_decide; try (by simplify_eq);
    apply bind_Ok in Hrun as (sp & Hsp & Hrun);
    destruct (Sa.next sp !! c) eqn:Hc; try (by simplify_eq).
  apply bind_Ok in Hrun as (st1 & Hst1 & Hrun).
  destruct (modify_at_length _ _ _ _ Hst1) as [Hlen _].
  destruct (IH st1 _ (modify_at_Forall P _ _ _ _ (HP _) Hall Hst1) Hrun) as [? Hlen'].
  split; [done|]. by rewrite Hlen', Hlen.
Qed.

Lemma extend_redirect_frame (P : Sa.SAState → Prop) fuel c q clone st p st' :
  (∀ nx s, P s → P (Sa.set_next nx s)) →
  Forall P st → Sa.extend_redirect fuel c q clone st p = Ok st' →
  Forall P st' ∧ length st' = length st.
Proof.
  intros HP. revert st p. induction fuel as [|fuel IH]; intros st p Hall Hrun;
    simpl in Hrun; case_decide; try (by simplify_eq);
    apply bind_Ok in Hrun as (sp & Hsp & Hrun);
    destruct (Sa.index_or_insert (Sa.next sp) c) as [v nx] eqn:Hix;
    apply bind_Ok in Hrun as (st1 & Hst1 & Hrun);
    destruct (modify_at_length _ _ _ _ Hst1) as [Hlen1 _];
    pose proof (modify_at_Forall P _ _ _ _ (HP _) Hall Hst1) as Hall1;
    case_decide; try (by simplify_eq).
  apply bind_Ok in Hrun as (st2 & Hst2 & Hrun).
  destruct (modify_at_length _ _ _ _ Hst2) as [Hlen2 _].
  destruct (IH st2 _ (modify_at_Forall P _ _ _ _ (HP _) Hall1 Hst2) Hrun) as [? Hlen'].
  split; [done|]. by rewrite Hlen', Hlen2, Hlen1.
Qed.

Section ExtendFrame.
Variable P : Sa.SAState → Prop.
Hypothesis P_len : ∀ v s, P s → P (Sa.set_len v s).
Hypothesis P_link : ∀ v s, P s → P (Sa.set_link v s).
Hypothesis P_next : ∀ v s, P s → P (Sa.set_next v s).
Hypothesis P_occ0 : ∀ s, P s → P (Sa.set_occ 0 s).
Hypothesis P_occ1 : ∀ s, P s → P (Sa.set_occ 1 s).

Lemma extend_frame c sz sa sz' sa' :
  Forall P (Sa.st sa) → Sa.extend c sz sa = Ok (sz', sa') →
  Forall P (Sa.st sa')
  ∧ length (Sa.st sa') = length (Sa.st sa)
  ∧ sz < sz' ≤ sz + 2
  ∧ (0 ≤ sz → sz' ≤ Z.of_nat (length (Sa.st sa))).
Proof.
  intros Hall Hrun. unfold Sa.extend in Hrun.
  apply bind_Ok in Hrun as (slast & _ & Hrun).
  apply bind_Ok in Hrun as (st1 & Hst1 & Hrun).
  apply bind_Ok in Hrun as (st2 & Hst2 & Hrun).
  apply bind_Ok in Hrun as ([st3 p] & Hst3 & Hrun).
  apply bind_Ok in Hrun as ([sz1 st4] & Hbranch & Hrun).
  injection Hrun as <- <-. simpl.
  destruct (modify_at_length _ _ _ _ Hst1) as [Hl1 Hcur].
  pose proof (modify_at_Forall P _ _ _ _ (P_len _) Hall Hst1) as Ha1.
  destruct (modify_at_length _ _ _ _ Hst2) as [Hl2 _].
  pose proof (modify_at_Forall P _ _ _ _ P_occ1 Ha1 Hst2) as Ha2.
  destruct (extend_link_walk_frame P _ _ _ _ _ _ _ P_next Ha2 Hst3) as [Ha3 Hl3].
  case_decide.
  { apply bind_Ok in Hbranch as (st5 & Hst5 & Hbranch). injection Hbranch as <- <-.
    destruct (modify_at_length _ _ _ _ Hst5) as [Hl5 _].
    pose proof (modify_at_Forall P _ _ _ _ (P_link _) Ha3 Hst5) as Ha5.
    split_and!; [done| congruence | lia | lia | lia]. }
  apply bind_Ok in Hbranch as (sp & Hsp & Hbranch).
  destruct (Sa.index_or_insert (Sa.next sp) c) as [q nx] eqn:Hix.
  apply bind_Ok in Hbranch as (st5 & Hst5 & Hbranch).
  destruct (modify_at_length _ _ _ _ Hst5) as [Hl5 _].
  pose proof (modify_at_Forall P _ _ _ _ (P_next _) Ha3 Hst5) as Ha5.
  apply bind_Ok in Hbranch as (sp' & Hsp' & Hbranch).
  apply bind_Ok in Hbranch as (sq & Hsq & Hbranch).
  case_decide.
  { apply bind_Ok in Hbranch as (st6 & Hst6 & Hbranch). injection Hbranch as <- <-.
    destruct (modify_at_length _ _ _ _ Hst6) as [Hl6 _].
    pose proof (modify_at_Forall P _ _ _ _ (P_link _) Ha5 Hst6) as Ha6.
    split_and!; [done| congruence | lia | lia | lia]. }
  apply bind_Ok in Hbranch as (st6 & Hst6 & Hbranch).
  destruct (modify_at_length _ _ _ _ Hst6) as [Hl6 Hclone].
  pose proof (modify_at_Forall P _ _ _ _ (P_len _) Ha5 Hst6) as Ha6.
  apply bind_Ok in Hbranch as (sq1 & Hsq1 & Hbranch).
  apply bind_Ok in Hbranch as (st7 & Hst7 & Hbranch).
  destruct (modify_at_length _ _ _ _ Hst7) as [Hl7 _].
  pose proof (modify_at_Forall P _ _ _ _ (P_next _) Ha6 Hst7) as Ha7.
  apply bind_Ok in Hbranch as (sq2 & Hsq2 & Hbranch).
  apply bind_Ok in Hbranch as (st8 & Hst8 & Hbranch).
  destruct (modify_at_length _ _ _ _ Hst8) as [Hl8 _].
  pose proof (modify_at_Forall P _ _ _ _ (P_link _) Ha7 Hst8) as Ha8.
  apply bind_Ok in Hbranch as (st9 & Hst9 & Hbranch).
  destruct (modify_at_length _ _ _ _ Hst9) as [Hl9 _].
  pose proof (modify_at_Forall P _ _ _ _ P_occ0 Ha8 Hst9) as Ha9.
  apply bind_Ok in Hbranch as (st10 & Hst10 & Hbranch).
  destruct (extend_redirect_frame P _ _ _ _ _ _ _ P_next Ha9 Hst10) as [Ha10 Hl10].
  apply bind_Ok in Hbranch as (st11 & Hst11 & Hbranch).
  destruct (modify_at_length _ _ _ _ Hst11) as [Hl11 _].
  pose proof (modify_at_Forall P _ _ _ _ (P_link _) Ha10 Hst11) as Ha11.
  apply bind_Ok in Hbranch as (st12 & Hst12 & Hbranch).
  destruct (modify_at_length _ _ _ _ Hst12) as [Hl12 _].
  pose proof (modify_at_Forall P _ _ _ _ (P_link _) Ha11 Hst12) as Ha12.
  injection Hbranch as <- <-.
  split_and!; [done| congruence | lia | lia | lia].
Qed.

Lemma extend_all_frame s sz sa sz' sa' :
  0 ≤ sz → Forall P (Sa.st sa) → Sa.extend_all s sz sa = Ok (sz', sa') →
  Forall P (Sa.st sa')
  ∧ length (Sa.st sa') = length (Sa.st sa)
  ∧ sz + Z.of_nat (String.length s) ≤ sz' ≤ sz + 2 * Z.of_nat (String.length s)
  ∧ sz' ≤ Z.max sz (Z.of_nat (length (Sa.st sa))).
Proof.
  revert sz sa. induction s as [|c s IH]; intros sz sa Hsz Hall Hrun; simpl in Hrun.
  - injection Hrun as <- <-. split_and!; [done|done|simpl; lia|simpl; lia|lia].
  - apply bind_Ok in Hrun as ([sz1 sa1] & Hext & Hrun).
    destruct (extend_frame _ _ _ _ _ Hall Hext) as (Hall1 & Hlen1 & Hsz1 & Hb1).
    destruct (IH sz1 sa1 ltac:(lia) Hall1 Hrun) as (Hall2 & Hlen2 & Hsz2 & Hb2).
    split_and!; [done|congruence| | |].
    + cbn [String.length]. lia.
    + cbn [String.length]. lia.
    + rewrite Hlen1 in Hb2. specialize (Hb1 Hsz). lia.
Qed.

End ExtendFrame.

Lemma propagate_nonneg st indices st' :
  Forall (λ s, 0 ≤ Sa.occ s) st → Sa.propagate st indices = Ok st' →
  Forall (λ s, 0 ≤ Sa.occ s) st'.
Proof.
  revert st. induction indices as [|i rest IH]; intros st Hall Hrun; simpl in Hrun.
  - by injection Hrun as <-.
  - apply bind_Ok in Hrun as (si & Hsi & Hrun).
    apply at_Ok in Hsi as [_ Hsi].
    pose proof (Forall_lookup_1 _ _ _ _ Hall Hsi) as Hocc. simpl in Hocc.
    case_decide.
    + apply bind_Ok in Hrun as (st1 & Hst1 & Hrun).
      eapply IH; [|done]. eapply modify_at_Forall; [|done|done].
      intros a Ha. simpl. lia.
    + by apply (IH st).
Qed.

Lemma propagate_length st indices st' :
  Sa.propagate st indices = Ok st' → length st' = length st.
Proof.
  revert st. induction indices as [|i rest IH]; intros st Hrun; simpl in Hrun.
  - by injection Hrun as <-.
  - apply bind_Ok in Hrun as (si & Hsi & Hrun). case_decide; [|by apply IH].
    apply bind_Ok in Hrun as (st1 & Hst1 & Hrun).
    destruct (modify_at_length _ _ _ _ Hst1) as [Hl1 _].
    by rewrite (IH _ Hrun).
Qed.

Lemma resize_vec_Forall {A} (P : A → Prop) n d v :
  P d → Forall P v → Forall P (resize_vec n d v).
Proof.
  intros Hd Hv. unfold resize_vec. apply Forall_app. split.
  - by apply Forall_take.
  - by apply Forall_replicate.
Qed.

Lemma countOccurrences_from_nonneg st cur pattern n :
  Forall (λ s, 0 ≤ Sa.occ s) st →
  Sa.countOccurrences_from st cur pattern = Ok n → 0 ≤ n.
Proof.
  intros Hall. revert cur. induction pattern as [|c pattern IH]; intros cur; simpl.
  - intros (s & Hs & Hrun)%bind_Ok. injection Hrun as <-.
    apply at_Ok in Hs as [_ Hs]. by apply (Forall_lookup_1 _ _ _ _ Hall Hs).
  - intros (s & Hs & Hrun)%bind_Ok.
    destruct (Sa.next s !! c) as [cur'|]; [by eapply IH|].
    injection Hrun as <-. lia.
Qed.

(** X16.  A query on a constructed automaton is safe.  For every string the
    constructor accepts, the automaton has more states than the string has
    characters and at most twice as many, which is the size the constructor
    reserves; [countOccurrences] then returns for every pattern, without
    reading outside the vector of states, and what it returns is never
    negative. *)
Theorem countOccurrences_is_safe s sa pattern :
  Sa.SuffixAutomaton_ctor s = Ok sa →
  (String.length s < length (Sa.st sa) ≤ 2 * String.length s)%nat
  ∧ ∃ n, Sa.countOccurrences sa pattern = Ok n ∧ 0 ≤ n.
Proof.
  intros Hctor.
  destruct (SuffixAutomaton_ctor_closed s sa Hctor) as [Hclosed Hlen].
  destruct (countOccurrences_Ok sa pattern Hclosed Hlen) as [n Hn].
  unfold Sa.SuffixAutomaton_ctor in Hctor.
  apply bind_Ok in Hctor as (st1 & Hst1 & Hctor).
  apply bind_Ok in Hctor as (st2 & Hst2 & Hctor).
  apply bind_Ok in Hctor as (st3 & Hst3 & Hctor).
  apply bind_Ok in Hctor as ([sz sa1] & Hext & Hctor).
  apply bind_Ok in Hctor as (st5 & Hprop & Hctor).
  injection Hctor as <-. cbn [Sa.st] in *.
  assert (Hall0 : Forall (λ s, 0 ≤ Sa.occ s)
                    (resize_vec (2 * String.length s) Sa.SAState_zero [])).
  { by apply resize_vec_Forall. }
  destruct (modify_at_length _ _ _ _ Hst1) as [Hl1 Hpos].
  rewrite length_resize_vec in Hpos.
  destruct (modify_at_length _ _ _ _ Hst2) as [Hl2 _].
  destruct (modify_at_length _ _ _ _ Hst3) as [Hl3 _].
  pose proof (modify_at_Forall (λ s, 0 ≤ Sa.occ s) _ _ (Sa.set_len 0) _
                (λ a Ha, Ha) Hall0 Hst1) as Hall1.
  pose proof (modify_at_Forall (λ s, 0 ≤ Sa.occ s) _ _ (Sa.set_link (-1)) _
                (λ a Ha, Ha) Hall1 Hst2) as Hall2.
  assert (Hall3 : Forall (λ s, 0 ≤ Sa.occ s) st3).
  { eapply modify_at_Forall; [|done|done]. intros a _. simpl. lia. }
  destruct (extend_all_frame (λ s, 0 ≤ Sa.occ s)
              ltac:(done) ltac:(done) ltac:(done)
              ltac:(intros; simpl; lia) ltac:(intros; simpl; lia)
              s 1 (Sa.mkSuffixAutomaton st3 0) sz sa1 ltac:(lia) Hall3 Hext)
    as (Hall4 & Hlen4 & Hsz & Hbound).
  simpl in Hlen4, Hbound.
  rewrite Hl3, Hl2, Hl1, length_resize_vec in Hlen4, Hbound.
  pose proof (propagate_length _ _ _ Hprop) as Hlen5.
  rewrite length_resize_vec in Hlen5.
  split.
  - rewrite Hlen5. lia.
  - exists n. split; [done|].
    unfold Sa.countOccurrences in Hn. cbn [Sa.st] in Hn.
    eapply countOccurrences_from_nonneg; [|done].
    eapply propagate_nonneg; [|done]. by apply resize_vec_Forall.
Qed.


(** ** The properties above on sample inputs *)

Lemma ascii_code_points_spell word pieces :
  ascii_code_points word = Some pieces → spell pieces = word.
Proof.
  revert pieces. induction word as [|c word IH]; intros pieces; simpl.
  - by intros [= <-].
  - destruct (nat_of_ascii c <? 128)%nat; [|done].
    destruct (ascii_code_points word) as [cps|]; [|done].
    intros [= <-]. change (String c (spell cps) = String c word).
    by rewrite (IH cps eq_refl).
Qed.

Lemma empty_table_consistent str i :
  token_to_id empty_table !! str = Some i → token_string empty_table i = Some str.
Proof. simpl. by rewrite lookup_empty. Qed.

Lemma get_token_id_round_trip_witness :
  (∀ str i, token_to_id empty_table !! str = Some i →
            token_string empty_table i = Some str)
  ∧ get_token_id "ab" empty_table
    = (0, mkSymbolTable (<["ab"%string := 0]> ∅) ["ab"%string])
  ∧ token_string (mkSymbolTable (<["ab"%string := 0]> ∅) ["ab"%string]) 0
    = Some "ab"%string
  ∧ get_token_id "ab" (mkSymbolTable (<["ab"%string := 0]> ∅) ["ab"%string])
    = (0, mkSymbolTable (<["ab"%string := 0]> ∅) ["ab"%string]).
Proof.
  split; [exact empty_table_consistent|]. split; [reflexivity|].
  destruct (get_token_id_round_trip "ab" empty_table 0
              (mkSymbolTable (<["ab"%string := 0]> ∅) ["ab"%string])
              empty_table_consistent eq_refl) as (Hback & Hagain & _).
  split; [exact Hback|exact Hagain].
Defined.

Lemma merge_pair_in_word_round_trip_witness :
  (9 ∉ [1; 2; 1; 2; 3])
  ∧ unmerge (1, 2) 9 (merge_pair_in_word [1; 2; 1; 2; 3] (1, 2) 9) = [1; 2; 1; 2; 3]
  ∧ Z.of_nat (length (merge_pair_in_word [1; 2; 1; 2; 3] (1, 2) 9))
    + token_count 9 (merge_pair_in_word [1; 2; 1; 2; 3] (1, 2) 9)
    = Z.of_nat (length [1; 2; 1; 2; 3]).
Proof.
  assert (Hfresh : 9 ∉ [1; 2; 1; 2; 3]).
  { intros Hin. repeat (apply elem_of_cons in Hin as [Hin|Hin]; [discriminate|]).
    by apply elem_of_nil in Hin. }
  split; [exact Hfresh|].
  exact (merge_pair_in_word_round_trip [1; 2; 1; 2; 3] (1, 2) 9 Hfresh).
Defined.

Lemma merge_pair_in_word_clears_the_pair_witness :
  9 ≠ 1 ∧ 9 ≠ 1
  ∧ count_occurrences_in_word (merge_pair_in_word [1; 1; 1; 2] (1, 1) 9) (1, 1) = 0
  ∧ merge_pair_in_word [1; 1; 1; 2] (1, 1) 9 = [9; 1; 2].
Proof.
  assert (H91 : 9 ≠ 1) by discriminate.
  split; [exact H91|]. split; [exact H91|].
  destruct (merge_pair_in_word_clears_the_pair [1; 1; 1; 2] (1, 1) 9 H91 H91)
    as (Hzero & _).
  split; [exact Hzero|reflexivity].
Defined.

Lemma sample_first_word :
  l_words sample_loaded !! 0%nat
  = Some (mkWordEntry "abab" [0; 1; 0; 1] (compute_pairs [0; 1; 0; 1]) 1 1).
Proof. vm_compute. reflexivity. Qed.

Lemma loaded_words_are_their_code_points_witness :
  @load ascii_codecvt bpe_cpp sample_lines = Ok sample_loaded
  ∧ mkWordEntry "abab" [0; 1; 0; 1] (compute_pairs [0; 1; 0; 1]) 1 1
    ∈ l_words sample_loaded
  ∧ ∃ cps, @code_points ascii_codecvt "abab" = Some cps
           ∧ token_string (l_table sample_loaded) <$> [0; 1; 0; 1] = Some <$> cps
           ∧ length [0; 1; 0; 1] = length cps
           ∧ render (l_table sample_loaded) [0; 1; 0; 1] = Some (spell cps).
Proof.
  assert (Hin : mkWordEntry "abab" [0; 1; 0; 1] (compute_pairs [0; 1; 0; 1]) 1 1
                ∈ l_words sample_loaded).
  { eapply list_elem_of_lookup_2. exact sample_first_word. }
  split; [exact sample_load|]. split; [exact Hin|].
  exact (@loaded_words_are_their_code_points ascii_codecvt bpe_cpp sample_lines
           sample_loaded _ sample_load Hin).
Defined.

Lemma sample_s1_first_word :
  words sample_s1 !! 0%nat
  = Some (mkWordEntry "abab" [2; 2] (compute_pairs [2; 2]) 1 1).
Proof. vm_compute. reflexivity. Qed.

Lemma merges_preserve_the_words_witness :
  @trained canonical_order ascii_codecvt bpe_cpp sample_lines sample_s1
  ∧ words sample_s1 !! 0%nat
    = Some (mkWordEntry "abab" [2; 2] (compute_pairs [2; 2]) 1 1)
  ∧ ∃ cps, @code_points ascii_codecvt "abab" = Some cps
           ∧ render (table sample_s1) [2; 2] = Some (spell cps)
           ∧ ((∀ word pieces, @code_points ascii_codecvt word = Some pieces →
                              spell pieces = word) →
              render (table sample_s1) [2; 2] = Some "abab"%string).
Proof.
  split; [exact sample_s1_trained|]. split; [exact sample_s1_first_word|].
  exact (@merges_preserve_the_words canonical_order ascii_codecvt bpe_cpp sample_lines
           sample_s1 0%nat _ sample_s1_trained sample_s1_first_word).
Defined.

Lemma sample_s1_reachable : @reachable canonical_order bpe_cpp sample_s0 sample_s1.
Proof.
  eapply reachable_step; [apply reachable_start|exact sample_s0_step].
Qed.

Lemma vocabulary_is_append_only_witness :
  @load ascii_codecvt bpe_cpp sample_lines = Ok sample_loaded
  ∧ @initial_trainer canonical_order bpe_cpp sample_loaded = Ok sample_s0
  ∧ @reachable canonical_order bpe_cpp sample_s0 sample_s1
  ∧ (∃ new, id_to_token (table sample_s1) = id_to_token (l_table sample_loaded) ++ new
            ∧ (length new ≤ length (merges sample_s1))%nat)
  ∧ NoDup (id_to_token (table sample_s1))
  ∧ rules_spelled (table sample_s1) (merges sample_s1).
Proof.
  split; [exact sample_load|]. split; [exact sample_initial|].
  split; [exact sample_s1_reachable|].
  exact (@vocabulary_is_append_only canonical_order ascii_codecvt bpe_cpp sample_lines
           sample_loaded sample_s0 sample_s1 sample_load sample_initial
           sample_s1_reachable).
Defined.

Lemma index_equals_rebuilt_index_witness :
  @trained canonical_order ascii_codecvt bpe_cpp sample_lines sample_s1
  ∧ pair_to_word_indices sample_s1 = @build_index canonical_order 0 (words sample_s1) ∅
  ∧ no_empty_key (pair_to_word_indices sample_s1).
Proof.
  split; [exact sample_s1_trained|].
  exact (@index_equals_rebuilt_index canonical_order ascii_codecvt bpe_cpp sample_lines
           sample_s1 sample_s1_trained).
Defined.

Lemma sample_s1_new_token : token_string (table sample_s1) 2 = Some "ab"%string.
Proof. vm_compute. reflexivity. Qed.

Lemma every_token_occurs_in_the_input_witness :
  @load ascii_codecvt bpe_cpp sample_lines = Ok sample_loaded
  ∧ @initial_trainer canonical_order bpe_cpp sample_loaded = Ok sample_s0
  ∧ @reachable canonical_order bpe_cpp sample_s0 sample_s1
  ∧ token_string (table sample_s1) 2 = Some "ab"%string
  ∧ "ab"%string ≠ EmptyString
  ∧ ∃ w cps pre post,
      w ∈ l_words sample_loaded ∧ @code_points ascii_codecvt (original w) = Some cps
      ∧ spell cps = (pre ++ "ab" ++ post)%string
      ∧ ((∀ word pieces, @code_points ascii_codecvt word = Some pieces →
                         spell pieces = word) →
         original w = (pre ++ "ab" ++ post)%string).
Proof.
  split; [exact sample_load|]. split; [exact sample_initial|].
  split; [exact sample_s1_reachable|]. split; [exact sample_s1_new_token|].
  exact (@every_token_occurs_in_the_input canonical_order ascii_codecvt bpe_cpp
           sample_lines sample_loaded sample_s0 sample_s1 2 "ab"
           sample_load sample_initial sample_s1_reachable sample_s1_new_token).
Defined.

Lemma rescan_load : @load ascii_codecvt bpes_bpe_cpp rescan_lines = Ok rescan_loaded.
Proof. vm_compute. reflexivity. Qed.

Lemma rescan_initial :
  @initial_trainer canonical_order bpes_bpe_cpp rescan_loaded = Ok rescan_s0.
Proof. vm_compute. reflexivity. Qed.

Lemma rescan_s1_reachable : @reachable canonical_order bpes_bpe_cpp rescan_s0 rescan_s1.
Proof.
  eapply reachable_step; [apply reachable_start|]. vm_compute. reflexivity.
Qed.

Lemma rescan_lists_the_whole_vocabulary_witness :
  (∀ word pieces, @code_points ascii_codecvt word = Some pieces → spell pieces = word)
  ∧ @load ascii_codecvt bpes_bpe_cpp rescan_lines = Ok rescan_loaded
  ∧ @initial_trainer canonical_order bpes_bpe_cpp rescan_loaded = Ok rescan_s0
  ∧ @reachable canonical_order bpes_bpe_cpp rescan_s0 rescan_s1
  ∧ (∃ m, final_frequencies bpes_bpe_cpp rescan_s1 = Ok m
          ∧ (∀ id, m !! id =
               (str ← token_string (table rescan_s1) id;
                Some (Zsum ((λ w, occurrences (original w) str)
                              <$> l_words rescan_loaded))))
          ∧ (∀ id f, m !! id = Some f → 1 ≤ f))
  ∧ (∀ rule, rule ∈ merges rescan_s1 → 1 ≤ frequency rule).
Proof.
  split; [exact ascii_code_points_spell|]. split; [exact rescan_load|].
  split; [exact rescan_initial|]. split; [exact rescan_s1_reachable|].
  exact (@rescan_lists_the_whole_vocabulary canonical_order ascii_codecvt rescan_lines
           rescan_loaded rescan_s0 rescan_s1 ascii_code_points_spell rescan_load
           rescan_initial rescan_s1_reachable).
Defined.

Lemma sample_fuel : (total_tokens (l_words sample_loaded) < 20)%nat.
Proof. vm_compute. lia. Qed.

Lemma main_completes_witness :
  @load ascii_codecvt bpe_cpp sample_lines = Ok sample_loaded
  ∧ @initial_trainer canonical_order bpe_cpp sample_loaded = Ok sample_s0
  ∧ (total_tokens (l_words sample_loaded) < 20)%nat
  ∧ ∃ out, @main canonical_order ascii_codecvt bpe_cpp 20 sample_lines = Ok out
           ∧ exit_status out = EXIT_SUCCESS
           ∧ cerr out = l_cerr sample_loaded
           ∧ (length (merges_file out) ≤ total_tokens (l_words sample_loaded))%nat
           ∧ Forall (λ r, r.1.2 = (r.1.1.1 ++ r.1.1.2)%string) (merges_file out)
           ∧ NoDup (tokens_file out).*1.
Proof.
  split; [exact sample_load|]. split; [exact sample_initial|].
  split; [exact sample_fuel|].
  exact (@main_completes canonical_order ascii_codecvt bpe_cpp 20 sample_lines
           sample_loaded sample_s0 sample_load sample_initial sample_fuel).
Defined.

(** Without a key there is no tie, and a key that is strictly ahead of all
    others is not tied. *)
Lemma no_tie_empty v s : dom (pair_to_word_indices s) = ∅ → no_tie v s.
Proof. intros Hdom p q Hp. rewrite Hdom in Hp. by apply elem_of_empty in Hp. Qed.

Lemma no_tie_strict v s p0 :
  p0 ∈ dom (pair_to_word_indices s) →
  (∀ q, q ∈ dom (pair_to_word_indices s) → q ≠ p0 →
     int_frequency v (words s) q < int_frequency v (words s) p0) →
  no_tie v s.
Proof.
  intros Hp0 Hlt p q Hp Hq _ Heq Hmax.
  assert (Hpp : p = p0).
  { destruct (decide (p = p0)) as [|Hne]; [done|].
    pose proof (Hlt p Hp Hne). pose proof (Hmax p0 Hp0). lia. }
  subst p. destruct (decide (q = p0)) as [|Hne]; [done|].
  pose proof (Hlt q Hq Hne). lia.
Qed.

(** The run on [order_lines]: three merges, none of them tied. *)
Lemma order_load : @load ascii_codecvt bpe_cpp order_lines = Ok order_loaded.
Proof. vm_compute. reflexivity. Qed.

Lemma order_initial :
  @initial_trainer canonical_order bpe_cpp order_loaded = Ok order_s0.
Proof. vm_compute. reflexivity. Qed.

Lemma order_run :
  @iteration canonical_order bpe_cpp order_s0 = Ok (Merged order_s1)
  ∧ @iteration canonical_order bpe_cpp order_s1 = Ok (Merged order_s2)
  ∧ @iteration canonical_order bpe_cpp order_s2 = Ok (Merged order_s3)
  ∧ @iteration canonical_order bpe_cpp order_s3 = Ok Finished
  ∧ dom (pair_to_word_indices order_s0) = {[ (0, 1); (1, 2); (2, 0) ]}
  ∧ dom (pair_to_word_indices order_s1) = {[ (0, 3); (3, 0) ]}
  ∧ dom (pair_to_word_indices order_s2) = {[ (3, 0) ]}
  ∧ dom (pair_to_word_indices order_s3) = ∅.
Proof. split_and!; vm_compute; reflexivity. Qed.

Lemma order_no_tie s :
  @reachable canonical_order bpe_cpp order_s0 s → no_tie bpe_cpp s.
Proof.
  intros Hreach.
  destruct order_run
    as (Hstep0 & Hstep1 & Hstep2 & Hstep3 & Hdom0 & Hdom1 & Hdom2 & Hdom3).
  assert (Hs : s = order_s0 ∨ s = order_s1 ∨ s = order_s2 ∨ s = order_s3).
  { induction Hreach as [|s s' Hreach IH Hstep]; [by left|].
    destruct IH as [->|[->|[->| ->]]].
    - right; left. rewrite Hstep0 in Hstep. by injection Hstep.
    - right; right; left. rewrite Hstep1 in Hstep. by injection Hstep.
    - right; right; right. rewrite Hstep2 in Hstep. by injection Hstep.
    - rewrite Hstep3 in Hstep. discriminate. }
  destruct Hs as [->|[->|[->| ->]]].
  - apply (no_tie_strict _ _ (1, 2)).
    + rewrite Hdom0, !elem_of_union, !elem_of_singleton. tauto.
    + intros q. rewrite Hdom0, !elem_of_union, !elem_of_singleton.
      intros [[-> | ->] | ->] Hne; [| done |]; vm_compute; reflexivity.
  - apply (no_tie_strict _ _ (0, 3)).
    + rewrite Hdom1, !elem_of_union, !elem_of_singleton. tauto.
    + intros q. rewrite Hdom1, !elem_of_union, !elem_of_singleton.
      intros [-> | ->] Hne; [done|]. vm_compute. reflexivity.
  - by eapply no_tie_singleton.
  - by apply no_tie_empty.
Qed.

(** On this input the two orders enumerate the index, the words of a key
    and the pairs of a word differently. *)
Lemma order_enumerations_differ :
  (@iter_index canonical_order (pair_to_word_indices order_s0)).*1
  = [(0, 1); (2, 0); (1, 2)]
  ∧ (@iter_index reversed_order (pair_to_word_indices order_s0)).*1
    = [(1, 2); (2, 0); (0, 1)]
  ∧ @iter_words canonical_order <$> (pair_to_word_indices order_s0 !! (1, 2))
    = Some [1; 0]%nat
  ∧ @iter_words reversed_order <$> (pair_to_word_indices order_s0 !! (1, 2))
    = Some [0; 1]%nat
  ∧ @iter_pairs canonical_order <$> (pairSet <$> words order_s0)
    = [[(0, 1); (1, 2)]; [(2, 0); (1, 2)]]
  ∧ @iter_pairs reversed_order <$> (pairSet <$> words order_s0)
    = [[(1, 2); (0, 1)]; [(1, 2); (2, 0)]].
Proof. split_and!; vm_compute; reflexivity. Qed.

Lemma merge_loop_is_order_independent_witness :
  @load ascii_codecvt bpe_cpp order_lines = Ok order_loaded
  ∧ @initial_trainer canonical_order bpe_cpp order_loaded = Ok order_s0
  ∧ (∀ s, @reachable canonical_order bpe_cpp order_s0 s → no_tie bpe_cpp s)
  ∧ @initial_trainer reversed_order bpe_cpp order_loaded = Ok order_s0
  ∧ @merge_loop canonical_order 5 bpe_cpp order_s0
    = @merge_loop reversed_order 5 bpe_cpp order_s0.
Proof.
  split; [exact order_load|]. split; [exact order_initial|].
  split; [exact order_no_tie|].
  exact (@merge_loop_is_order_independent canonical_order reversed_order ascii_codecvt
           bpe_cpp order_lines order_loaded order_s0 5 order_load order_initial
           order_no_tie).
Defined.

Lemma countOccurrences_is_safe_witness :
  Sa.SuffixAutomaton_ctor "aaa#" = Ok (from_ok (Sa.mkSuffixAutomaton [] 0)
                                          (Sa.SuffixAutomaton_ctor "aaa#"))
  ∧ (String.length "aaa#"
     < length (Sa.st (from_ok (Sa.mkSuffixAutomaton [] 0)
                              (Sa.SuffixAutomaton_ctor "aaa#")))
     ≤ 2 * String.length "aaa#")%nat
  ∧ ∃ n, Sa.countOccurrences (from_ok (Sa.mkSuffixAutomaton [] 0)
                                      (Sa.SuffixAutomaton_ctor "aaa#")) "aa"
         = Ok n ∧ 0 ≤ n.
Proof.
  assert (Hctor : Sa.SuffixAutomaton_ctor "aaa#"
                  = Ok (from_ok (Sa.mkSuffixAutomaton [] 0)
                                (Sa.SuffixAutomaton_ctor "aaa#"))).
  { vm_compute. reflexivity. }
  split; [exact Hctor|].
  exact (countOccurrences_is_safe "aaa#" _ "aa" Hctor).
Defined.


(** ** bpe2.cpp: the list the reader builds *)

Lemma dll_length h p addrs toks : dll h p addrs toks → length addrs = length toks.
Proof.
  revert p toks. induction addrs as [|a addrs IH]; intros p [|t toks]; simpl; try done.
  intros (n & _ & _ & _ & _ & _ & Hrest). f_equal. by eapply IH.
Qed.

Lemma dll_ext h h' p addrs toks :
  (∀ a, a ∈ addrs → h' !! a = h !! a) → dll h p addrs toks → dll h' p addrs toks.
Proof.
  revert p toks. induction addrs as [|a addrs IH]; intros p [|t toks] Hsame; simpl;
    try done.
  intros (n & Hn & Ht & Hr & Hp & Hnx & Hrest).
  exists n. rewrite Hsame by set_solver. split_and!; try done.
  apply IH; [|done]. intros x Hx. apply Hsame. set_solver.
Qed.

Lemma dll_elem_of h p addrs toks a :
  dll h p addrs toks → a ∈ addrs →
  ∃ n, h !! a = Some n ∧ Bpe2.removed n = false ∧ Bpe2.token n ∈ toks.
Proof.
  revert p toks. induction addrs as [|x addrs IH]; intros p [|t toks]; simpl; try done.
  - by intros _ ?%elem_of_nil.
  - intros (n & Hn & Ht & Hr & _ & _ & Hrest) [->|Hin]%elem_of_cons.
    + exists n. split_and!; [done|done|]. subst t. by left.
    + destruct (IH _ _ Hrest Hin) as (n' & ? & ? & ?).
      exists n'. split_and!; [done|done|]. by right.
Qed.

Lemma dll_snoc h h' p addrs toks a t :
  dll h p addrs toks → NoDup addrs → a ∉ addrs →
  h' !! a = Some (Bpe2.mkNode t (if last addrs is Some l then Some l else p) None false) →
  (∀ x, x ∈ addrs → Some x ≠ last addrs → h' !! x = h !! x) →
  (∀ x n, last addrs = Some x → h !! x = Some n →
          h' !! x = Some (Bpe2.set_next (Some a) n)) →
  dll h' p (addrs ++ [a]) (toks ++ [t]).
Proof.
  revert p toks. induction addrs as [|x rest IH]; intros p [|t0 toks]; simpl; try done.
  - intros _ _ _ Ha _ _. eexists. split; [exact Ha|]. done.
  - intros (n & Hn & Ht & Hr & Hp & Hnx & Hrest) [Hx Hnd]%NoDup_cons Hfresh Ha Hsame Hlast.
    destruct rest as [|y r].
    + destruct toks; [|done]. simpl in *.
      exists (Bpe2.set_next (Some a) n). split; [by apply Hlast|].
      split_and!; try done.
      eexists. split; [exact Ha|]. done.
    + exists n. rewrite Hsame; [|set_solver|].
      2:{ rewrite last_cons_cons. intros Heq. apply Hx.
          symmetry in Heq. apply last_Some_elem_of in Heq. done. }
      split_and!; try done.
      apply IH.
      * done.
      * done.
      * set_solver.
      * rewrite last_cons_cons in Ha.
        destruct (last (y :: r)) eqn:Hl; [done|]. by apply last_None in Hl.
      * intros z Hz Hne. apply Hsame; [set_solver|]. by rewrite last_cons_cons.
      * intros z nz Hz. apply Hlast. by rewrite last_cons_cons.
Qed.

Lemma appendNode_spec t h addrs toks :
  reader_inv h addrs toks →
  ∃ h', Bpe2.appendNode t h = Ok h'
        ∧ reader_inv h' (addrs ++ [Bpe2.fresh h]) (toks ++ [t]).
Proof.
  intros (Hdll & Hnd & Hhead & Htail & Hdom & Hfresh).
  assert (Hnew : Bpe2.fresh h ∉ addrs).
  { intros Hin. apply Hfresh in Hin. lia. }
  unfold Bpe2.appendNode. destruct (Bpe2.head h) as [hd|] eqn:Hhd.
  2:{ destruct addrs as [|a0 addrs0]; [|done]. eexists. split; [done|].
      destruct toks; [|done].
      split_and!; simpl.
      - eexists. split; [apply lookup_insert_eq|]. done.
      - apply NoDup_singleton.
      - done.
      - done.
      - intros a. rewrite lookup_insert. case_decide as Ha.
        + subst. split; [set_solver|by eexists].
        + rewrite Hdom. set_solver.
      - intros a ->%list_elem_of_singleton. lia. }
  - assert (Hne : addrs ≠ []) by (by intros ->).
    assert (is_Some (last addrs)) as [tl Htl] by (by apply last_is_Some).
    rewrite Htail, Htl. cbn [of_option mbind result_bind].
    assert (Htl_in : tl ∈ addrs) by (by apply last_Some_elem_of).
    assert (Htl_ne : tl ≠ Bpe2.fresh h) by (intros ->; done).
    destruct (proj2 (Hdom tl) Htl_in) as [ntl Hntl].
    unfold Bpe2.store at 2. unfold Bpe2.deref.
    rewrite lookup_insert_ne by done. rewrite Hntl. cbn [of_option mbind result_bind].
    unfold Bpe2.store, Bpe2.deref.
    rewrite lookup_insert_ne by done. rewrite lookup_insert_eq.
    cbn [of_option mbind result_bind].
    eexists. split; [done|].
    split_and!; cbn [Bpe2.nodes Bpe2.fresh Bpe2.head Bpe2.tail].
    + eapply (dll_snoc (Bpe2.nodes h)); try done.
      * rewrite lookup_insert_eq, Htl. done.
      * intros x Hx Hxl. rewrite lookup_insert_ne by (intros <-; done).
        rewrite lookup_insert_ne; [|intros <-; by rewrite Htl in Hxl].
        rewrite lookup_insert_ne by (intros <-; done). done.
      * intros x n Hx Hn. rewrite Htl in Hx. injection Hx as <-.
        rewrite lookup_insert_ne by done. rewrite lookup_insert_eq.
        rewrite Hntl in Hn. by injection Hn as <-.
    + apply NoDup_app. split_and!; [done| |apply NoDup_singleton].
      intros x Hx ->%list_elem_of_singleton. done.
    + rewrite Hhead. by destruct addrs.
    + by rewrite last_snoc.
    + intros a. rewrite elem_of_app, list_elem_of_singleton, <- Hdom.
      rewrite !lookup_insert. repeat case_decide; subst; try naive_solver.
      all: split; [intros _|intros _; by eexists]; try (by right); try (by left; eexists).
    + intros a [Ha| ->%list_elem_of_singleton]%elem_of_app; [|lia].
      apply Hfresh in Ha. lia.
Qed.

Lemma spacer_table_ok : table_ok Bpe2.spacer_table.
Proof.
  split.
  - intros str id. unfold Bpe2.spacer_table. simpl.
    intros [<- <-]%lookup_singleton_Some. done.
  - repeat constructor. done.
Qed.

Lemma spacer_table_inverse : table_inverse Bpe2.spacer_table.
Proof.
  intros str id. rewrite token_string_Some. unfold Bpe2.spacer_table. simpl.
  rewrite lookup_singleton_Some. split.
  - intros [<- <-]. split; [lia|done].
  - intros [Hid Hlook]. destruct (Z.to_nat id) as [|k] eqn:Hk; simpl in Hlook.
    + injection Hlook as <-. split; [done|lia].
    + by rewrite lookup_nil in Hlook.
Qed.

Lemma append_chars_spec line h t addrs toks (strs : list string) :
  reader_inv h addrs toks → table_ok t → table_inverse t →
  token_string t <$> toks = Some <$> strs →
  ∃ h' t' addrs' toks',
    Bpe2.append_chars line (h, t) = Ok (h', t')
    ∧ reader_inv h' addrs' toks' ∧ table_ok t' ∧ table_inverse t'
    ∧ table_extends t t'
    ∧ token_string t' <$> toks' = Some <$> (strs ++ chars line).
Proof.
  revert h t addrs toks strs.
  induction line as [|c line IH]; intros h t addrs toks strs Hinv Hok Hti Hstrs.
  - exists h, t, addrs, toks. rewrite app_nil_r.
    split_and!; try done. apply table_extends_refl.
  - cbn [Bpe2.append_chars snd fst].
    destruct (get_token_id (String c EmptyString) t) as [tid t1] eqn:Hget.
    assert (Hc : String c EmptyString ≠ EmptyString) by done.
    destruct (get_token_id_spec _ _ _ _ Hok Hc Hget) as (Hok1 & Htid & _ & Hext1).
    pose proof (get_token_id_inverse _ _ _ _ Hti Hget) as Hti1.
    destruct (appendNode_spec tid h addrs toks Hinv) as (h1 & Happ & Hinv1).
    rewrite Happ. cbn [mbind result_bind].
    destruct (IH h1 t1 _ _ (strs ++ [String c EmptyString]) Hinv1 Hok1 Hti1)
      as (h' & t' & addrs' & toks' & Hrun & Hinv' & Hok' & Hti' & Hext' & Hstrs').
    { rewrite !fmap_app. f_equal; [by eapply fmap_token_string_extends|].
      simpl. by rewrite Htid. }
    exists h', t', addrs', toks'. split_and!; try done.
    + by eapply table_extends_trans.
    + rewrite Hstrs'. by rewrite <- app_assoc.
Qed.

Lemma read_lines_spec lines h t addrs toks (strs : list string) :
  reader_inv h addrs toks → table_ok t → table_inverse t →
  token_string t 0 = Some "<spacer>"%string →
  token_string t <$> toks = Some <$> strs →
  ∃ h' t' addrs' toks',
    Bpe2.read_lines lines (h, t) = Ok (h', t')
    ∧ reader_inv h' addrs' toks' ∧ table_ok t' ∧ table_inverse t'
    ∧ table_extends t t'
    ∧ token_string t' <$> toks'
      = Some <$> (strs ++ flat_map (λ line, chars line ++ ["<spacer>"%string])
                            (filter (λ line, line ≠ EmptyString) lines)).
Proof.
  revert h t addrs toks strs.
  induction lines as [|line lines IH]; intros h t addrs toks strs Hinv Hok Hti Hsp Hstrs.
  - exists h, t, addrs, toks. simpl. rewrite app_nil_r.
    split_and!; try done. apply table_extends_refl.
  - cbn [Bpe2.read_lines]. destruct (decide (line = EmptyString)) as [->|Hne].
    { rewrite filter_cons_False by naive_solver. by apply (IH h t addrs toks). }
    rewrite filter_cons_True by done.
    destruct (append_chars_spec line h t addrs toks strs Hinv Hok Hti Hstrs)
      as (h1 & t1 & addrs1 & toks1 & Hrun1 & Hinv1 & Hok1 & Hti1 & Hext1 & Hstrs1).
    rewrite Hrun1. cbn [mbind result_bind].
    destruct (appendNode_spec 0 h1 addrs1 toks1 Hinv1) as (h2 & Happ & Hinv2).
    rewrite Happ. cbn [mbind result_bind].
    destruct (IH h2 t1 _ _ (strs ++ chars line ++ ["<spacer>"%string]) Hinv2 Hok1 Hti1)
      as (h' & t' & addrs' & toks' & Hrun & Hinv' & Hok' & Hti' & Hext' & Hstrs').
    { by apply Hext1. }
    { rewrite fmap_app, Hstrs1. simpl. rewrite (Hext1 _ _ Hsp).
      by rewrite !fmap_app, <- app_assoc. }
    exists h', t', addrs', toks'. split_and!; try done.
    + by eapply table_extends_trans.
    + rewrite Hstrs'. cbn [flat_map]. by rewrite <- !app_assoc.
Qed.

Lemma dll_unsnoc h p addrs toks a t :
  dll h p (addrs ++ [a]) (toks ++ [t]) → NoDup (addrs ++ [a]) → length addrs = length toks →
  (∃ n, h !! a = Some n ∧ Bpe2.token n = t
        ∧ Bpe2.prev n = (if last addrs is Some l then Some l else p))
  ∧ ∀ h', (∀ x, x ∈ addrs → Some x ≠ last addrs → h' !! x = h !! x) →
          (∀ x n, last addrs = Some x → h !! x = Some n →
                  h' !! x = Some (Bpe2.set_next None n)) →
          dll h' p addrs toks.
Proof.
  revert p toks. induction addrs as [|x rest IH]; intros p [|t0 toks]; simpl; try done.
  - intros (n & Hn & Ht & Hr & Hp & Hnx & _) _ _. split; [by exists n|done].
  - intros (n & Hn & Ht & Hr & Hp & Hnx & Hrest) [Hx Hnd]%NoDup_cons [= Hlen].
    destruct (IH _ _ Hrest Hnd Hlen) as [Hlast Hbuild].
    split.
    + destruct Hlast as (na & Hna & Hta & Hpa). exists na. split_and!; [done|done|].
      rewrite Hpa. destruct rest as [|y r]; [done|].
      rewrite last_cons_cons. destruct (last (y :: r)) eqn:Hl; [done|].
      by apply last_None in Hl.
    + intros h' Hsame Hcut. destruct rest as [|y r].
      * destruct toks; [|done]. simpl in *.
        exists (Bpe2.set_next None n). split; [by apply Hcut|]. done.
      * exists n. rewrite Hsame; [|set_solver|].
        2:{ rewrite last_cons_cons. intros Heq. apply Hx.
            symmetry in Heq. apply last_Some_elem_of in Heq. set_solver. }
        split_and!; try done.
        apply Hbuild.
        -- intros z Hz Hne. apply Hsame; [set_solver|]. by rewrite last_cons_cons.
        -- intros z nz Hz. apply Hcut. by rewrite last_cons_cons.
Qed.

Lemma drop_last_spacer_spec h addrs toks a :
  reader_inv h (addrs ++ [a]) (toks ++ [0]) →
  ∃ h', Bpe2.drop_last_spacer h = Ok h' ∧ reader_inv h' addrs toks
        ∧ Bpe2.fresh h' = Bpe2.fresh h.
Proof.
  intros (Hdll & Hnd & Hhead & Htail & Hdom & Hfresh).
  assert (Hlen : length addrs = length toks).
  { apply dll_length in Hdll. rewrite !length_app in Hdll. simpl in Hdll. lia. }
  destruct (dll_unsnoc _ _ _ _ _ _ Hdll Hnd Hlen) as [(n & Hn & Ht & Hp) Hbuild].
  apply NoDup_app in Hnd as (Hnd & Hdisj & _).
  assert (Ha : a ∉ addrs). { intros Hin. apply (Hdisj a Hin). set_solver. }
  unfold Bpe2.drop_last_spacer. rewrite Htail, last_snoc.
  unfold Bpe2.deref. rewrite Hn. cbn [of_option mbind result_bind].
  rewrite decide_True by done. rewrite Hp.
  destruct (last addrs) as [tl|] eqn:Htl.
  - assert (Htl_in : tl ∈ addrs) by (by apply last_Some_elem_of).
    assert (Htl_a : tl ≠ a) by (intros ->; done).
    destruct (proj2 (Hdom tl) ltac:(set_solver)) as [ntl Hntl].
    unfold Bpe2.store, Bpe2.deref. rewrite Hntl. cbn [of_option mbind result_bind].
    eexists. split; [done|]. split; [|done].
    split_and!; cbn [Bpe2.nodes Bpe2.fresh Bpe2.head Bpe2.tail].
    + apply Hbuild.
      * intros x Hx Hxl. rewrite lookup_delete_ne by (intros <-; done).
        rewrite lookup_insert_ne; [done|]. intros <-. done.
      * intros x nx [= <-] Hnx. rewrite lookup_delete_ne by done.
        rewrite lookup_insert_eq. rewrite Hntl in Hnx. by injection Hnx as <-.
    + done.
    + rewrite Hhead. destruct addrs; [done|done].
    + done.
    + intros x. rewrite lookup_delete. case_decide as Hx.
      * subst. split; [by intros [? ?]|done].
      * rewrite lookup_insert. case_decide.
        -- subst. split; [done|by eexists].
        -- rewrite Hdom. set_solver.
    + intros x Hx. apply Hfresh. set_solver.
  - apply last_None in Htl. subst addrs. destruct toks; [|done].
    eexists. split; [done|]. split; [|done].
    split_and!; cbn [Bpe2.nodes Bpe2.fresh Bpe2.head Bpe2.tail]; try done.
    + intros x. rewrite lookup_delete. case_decide as Hx.
      * subst. split; [by intros [? ?]|by intros ?%elem_of_nil].
      * rewrite Hdom. set_solver.
    + by intros x ?%elem_of_nil.
Qed.

Lemma token_sequence_dll fuel h p addrs toks :
  dll h p addrs toks → (length addrs ≤ fuel)%nat →
  Bpe2.token_sequence fuel h (head addrs) = Ok toks.
Proof.
  revert p toks fuel. induction addrs as [|a addrs IH]; intros p [|t toks] fuel; simpl;
    try done.
  - by destruct fuel.
  - intros (n & Hn & Ht & Hr & Hp & Hnx & Hrest) Hlen.
    destruct fuel as [|fuel]; [lia|]. cbn [Bpe2.token_sequence].
    unfold Bpe2.deref. rewrite Hn. cbn [of_option mbind result_bind].
    rewrite Hnx, (IH _ _ fuel Hrest) by lia. cbn [mbind result_bind]. by rewrite Ht.
Qed.

Lemma buildPairMap_from_dll fuel h p addrs toks pmap :
  dll h p addrs toks → (length addrs ≤ S fuel)%nat →
  ∃ pmap', Bpe2.buildPairMap_from fuel h (head addrs) pmap = Ok pmap'.
Proof.
  revert p toks fuel pmap.
  induction addrs as [|a addrs IH]; intros p [|t toks] fuel pmap; simpl; try done.
  - intros _ _. destruct fuel; by eexists.
  - intros (n & Hn & Ht & Hr & Hp & Hnx & Hrest) Hlen.
    destruct addrs as [|b addrs].
    + destruct fuel; simpl; unfold Bpe2.deref; rewrite Hn; simpl; rewrite Hnx;
        by eexists.
    + destruct toks as [|t' toks]; [done|].
      pose proof Hrest as (nb & Hnb & _).
      destruct fuel as [|fuel]; [simpl in Hlen; lia|].
      cbn [Bpe2.buildPairMap_from]. unfold Bpe2.deref.
      rewrite Hn. cbn [of_option mbind result_bind]. rewrite Hnx. cbn [head].
      rewrite Hnb. cbn [of_option mbind result_bind].
      apply (IH (Some a) (t' :: toks) fuel); [done|simpl in *; lia].
Qed.

Lemma reader_inv_length h addrs toks :
  reader_inv h addrs toks → (length addrs ≤ Bpe2.fresh h)%nat.
Proof.
  intros (_ & Hnd & _ & _ & _ & Hfresh).
  rewrite <- (length_seq (Bpe2.fresh h) 0%nat).
  apply submseteq_length, NoDup_submseteq; [done|].
  intros x Hx. apply elem_of_seq. apply Hfresh in Hx. lia.
Qed.

Lemma flat_map_spaced (ws : list (list string)) :
  ws ≠ [] →
  flat_map (λ w, w ++ ["<spacer>"%string]) ws = spaced ws ++ ["<spacer>"%string].
Proof.
  induction ws as [|w [|w2 rest] IH]; [done| |]; intros _.
  - simpl. by rewrite app_nil_r.
  - change (flat_map _ (w :: w2 :: rest))
      with ((w ++ ["<spacer>"%string])
            ++ flat_map (λ w, w ++ ["<spacer>"%string]) (w2 :: rest)).
    rewrite IH by done.
    change (spaced (w :: w2 :: rest)) with (w ++ "<spacer>"%string :: spaced (w2 :: rest)).
    by rewrite <- !app_assoc.
Qed.

Lemma flat_map_chars (lines : list string) :
  flat_map (λ line, chars line ++ ["<spacer>"%string]) lines
  = flat_map (λ w, w ++ ["<spacer>"%string]) (chars <$> lines).
Proof. induction lines as [|l lines IH]; [done|]. simpl. by rewrite IH. Qed.

Lemma spell_chars_shown (w : string) :
  spell ((λ s, if decide (s = "<spacer>"%string) then " "%string else s) <$> chars w) = w.
Proof.
  induction w as [|c w IH]; [done|].
  cbn [chars fmap list_fmap]. rewrite decide_False by done.
  change (String c (spell ((λ s, if decide (s = "<spacer>"%string) then " "%string else s)
                             <$> chars w)) = String c w).
  by rewrite IH.
Qed.

Lemma spell_spaced_shown (ws : list string) :
  spell ((λ s, if decide (s = "<spacer>"%string) then " "%string else s)
           <$> spaced (chars <$> ws))
  = words_with_spaces ws.
Proof.
  induction ws as [|w [|w2 rest] IH]; [done| |].
  - simpl. apply spell_chars_shown.
  - change (spaced (chars <$> w :: w2 :: rest))
      with (chars w ++ "<spacer>"%string :: spaced (chars <$> w2 :: rest)).
    rewrite fmap_app, fmap_cons, spell_app, spell_chars_shown.
    rewrite decide_True by done.
    change (spell (" "%string :: ?l)) with (" " ++ spell l)%string.
    by rewrite IH.
Qed.

Lemma print_tokens_of_strings t (toks : list Z) (strs : list string) :
  table_inverse t → token_string t 0 = Some "<spacer>"%string →
  token_string t <$> toks = Some <$> strs →
  print_tokens t toks
  = Ok (spell ((λ s, if decide (s = "<spacer>"%string) then " "%string else s) <$> strs)).
Proof.
  intros Hinv Hsp. revert strs.
  induction toks as [|tok toks IH]; intros [|str strs]; try done.
  rewrite !fmap_cons. intros [= Htok Hrest].
  cbn [print_tokens]. rewrite (IH _ Hrest).
  destruct (decide (tok = 0)) as [->|Hne].
  - rewrite Hsp in Htok. injection Htok as <-. by rewrite decide_True.
  - rewrite Htok. rewrite decide_False; [done|].
    intros ->. apply Hne. by eapply table_inverse_inj.
Qed.

Lemma initial_state_spec lines :
  ∃ s0 addrs toks,
    Bpe2.initial_state lines = Ok s0
    ∧ reader_inv (Bpe2.heap s0) addrs toks
    ∧ table_ok (Bpe2.table s0) ∧ table_inverse (Bpe2.table s0)
    ∧ token_string (Bpe2.table s0) 0 = Some "<spacer>"%string
    ∧ token_string (Bpe2.table s0) <$> toks
      = Some <$> spaced (chars <$> filter (λ line, line ≠ EmptyString) lines).
Proof.
  unfold Bpe2.initial_state.
  destruct (read_lines_spec lines (Bpe2.mkHeap ∅ 0 None None) Bpe2.spacer_table [] [] [])
    as (h1 & t1 & addrs1 & toks1 & Hread & Hinv1 & Hok1 & Hti1 & Hext1 & Hstrs1).
  { split_and!; simpl; try done.
    - apply NoDup_nil_2.
    - intros a. rewrite lookup_empty. split; [by intros [? ?]|by intros ?%elem_of_nil].
    - by intros a ?%elem_of_nil. }
  { apply spacer_table_ok. }
  { apply spacer_table_inverse. }
  { done. }
  { done. }
  rewrite Hread. cbn [mbind result_bind]. rewrite app_nil_l in Hstrs1.
  assert (Hsp1 : token_string t1 0 = Some "<spacer>"%string) by (by apply Hext1).
  assert (Hfinish : ∀ h2 addrs toks,
            reader_inv h2 addrs toks →
            ∃ pmap, Bpe2.buildPairMap h2 = Ok pmap).
  { intros h2 addrs toks Hinv2. unfold Bpe2.buildPairMap.
    pose proof (reader_inv_length _ _ _ Hinv2) as Hlen.
    destruct Hinv2 as (Hdll & _ & Hhead & _). rewrite Hhead.
    eapply buildPairMap_from_dll; [done|lia]. }
  destruct (filter (λ line, line ≠ EmptyString) lines) as [|l0 ls] eqn:Hlines.
  - simpl in Hstrs1. destruct toks1; [|done].
    pose proof Hinv1 as (Hdll1 & _ & _ & Htail1 & _).
    apply dll_length in Hdll1. destruct addrs1; [|done].
    unfold Bpe2.drop_last_spacer. rewrite Htail1. cbn [last mbind result_bind].
    destruct (Hfinish _ _ _ Hinv1) as [pmap Hpmap]. rewrite Hpmap.
    cbn [mbind result_bind]. eexists _, [], []. split; [done|].
    cbn [Bpe2.heap Bpe2.table]. split_and!; done.
  - rewrite flat_map_chars, flat_map_spaced in Hstrs1 by done.
    rewrite fmap_app in Hstrs1.
    apply fmap_app_inv in Hstrs1 as (toks0 & tks & Htoks0 & Htks & ->).
    destruct tks as [|tk [|? ?]]; try done. simpl in Htks. injection Htks as Htk.
    assert (tk = 0) as -> by (by eapply table_inverse_inj).
    pose proof Hinv1 as (Hdll1 & _).
    apply dll_length in Hdll1. rewrite length_app in Hdll1. simpl in Hdll1.
    destruct (exists_last (l := addrs1)) as (addrs0 & a & ->).
    { intros ->. simpl in Hdll1. lia. }
    destruct (drop_last_spacer_spec _ _ _ _ Hinv1) as (h2 & Hdrop & Hinv2 & _).
    rewrite Hdrop. cbn [mbind result_bind].
    destruct (Hfinish _ _ _ Hinv2) as [pmap Hpmap]. rewrite Hpmap.
    cbn [mbind result_bind]. eexists _, addrs0, toks0. split; [done|].
    cbn [Bpe2.heap Bpe2.table]. split_and!; done.
Qed.

(** X17.  The reader of bpe2.cpp builds the list of the input.  For every
    input the reading loop, the removal of the trailing spacer and
    [buildPairMap] run without dereferencing a dangling pointer; the nodes
    then form one doubly linked list from [head]; walking it meets one token
    for every character of every non-empty line, in order, with exactly one
    spacer between two consecutive lines and none at the end; and the final
    output loop, run on this list, prints the non-empty lines of the input
    separated by single spaces. *)
Theorem bpe2_reader_builds_the_list lines :
  ∃ s0 addrs toks,
    Bpe2.initial_state lines = Ok s0
    ∧ dll (Bpe2.nodes (Bpe2.heap s0)) None addrs toks
    ∧ Bpe2.head (Bpe2.heap s0) = head addrs
    ∧ Bpe2.token_sequence (Bpe2.fresh (Bpe2.heap s0)) (Bpe2.nodes (Bpe2.heap s0))
        (Bpe2.head (Bpe2.heap s0)) = Ok toks
    ∧ token_string (Bpe2.table s0) <$> toks
      = Some <$> spaced (chars <$> filter (λ line, line ≠ EmptyString) lines)
    ∧ print_tokens (Bpe2.table s0) toks
      = Ok (words_with_spaces (filter (λ line, line ≠ EmptyString) lines)).
Proof.
  destruct (initial_state_spec lines)
    as (s0 & addrs & toks & Hinit & Hinv & Hok & Hti & Hsp & Hstrs).
  exists s0, addrs, toks.
  pose proof (reader_inv_length _ _ _ Hinv) as Hlen.
  destruct Hinv as (Hdll & _ & Hhead & _).
  split_and!; try done.
  - rewrite Hhead. by eapply token_sequence_dll.
  - rewrite (print_tokens_of_strings _ _ _ Hti Hsp Hstrs). f_equal.
    apply spell_spaced_shown.
Qed.


(** ** bpe2.cpp: segments of the list *)

Lemma dll_seg_None h p addrs toks : dll_seg h p addrs toks None ↔ dll h p addrs toks.
Proof.
  revert p toks. induction addrs as [|a addrs IH]; intros p [|t toks]; simpl; try done.
  assert ((if addrs is b :: _ then Some b else None) = head addrs) as ->
    by (by destruct addrs).
  split; intros (n & ? & ? & ? & ? & ? & Hrest); exists n; split_and!; try done;
    by apply IH.
Qed.

Lemma dll_seg_ext h h' p addrs toks q :
  (∀ a, a ∈ addrs → h' !! a = h !! a) →
  dll_seg h p addrs toks q → dll_seg h' p addrs toks q.
Proof.
  revert p toks. induction addrs as [|a addrs IH]; intros p [|t toks] Hsame; simpl;
    try done.
  intros (n & Hn & Ht & Hr & Hp & Hnx & Hrest).
  exists n. rewrite Hsame by set_solver. split_and!; try done.
  apply IH; [|done]. intros x Hx. apply Hsame. set_solver.
Qed.

Lemma dll_seg_app_inv h p l1 l2 toks q :
  dll_seg h p (l1 ++ l2) toks q →
  ∃ t1 t2, toks = t1 ++ t2 ∧ length t1 = length l1
    ∧ dll_seg h p l1 t1 (if l2 is b :: _ then Some b else q)
    ∧ dll_seg h (if last l1 is Some l then Some l else p) l2 t2 q.
Proof.
  revert p toks. induction l1 as [|a l1 IH]; intros p toks.
  - intros Hseg. exists [], toks. by split_and!.
  - destruct toks as [|t toks]; [done|]. cbn [app dll_seg].
    intros (n & Hn & Ht & Hr & Hp & Hnx & Hrest).
    destruct (IH _ _ Hrest) as (t1 & t2 & -> & Hlen & Hseg1 & Hseg2).
    exists (t :: t1), t2. split_and!; [done|simpl; by f_equal| |].
    + exists n. split_and!; try done.
      rewrite Hnx. by destruct l1.
    + destruct l1 as [|b l1]; [done|].
      rewrite last_cons_cons. destruct (last (b :: l1)) eqn:Hl; [done|].
      by apply last_None in Hl.
Qed.

Lemma dll_seg_app h p l1 l2 t1 t2 q :
  dll_seg h p l1 t1 (if l2 is b :: _ then Some b else q) →
  dll_seg h (if last l1 is Some l then Some l else p) l2 t2 q →
  dll_seg h p (l1 ++ l2) (t1 ++ t2) q.
Proof.
  revert p t1. induction l1 as [|a l1 IH]; intros p [|t t1]; simpl; try done.
  intros (n & Hn & Ht & Hr & Hp & Hnx & Hrest) Hseg2.
  exists n. split_and!; try done.
  - rewrite Hnx. by destruct l1.
  - apply IH; [done|]. destruct l1 as [|b l1]; [done|].
    rewrite last_cons_cons in Hseg2. destruct (last (b :: l1)) eqn:Hl; [done|].
    by apply last_None in Hl.
Qed.

Lemma dll_seg_elem_of h p addrs toks q a :
  dll_seg h p addrs toks q → a ∈ addrs →
  ∃ n, h !! a = Some n ∧ Bpe2.removed n = false.
Proof.
  revert p toks. induction addrs as [|x addrs IH]; intros p [|t toks]; simpl; try done.
  - by intros _ ?%elem_of_nil.
  - intros (n & Hn & Ht & Hr & _ & _ & Hrest) [->|Hin]%elem_of_cons.
    + by exists n.
    + by eapply IH.
Qed.

Lemma dll_seg_length h p addrs toks q :
  dll_seg h p addrs toks q → length addrs = length toks.
Proof.
  revert p toks. induction addrs as [|a addrs IH]; intros p [|t toks]; simpl; try done.
  intros (n & _ & _ & _ & _ & _ & Hrest). f_equal. by eapply IH.
Qed.

Lemma dll_seg_pointers h p addrs toks q a n :
  dll_seg h p addrs toks q → a ∈ addrs → h !! a = Some n →
  (∀ b, Bpe2.next n = Some b → Some b = q ∨ b ∈ addrs)
  ∧ (∀ b, Bpe2.prev n = Some b → Some b = p ∨ b ∈ addrs).
Proof.
  revert p toks. induction addrs as [|x addrs IH]; intros p [|t toks]; simpl; try done.
  - by intros _ ?%elem_of_nil.
  - intros (nx & Hnx & Ht & Hr & Hp & Hnext & Hrest) [->|Hin]%elem_of_cons Hn.
    + rewrite Hnx in Hn. injection Hn as <-. split.
      * intros b Hb. rewrite Hnext in Hb. destruct addrs as [|y r].
        -- by left.
        -- injection Hb as <-. right. set_solver.
      * intros b Hb. left. congruence.
    + destruct (IH _ _ Hrest Hin Hn) as [Hn1 Hn2]. split.
      * intros b Hb. destruct (Hn1 b Hb); [by left|right; set_solver].
      * intros b Hb. destruct (Hn2 b Hb) as [[= ->]|?]; right; set_solver.
Qed.

(** ** bpe2.cpp: the pair map operations *)

Lemma size_delete_insert (pmap : Bpe2.PairMap) k p d :
  (size (delete k (<[p := d]> pmap)) ≤ S (size (delete k pmap)))%nat.
Proof.
  rewrite delete_insert. case_decide; [by apply Nat.le_succ_diag_r|].
  rewrite map_size_insert. destruct (delete k pmap !! p); [by apply Nat.le_succ_diag_r|done].
Qed.

Lemma size_delete_insert_Some (pmap : Bpe2.PairMap) k p d :
  is_Some (pmap !! p) →
  (size (delete k (<[p := d]> pmap)) ≤ size (delete k pmap))%nat.
Proof.
  intros Hp. rewrite delete_insert. case_decide as Hk; [done|].
  rewrite map_size_insert_Some; [done|]. rewrite lookup_delete. by case_decide.
Qed.

Lemma addOccurrence_size pmap k p node :
  (size (delete k (Bpe2.addOccurrence pmap p node)) ≤ S (size (delete k pmap)))%nat.
Proof. apply size_delete_insert. Qed.

Lemma removeOccurrence_size pmap k p node :
  (size (delete k (Bpe2.removeOccurrence pmap p node)) ≤ size (delete k pmap))%nat.
Proof.
  unfold Bpe2.removeOccurrence. destruct (pmap !! p) as [d|] eqn:Hp; [|done].
  case_decide.
  - rewrite delete_delete, map_size_delete.
    destruct (delete k pmap !! p); [apply Nat.le_pred_l|done].
  - by apply size_delete_insert_Some.
Qed.

Lemma addOccurrence_ok t h pmap p node :
  pmap_ok t h pmap → is_Some (h !! node) →
  is_Some (token_string t p.1) → is_Some (token_string t p.2) →
  pmap_ok t h (Bpe2.addOccurrence pmap p node).
Proof.
  intros [Hocc Hkeys] Hnode Hp1 Hp2. unfold Bpe2.addOccurrence. split.
  - intros q d a. rewrite lookup_insert. case_decide.
    + intros [= <-]. simpl. intros [Ha| ->%list_elem_of_singleton]%elem_of_app; [|done].
      destruct (pmap !! p) as [d0|] eqn:Hd0; simpl in Ha.
      * by eapply Hocc.
      * by apply elem_of_nil in Ha.
    + apply Hocc.
  - intros q d. rewrite lookup_insert. case_decide.
    + subst. by intros _.
    + apply Hkeys.
Qed.

Lemma removeOccurrence_ok t h pmap p node :
  pmap_ok t h pmap → pmap_ok t h (Bpe2.removeOccurrence pmap p node).
Proof.
  intros [Hocc Hkeys]. unfold Bpe2.removeOccurrence.
  destruct (pmap !! p) as [d0|] eqn:Hd0; [|done]. case_decide.
  - split.
    + intros q d a. rewrite lookup_delete. case_decide; [done|]. apply Hocc.
    + intros q d. rewrite lookup_delete. case_decide; [done|]. apply Hkeys.
  - split.
    + intros q d a. rewrite lookup_insert. case_decide.
      * intros [= <-]. simpl. intros [_ Ha]%list_elem_of_filter. by eapply Hocc.
      * apply Hocc.
    + intros q d. rewrite lookup_insert. case_decide.
      * subst. intros _. by eapply Hkeys.
      * apply Hkeys.
Qed.

Lemma pmap_ok_ext t h h' pmap :
  (∀ a, is_Some (h !! a) → is_Some (h' !! a)) → pmap_ok t h pmap → pmap_ok t h' pmap.
Proof.
  intros Hdom [Hocc Hkeys]. split; [|done].
  intros p d a Hp Ha. apply Hdom. by eapply Hocc.
Qed.

Lemma store_Ok h a f n : h !! a = Some n → Bpe2.store h a f = Ok (<[a := f n]> h).
Proof. intros Hn. unfold Bpe2.store, Bpe2.deref. by rewrite Hn. Qed.

Lemma render_splice t (t1 t2 : list Z) a b N s1 s2 :
  token_string t a = Some s1 → token_string t b = Some s2 →
  token_string t N = Some (s1 ++ s2)%string →
  render t (t1 ++ N :: t2) = render t (t1 ++ a :: b :: t2).
Proof.
  intros Ha Hb HN. rewrite !render_app. cbn [render]. rewrite Ha, Hb, HN.
  destruct (render t t1) as [r1|]; [|done]. cbn [mbind option_bind].
  destruct (render t t2) as [r2|]; [|done]. cbn [mbind option_bind].
  by rewrite string_app_assoc.
Qed.

Lemma dll_token h p addrs toks a n :
  dll h p addrs toks → a ∈ addrs → h !! a = Some n → Bpe2.token n ∈ toks.
Proof.
  revert p toks. induction addrs as [|x addrs IH]; intros p [|t toks]; simpl; try done.
  - by intros _ ?%elem_of_nil.
  - intros (nx & Hnx & Ht & _ & _ & _ & Hrest) [->|Hin]%elem_of_cons Hn.
    + rewrite Hnx in Hn. injection Hn as <-. set_solver.
    + apply elem_of_cons. right. by eapply IH.
Qed.

Lemma recorded_add pmap p node q x :
  recorded (Bpe2.addOccurrence pmap p node) q x
  ↔ recorded pmap q x ∨ (q = p ∧ x = node).
Proof.
  unfold recorded, Bpe2.addOccurrence. split.
  - intros (d & Hd & Hx). rewrite lookup_insert in Hd. case_decide as Hq.
    + injection Hd as <-. simpl in Hx. subst q.
      apply elem_of_app in Hx as [Hx| ->%list_elem_of_singleton]; [|by right].
      left. destruct (pmap !! p) as [d0|]; simpl in Hx; [by exists d0|].
      by apply elem_of_nil in Hx.
    + left. by exists d.
  - intros [(d & Hd & Hx)|[-> ->]].
    + destruct (decide (p = q)) as [->|Hne].
      * eexists. rewrite lookup_insert_eq. split; [done|]. simpl.
        rewrite Hd. simpl. set_solver.
      * exists d. by rewrite lookup_insert_ne.
    + eexists. rewrite lookup_insert_eq. split; [done|]. simpl. set_solver.
Qed.

Lemma recorded_remove pmap p node q x :
  recorded (Bpe2.removeOccurrence pmap p node) q x
  ↔ recorded pmap q x ∧ ¬ (q = p ∧ x = node).
Proof.
  unfold recorded, Bpe2.removeOccurrence.
  destruct (pmap !! p) as [d0|] eqn:Hd0.
  - case_decide as Hvec.
    + split.
      * intros (d & Hd & Hx). rewrite lookup_delete in Hd. case_decide; [done|].
        split; [by exists d|]. by intros [-> _].
      * intros [(d & Hd & Hx) Hnot]. exists d. rewrite lookup_delete.
        case_decide as Hq; [|done]. subst q. rewrite Hd0 in Hd. injection Hd as <-.
        assert (x ∈ filter (λ x0, x0 ≠ node) (Bpe2.occ d0)) as Hin.
        { apply list_elem_of_filter. split; [|done]. intros ->. by apply Hnot. }
        rewrite Hvec in Hin. by apply elem_of_nil in Hin.
    + split.
      * intros (d & Hd & Hx). rewrite lookup_insert in Hd. case_decide as Hq.
        -- injection Hd as <-. simpl in Hx. subst q.
           apply list_elem_of_filter in Hx as [Hne Hx].
           split; [by exists d0|]. by intros [_ ->].
        -- split; [by exists d|]. by intros [-> _].
      * intros [(d & Hd & Hx) Hnot]. destruct (decide (p = q)) as [->|Hne].
        -- eexists. rewrite lookup_insert_eq. split; [done|]. simpl.
           rewrite Hd0 in Hd. injection Hd as <-.
           apply list_elem_of_filter. split; [|done]. intros ->. by apply Hnot.
        -- exists d. by rewrite lookup_insert_ne.
  - split; [|by intros [? _]]. intros (d & Hd & Hx). split; [by exists d|].
    intros [-> _]. by rewrite Hd0 in Hd.
Qed.

Lemma recorded_delete (pmap : Bpe2.PairMap) k q x :
  recorded (delete k pmap) q x ↔ q ≠ k ∧ recorded pmap q x.
Proof.
  unfold recorded. split.
  - intros (d & Hd & Hx). rewrite lookup_delete in Hd. case_decide; [done|].
    split; [done|by exists d].
  - intros [Hne (d & Hd & Hx)]. exists d. rewrite lookup_delete.
    by rewrite decide_False.
Qed.

Lemma dll_seg_next h p l1 x l2 toks q n :
  dll_seg h p (l1 ++ x :: l2) toks q → h !! x = Some n →
  Bpe2.next n = (if l2 is b :: _ then Some b else q)
  ∧ Bpe2.prev n = (if last l1 is Some a then Some a else p)
  ∧ Bpe2.removed n = false.
Proof.
  intros (t1 & t2 & -> & _ & _ & Hseg)%dll_seg_app_inv Hn.
  destruct t2 as [|tx t2]; [done|]. cbn [dll_seg] in Hseg.
  destruct Hseg as (n0 & Hn0 & _ & Hr & Hp & Hnx & _).
  rewrite Hn in Hn0. by injection Hn0 as <-.
Qed.

Lemma deref_Some h a n : h !! a = Some n → Bpe2.deref h a = Ok n.
Proof. apply deref_Ok. Qed.

(** ** bpe2.cpp: one occurrence of the best pair *)

(** The body of the loop over [occList] keeps the invariant: it leaves the
    state alone, or it unlinks one node and turns two adjacent tokens into
    the new one. *)
Lemma merge_occurrence_inv t bp N h pmap addrs toks left_ :
  heap_inv t h pmap addrs toks →
  is_Some (h !! left_) →
  is_Some (token_string t N) →
  ∃ h' pmap' addrs' toks',
    Bpe2.merge_occurrence bp N (h, pmap) left_ = Ok (h', pmap')
    ∧ heap_inv t h' pmap' addrs' toks'
    ∧ head addrs' = head addrs
    ∧ (∀ a, is_Some (h' !! a) ↔ is_Some (h !! a))
    ∧ (toks' = toks
       ∨ ∃ t1 t2, toks = t1 ++ bp.1 :: bp.2 :: t2 ∧ toks' = t1 ++ N :: t2)
    ∧ (length addrs' ≤ length addrs)%nat
    ∧ (∀ k, (3 * length addrs' + size (delete k pmap')
             ≤ 3 * length addrs + size (delete k pmap))%nat)
    ∧ (N ≠ bp.1 → N ≠ bp.2 → ∀ todo,
         pairs_pending bp (left_ :: todo) h pmap → pairs_pending bp todo h' pmap').
Proof.
  intros Hinv [l Hl] HN.
  assert (Hsame :
    (∀ y m, Bpe2.removed l = false → Bpe2.next l = Some y → h !! y = Some m →
            Bpe2.removed m = false → Bpe2.token l = bp.1 → Bpe2.token m = bp.2 →
            False) →
    ∃ h' pmap' addrs' toks',
    Ok (h, pmap) = Ok (h', pmap')
    ∧ heap_inv t h' pmap' addrs' toks'
    ∧ head addrs' = head addrs
    ∧ (∀ a, is_Some (h' !! a) ↔ is_Some (h !! a))
    ∧ (toks' = toks
       ∨ ∃ t1 t2, toks = t1 ++ bp.1 :: bp.2 :: t2 ∧ toks' = t1 ++ N :: t2)
    ∧ (length addrs' ≤ length addrs)%nat
    ∧ (∀ k, (3 * length addrs' + size (delete k pmap')
             ≤ 3 * length addrs + size (delete k pmap))%nat)
    ∧ (N ≠ bp.1 → N ≠ bp.2 → ∀ todo,
         pairs_pending bp (left_ :: todo) h pmap → pairs_pending bp todo h' pmap')).
  { intros Hnot. exists h, pmap, addrs, toks. split_and!; try done; [by left|].
    intros _ _ todo Hpend x y tx ty Hnb Htx Hty.
    specialize (Hpend x y tx ty Hnb Htx Hty). case_decide as Hbp; [|done].
    apply elem_of_cons in Hpend as [->|]; [|done].
    destruct Hnb as (n & m & Hn & Hm & Hnx & Hrn & Hrm & Htn & Htm).
    rewrite Hl in Hn. injection Hn as <-. rewrite <- Hbp in Hnot.
    by destruct (Hnot y m). }
  unfold Bpe2.merge_occurrence. rewrite (deref_Some _ _ _ Hl).
  cbn [mbind result_bind].
  destruct (Bpe2.removed l) eqn:Hrl; [by apply Hsame|].
  destruct (Bpe2.next l) as [right_|] eqn:Hnl; [|by apply Hsame].
  destruct (inv_next _ _ _ _ _ Hinv _ _ _ Hl Hnl) as [r Hr].
  rewrite (deref_Some _ _ _ Hr). cbn [mbind result_bind].
  destruct (Bpe2.removed r) eqn:Hrr.
  { apply Hsame. intros y m _ [= <-] Hm Hrm _ _. rewrite Hr in Hm. congruence. }
  destruct (decide (Bpe2.token l ≠ bp.1 ∨ Bpe2.token r ≠ bp.2)) as [Hno|Hmatch].
  { apply Hsame. intros y m _ [= <-] Hm _ Htl Htm. rewrite Hr in Hm.
    injection Hm as <-. by destruct Hno. }
  clear Hsame.
  assert (Hlt : Bpe2.token l = bp.1).
  { destruct (decide (Bpe2.token l = bp.1)); [done|]. destruct Hmatch. by left. }
  assert (Hrt : Bpe2.token r = bp.2).
  { destruct (decide (Bpe2.token r = bp.2)); [done|]. destruct Hmatch. by right. }
  clear Hmatch.
  (* the place of the two nodes in the list *)
  pose proof (inv_live _ _ _ _ _ Hinv _ _ Hl Hrl) as Hin.
  apply list_elem_of_split in Hin as (pre & rest & Haddrs).
  pose proof (inv_list _ _ _ _ _ Hinv) as Hdll.
  apply dll_seg_None in Hdll. rewrite Haddrs in Hdll.
  apply dll_seg_app_inv in Hdll as (t1 & t2 & Htoks & Hlen1 & Hseg1 & Hseg2).
  destruct t2 as [|tx t2]; [done|]. cbn [dll_seg] in Hseg2.
  destruct Hseg2 as (l0 & Hl0 & Htx & _ & Hpl & Hnl0 & Hseg3).
  rewrite Hl in Hl0. injection Hl0 as <-.
  rewrite Hnl in Hnl0. destruct rest as [|y post]; [done|]. injection Hnl0 as <-.
  destruct t2 as [|ty tpost]; [done|]. cbn [dll_seg] in Hseg3.
  destruct Hseg3 as (r0 & Hr0 & Hty & _ & Hpr & Hnr & Hseg4).
  rewrite Hr in Hr0. injection Hr0 as <-.
  pose proof (inv_nodup _ _ _ _ _ Hinv) as Hnd. rewrite Haddrs in Hnd.
  apply NoDup_app in Hnd as (Hnd_pre & Hdisj & Hnd2).
  apply NoDup_cons in Hnd2 as [Hl_notin Hnd3].
  apply NoDup_cons in Hnd3 as [Hr_post Hnd_post].
  assert (Hlr : left_ ≠ right_) by set_solver.
  assert (Hl_post : left_ ∉ post) by set_solver.
  assert (Hl_pre : left_ ∉ pre) by (intros Hx; apply (Hdisj _ Hx); set_solver).
  assert (Hr_pre : right_ ∉ pre) by (intros Hx; apply (Hdisj _ Hx); set_solver).
  assert (Hpre_post : ∀ a, a ∈ pre → a ∉ post).
  { intros a Hx Hy. apply (Hdisj _ Hx). set_solver. }
  assert (Hafter : ∀ a, Bpe2.next r = Some a → a ∈ post).
  { intros a Ha. rewrite Hnr in Ha. destruct post; [done|]. injection Ha as ->.
    set_solver. }
  (* the four stores *)
  rewrite (store_Ok _ _ _ _ Hl). cbn [mbind result_bind].
  rewrite (store_Ok _ _ (Bpe2.set_next _) _ (lookup_insert_eq _ _ _)).
  cbn [mbind result_bind]. rewrite insert_insert_eq.
  set (l' := Bpe2.set_next (Bpe2.next r) (Bpe2.set_token N l)).
  set (h2 := <[left_ := l']> h).
  assert (∃ h3,
    match Bpe2.next r with
    | Some a => Bpe2.store h2 a (Bpe2.set_prev (Some left_))
    | None => Ok h2
    end = Ok h3
    ∧ ∀ a, h3 !! a = if decide (Bpe2.next r = Some a)
                     then Bpe2.set_prev (Some left_) <$> h !! a else h2 !! a)
    as (h3 & Hst3 & Hh3).
  { destruct (Bpe2.next r) as [z|] eqn:Hz.
    - pose proof (Hafter z eq_refl) as Hzin.
      destruct (dll_seg_elem_of _ _ _ _ _ _ Hseg4 Hzin) as (nz & Hnz & _).
      assert (Hz2 : h2 !! z = Some nz).
      { unfold h2. rewrite lookup_insert_ne; [done|]. by intros ->. }
      exists (<[z := Bpe2.set_prev (Some left_) nz]> h2).
      split; [by apply store_Ok|].
      intros a. rewrite lookup_insert. destruct (decide (z = a)) as [->|Hne].
      + by rewrite decide_True, Hnz.
      + rewrite decide_False; [done|]. by intros [= ->].
    - exists h2. split; [done|]. intros a. by rewrite decide_False. }
  rewrite Hst3. cbn [mbind result_bind].
  assert (Hr3 : h3 !! right_ = Some r).
  { rewrite Hh3, decide_False by (by intros ?%Hafter).
    unfold h2. by rewrite lookup_insert_ne. }
  rewrite (store_Ok _ _ _ _ Hr3). cbn [mbind result_bind].
  set (h4 := <[right_ := Bpe2.set_removed true r]> h3).
  assert (Hh4 : ∀ a, h4 !! a =
    if decide (a = right_) then Some (Bpe2.set_removed true r)
    else if decide (a = left_) then Some l'
    else if decide (Bpe2.next r = Some a)
         then Bpe2.set_prev (Some left_) <$> h !! a else h !! a).
  { intros a. unfold h4. rewrite lookup_insert.
    destruct (decide (right_ = a)) as [->|Hne1]; [by rewrite decide_True|].
    rewrite decide_False by done. rewrite Hh3. unfold h2. rewrite lookup_insert.
    destruct (decide (left_ = a)) as [->|Hne2].
    - rewrite (decide_True (P := a = a)) by done.
      rewrite decide_False; [done|]. by intros ?%Hafter.
    - by rewrite (decide_False (P := a = left_)). }
  clearbody h4. clear h3 Hst3 Hh3 Hr3. clear h2.
  assert (H4l : h4 !! left_ = Some l').
  { rewrite Hh4, decide_False, decide_True; done. }
  assert (Hdom : ∀ a, is_Some (h4 !! a) ↔ is_Some (h !! a)).
  { intros a. rewrite Hh4. repeat case_decide; subst; rewrite ?Hl, ?Hr; try done.
    apply fmap_is_Some. }
  assert (Hfrom : ∀ a n', h4 !! a = Some n' →
    ∃ n, h !! a = Some n
         ∧ (Bpe2.token n' = Bpe2.token n ∨ Bpe2.token n' = N)
         ∧ (Bpe2.next n' = Bpe2.next n ∨ Bpe2.next n' = Bpe2.next r)
         ∧ (Bpe2.prev n' = Bpe2.prev n ∨ Bpe2.prev n' = Some left_)
         ∧ (Bpe2.removed n' = Bpe2.removed n ∨ a = right_)).
  { intros a n'. rewrite Hh4. repeat case_decide; subst.
    - intros [= <-]. exists r. split_and!; try done; first [by left | by right].
    - intros [= <-]. exists l. split_and!; try done; first [by left | by right].
    - intros (n & Hn & ->)%fmap_Some. exists n.
      split_and!; try done; first [by left | by right].
    - intros Hn. exists n'. split_and!; try done; by left. }
  assert (Htok4 : ∀ a n', h4 !! a = Some n' → is_Some (token_string t (Bpe2.token n'))).
  { intros a n' (n & Hn & [-> | ->] & _)%Hfrom; [|done].
    by eapply (inv_tokens _ _ _ _ _ Hinv). }
  assert (Hpm4 : pmap_ok t h4 pmap).
  { split.
    - intros p d a Hp Ha. apply Hdom. by eapply (inv_occ _ _ _ _ _ Hinv).
    - apply (inv_keys _ _ _ _ _ Hinv). }
  rewrite (deref_Some _ _ _ H4l). cbn [mbind result_bind].
  (* the pair at the left *)
  lazymatch goal with
  | |- ∃ _ _ _ _, (?m ≫= _) = _ ∧ _ =>
      assert (∃ pmap1, m = Ok pmap1 ∧ pmap_ok t h4 pmap1
               ∧ (∀ k, (size (delete k pmap1) ≤ S (size (delete k pmap)))%nat)
               ∧ (∀ q x, recorded pmap q x → Bpe2.prev l ≠ Some x → recorded pmap1 q x)
               ∧ (∀ pv pn, Bpe2.prev l = Some pv → h4 !! pv = Some pn →
                    Bpe2.removed pn = false → Bpe2.token pn ≠ 0 → N ≠ 0 →
                    recorded pmap1 (Bpe2.token pn, N) pv))
        as (pmap1 & -> & Hpm1 & Hsz1 & Hkeep1 & Hnew1)
  end.
  { destruct (Bpe2.prev l') as [pv|] eqn:Hpv; change (Bpe2.prev l') with (Bpe2.prev l) in Hpv.
    - assert (is_Some (h4 !! pv)) as [pn Hpn].
      { apply Hdom. by eapply (inv_prev _ _ _ _ _ Hinv _ _ _ Hl). }
      rewrite (deref_Some _ _ _ Hpn). cbn [mbind result_bind].
      destruct (negb (Bpe2.removed pn) && bool_decide (Bpe2.token pn ≠ 0)
                && bool_decide (Bpe2.token l' ≠ 0)) eqn:Hguard.
      + eexists. split; [done|]. split_and!.
        * apply addOccurrence_ok; [by apply removeOccurrence_ok|by eexists| |done].
          by eapply Htok4.
        * intros k. etrans; [apply addOccurrence_size|].
          apply le_n_S, removeOccurrence_size.
        * intros q x Hq Hx. apply recorded_add. left. apply recorded_remove.
          split; [done|]. intros [_ ->]. done.
        * intros pv' pn' Hpv' Hpn' _ _ _. rewrite Hpv in Hpv'. injection Hpv' as <-.
          rewrite Hpn in Hpn'. injection Hpn' as <-.
          apply recorded_add. by right.
      + eexists. split; [done|]. split_and!; [done|intros k; apply Nat.le_succ_diag_r|done|].
        intros pv' pn' Hpv' Hpn' Hrpn Htpn HN0. rewrite Hpv in Hpv'. injection Hpv' as <-.
        rewrite Hpn in Hpn'.
        injection Hpn' as <-. rewrite Hrpn in Hguard. cbn [negb andb] in Hguard.
        rewrite !bool_decide_true in Hguard by done. done.
    - eexists. split; [done|]. split_and!; [done|intros k; apply Nat.le_succ_diag_r|done|].
      intros pv' pn' Hpv'. congruence. }
  cbn [mbind result_bind].
  (* the pair at the right *)
  lazymatch goal with
  | |- ∃ _ _ _ _, (?m ≫= _) = _ ∧ _ =>
      assert (∃ pmap2, m = Ok pmap2 ∧ pmap_ok t h4 pmap2
               ∧ (∀ k, (size (delete k pmap2) ≤ S (size (delete k pmap1)))%nat)
               ∧ (∀ q x, recorded pmap1 q x → x ≠ right_ → recorded pmap2 q x)
               ∧ (∀ nx nn, Bpe2.next r = Some nx → h4 !! nx = Some nn →
                    Bpe2.removed nn = false → N ≠ 0 → Bpe2.token nn ≠ 0 →
                    recorded pmap2 (N, Bpe2.token nn) left_))
        as (pmap2 & -> & Hpm2 & Hsz2 & Hkeep2 & Hnew2)
  end.
  { destruct (Bpe2.next l') as [nx|] eqn:Hnx; change (Bpe2.next l') with (Bpe2.next r) in Hnx.
    - assert (is_Some (h4 !! nx)) as [nn Hnn].
      { apply Hdom. by eapply (inv_next _ _ _ _ _ Hinv _ _ _ Hr). }
      rewrite (deref_Some _ _ _ Hnn). cbn [mbind result_bind].
      destruct (negb (Bpe2.removed nn) && bool_decide (Bpe2.token l' ≠ 0)
                && bool_decide (Bpe2.token nn ≠ 0)) eqn:Hguard.
      + eexists. split; [done|]. split_and!.
        * apply addOccurrence_ok; [by apply removeOccurrence_ok|by eexists|done|].
          by eapply Htok4.
        * intros k. etrans; [apply addOccurrence_size|].
          apply le_n_S, removeOccurrence_size.
        * intros q x Hq Hx. apply recorded_add. left. apply recorded_remove.
          split; [done|]. by intros [_ ->].
        * intros nx' nn' Hnx' Hnn' _ _ _. rewrite Hnx in Hnx'. injection Hnx' as <-.
          rewrite Hnn in Hnn'. injection Hnn' as <-.
          apply recorded_add. by right.
      + eexists. split; [done|]. split_and!; [done|intros k; apply Nat.le_succ_diag_r|done|].
        intros nx' nn' Hnx' Hnn' Hrnn HN0 Htnn. rewrite Hnx in Hnx'. injection Hnx' as <-.
        rewrite Hnn in Hnn'.
        injection Hnn' as <-. rewrite Hrnn in Hguard. cbn [negb andb] in Hguard.
        rewrite !bool_decide_true in Hguard by done. done.
    - eexists. split; [done|]. split_and!; [done|intros k; apply Nat.le_succ_diag_r|done|].
      intros nx' nn' Hnx'. congruence. }
  cbn [mbind result_bind].
  exists h4, pmap2, (pre ++ left_ :: post), (t1 ++ N :: tpost).
  split; [done|]. split; [|split_and!].
  - split.
    + (* the list *)
      apply dll_seg_None.
      apply dll_seg_app.
      * apply (dll_seg_ext h); [|done].
        intros a Ha. rewrite Hh4.
        rewrite decide_False by (by intros ->).
        rewrite decide_False by (by intros ->).
        rewrite decide_False; [done|]. intros Hx%Hafter. by eapply Hpre_post.
      * cbn [dll_seg]. exists l'. split_and!; try done.
        destruct post as [|z post']; [by destruct tpost|].
        destruct tpost as [|tz tpost']; [done|]. cbn [dll_seg] in Hseg4 |- *.
        destruct Hseg4 as (nz & Hnz & Htz & Hrz & Hpz & Hnxz & Hseg5).
        exists (Bpe2.set_prev (Some left_) nz).
        assert (Hzl : z ≠ left_) by (intros ->; set_solver).
        assert (Hzr : z ≠ right_) by (intros ->; set_solver).
        split_and!; try done.
        -- rewrite Hh4. rewrite (decide_False (P := z = right_)) by done.
           rewrite (decide_False (P := z = left_)) by done.
           rewrite decide_True by done. by rewrite Hnz.
        -- apply (dll_seg_ext h); [|done].
           intros a Ha. rewrite Hh4.
           rewrite decide_False by (intros ->; set_solver).
           rewrite decide_False by (intros ->; set_solver).
           rewrite decide_False; [done|]. rewrite Hnr. intros [= ->].
           apply NoDup_cons in Hnd_post as [Hz _]. done.
    + apply NoDup_app. split_and!; [done| |].
      * intros a Ha. specialize (Hdisj a Ha). set_solver.
      * apply NoDup_cons. split; [done|done].
    + intros a n' Hn' Hrem.
      destruct (Hfrom _ _ Hn') as (n & Hn & _ & _ & _ & Hr').
      destruct (decide (a = right_)) as [->|Hne].
      { rewrite Hh4, decide_True in Hn' by done. injection Hn' as <-. done. }
      destruct Hr' as [Hr'|]; [|done].
      assert (a ∈ addrs) as Ha.
      { eapply (inv_live _ _ _ _ _ Hinv); [done|]. congruence. }
      rewrite Haddrs in Ha. set_solver.
    + intros a n' b (n & Hn & _ & [Hnx| Hnx] & _)%Hfrom Hb; apply Hdom;
        rewrite Hnx in Hb.
      * by eapply (inv_next _ _ _ _ _ Hinv).
      * by eapply (inv_next _ _ _ _ _ Hinv _ _ _ Hr).
    + intros a n' b (n & Hn & _ & _ & [Hpv| Hpv] & _)%Hfrom Hb; apply Hdom;
        rewrite Hpv in Hb.
      * by eapply (inv_prev _ _ _ _ _ Hinv).
      * injection Hb as <-. by eexists.
    + apply Hpm2.
    + apply Hpm2.
    + done.
    + apply (inv_table _ _ _ _ _ Hinv).
    + apply (inv_spacer _ _ _ _ _ Hinv).
  - rewrite Haddrs. by destruct pre.
  - done.
  - right. exists t1, tpost. rewrite Htoks, <- Htx, <- Hty, Hlt, Hrt. done.
  - rewrite Haddrs, !length_app. simpl. lia.
  - intros k. specialize (Hsz1 k). specialize (Hsz2 k).
    rewrite Haddrs, !length_app. simpl.
    set (sz2 := size (delete k pmap2)) in *. set (sz1 := size (delete k pmap1)) in *.
    set (sz := size (delete k pmap)) in *. lia.
  - (* the pairs that are recorded *)
    intros HNa HNb todo Hpend x y tkx tky
      (n' & m' & Hn' & Hm' & Hnx' & Hrn' & Hrm' & <- & <-) Hkx Hky.
    assert (Hxr : x ≠ right_).
    { intros ->. rewrite Hh4, decide_True in Hn' by done. by injection Hn' as <-. }
    assert (Hyr : y ≠ right_).
    { intros ->. rewrite Hh4, decide_True in Hm' by done. by injection Hm' as <-. }
    assert (Hother : ∀ a na', a ≠ left_ → a ≠ right_ → h4 !! a = Some na' →
      ∃ na, h !! a = Some na ∧ Bpe2.token na' = Bpe2.token na
            ∧ Bpe2.next na' = Bpe2.next na ∧ Bpe2.removed na' = Bpe2.removed na).
    { intros a na' Hal Har. rewrite Hh4.
      rewrite (decide_False (P := a = right_)) by done.
      rewrite (decide_False (P := a = left_)) by done.
      case_decide.
      - intros (na & Hna & ->)%fmap_Some. by exists na.
      - intros Hna. by exists na'. }
    destruct (decide (x = left_)) as [->|Hxl].
    { (* the pair at the right of the merged node *)
      rewrite H4l in Hn'. injection Hn' as <-.
      rewrite decide_False by (intros Hbp; apply HNa; by rewrite <- Hbp).
      by apply (Hnew2 y m'). }
    destruct (Hother x n' Hxl Hxr Hn') as (n & Hn & Htn & Hnxn & Hrn).
    rewrite Htn in Hkx |- *. rewrite Hnxn in Hnx'. rewrite Hrn in Hrn'.
    assert (Hx_addrs : x ∈ addrs) by (by eapply (inv_live _ _ _ _ _ Hinv)).
    destruct (decide (y = left_)) as [->|Hyl].
    { (* the pair at the left of the merged node *)
      rewrite H4l in Hm'. injection Hm' as <-.
      rewrite decide_False by (intros Hbp; apply HNb; by rewrite <- Hbp).
      assert (Bpe2.prev l = Some x) as Hpx.
      { rewrite Haddrs in Hx_addrs.
        apply elem_of_app in Hx_addrs as [Hx_pre|Hx_rest].
        - apply list_elem_of_split in Hx_pre as (p1 & p2 & ->).
          destruct (dll_seg_next _ _ _ _ _ _ _ _ Hseg1 Hn) as (Hnx1 & _).
          rewrite Hnx' in Hnx1. destruct p2 as [|b p2].
          + rewrite Hpl, last_snoc. done.
          + injection Hnx1 as <-. destruct Hl_pre.
            apply elem_of_app. right. apply elem_of_cons. right.
            apply elem_of_cons. by left.
        - apply elem_of_cons in Hx_rest as [->|Hx_rest]; [done|].
          apply elem_of_cons in Hx_rest as [->|Hx_post]; [done|].
          apply list_elem_of_split in Hx_post as (p1 & p2 & ->).
          destruct (dll_seg_next _ _ _ _ _ _ _ _ Hseg4 Hn) as (Hnx1 & _).
          rewrite Hnx' in Hnx1. destruct p2 as [|b p2]; [done|].
          injection Hnx1 as <-. destruct Hl_post.
          apply elem_of_app. right. apply elem_of_cons. right.
          apply elem_of_cons. by left. }
      rewrite <- Htn in Hkx |- *. rewrite <- Hrn in Hrn'.
      change (Bpe2.token l') with N in Hky |- *.
      apply Hkeep2; [|done]. by apply (Hnew1 x n'). }
    destruct (Hother y m' Hyl Hyr Hm') as (m & Hm & Htm & _ & Hrm).
    rewrite Htm in Hky |- *. rewrite Hrm in Hrm'.
    assert (Hnb : neighbours h x y (Bpe2.token n) (Bpe2.token m)).
    { exists n, m. by split_and!. }
    specialize (Hpend x y _ _ Hnb Hkx Hky). case_decide.
    + apply elem_of_cons in Hpend as [->|]; done.
    + apply Hkeep2; [|done]. apply Hkeep1; [done|].
      intros Hpx. apply Hyl. rewrite Hpl in Hpx.
      destruct (last pre) as [a|] eqn:Hlast; [|done]. injection Hpx as ->.
      apply last_Some in Hlast as [p1 ->].
      destruct (dll_seg_next _ _ _ _ _ _ _ _ Hseg1 Hn) as (Hnx1 & _).
      rewrite Hnx' in Hnx1. by injection Hnx1.
Qed.


(** ** bpe2.cpp: the loop over the occurrences *)

Lemma merge_occurrences_inv t bp N occList : ∀ h pmap addrs toks,
  heap_inv t h pmap addrs toks →
  (∀ a, a ∈ occList → is_Some (h !! a)) →
  is_Some (token_string t N) →
  ∃ h' pmap' addrs' toks',
    Bpe2.merge_occurrences bp N occList (h, pmap) = Ok (h', pmap')
    ∧ heap_inv t h' pmap' addrs' toks'
    ∧ head addrs' = head addrs
    ∧ rtc (splice bp N) toks toks'
    ∧ (length addrs' ≤ length addrs)%nat
    ∧ (∀ k, (3 * length addrs' + size (delete k pmap')
             ≤ 3 * length addrs + size (delete k pmap))%nat)
    ∧ (N ≠ bp.1 → N ≠ bp.2 → ∀ todo,
         pairs_pending bp (occList ++ todo) h pmap → pairs_pending bp todo h' pmap').
Proof.
  induction occList as [|left_ rest IH]; intros h pmap addrs toks Hinv Hocc HN.
  - exists h, pmap, addrs, toks. by split_and!.
  - cbn [Bpe2.merge_occurrences].
    destruct (merge_occurrence_inv t bp N h pmap addrs toks left_ Hinv)
      as (h1 & pmap1 & addrs1 & toks1 & Hrun1 & Hinv1 & Hhead1 & Hdom1 & Htoks1
          & Hlen1 & Hsz1 & Hpend1); [apply Hocc; set_solver|done|].
    rewrite Hrun1. cbn [mbind result_bind].
    destruct (IH h1 pmap1 addrs1 toks1 Hinv1)
      as (h2 & pmap2 & addrs2 & toks2 & Hrun2 & Hinv2 & Hhead2 & Htoks2
          & Hlen2 & Hsz2 & Hpend2); [|done|].
    { intros a Ha. apply Hdom1, Hocc. set_solver. }
    exists h2, pmap2, addrs2, toks2. split_and!; try done.
    + congruence.
    + destruct Htoks1 as [->|(t1 & t2 & -> & ->)]; [done|].
      eapply rtc_l; [|done]. by exists t1, t2.
    + lia.
    + intros k. specialize (Hsz1 k). specialize (Hsz2 k).
      set (sz2 := size (delete k pmap2)) in *. set (sz1 := size (delete k pmap1)) in *.
      set (sz := size (delete k pmap)) in *. lia.
    + intros HNa HNb todo Hpend. apply (Hpend2 HNa HNb). by apply (Hpend1 HNa HNb).
Qed.

Lemma render_spliced t bp N s1 s2 toks toks' :
  token_string t bp.1 = Some s1 → token_string t bp.2 = Some s2 →
  token_string t N = Some (s1 ++ s2)%string →
  rtc (splice bp N) toks toks' → render t toks' = render t toks.
Proof.
  intros H1 H2 HN. induction 1 as [|toks toks1 toks' (t1 & t2 & -> & ->) _ IH]; [done|].
  rewrite IH. by eapply render_splice.
Qed.

(** ** bpe2.cpp: the state in which the loop is entered *)

Lemma addOccurrence_size_le pmap p node :
  (size (Bpe2.addOccurrence pmap p node) ≤ S (size pmap))%nat.
Proof.
  unfold Bpe2.addOccurrence. rewrite map_size_insert.
  destruct (pmap !! p); [apply Nat.le_succ_diag_r|done].
Qed.

Lemma buildPairMap_from_ok t fuel h cur pmap pmap' :
  (∀ a n, h !! a = Some n → is_Some (token_string t (Bpe2.token n))) →
  pmap_ok t h pmap → Bpe2.buildPairMap_from fuel h cur pmap = Ok pmap' →
  pmap_ok t h pmap'.
Proof.
  intros Htok. revert cur pmap.
  induction fuel as [|fuel IH]; intros cur pmap Hok Hrun;
    destruct cur as [c|]; simpl in Hrun; try (by simplify_eq);
    apply bind_Ok in Hrun as (n & Hn%deref_Ok & Hrun);
    destruct (Bpe2.next n) as [nx|]; try (by simplify_eq);
    apply bind_Ok in Hrun as (nn & Hnn%deref_Ok & Hrun); [done|].
  eapply IH; [|done]. case_decide as Hd; [|done].
  apply addOccurrence_ok; [done|by eexists| |]; simpl; by eapply Htok.
Qed.

Lemma buildPairMap_from_size fuel h p addrs toks pmap pmap' :
  dll h p addrs toks →
  Bpe2.buildPairMap_from fuel h (head addrs) pmap = Ok pmap' →
  (size pmap' ≤ size pmap + length addrs)%nat.
Proof.
  revert p toks fuel pmap.
  induction addrs as [|a addrs IH]; intros p [|tk toks] fuel pmap; simpl; try done.
  - intros _ Hrun. destruct fuel; simpl in Hrun; simplify_eq; apply Nat.le_add_r.
  - intros (n & Hn & _ & _ & _ & Hnx & Hrest) Hrun.
    assert (Hrun' : (n0 ← Bpe2.deref h a;
              match Bpe2.next n0 with
              | None => Ok pmap
              | Some nx =>
                  nn ← Bpe2.deref h nx;
                  let pmap' :=
                    if decide (Bpe2.token n0 ≠ 0 ∧ Bpe2.token nn ≠ 0)
                    then Bpe2.addOccurrence pmap (Bpe2.token n0, Bpe2.token nn) a
                    else pmap in
                  match fuel with
                  | O => Err OutOfFuel
                  | S fuel' => Bpe2.buildPairMap_from fuel' h (Some nx) pmap'
                  end
              end) = Ok pmap') by (by destruct fuel).
    clear Hrun. rewrite (deref_Some _ _ _ Hn) in Hrun'. cbn [mbind result_bind] in Hrun'.
    rewrite Hnx in Hrun'. destruct addrs as [|b addrs]; simpl in Hrun'.
    { simplify_eq. lia. }
    apply bind_Ok in Hrun' as (nn & Hnn & Hrun'). cbv zeta in Hrun'.
    destruct fuel as [|fuel]; [done|].
    apply (IH (Some a) toks fuel _ Hrest) in Hrun'.
    etrans; [exact Hrun'|]. simpl.
    case_decide.
    + pose proof (addOccurrence_size_le pmap (Bpe2.token n, Bpe2.token nn) a).
      set (sz1 := size (Bpe2.addOccurrence _ _ _)) in *. set (sz := size pmap) in *. lia.
    + lia.
Qed.

Lemma bpe2_initial_inv lines :
  ∃ s0 addrs toks,
    Bpe2.initial_state lines = Ok s0
    ∧ bpe2_inv s0 addrs toks
    ∧ table_inverse (Bpe2.table s0)
    ∧ token_string (Bpe2.table s0) <$> toks
      = Some <$> spaced (chars <$> filter (λ line, line ≠ EmptyString) lines)
    ∧ (size (Bpe2.pairMap s0) ≤ length addrs)%nat.
Proof.
  destruct (initial_state_spec lines)
    as (s0 & addrs & toks & Hinit & Hinv & Hok & Hti & Hsp & Hstrs).
  exists s0, addrs, toks.
  pose proof (reader_inv_length _ _ _ Hinv) as Hlen.
  destruct Hinv as (Hdll & Hnd & Hhead & _ & Hdom & _).
  assert (Htok : ∀ a n, Bpe2.nodes (Bpe2.heap s0) !! a = Some n →
                        is_Some (token_string (Bpe2.table s0) (Bpe2.token n))).
  { intros a n Hn. assert (a ∈ addrs) as Ha by (apply Hdom; by eexists).
    pose proof (dll_token _ _ _ _ _ _ Hdll Ha Hn) as Hin.
    apply (list_elem_of_fmap_2 (token_string (Bpe2.table s0))) in Hin.
    rewrite Hstrs in Hin. apply list_elem_of_fmap in Hin as (str & -> & _).
    by eexists. }
  assert (Hbuild : Bpe2.buildPairMap (Bpe2.heap s0) = Ok (Bpe2.pairMap s0)).
  { pose proof Hinit as Hrun. unfold Bpe2.initial_state in Hrun.
    apply bind_Ok in Hrun as ([h1 t1] & _ & Hrun).
    apply bind_Ok in Hrun as (h2 & _ & Hrun).
    apply bind_Ok in Hrun as (pmap & Hbuild & Hrun). by injection Hrun as <-. }
  unfold Bpe2.buildPairMap in Hbuild. rewrite Hhead in Hbuild.
  assert (Hpm : pmap_ok (Bpe2.table s0) (Bpe2.nodes (Bpe2.heap s0)) (Bpe2.pairMap s0)).
  { eapply buildPairMap_from_ok; [done| |done].
    split; intros p d; by rewrite lookup_empty. }
  split_and!; try done.
  - split; [|done..]. split; try done.
    + intros a n Hn _. apply Hdom. by eexists.
    + intros a n b Hn Hb. apply Hdom.
      assert (a ∈ addrs) as Ha by (apply Hdom; by eexists).
      apply dll_seg_None in Hdll.
      destruct (dll_seg_pointers _ _ _ _ _ _ _ Hdll Ha Hn) as [Hnx _].
      by destruct (Hnx b Hb).
    + intros a n b Hn Hb. apply Hdom.
      assert (a ∈ addrs) as Ha by (apply Hdom; by eexists).
      apply dll_seg_None in Hdll.
      destruct (dll_seg_pointers _ _ _ _ _ _ _ Hdll Ha Hn) as [_ Hpv].
      by destruct (Hpv b Hb).
    + apply Hpm.
    + apply Hpm.
  - apply (buildPairMap_from_size _ _ _ _ _ _ _ Hdll) in Hbuild.
    rewrite map_size_empty in Hbuild. lia.
Qed.

Lemma buildPairMap_from_records fuel h p addrs toks pmap pmap' :
  dll h p addrs toks →
  Bpe2.buildPairMap_from fuel h (head addrs) pmap = Ok pmap' →
  (∀ q x, recorded pmap q x → recorded pmap' q x)
  ∧ (∀ x y tx ty, x ∈ addrs → neighbours h x y tx ty → tx ≠ 0 → ty ≠ 0 →
       recorded pmap' (tx, ty) x).
Proof.
  revert p toks fuel pmap.
  induction addrs as [|a addrs IH]; intros p [|tk toks] fuel pmap; simpl; try done.
  - intros _ Hrun. destruct fuel; simpl in Hrun; simplify_eq;
      (split; [done|]; by intros x y tx ty ?%elem_of_nil).
  - intros (n & Hn & _ & _ & _ & Hnx & Hrest) Hrun.
    assert (Hrun' : (n0 ← Bpe2.deref h a;
              match Bpe2.next n0 with
              | None => Ok pmap
              | Some nx =>
                  nn ← Bpe2.deref h nx;
                  let pmap' :=
                    if decide (Bpe2.token n0 ≠ 0 ∧ Bpe2.token nn ≠ 0)
                    then Bpe2.addOccurrence pmap (Bpe2.token n0, Bpe2.token nn) a
                    else pmap in
                  match fuel with
                  | O => Err OutOfFuel
                  | S fuel' => Bpe2.buildPairMap_from fuel' h (Some nx) pmap'
                  end
              end) = Ok pmap') by (by destruct fuel).
    clear Hrun. rewrite (deref_Some _ _ _ Hn) in Hrun'. cbn [mbind result_bind] in Hrun'.
    rewrite Hnx in Hrun'. destruct addrs as [|b addrs]; simpl in Hrun'.
    { simplify_eq. split; [done|].
      intros x y tx ty ->%list_elem_of_singleton (n0 & m & Hn0 & _ & Hy & _).
      rewrite Hn in Hn0. injection Hn0 as <-. simpl in Hnx. congruence. }
    apply bind_Ok in Hrun' as (nn & Hnn%deref_Ok & Hrun'). cbv zeta in Hrun'.
    destruct fuel as [|fuel]; [done|].
    destruct (IH (Some a) toks fuel _ Hrest Hrun') as [Hmono Hall].
    split.
    + intros q x Hq. apply Hmono. case_decide; [|done]. apply recorded_add. by left.
    + intros x y tx ty [->|Hx]%elem_of_cons Hnb Htx Hty; [|by eapply Hall].
      destruct Hnb as (n0 & m & Hn0 & Hm & Hy & _ & _ & <- & <-).
      rewrite Hn in Hn0. injection Hn0 as <-. simpl in Hnx. rewrite Hnx in Hy.
      injection Hy as <-. rewrite Hnn in Hm. injection Hm as <-.
      apply Hmono. rewrite decide_True by done. apply recorded_add. by right.
Qed.

Lemma bpe2_initial_recorded lines s0 :
  Bpe2.initial_state lines = Ok s0 →
  pairs_recorded (Bpe2.nodes (Bpe2.heap s0)) (Bpe2.pairMap s0).
Proof.
  intros Hinit.
  destruct (initial_state_spec lines)
    as (s0' & addrs & toks & Hinit' & Hinv & _).
  rewrite Hinit in Hinit'. injection Hinit' as <-.
  destruct Hinv as (Hdll & _ & Hhead & _ & Hdom & _).
  assert (Hbuild : Bpe2.buildPairMap (Bpe2.heap s0) = Ok (Bpe2.pairMap s0)).
  { pose proof Hinit as Hrun. unfold Bpe2.initial_state in Hrun.
    apply bind_Ok in Hrun as ([h1 t1] & _ & Hrun).
    apply bind_Ok in Hrun as (h2 & _ & Hrun).
    apply bind_Ok in Hrun as (pmap & Hbuild & Hrun). by injection Hrun as <-. }
  unfold Bpe2.buildPairMap in Hbuild. rewrite Hhead in Hbuild.
  destruct (buildPairMap_from_records _ _ _ _ _ _ _ Hdll Hbuild) as [_ Hall].
  intros x y tx ty Hnb. apply (Hall x y); [|done].
  destruct Hnb as (n & _ & Hn & _). apply Hdom. by eexists.
Qed.

(** ** bpe2.cpp: one pass of the loop *)

Lemma heap_inv_table t t' h pmap addrs toks :
  table_extends t t' → table_ok t' →
  heap_inv t h pmap addrs toks → heap_inv t' h pmap addrs toks.
Proof.
  intros Hext Hok' Hinv.
  assert (Hsome : ∀ id, is_Some (token_string t id) → is_Some (token_string t' id)).
  { intros id [str Hstr]. exists str. by apply Hext. }
  destruct Hinv as [Hli Hnd Hlv Hnx Hpv Hocc Hkeys Htok Htab Hsp]. split; try done.
  - intros p d Hp. destruct (Hkeys p d Hp). split; by apply Hsome.
  - intros a n Hn. apply Hsome. by eapply Htok.
  - by apply Hext.
Qed.

Lemma heap_inv_delete t h pmap addrs toks k :
  heap_inv t h pmap addrs toks → heap_inv t h (delete k pmap) addrs toks.
Proof.
  intros Hinv. destruct Hinv as [Hli Hnd Hlv Hnx Hpv Hocc Hkeys Htok Htab Hsp].
  split; try done.
  - intros p d a. rewrite lookup_delete. case_decide; [done|]. apply Hocc.
  - intros p d. rewrite lookup_delete. case_decide; [done|]. apply Hkeys.
Qed.

Section Bpe2Loop.
Variable iter_pairMap : Bpe2.PairMap → list (Pair * Bpe2.PairData).
Hypothesis iter_pairMap_perm : ∀ m, iter_pairMap m ≡ₚ map_to_list m.

Lemma bpe2_iteration_inv s addrs toks :
  bpe2_inv s addrs toks →
  Bpe2.iteration iter_pairMap s = Ok Bpe2.Finished
  ∨ ∃ s' addrs' toks' bp f s1 s2 N,
      Bpe2.select iter_pairMap s = (bp, f) ∧ 2 ≤ f
      ∧ Bpe2.iteration iter_pairMap s = Ok (Bpe2.Merged s')
      ∧ bpe2_inv s' addrs' toks'
      ∧ (bpe2_measure s' addrs' < bpe2_measure s addrs)%nat
      ∧ table_extends (Bpe2.table s) (Bpe2.table s')
      ∧ token_string (Bpe2.table s) bp.1 = Some s1
      ∧ token_string (Bpe2.table s) bp.2 = Some s2
      ∧ get_token_id (s1 ++ s2) (Bpe2.table s) = (N, Bpe2.table s')
      ∧ token_string (Bpe2.table s') N = Some (s1 ++ s2)%string
      ∧ rtc (splice bp N) toks toks'.
Proof.
  intros (Hinv & Hhead & Hlen). unfold Bpe2.iteration.
  destruct (Bpe2.select iter_pairMap s) as [bp f] eqn:Hsel.
  case_decide as Hfloor; [by left|]. right.
  assert (∃ d, Bpe2.pairMap s !! bp = Some d) as [d Hd].
  { unfold Bpe2.select in Hsel.
    destruct (bpe2_find_best_spec _ _ _ _ _ Hsel) as [[_ ->] | (_ & d & Hin & _)]; [lia|].
    rewrite (iter_pairMap_perm (Bpe2.pairMap s)) in Hin.
    apply elem_of_map_to_list in Hin. by exists d. }
  destruct (inv_keys _ _ _ _ _ Hinv _ _ Hd) as [[s1 Hs1] [s2 Hs2]].
  rewrite Hs1, Hs2. cbn [of_option mbind result_bind].
  destruct (get_token_id (s1 ++ s2) (Bpe2.table s)) as [N t'] eqn:Hget.
  pose proof (inv_table _ _ _ _ _ Hinv) as Hok.
  pose proof (token_string_nonempty _ _ _ Hok Hs1) as Hne1.
  destruct (get_token_id_spec _ _ _ _ Hok (string_append_nonempty _ s2 Hne1) Hget)
    as (Hok' & HN & _ & Hext).
  rewrite Hd. cbn [default from_option id].
  destruct (merge_occurrences_inv t' bp N (Bpe2.occ d) (Bpe2.nodes (Bpe2.heap s))
              (Bpe2.pairMap s) addrs toks)
    as (h' & pmap' & addrs' & toks' & Hrun & Hinv' & Hhead' & Htoks' & Hlen' & Hsz & _).
  { by eapply heap_inv_table. }
  { intros a Ha. by eapply (inv_occ _ _ _ _ _ Hinv). }
  { by eexists. }
  rewrite Hrun. cbn [mbind result_bind].
  eexists _, addrs', toks', bp, f, s1, s2, N.
  split_and!; try done.
  - lia.
  - split_and!; cbn [Bpe2.heap Bpe2.table Bpe2.pairMap Bpe2.nodes Bpe2.head Bpe2.fresh].
    + by apply heap_inv_delete.
    + congruence.
    + lia.
  - unfold bpe2_measure. cbn [Bpe2.pairMap]. specialize (Hsz bp).
    pose proof (map_size_delete_Some bp (Bpe2.pairMap s) (mk_is_Some _ _ Hd)) as Hdel.
    assert (size (Bpe2.pairMap s) ≠ 0%nat) as Hpos.
    { intros Hz%map_size_empty_inv. by rewrite Hz, lookup_empty in Hd. }
    set (sz' := size (delete bp pmap')) in *.
    set (szd := size (delete bp (Bpe2.pairMap s))) in *.
    set (sz := size (Bpe2.pairMap s)) in *. lia.
Qed.

Lemma bpe2_iteration_recorded s s' addrs toks :
  bpe2_inv s addrs toks →
  pairs_recorded (Bpe2.nodes (Bpe2.heap s)) (Bpe2.pairMap s) →
  Bpe2.iteration iter_pairMap s = Ok (Bpe2.Merged s') →
  pairs_recorded (Bpe2.nodes (Bpe2.heap s')) (Bpe2.pairMap s').
Proof.
  intros (Hinv & Hhead & Hlen) Hrec. unfold Bpe2.iteration.
  destruct (Bpe2.select iter_pairMap s) as [bp f] eqn:Hsel.
  case_decide as Hfloor; [done|].
  assert (∃ d, Bpe2.pairMap s !! bp = Some d) as [d Hd].
  { unfold Bpe2.select in Hsel.
    destruct (bpe2_find_best_spec _ _ _ _ _ Hsel) as [[_ ->] | (_ & d & Hin & _)]; [lia|].
    rewrite (iter_pairMap_perm (Bpe2.pairMap s)) in Hin.
    apply elem_of_map_to_list in Hin. by exists d. }
  destruct (inv_keys _ _ _ _ _ Hinv _ _ Hd) as [[s1 Hs1] [s2 Hs2]].
  rewrite Hs1, Hs2. cbn [of_option mbind result_bind].
  destruct (get_token_id (s1 ++ s2) (Bpe2.table s)) as [N t'] eqn:Hget.
  pose proof (inv_table _ _ _ _ _ Hinv) as Hok.
  pose proof (token_string_nonempty _ _ _ Hok Hs1) as Hne1.
  destruct (get_token_id_spec _ _ _ _ Hok (string_append_nonempty _ s2 Hne1) Hget)
    as (Hok' & HN & _ & Hext).
  destruct (get_token_id_fresh_pair _ _ _ _ _ _ _ Hok Hs1 Hs2 Hget) as [HNa HNb].
  rewrite Hd. cbn [default from_option id].
  destruct (merge_occurrences_inv t' bp N (Bpe2.occ d) (Bpe2.nodes (Bpe2.heap s))
              (Bpe2.pairMap s) addrs toks)
    as (h' & pmap' & addrs' & toks' & Hrun & _ & _ & _ & _ & _ & Hpend).
  { by eapply heap_inv_table. }
  { intros a Ha. by eapply (inv_occ _ _ _ _ _ Hinv). }
  { by eexists. }
  rewrite Hrun. cbn [mbind result_bind]. intros [= <-].
  cbn [Bpe2.heap Bpe2.nodes Bpe2.pairMap].
  specialize (Hpend HNa HNb []).
  assert (Hstart : pairs_pending bp (Bpe2.occ d ++ []) (Bpe2.nodes (Bpe2.heap s))
                     (Bpe2.pairMap s)).
  { intros x y tx ty Hnb Htx Hty. specialize (Hrec x y tx ty Hnb Htx Hty).
    case_decide as Hbp; [|done]. rewrite app_nil_r.
    destruct Hrec as (d' & Hd' & Hx). rewrite Hbp, Hd in Hd'. by injection Hd' as <-. }
  specialize (Hpend Hstart).
  intros x y tx ty Hnb Htx Hty. specialize (Hpend x y tx ty Hnb Htx Hty).
  case_decide as Hbp; [by apply elem_of_nil in Hpend|].
  apply recorded_delete. by split.
Qed.

Lemma bpe2_reachable_prepend s s1 s' :
  Bpe2.iteration iter_pairMap s = Ok (Bpe2.Merged s1) →
  bpe2_reachable iter_pairMap s1 s' → bpe2_reachable iter_pairMap s s'.
Proof.
  intros Hstep. induction 1 as [|s2 s3 _ IH Hstep2].
  - eapply bpe2_reachable_step; [apply bpe2_reachable_start|done].
  - by eapply bpe2_reachable_step.
Qed.

Lemma bpe2_merge_loop_inv fuel : ∀ s addrs toks,
  bpe2_inv s addrs toks → (bpe2_measure s addrs < fuel)%nat →
  ∃ s' addrs' toks',
    Bpe2.merge_loop iter_pairMap fuel s = Ok s'
    ∧ bpe2_reachable iter_pairMap s s'
    ∧ bpe2_inv s' addrs' toks'
    ∧ Bpe2.iteration iter_pairMap s' = Ok Bpe2.Finished.
Proof.
  induction fuel as [|fuel IH]; intros s addrs toks Hinv Hfuel; [lia|].
  cbn [Bpe2.merge_loop].
  destruct (bpe2_iteration_inv s addrs toks Hinv)
    as [Hfin | (s1 & addrs1 & toks1 & bp & f & x1 & x2 & N & _ & _ & Hstep & Hinv1
                & Hless & _)].
  - rewrite Hfin. cbn [mbind result_bind]. exists s, addrs, toks.
    split_and!; try done. apply bpe2_reachable_start.
  - rewrite Hstep. cbn [mbind result_bind].
    destruct (IH s1 addrs1 toks1 Hinv1) as (s' & addrs' & toks' & Hrun & Hreach & Hinv' & Hfin);
      [lia|].
    exists s', addrs', toks'. split_and!; try done.
    by eapply bpe2_reachable_prepend.
Qed.

End Bpe2Loop.


(** ** bpe2.cpp: the output loop *)

Lemma print_tokens_extends t t' toks out :
  table_extends t t' → print_tokens t toks = Ok out → print_tokens t' toks = Ok out.
Proof.
  intros Hext. revert out. induction toks as [|tok toks IH]; intros out; [done|].
  cbn [print_tokens]. intros Hrun.
  apply bind_Ok in Hrun as (s & Hs & Hrun).
  apply bind_Ok in Hrun as (r & Hr & Hrun).
  rewrite (IH _ Hr). case_decide.
  - by simplify_eq.
  - apply of_option_Ok in Hs. by rewrite (Hext _ _ Hs).
Qed.

Lemma print_tokens_app t (l1 l2 : list Z) :
  print_tokens t (l1 ++ l2)
  = (s1 ← print_tokens t l1; s2 ← print_tokens t l2; Ok (s1 ++ s2)%string).
Proof.
  induction l1 as [|tok l1 IH].
  - simpl. by destruct (print_tokens t l2).
  - cbn [print_tokens app]. rewrite IH.
    destruct (if decide (tok = 0) then Ok " "%string
              else of_option (token_string t tok) OutOfBounds) as [s|]; [|done].
    cbn [mbind result_bind].
    destruct (print_tokens t l1) as [s1|]; [|done]. cbn [mbind result_bind].
    destruct (print_tokens t l2) as [s2|]; [|done]. cbn [mbind result_bind].
    by rewrite string_app_assoc.
Qed.

Lemma print_tokens_Ok t toks :
  (∀ tok, tok ∈ toks → is_Some (token_string t tok)) →
  ∃ out, print_tokens t toks = Ok out.
Proof.
  induction toks as [|tok toks IH]; intros Hall; [by eexists|].
  cbn [print_tokens].
  destruct IH as [r ->]; [intros x Hx; apply Hall; set_solver|].
  destruct (Hall tok) as [s Hs]; [set_solver|].
  case_decide; [by eexists|]. rewrite Hs. by eexists.
Qed.

(** A splice that neither touches a spacer nor makes one leaves the printed
    text as it is; it cannot make one while the text has no ["<spacer>"]. *)
Lemma print_tokens_spliced t bp N s1 s2 W toks toks' :
  bp.1 ≠ 0 → bp.2 ≠ 0 →
  token_string t bp.1 = Some s1 → token_string t bp.2 = Some s2 →
  token_string t N = Some (s1 ++ s2)%string →
  token_string t 0 = Some "<spacer>"%string →
  (∀ pre post, W ≠ (pre ++ "<spacer>" ++ post)%string) →
  rtc (splice bp N) toks toks' →
  print_tokens t toks = Ok W → print_tokens t toks' = Ok W.
Proof.
  intros Hb1 Hb2 H1 H2 HN Hsp HW.
  induction 1 as [|toks toks1 toks' (t1 & t2 & -> & ->) _ IH]; [done|].
  intros Hprint. apply IH. rewrite print_tokens_app in Hprint |- *.
  destruct (print_tokens t t1) as [p1|]; [|done]. cbn [mbind result_bind] in Hprint |- *.
  cbn [print_tokens] in Hprint |- *.
  rewrite !decide_False in Hprint by done. rewrite H1, H2 in Hprint.
  cbn [of_option mbind result_bind] in Hprint.
  destruct (print_tokens t t2) as [p2|]; [|done]. cbn [mbind result_bind] in Hprint |- *.
  injection Hprint as <-.
  assert (N ≠ 0) as HN0.
  { intros ->. rewrite Hsp in HN. injection HN as HN.
    apply (HW p1 p2). by rewrite HN, !string_app_assoc. }
  rewrite decide_False by done. rewrite HN. cbn [of_option mbind result_bind].
  by rewrite !string_app_assoc.
Qed.

Lemma substring_prefix (pat post : string) :
  substring 0 (String.length pat) (pat ++ post) = pat.
Proof.
  induction pat as [|c pat IH]; [by destruct post|].
  change (String c (substring 0 (String.length pat) (pat ++ post)) = String c pat).
  by rewrite IH.
Qed.

Lemma substring_middle (pre pat post : string) :
  substring (String.length pre) (String.length pat) (pre ++ pat ++ post) = pat.
Proof.
  induction pre as [|c pre IH]; [exact (substring_prefix pat post)|]. exact IH.
Qed.

Lemma text_without (pat text : string) :
  pat ≠ EmptyString → index 0 pat text = None →
  ∀ pre post, text ≠ (pre ++ pat ++ post)%string.
Proof.
  intros Hpat Hidx pre post ->.
  apply (index_correct3 0 (String.length pre) pat _ Hidx Hpat); [lia|].
  apply substring_middle.
Qed.

Lemma bpe2_token_walk s addrs toks :
  bpe2_inv s addrs toks →
  Bpe2.token_sequence (Bpe2.fresh (Bpe2.heap s)) (Bpe2.nodes (Bpe2.heap s))
    (Bpe2.head (Bpe2.heap s)) = Ok toks
  ∧ ∀ tok, tok ∈ toks → is_Some (token_string (Bpe2.table s) tok).
Proof.
  intros (Hinv & Hhead & Hlen). split.
  - rewrite Hhead. eapply token_sequence_dll; [apply (inv_list _ _ _ _ _ Hinv)|done].
  - intros tok Htok. pose proof (inv_list _ _ _ _ _ Hinv) as Hdll.
    clear Hhead Hlen. revert Htok.
    assert (∀ a, a ∈ addrs → is_Some (Bpe2.nodes (Bpe2.heap s) !! a) →
                 ∀ n, Bpe2.nodes (Bpe2.heap s) !! a = Some n →
                      is_Some (token_string (Bpe2.table s) (Bpe2.token n))) as Hall.
    { intros a _ _ n Hn. by eapply (inv_tokens _ _ _ _ _ Hinv). }
    clear Hinv. generalize dependent (@None nat). revert toks.
    induction addrs as [|a addrs IH]; intros [|t toks] p; simpl; try done.
    + by intros _ ?%elem_of_nil.
    + intros (n & Hn & <- & _ & _ & _ & Hrest) [->|Hin]%elem_of_cons.
      * eapply (Hall a); [set_solver|by eexists|done].
      * eapply IH; [|done|done]. intros b Hb. apply Hall. set_solver.
Qed.

Section Bpe2Facts.
Variable iter_pairMap : Bpe2.PairMap → list (Pair * Bpe2.PairData).
Hypothesis iter_pairMap_perm : ∀ m, iter_pairMap m ≡ₚ map_to_list m.

Lemma bpe2_step_inv s s' addrs toks :
  bpe2_inv s addrs toks →
  Bpe2.iteration iter_pairMap s = Ok (Bpe2.Merged s') →
  ∃ addrs' toks' bp s1 s2 N,
    (Bpe2.select iter_pairMap s).1 = bp
    ∧ bpe2_inv s' addrs' toks'
    ∧ table_extends (Bpe2.table s) (Bpe2.table s')
    ∧ token_string (Bpe2.table s') bp.1 = Some s1
    ∧ token_string (Bpe2.table s') bp.2 = Some s2
    ∧ token_string (Bpe2.table s') N = Some (s1 ++ s2)%string
    ∧ rtc (splice bp N) toks toks'.
Proof.
  intros Hinv Hstep.
  destruct (bpe2_iteration_inv iter_pairMap iter_pairMap_perm s addrs toks Hinv)
    as [Hfin | (s1 & addrs1 & toks1 & bp & f & x1 & x2 & N & Hsel & _ & Hstep' & Hinv1
                & _ & Hext & Hx1 & Hx2 & _ & HN & Hrtc)]; [congruence|].
  rewrite Hstep in Hstep'. injection Hstep' as <-.
  exists addrs1, toks1, bp, x1, x2, N. rewrite Hsel. split_and!; try done; by apply Hext.
Qed.

Lemma bpe2_reachable_render s0 s addrs0 toks0 text :
  bpe2_inv s0 addrs0 toks0 → render (Bpe2.table s0) toks0 = Some text →
  bpe2_reachable iter_pairMap s0 s →
  ∃ addrs toks, bpe2_inv s addrs toks ∧ render (Bpe2.table s) toks = Some text.
Proof.
  intros Hinv0 Hrender0. induction 1 as [|s s' _ IH Hstep]; [by exists addrs0, toks0|].
  destruct IH as (addrs & toks & Hinv & Hrender).
  destruct (bpe2_step_inv _ _ _ _ Hinv Hstep)
    as (addrs' & toks' & bp & s1 & s2 & N & _ & Hinv' & Hext & H1 & H2 & HN & Hrtc).
  exists addrs', toks'. split; [done|].
  rewrite (render_spliced _ _ _ _ _ _ _ H1 H2 HN Hrtc). by eapply render_extends.
Qed.

Lemma bpe2_reachable_print s0 s addrs0 toks0 W :
  (∀ pre post, W ≠ (pre ++ "<spacer>" ++ post)%string) →
  bpe2_inv s0 addrs0 toks0 → spacer_free (Bpe2.pairMap s0) →
  print_tokens (Bpe2.table s0) toks0 = Ok W →
  bpe2_reachable iter_pairMap s0 s →
  ∃ addrs toks, bpe2_inv s addrs toks ∧ spacer_free (Bpe2.pairMap s)
                ∧ print_tokens (Bpe2.table s) toks = Ok W.
Proof.
  intros HW Hinv0 Hfree0 Hprint0.
  induction 1 as [|s s' _ IH Hstep]; [by exists addrs0, toks0|].
  destruct IH as (addrs & toks & Hinv & Hfree & Hprint).
  destruct (bpe2_iteration_spec iter_pairMap iter_pairMap_perm s s' Hfree Hstep)
    as (Hb1 & Hb2 & _ & Hfree').
  destruct (bpe2_step_inv _ _ _ _ Hinv Hstep)
    as (addrs' & toks' & bp & s1 & s2 & N & Hsel & Hinv' & Hext & H1 & H2 & HN & Hrtc).
  rewrite Hsel in Hb1, Hb2.
  exists addrs', toks'. split_and!; [done|done|].
  eapply print_tokens_spliced; try done.
  - destruct Hinv' as (Hinv' & _). apply (inv_spacer _ _ _ _ _ Hinv').
  - by eapply print_tokens_extends.
Qed.

(** X18.  bpe2.cpp runs to completion on every input.  Whatever the order
    in which the pair map is enumerated, the reader, [buildPairMap], the
    merge loop and the final walk over the list finish without following
    a dangling or null pointer and without reading [id_to_token] out of
    range; the loop leaves through its [break] after at most four passes
    for every node of the list it was given. *)
Theorem bpe2_runs_to_completion lines fuel :
  (4 * length (spaced (chars <$> filter (λ line, line ≠ EmptyString) lines)) < fuel)%nat →
  ∃ s0 s toks out,
    Bpe2.initial_state lines = Ok s0
    ∧ Bpe2.merge_loop iter_pairMap fuel s0 = Ok s
    ∧ Bpe2.iteration iter_pairMap s = Ok Bpe2.Finished
    ∧ Bpe2.token_sequence (Bpe2.fresh (Bpe2.heap s)) (Bpe2.nodes (Bpe2.heap s))
        (Bpe2.head (Bpe2.heap s)) = Ok toks
    ∧ print_tokens (Bpe2.table s) toks = Ok out.
Proof.
  intros Hfuel.
  destruct (bpe2_initial_inv lines)
    as (s0 & addrs0 & toks0 & Hinit & Hinv0 & _ & Hstrs & Hsize).
  assert (Hlen : length addrs0
                 = length (spaced (chars <$> filter (λ line, line ≠ EmptyString) lines))).
  { destruct Hinv0 as (Hinv0 & _).
    rewrite (dll_length _ _ _ _ (inv_list _ _ _ _ _ Hinv0)).
    rewrite <- (length_fmap (token_string (Bpe2.table s0)) toks0), Hstrs.
    apply length_fmap. }
  destruct (bpe2_merge_loop_inv iter_pairMap iter_pairMap_perm fuel s0 addrs0 toks0 Hinv0)
    as (s & addrs & toks & Hrun & _ & Hinv & Hfin).
  { unfold bpe2_measure. set (sz := size (Bpe2.pairMap s0)) in *. lia. }
  destruct (bpe2_token_walk _ _ _ Hinv) as [Hwalk Htoks].
  destruct (print_tokens_Ok _ _ Htoks) as [out Hout].
  by exists s0, s, toks, out.
Qed.

(** X19.  The merges of bpe2.cpp keep the text.  In every state of the
    merge loop the list reached from [head] can be walked to its end, and
    the strings of the tokens met, concatenated, are the characters of
    the non-empty input lines with the string of the spacer between two
    consecutive lines: a splice replaces two tokens by one token for the
    concatenation of their strings, and nothing else changes. *)
Theorem bpe2_tokens_spell_the_input lines s0 s :
  Bpe2.initial_state lines = Ok s0 → bpe2_reachable iter_pairMap s0 s →
  ∃ toks,
    Bpe2.token_sequence (Bpe2.fresh (Bpe2.heap s)) (Bpe2.nodes (Bpe2.heap s))
      (Bpe2.head (Bpe2.heap s)) = Ok toks
    ∧ render (Bpe2.table s) toks
      = Some (spell (spaced (chars <$> filter (λ line, line ≠ EmptyString) lines))).
Proof.
  intros Hinit Hreach.
  destruct (bpe2_initial_inv lines)
    as (s0' & addrs0 & toks0 & Hinit' & Hinv0 & _ & Hstrs & _).
  rewrite Hinit in Hinit'. injection Hinit' as <-.
  destruct (bpe2_reachable_render s0 s addrs0 toks0 _ Hinv0
              (render_of_strings _ _ _ Hstrs) Hreach)
    as (addrs & toks & Hinv & Hrender).
  exists toks. split; [|done]. by destruct (bpe2_token_walk _ _ _ Hinv).
Qed.

(** X20.  What bpe2.cpp prints.  When the text of the input, its non-empty
    lines joined by single spaces, does not contain ["<spacer>"], the
    output loop run in any state of the merge loop prints exactly that
    text: the tokens of a line one after the other, and one space
    between two lines. *)
Theorem bpe2_prints_the_input lines s0 s :
  (∀ pre post, words_with_spaces (filter (λ line, line ≠ EmptyString) lines)
               ≠ (pre ++ "<spacer>" ++ post)%string) →
  Bpe2.initial_state lines = Ok s0 → bpe2_reachable iter_pairMap s0 s →
  ∃ toks,
    Bpe2.token_sequence (Bpe2.fresh (Bpe2.heap s)) (Bpe2.nodes (Bpe2.heap s))
      (Bpe2.head (Bpe2.heap s)) = Ok toks
    ∧ print_tokens (Bpe2.table s) toks
      = Ok (words_with_spaces (filter (λ line, line ≠ EmptyString) lines)).
Proof.
  intros HW Hinit Hreach.
  destruct (bpe2_initial_inv lines)
    as (s0' & addrs0 & toks0 & Hinit' & Hinv0 & Hti & Hstrs & _).
  rewrite Hinit in Hinit'. injection Hinit' as <-.
  assert (Hprint0 : print_tokens (Bpe2.table s0) toks0
                    = Ok (words_with_spaces (filter (λ line, line ≠ EmptyString) lines))).
  { pose proof Hinv0 as (Hh & _).
    rewrite (print_tokens_of_strings _ _ _ Hti (inv_spacer _ _ _ _ _ Hh) Hstrs).
    f_equal. apply spell_spaced_shown. }
  destruct (bpe2_reachable_print s0 s addrs0 toks0 _ HW Hinv0
              (bpe2_initial_spacer_free lines s0 Hinit) Hprint0 Hreach)
    as (addrs & toks & Hinv & _ & Hprint).
  exists toks. split; [|done]. by destruct (bpe2_token_walk _ _ _ Hinv).
Qed.

End Bpe2Facts.


(** ** bpe2.cpp: the counts of the pair map *)

Lemma addOccurrence_counts pmap p node :
  counts_ok pmap → counts_ok (Bpe2.addOccurrence pmap p node).
Proof.
  intros Hc q d. unfold Bpe2.addOccurrence. rewrite lookup_insert. case_decide.
  - intros [= <-]. simpl. split; [|done].
    intros Hnil%(f_equal length). rewrite length_app in Hnil. simpl in Hnil. lia.
  - apply Hc.
Qed.

Lemma removeOccurrence_counts pmap p node :
  counts_ok pmap → counts_ok (Bpe2.removeOccurrence pmap p node).
Proof.
  intros Hc. unfold Bpe2.removeOccurrence.
  destruct (pmap !! p) as [d0|] eqn:Hd0; [|done]. case_decide as Hvec.
  - intros q d. rewrite lookup_delete. case_decide; [done|]. apply Hc.
  - intros q d. rewrite lookup_insert. case_decide; [|apply Hc].
    by intros [= <-].
Qed.

Lemma delete_counts (pmap : Bpe2.PairMap) p : counts_ok pmap → counts_ok (delete p pmap).
Proof. intros Hc q d. rewrite lookup_delete. case_decide; [done|]. apply Hc. Qed.

Lemma buildPairMap_from_counts fuel h cur pmap pmap' :
  counts_ok pmap → Bpe2.buildPairMap_from fuel h cur pmap = Ok pmap' → counts_ok pmap'.
Proof.
  revert cur pmap. induction fuel as [|fuel IH]; intros cur pmap Hc Hrun;
    destruct cur as [c|]; simpl in Hrun; try (by simplify_eq);
    apply bind_Ok in Hrun as (n & Hn & Hrun);
    destruct (Bpe2.next n) as [nx|]; try (by simplify_eq);
    apply bind_Ok in Hrun as (nn & Hnn & Hrun); [done|].
  eapply IH; [|done]. case_decide; [|done]. by apply addOccurrence_counts.
Qed.

Lemma merge_occurrence_counts bp N h pmap left_ h' pmap' :
  counts_ok pmap →
  Bpe2.merge_occurrence bp N (h, pmap) left_ = Ok (h', pmap') → counts_ok pmap'.
Proof.
  intros Hc Hrun. unfold Bpe2.merge_occurrence in Hrun.
  apply bind_Ok in Hrun as (l & _ & Hrun).
  destruct (Bpe2.removed l); [by simplify_eq|].
  destruct (Bpe2.next l) as [right_|]; [|by simplify_eq].
  apply bind_Ok in Hrun as (r & _ & Hrun).
  destruct (Bpe2.removed r); [by simplify_eq|].
  case_decide as Hmatch; [by simplify_eq|].
  apply bind_Ok in Hrun as (h1 & _ & Hrun).
  apply bind_Ok in Hrun as (h2 & _ & Hrun).
  apply bind_Ok in Hrun as (h3 & _ & Hrun).
  apply bind_Ok in Hrun as (h4 & _ & Hrun).
  apply bind_Ok in Hrun as (l4 & _ & Hrun).
  apply bind_Ok in Hrun as (pmap1 & Hp1 & Hrun).
  apply bind_Ok in Hrun as (pmap2 & Hp2 & Hrun).
  injection Hrun as <- <-.
  assert (Hc1 : counts_ok pmap1).
  { destruct (Bpe2.prev l4) as [pv|]; [|by simplify_eq].
    apply bind_Ok in Hp1 as (pn & _ & Hp1).
    destruct (negb (Bpe2.removed pn) && bool_decide (Bpe2.token pn ≠ 0)
              && bool_decide (Bpe2.token l4 ≠ 0)); [|by simplify_eq].
    injection Hp1 as <-. by apply addOccurrence_counts, removeOccurrence_counts. }
  destruct (Bpe2.next l4) as [nx|]; [|by simplify_eq].
  apply bind_Ok in Hp2 as (nn & _ & Hp2).
  destruct (negb (Bpe2.removed nn) && bool_decide (Bpe2.token l4 ≠ 0)
            && bool_decide (Bpe2.token nn ≠ 0)); [|by simplify_eq].
  injection Hp2 as <-. by apply addOccurrence_counts, removeOccurrence_counts.
Qed.

Lemma merge_occurrences_counts bp N occList : ∀ h pmap h' pmap',
  counts_ok pmap →
  Bpe2.merge_occurrences bp N occList (h, pmap) = Ok (h', pmap') → counts_ok pmap'.
Proof.
  induction occList as [|left_ rest IH]; intros h pmap h' pmap' Hc Hrun;
    simpl in Hrun; [by simplify_eq|].
  apply bind_Ok in Hrun as ([h1 pmap1] & Hone & Hrun).
  eapply IH; [|done]. by eapply merge_occurrence_counts.
Qed.

Lemma bpe2_find_best_max entries bestPair bestFreq bp bf :
  Bpe2.find_best entries bestPair bestFreq = (bp, bf) →
  bestFreq ≤ bf ∧ ∀ p d, (p, d) ∈ entries → Bpe2.freq d ≤ bf.
Proof.
  revert bestPair bestFreq. induction entries as [|[p d] rest IH];
    intros bestPair bestFreq Hfb; simpl in Hfb.
  - injection Hfb as <- <-. split; [lia|]. by intros p d ?%elem_of_nil.
  - case_decide as Hgt.
    + destruct (IH _ _ Hfb) as [Hle Hall]. split; [lia|].
      intros q d' [[= -> ->]|Hin]%elem_of_cons; [lia|by eapply Hall].
    + destruct (IH _ _ Hfb) as [Hle Hall]. split; [lia|].
      intros q d' [[= -> ->]|Hin]%elem_of_cons; [lia|by eapply Hall].
Qed.

Lemma string_length_app (s1 s2 : string) :
  String.length (s1 ++ s2) = (String.length s1 + String.length s2)%nat.
Proof.
  induction s1 as [|c s1 IH]; [done|].
  change (S (String.length (s1 ++ s2)) = S (String.length s1 + String.length s2)).
  by rewrite IH.
Qed.

Lemma spliced_length bp N toks toks' :
  rtc (splice bp N) toks toks' → (length toks' ≤ length toks)%nat.
Proof.
  induction 1 as [|toks toks1 toks' (t1 & t2 & -> & ->) _ IH]; [done|].
  rewrite length_app in IH |- *. simpl in IH |- *. lia.
Qed.

(** Splices that turn the two halves of ["<spacer>"] into token 0 make the
    printed text seven characters shorter each. *)
Lemma print_tokens_collapsed t bp s1 s2 toks toks' out :
  bp.1 ≠ 0 → bp.2 ≠ 0 →
  token_string t bp.1 = Some s1 → token_string t bp.2 = Some s2 →
  (s1 ++ s2)%string = "<spacer>"%string →
  rtc (splice bp 0) toks toks' →
  print_tokens t toks = Ok out →
  ∃ out', print_tokens t toks' = Ok out'
          ∧ String.length out
            = (String.length out' + 7 * (length toks - length toks'))%nat.
Proof.
  intros Hb1 Hb2 H1 H2 Hcat Hrtc. revert out.
  induction Hrtc as [toks|toks toks1 toks' (t1 & t2 & -> & ->) Hrest IH]; intros out Hprint.
  - exists out. split; [done|]. lia.
  - apply spliced_length in Hrest.
    rewrite print_tokens_app in Hprint.
    destruct (print_tokens t t1) as [p1|] eqn:Hp1; [|done].
    cbn [mbind result_bind print_tokens] in Hprint.
    rewrite !decide_False in Hprint by done. rewrite H1, H2 in Hprint.
    cbn [of_option mbind result_bind] in Hprint.
    destruct (print_tokens t t2) as [p2|] eqn:Hp2; [|done].
    cbn [mbind result_bind] in Hprint. injection Hprint as <-.
    destruct (IH (p1 ++ " " ++ p2)%string) as (out' & Hout' & Hlen).
    { rewrite print_tokens_app, Hp1. cbn [mbind result_bind print_tokens].
      rewrite decide_True by done. by rewrite Hp2. }
    exists out'. split; [done|].
    rewrite !string_length_app in Hlen.
    rewrite <- (string_app_assoc s1 s2 p2), Hcat.
    rewrite !string_length_app.
    rewrite !length_app in Hrest, Hlen |- *.
    change (String.length " ") with 1%nat in Hlen.
    change (String.length "<spacer>") with 8%nat.
    cbn [length] in Hrest, Hlen |- *. lia.
Qed.

Lemma bpe2_passes_reachable n : ∀ s, bpe2_reachable map_to_list s (bpe2_passes n s).
Proof.
  induction n as [|n IH]; intros s; [apply bpe2_reachable_start|].
  cbn [bpe2_passes].
  destruct (Bpe2.iteration map_to_list s) as [[s'|]|] eqn:Hstep;
    try apply bpe2_reachable_start.
  eapply (bpe2_reachable_prepend map_to_list); [done|apply IH].
Qed.

Section Bpe2Maps.
Variable iter_pairMap : Bpe2.PairMap → list (Pair * Bpe2.PairData).
Hypothesis iter_pairMap_perm : ∀ m, iter_pairMap m ≡ₚ map_to_list m.

Lemma bpe2_iteration_counts s s' :
  counts_ok (Bpe2.pairMap s) →
  Bpe2.iteration iter_pairMap s = Ok (Bpe2.Merged s') →
  counts_ok (Bpe2.pairMap s').
Proof.
  intros Hc. unfold Bpe2.iteration.
  destruct (Bpe2.select iter_pairMap s) as [bestPair bestFreq].
  case_decide; [discriminate|]. intros Hrun.
  apply bind_Ok in Hrun as (first_str & _ & Hrun).
  apply bind_Ok in Hrun as (second_str & _ & Hrun).
  destruct (get_token_id (first_str ++ second_str) (Bpe2.table s)) as [newTokenId table'].
  apply bind_Ok in Hrun as ([nodes' pmap'] & Hocc & Hrun).
  injection Hrun as <-. simpl. apply delete_counts.
  by eapply merge_occurrences_counts.
Qed.

Lemma bpe2_reachable_counts lines s0 s :
  Bpe2.initial_state lines = Ok s0 → bpe2_reachable iter_pairMap s0 s →
  counts_ok (Bpe2.pairMap s).
Proof.
  intros Hinit. induction 1 as [|s s' _ IH Hstep]; [|by eapply bpe2_iteration_counts].
  unfold Bpe2.initial_state in Hinit.
  apply bind_Ok in Hinit as ([h1 t1] & _ & Hrun).
  apply bind_Ok in Hrun as (h2 & _ & Hrun).
  apply bind_Ok in Hrun as (pmap & Hbuild & Hrun). injection Hrun as <-. simpl.
  eapply buildPairMap_from_counts; [|exact Hbuild].
  intros p d Hp. by rewrite lookup_empty in Hp.
Qed.

Lemma bpe2_reachable_state lines s0 s :
  Bpe2.initial_state lines = Ok s0 → bpe2_reachable iter_pairMap s0 s →
  ∃ addrs toks, bpe2_inv s addrs toks ∧ spacer_free (Bpe2.pairMap s)
                ∧ table_inverse (Bpe2.table s).
Proof.
  intros Hinit.
  induction 1 as [|s s' _ IH Hstep].
  - destruct (bpe2_initial_inv lines)
      as (s0' & addrs0 & toks0 & Hinit' & Hinv0 & Hti & _).
    rewrite Hinit in Hinit'. injection Hinit' as <-.
    exists addrs0, toks0. split_and!; try done.
    by eapply bpe2_initial_spacer_free.
  - destruct IH as (addrs & toks & Hinv & Hfree & Hti).
    destruct (bpe2_iteration_spec iter_pairMap iter_pairMap_perm s s' Hfree Hstep)
      as (_ & _ & _ & Hfree').
    destruct (bpe2_iteration_inv iter_pairMap iter_pairMap_perm s addrs toks Hinv)
      as [Hfin | (s1 & addrs1 & toks1 & bp & f & x1 & x2 & N & _ & _ & Hstep' & Hinv1
                  & _ & _ & _ & _ & Hget & _)]; [congruence|].
    rewrite Hstep in Hstep'. injection Hstep' as <-.
    exists addrs1, toks1. split_and!; try done.
    by eapply get_token_id_inverse.
Qed.

(** X21.  What the frequencies of bpe2.cpp count.  In every state of the
    merge loop each entry of the pair map records at least one node and
    its [freq] is the number of nodes it records.  The pair a pass
    selects is a key of the map whose entry records the most nodes: a
    pass merges only when some entry records at least two. *)
Theorem bpe2_selects_the_most_recorded_pair lines s0 s bp f :
  Bpe2.initial_state lines = Ok s0 → bpe2_reachable iter_pairMap s0 s →
  Bpe2.select iter_pairMap s = (bp, f) →
  counts_ok (Bpe2.pairMap s)
  ∧ (∀ p d, Bpe2.pairMap s !! p = Some d → Z.of_nat (length (Bpe2.occ d)) ≤ f)
  ∧ (0 < f → ∃ d, Bpe2.pairMap s !! bp = Some d ∧ f = Z.of_nat (length (Bpe2.occ d)))
  ∧ (f = 0 → Bpe2.pairMap s = ∅).
Proof.
  intros Hinit Hreach Hsel.
  pose proof (bpe2_reachable_counts _ _ _ Hinit Hreach) as Hc.
  unfold Bpe2.select in Hsel.
  destruct (bpe2_find_best_max _ _ _ _ _ Hsel) as [Hnn Hmax].
  assert (Hall : ∀ p d, Bpe2.pairMap s !! p = Some d →
                        Z.of_nat (length (Bpe2.occ d)) ≤ f).
  { intros p d Hp. destruct (Hc p d Hp) as [_ <-]. apply (Hmax p).
    rewrite (iter_pairMap_perm (Bpe2.pairMap s)). by apply elem_of_map_to_list. }
  split_and!; try done.
  - intros Hpos.
    destruct (bpe2_find_best_spec _ _ _ _ _ Hsel) as [[_ ->] | (_ & d & Hin & Hd)]; [lia|].
    rewrite (iter_pairMap_perm (Bpe2.pairMap s)) in Hin.
    apply elem_of_map_to_list in Hin. exists d. split; [done|].
    destruct (Hc bp d Hin) as [_ <-]. done.
  - intros ->. apply map_empty. intros p.
    destruct (Bpe2.pairMap s !! p) as [d|] eqn:Hp; [|done].
    specialize (Hall p d Hp). destruct (Hc p d Hp) as [Hne _].
    destruct (Bpe2.occ d); [done|]. simpl in Hall. lia.
Qed.

(** X22.  The string ["<spacer>"] is not reserved.  When the strings of
    the pair that a pass of bpe2.cpp selects concatenate to ["<spacer>"],
    [getTokenId] answers with the identifier 0 of the spacer: the pass
    adds nothing to the vocabulary, every occurrence it merges becomes a
    node with token 0, and the output loop prints a single space where
    the eight characters stood. *)
Theorem bpe2_spacer_text_becomes_a_spacer lines s0 s bp f s1 s2 :
  Bpe2.initial_state lines = Ok s0 → bpe2_reachable iter_pairMap s0 s →
  Bpe2.select iter_pairMap s = (bp, f) → 2 ≤ f →
  token_string (Bpe2.table s) bp.1 = Some s1 →
  token_string (Bpe2.table s) bp.2 = Some s2 →
  (s1 ++ s2)%string = "<spacer>"%string →
  ∃ s' toks toks' out out',
    Bpe2.iteration iter_pairMap s = Ok (Bpe2.Merged s')
    ∧ Bpe2.table s' = Bpe2.table s
    ∧ Bpe2.token_sequence (Bpe2.fresh (Bpe2.heap s)) (Bpe2.nodes (Bpe2.heap s))
        (Bpe2.head (Bpe2.heap s)) = Ok toks
    ∧ Bpe2.token_sequence (Bpe2.fresh (Bpe2.heap s')) (Bpe2.nodes (Bpe2.heap s'))
        (Bpe2.head (Bpe2.heap s')) = Ok toks'
    ∧ rtc (splice bp 0) toks toks'
    ∧ print_tokens (Bpe2.table s) toks = Ok out
    ∧ print_tokens (Bpe2.table s') toks' = Ok out'
    ∧ String.length out = (String.length out' + 7 * (length toks - length toks'))%nat.
Proof.
  intros Hinit Hreach Hsel Hf H1 H2 Hcat.
  destruct (bpe2_reachable_state _ _ _ Hinit Hreach)
    as (addrs & toks & Hinv & Hfree & Hti).
  destruct (bpe2_iteration_inv iter_pairMap iter_pairMap_perm s addrs toks Hinv)
    as [Hfin | (s' & addrs' & toks' & bp' & f' & x1 & x2 & N & Hsel' & _ & Hstep & Hinv'
                & _ & Hext & Hx1 & Hx2 & Hget & HN & Hrtc)].
  { unfold Bpe2.iteration in Hfin. rewrite Hsel in Hfin.
    rewrite decide_False in Hfin by lia.
    rewrite H1, H2 in Hfin. cbn [of_option mbind result_bind] in Hfin.
    destruct (get_token_id (s1 ++ s2) (Bpe2.table s)) as [N t'].
    destruct (Bpe2.merge_occurrences _ _ _ _) as [[? ?]|]; done. }
  rewrite Hsel in Hsel'. injection Hsel' as <- <-.
  rewrite H1 in Hx1. injection Hx1 as <-. rewrite H2 in Hx2. injection Hx2 as <-.
  pose proof Hinv as (Hh & _).
  assert (Hzero : token_to_id (Bpe2.table s) !! "<spacer>"%string = Some 0).
  { apply Hti. apply (inv_spacer _ _ _ _ _ Hh). }
  rewrite Hcat in Hget. unfold get_token_id in Hget. rewrite Hzero in Hget.
  injection Hget as <- Htab.
  destruct (bpe2_iteration_spec iter_pairMap iter_pairMap_perm s s' Hfree Hstep)
    as (Hb1 & Hb2 & _). rewrite Hsel in Hb1, Hb2.
  destruct (bpe2_token_walk _ _ _ Hinv) as [Hwalk Htoks].
  destruct (bpe2_token_walk _ _ _ Hinv') as [Hwalk' _].
  destruct (print_tokens_Ok _ _ Htoks) as [out Hout].
  destruct (print_tokens_collapsed _ _ _ _ _ _ _ Hb1 Hb2 H1 H2 Hcat Hrtc Hout)
    as (out' & Hout' & Hlen).
  exists s', toks, toks', out, out'. rewrite <- Htab. by split_and!.
Qed.

End Bpe2Maps.


(** ** bpe2.cpp: the theorems at the sample inputs *)

Lemma bpe2_sample_initial : Bpe2.initial_state bpe2_sample_lines = Ok bpe2_sample_s0.
Proof. vm_compute. reflexivity. Qed.

Lemma bpe2_sample_reachable : bpe2_reachable map_to_list bpe2_sample_s0 bpe2_sample_s1.
Proof.
  eapply bpe2_reachable_step; [apply bpe2_reachable_start|]. vm_compute. reflexivity.
Qed.

Lemma bpe2_sample_fuel :
  (4 * length (spaced (chars <$> filter (λ line, line ≠ EmptyString) bpe2_sample_lines))
   < 100)%nat.
Proof. vm_compute. lia. Qed.

Lemma bpe2_sample_text pre post :
  words_with_spaces (filter (λ line, line ≠ EmptyString) bpe2_sample_lines)
  ≠ (pre ++ "<spacer>" ++ post)%string.
Proof. apply text_without; [done|]. vm_compute. reflexivity. Qed.

Lemma spacer_text_initial : Bpe2.initial_state spacer_text_lines = Ok spacer_text_s0.
Proof. vm_compute. reflexivity. Qed.

Lemma spacer_text_reachable : bpe2_reachable map_to_list spacer_text_s0 spacer_text_s6.
Proof.
  assert (Hs6 : bpe2_passes 6 spacer_text_s0 = spacer_text_s6) by (vm_compute; reflexivity).
  rewrite <- Hs6. apply bpe2_passes_reachable.
Qed.

Lemma bpe2_runs_to_completion_witness :
  (∀ m : Bpe2.PairMap, map_to_list m ≡ₚ map_to_list m)
  ∧ (4 * length (spaced (chars <$> filter (λ line, line ≠ EmptyString) bpe2_sample_lines))
     < 100)%nat
  ∧ ∃ s0 s toks out,
      Bpe2.initial_state bpe2_sample_lines = Ok s0
      ∧ Bpe2.merge_loop map_to_list 100 s0 = Ok s
      ∧ Bpe2.iteration map_to_list s = Ok Bpe2.Finished
      ∧ Bpe2.token_sequence (Bpe2.fresh (Bpe2.heap s)) (Bpe2.nodes (Bpe2.heap s))
          (Bpe2.head (Bpe2.heap s)) = Ok toks
      ∧ print_tokens (Bpe2.table s) toks = Ok out.
Proof.
  split; [intros m; reflexivity|]. split; [exact bpe2_sample_fuel|].
  exact (bpe2_runs_to_completion map_to_list (λ m, reflexivity _)
           bpe2_sample_lines 100 bpe2_sample_fuel).
Defined.

Lemma bpe2_tokens_spell_the_input_witness :
  (∀ m : Bpe2.PairMap, map_to_list m ≡ₚ map_to_list m)
  ∧ Bpe2.initial_state bpe2_sample_lines = Ok bpe2_sample_s0
  ∧ bpe2_reachable map_to_list bpe2_sample_s0 bpe2_sample_s1
  ∧ ∃ toks,
      Bpe2.token_sequence (Bpe2.fresh (Bpe2.heap bpe2_sample_s1))
        (Bpe2.nodes (Bpe2.heap bpe2_sample_s1)) (Bpe2.head (Bpe2.heap bpe2_sample_s1))
      = Ok toks
      ∧ render (Bpe2.table bpe2_sample_s1) toks
        = Some (spell (spaced (chars <$> filter (λ line, line ≠ EmptyString)
                                           bpe2_sample_lines))).
Proof.
  split; [intros m; reflexivity|]. split; [exact bpe2_sample_initial|].
  split; [exact bpe2_sample_reachable|].
  exact (bpe2_tokens_spell_the_input map_to_list (λ m, reflexivity _)
           bpe2_sample_lines bpe2_sample_s0 bpe2_sample_s1
           bpe2_sample_initial bpe2_sample_reachable).
Defined.

Lemma bpe2_prints_the_input_witness :
  (∀ m : Bpe2.PairMap, map_to_list m ≡ₚ map_to_list m)
  ∧ (∀ pre post,
       words_with_spaces (filter (λ line, line ≠ EmptyString) bpe2_sample_lines)
       ≠ (pre ++ "<spacer>" ++ post)%string)
  ∧ Bpe2.initial_state bpe2_sample_lines = Ok bpe2_sample_s0
  ∧ bpe2_reachable map_to_list bpe2_sample_s0 bpe2_sample_s1
  ∧ ∃ toks,
      Bpe2.token_sequence (Bpe2.fresh (Bpe2.heap bpe2_sample_s1))
        (Bpe2.nodes (Bpe2.heap bpe2_sample_s1)) (Bpe2.head (Bpe2.heap bpe2_sample_s1))
      = Ok toks
      ∧ print_tokens (Bpe2.table bpe2_sample_s1) toks
        = Ok (words_with_spaces (filter (λ line, line ≠ EmptyString) bpe2_sample_lines)).
Proof.
  split; [intros m; reflexivity|]. split; [exact bpe2_sample_text|].
  split; [exact bpe2_sample_initial|]. split; [exact bpe2_sample_reachable|].
  exact (bpe2_prints_the_input map_to_list (λ m, reflexivity _)
           bpe2_sample_lines bpe2_sample_s0 bpe2_sample_s1
           bpe2_sample_text bpe2_sample_initial bpe2_sample_reachable).
Defined.

Lemma bpe2_sample_select : Bpe2.select map_to_list bpe2_sample_s1 = ((1, 1), 2).
Proof. vm_compute. reflexivity. Qed.

Lemma bpe2_selects_the_most_recorded_pair_witness :
  (∀ m : Bpe2.PairMap, map_to_list m ≡ₚ map_to_list m)
  ∧ Bpe2.initial_state bpe2_sample_lines = Ok bpe2_sample_s0
  ∧ bpe2_reachable map_to_list bpe2_sample_s0 bpe2_sample_s1
  ∧ Bpe2.select map_to_list bpe2_sample_s1 = ((1, 1), 2)
  ∧ counts_ok (Bpe2.pairMap bpe2_sample_s1)
  ∧ (∀ p d, Bpe2.pairMap bpe2_sample_s1 !! p = Some d →
            Z.of_nat (length (Bpe2.occ d)) ≤ 2)
  ∧ (0 < 2 → ∃ d, Bpe2.pairMap bpe2_sample_s1 !! (1, 1) = Some d
                  ∧ 2 = Z.of_nat (length (Bpe2.occ d)))
  ∧ (2 = 0 → Bpe2.pairMap bpe2_sample_s1 = ∅).
Proof.
  split; [intros m; reflexivity|]. split; [exact bpe2_sample_initial|].
  split; [exact bpe2_sample_reachable|]. split; [exact bpe2_sample_select|].
  exact (bpe2_selects_the_most_recorded_pair map_to_list (λ m, reflexivity _)
           bpe2_sample_lines bpe2_sample_s0 bpe2_sample_s1 (1, 1) 2
           bpe2_sample_initial bpe2_sample_reachable bpe2_sample_select).
Defined.

Lemma spacer_text_select : Bpe2.select map_to_list spacer_text_s6 = ((14, 12), 2).
Proof. vm_compute. reflexivity. Qed.

Lemma spacer_text_first : token_string (Bpe2.table spacer_text_s6) 14 = Some "<spa"%string.
Proof. vm_compute. reflexivity. Qed.

Lemma spacer_text_second : token_string (Bpe2.table spacer_text_s6) 12 = Some "cer>"%string.
Proof. vm_compute. reflexivity. Qed.

Lemma bpe2_spacer_text_becomes_a_spacer_witness :
  (∀ m : Bpe2.PairMap, map_to_list m ≡ₚ map_to_list m)
  ∧ Bpe2.initial_state spacer_text_lines = Ok spacer_text_s0
  ∧ bpe2_reachable map_to_list spacer_text_s0 spacer_text_s6
  ∧ Bpe2.select map_to_list spacer_text_s6 = ((14, 12), 2)
  ∧ 2 ≤ 2
  ∧ token_string (Bpe2.table spacer_text_s6) 14 = Some "<spa"%string
  ∧ token_string (Bpe2.table spacer_text_s6) 12 = Some "cer>"%string
  ∧ ("<spa" ++ "cer>")%string = "<spacer>"%string
  ∧ ∃ s' toks toks' out out',
      Bpe2.iteration map_to_list spacer_text_s6 = Ok (Bpe2.Merged s')
      ∧ Bpe2.table s' = Bpe2.table spacer_text_s6
      ∧ Bpe2.token_sequence (Bpe2.fresh (Bpe2.heap spacer_text_s6))
          (Bpe2.nodes (Bpe2.heap spacer_text_s6)) (Bpe2.head (Bpe2.heap spacer_text_s6))
        = Ok toks
      ∧ Bpe2.token_sequence (Bpe2.fresh (Bpe2.heap s')) (Bpe2.nodes (Bpe2.heap s'))
          (Bpe2.head (Bpe2.heap s')) = Ok toks'
      ∧ rtc (splice (14, 12) 0) toks toks'
      ∧ print_tokens (Bpe2.table spacer_text_s6) toks = Ok out
      ∧ print_tokens (Bpe2.table s') toks' = Ok out'
      ∧ String.length out = (String.length out' + 7 * (length toks - length toks'))%nat.
Proof.
  split; [intros m; reflexivity|]. split; [exact spacer_text_initial|].
  split; [exact spacer_text_reachable|]. split; [exact spacer_text_select|].
  split; [lia|]. split; [exact spacer_text_first|]. split; [exact spacer_text_second|].
  split; [reflexivity|].
  exact (bpe2_spacer_text_becomes_a_spacer map_to_list (λ m, reflexivity _)
           spacer_text_lines spacer_text_s0 spacer_text_s6 (14, 12) 2 "<spa" "cer>"
           spacer_text_initial spacer_text_reachable spacer_text_select
           ltac:(lia) spacer_text_first spacer_text_second eq_refl).
Defined.


(** ** bpe_sa.cpp: the labels of the transitions *)

Section Labels.
Variable P : ascii → Prop.

Lemma labelled_set_next nx s :
  (∀ c t, nx !! c = Some t → P c) → labelled P (Sa.set_next nx s).
Proof. intros Hnx c t. apply Hnx. Qed.

Lemma labelled_insert (m : gmap ascii Z) c v :
  P c → (∀ c' t, m !! c' = Some t → P c') →
  ∀ c' t, <[c := v]> m !! c' = Some t → P c'.
Proof.
  intros Hc Hm c' t. rewrite lookup_insert. case_decide; [by subst|]. apply Hm.
Qed.

Lemma labelled_index_or_insert (m : gmap ascii Z) c v nx :
  P c → (∀ c' t, m !! c' = Some t → P c') →
  Sa.index_or_insert m c = (v, nx) → ∀ c' t, nx !! c' = Some t → P c'.
Proof.
  intros Hc Hm. unfold Sa.index_or_insert.
  destruct (m !! c); intros [= <- <-]; [done|]. by apply labelled_insert.
Qed.

Lemma labelled_at st p sp :
  Forall (labelled P) st → at_ st p = Ok sp → labelled P sp.
Proof. intros Hall [_ Hsp]%at_Ok. by eapply Forall_lookup_1. Qed.

Lemma modify_at_labelled_next st p nx st' :
  (∀ c t, nx !! c = Some t → P c) → Forall (labelled P) st →
  modify_at st p (Sa.set_next nx) = Ok st' → Forall (labelled P) st'.
Proof.
  intros Hnx. apply modify_at_Forall. intros a _. by apply labelled_set_next.
Qed.

Lemma extend_link_walk_labelled fuel c cur st p st' p' :
  P c → Forall (labelled P) st →
  Sa.extend_link_walk fuel c cur st p = Ok (st', p') → Forall (labelled P) st'.
Proof.
  intros Hc. revert st p. induction fuel as [|fuel IH]; intros st p Hall Hrun;
    simpl in Hrun; case_decide; try (by simplify_eq);
    apply bind_Ok in Hrun as (sp & Hsp & Hrun);
    destruct (Sa.next sp !! c) eqn:Hnc; try (by simplify_eq).
  apply bind_Ok in Hrun as (st1 & Hst1 & Hrun).
  eapply IH; [|done].
  eapply modify_at_labelled_next; [|done|done].
  apply labelled_insert; [done|]. by eapply labelled_at.
Qed.

Lemma extend_redirect_labelled fuel c q clone st p st' :
  P c → Forall (labelled P) st →
  Sa.extend_redirect fuel c q clone st p = Ok st' → Forall (labelled P) st'.
Proof.
  intros Hc. revert st p.
  induction fuel as [|fuel IH]; intros st p Hall Hrun;
    simpl in Hrun; case_decide; try (by simplify_eq);
    apply bind_Ok in Hrun as (sp & Hsp & Hrun);
    destruct (Sa.index_or_insert (Sa.next sp) c) as [v nx] eqn:Hix;
    apply bind_Ok in Hrun as (st1 & Hst1 & Hrun);
    pose proof (labelled_index_or_insert _ _ _ _ Hc (labelled_at _ _ _ Hall Hsp) Hix)
      as Hnx;
    pose proof (modify_at_labelled_next _ _ _ _ Hnx Hall Hst1) as Hall1;
    case_decide; try (by simplify_eq).
  apply bind_Ok in Hrun as (st2 & Hst2 & Hrun).
  eapply IH; [|done].
  eapply modify_at_labelled_next; [|done|done].
  by apply labelled_insert.
Qed.

Lemma extend_labelled c sz sa sz' sa' :
  P c → Forall (labelled P) (Sa.st sa) →
  Sa.extend c sz sa = Ok (sz', sa') → Forall (labelled P) (Sa.st sa').
Proof.
  intros Hc Hall Hrun. unfold Sa.extend in Hrun.
  assert (Hkeep : ∀ f, (∀ s, Sa.next (f s) = Sa.next s) →
                       ∀ s, labelled P s → labelled P (f s)).
  { intros f Hf s Hs c' t. rewrite Hf. apply Hs. }
  apply bind_Ok in Hrun as (slast & _ & Hrun).
  apply bind_Ok in Hrun as (st1 & Hst1 & Hrun).
  apply bind_Ok in Hrun as (st2 & Hst2 & Hrun).
  apply bind_Ok in Hrun as ([st3 p] & Hst3 & Hrun).
  apply bind_Ok in Hrun as ([sz1 st4] & Hbranch & Hrun).
  injection Hrun as <- <-. simpl.
  eapply modify_at_Forall in Hst1; [|by apply Hkeep|done].
  eapply modify_at_Forall in Hst2; [|by apply Hkeep|done].
  eapply extend_link_walk_labelled in Hst3; [|done|done].
  case_decide.
  { apply bind_Ok in Hbranch as (st5 & Hst5 & Hbranch). injection Hbranch as <- <-.
    eapply modify_at_Forall in Hst5; [done|by apply Hkeep|done]. }
  apply bind_Ok in Hbranch as (sp & Hsp & Hbranch).
  destruct (Sa.index_or_insert (Sa.next sp) c) as [q nx] eqn:Hix.
  pose proof (labelled_index_or_insert _ _ _ _ Hc (labelled_at _ _ _ Hst3 Hsp) Hix) as Hnx.
  apply bind_Ok in Hbranch as (st5 & Hst5 & Hbranch).
  eapply modify_at_labelled_next in Hst5; [|done|done].
  apply bind_Ok in Hbranch as (sp' & Hsp' & Hbranch).
  apply bind_Ok in Hbranch as (sq & Hsq & Hbranch).
  case_decide.
  { apply bind_Ok in Hbranch as (st6 & Hst6 & Hbranch). injection Hbranch as <- <-.
    eapply modify_at_Forall in Hst6; [done|by apply Hkeep|done]. }
  apply bind_Ok in Hbranch as (st6 & Hst6 & Hbranch).
  apply bind_Ok in Hbranch as (sq1 & Hsq1 & Hbranch).
  apply bind_Ok in Hbranch as (st7 & Hst7 & Hbranch).
  apply bind_Ok in Hbranch as (sq2 & Hsq2 & Hbranch).
  apply bind_Ok in Hbranch as (st8 & Hst8 & Hbranch).
  apply bind_Ok in Hbranch as (st9 & Hst9 & Hbranch).
  apply bind_Ok in Hbranch as (st10 & Hst10 & Hbranch).
  apply bind_Ok in Hbranch as (st11 & Hst11 & Hbranch).
  apply bind_Ok in Hbranch as (st12 & Hst12 & Hbranch).
  injection Hbranch as <- <-.
  eapply modify_at_Forall in Hst6; [|by apply Hkeep|done].
  eapply modify_at_labelled_next in Hst7; [|by eapply labelled_at|done].
  eapply modify_at_Forall in Hst8; [|by apply Hkeep|done].
  eapply modify_at_Forall in Hst9; [|by apply Hkeep|done].
  eapply extend_redirect_labelled in Hst10; [|done|done].
  eapply modify_at_Forall in Hst11; [|by apply Hkeep|done].
  eapply modify_at_Forall in Hst12; [done|by apply Hkeep|done].
Qed.

Lemma extend_all_labelled s sz sa sz' sa' :
  (∀ c, c ∈ list_ascii_of_string s → P c) → Forall (labelled P) (Sa.st sa) →
  Sa.extend_all s sz sa = Ok (sz', sa') → Forall (labelled P) (Sa.st sa').
Proof.
  revert sz sa. induction s as [|c s IH]; intros sz sa Hs Hall Hrun; simpl in Hrun.
  - by injection Hrun as <- <-.
  - apply bind_Ok in Hrun as ([sz1 sa1] & Hext & Hrun).
    eapply IH; [|eapply extend_labelled; [|done|done]|done].
    + intros c' Hc'. apply Hs. simpl. set_solver.
    + apply Hs. simpl. set_solver.
Qed.

Lemma propagate_labelled st indices st' :
  Forall (labelled P) st → Sa.propagate st indices = Ok st' → Forall (labelled P) st'.
Proof.
  revert st. induction indices as [|i rest IH]; intros st Hall Hrun; simpl in Hrun.
  - by injection Hrun as <-.
  - apply bind_Ok in Hrun as (si & Hsi & Hrun). case_decide; [|by eapply IH].
    apply bind_Ok in Hrun as (st1 & Hst1 & Hrun).
    eapply IH; [|done]. eapply modify_at_Forall; [|done|done].
    intros a Ha c t. apply Ha.
Qed.

Lemma countOccurrences_from_foreign st cur pattern c n :
  Forall (labelled P) st → c ∈ list_ascii_of_string pattern → ¬ P c →
  Sa.countOccurrences_from st cur pattern = Ok n → n = 0.
Proof.
  intros Hall. revert cur.
  induction pattern as [|c' pattern IH]; intros cur Hin Hc; simpl in Hin |- *.
  - by apply elem_of_nil in Hin.
  - intros (s & Hs & Hrun)%bind_Ok.
    destruct (Sa.next s !! c') as [cur'|] eqn:Hnext; [|by injection Hrun as <-].
    apply elem_of_cons in Hin as [->|Hin].
    + destruct Hc. by eapply (labelled_at _ _ _ Hall Hs).
    + by eapply IH.
Qed.

End Labels.

Lemma SuffixAutomaton_ctor_labelled s sa :
  Sa.SuffixAutomaton_ctor s = Ok sa →
  Forall (labelled (λ c, c ∈ list_ascii_of_string s)) (Sa.st sa).
Proof.
  unfold Sa.SuffixAutomaton_ctor. intros Hrun.
  set (P := λ c, c ∈ list_ascii_of_string s).
  assert (Hkeep : ∀ f, (∀ x, Sa.next (f x) = Sa.next x) →
                       ∀ x, labelled P x → labelled P (f x)).
  { intros f Hf x Hx c' t. rewrite Hf. apply Hx. }
  assert (Hzero : labelled P Sa.SAState_zero).
  { intros c t. simpl. by rewrite lookup_empty. }
  apply bind_Ok in Hrun as (st1 & Hst1 & Hrun).
  apply bind_Ok in Hrun as (st2 & Hst2 & Hrun).
  apply bind_Ok in Hrun as (st3 & Hst3 & Hrun).
  apply bind_Ok in Hrun as ([sz sa1] & Hext & Hrun).
  apply bind_Ok in Hrun as (st5 & Hprop & Hrun).
  injection Hrun as <-. simpl.
  eapply modify_at_Forall in Hst1;
    [|by apply Hkeep|apply resize_vec_Forall; [done|constructor]].
  eapply modify_at_Forall in Hst2; [|by apply Hkeep|done].
  eapply modify_at_Forall in Hst3; [|by apply Hkeep|done].
  eapply (extend_all_labelled P) in Hext; [|done|done].
  eapply propagate_labelled; [|done].
  by apply resize_vec_Forall.
Qed.

(** X23.  A pattern with a character that does not occur in the text has no
    occurrence.  The automaton built by the constructor of bpe_sa.cpp has
    transitions only on characters of its text, so [countOccurrences]
    leaves through its [return 0] for every pattern that holds a character
    the text does not hold. *)
Theorem countOccurrences_of_foreign_character s sa pattern c :
  Sa.SuffixAutomaton_ctor s = Ok sa →
  c ∈ list_ascii_of_string pattern → c ∉ list_ascii_of_string s →
  Sa.countOccurrences sa pattern = Ok 0.
Proof.
  intros Hctor Hin Hout.
  destruct (SuffixAutomaton_ctor_closed s sa Hctor) as [Hclosed Hlen].
  destruct (countOccurrences_Ok sa pattern Hclosed Hlen) as [n Hn].
  rewrite Hn. f_equal.
  eapply (countOccurrences_from_foreign (λ c, c ∈ list_ascii_of_string s));
    [by apply SuffixAutomaton_ctor_labelled|done|done|exact Hn].
Qed.

Lemma countOccurrences_of_foreign_character_witness :
  Sa.SuffixAutomaton_ctor "abab" = Ok (from_ok (Sa.mkSuffixAutomaton [] 0)
                                          (Sa.SuffixAutomaton_ctor "abab"))
  ∧ "c"%char ∈ list_ascii_of_string "bc"
  ∧ ("c"%char ∉ list_ascii_of_string "abab")
  ∧ Sa.countOccurrences (from_ok (Sa.mkSuffixAutomaton [] 0)
                                 (Sa.SuffixAutomaton_ctor "abab")) "bc" = Ok 0.
Proof.
  assert (Hctor : Sa.SuffixAutomaton_ctor "abab"
                  = Ok (from_ok (Sa.mkSuffixAutomaton [] 0)
                                (Sa.SuffixAutomaton_ctor "abab"))).
  { vm_compute. reflexivity. }
  assert (Hin : "c"%char ∈ list_ascii_of_string "bc") by (simpl; set_solver).
  assert (Hout : "c"%char ∉ list_ascii_of_string "abab") by (simpl; set_solver).
  split; [exact Hctor|]. split; [exact Hin|]. split; [exact Hout|].
  exact (countOccurrences_of_foreign_character "abab" _ "bc" "c" Hctor Hin Hout).
Defined.


(** ** bpe2.cpp: the pair map misses no pair *)

(** The left nodes of the places of the list at which the pair [p] stands. *)
Lemma dll_pair_nodes h p0 addrs toks q (p : Pair) :
  dll_seg h p0 addrs toks q →
  ∃ xs, xs `sublist_of` addrs
        ∧ Z.of_nat (length xs) = count_occurrences_in_word toks p
        ∧ ∀ x, x ∈ xs → ∃ y, neighbours h x y p.1 p.2.
Proof.
  revert p0 toks. induction addrs as [|a addrs IH]; intros p0 [|t toks]; try done.
  - intros _. exists []. split_and!; [done|done|]. by intros x ?%elem_of_nil.
  - cbn [dll_seg]. intros (n & Hn & Ht & Hr & Hp & Hnx & Hrest).
    destruct (IH _ _ Hrest) as (xs & Hsub & Hlen & Hall).
    destruct addrs as [|b addrs], toks as [|tb toks]; try done.
    + exists []. split_and!; [apply sublist_nil_l|done|]. by intros x ?%elem_of_nil.
    + cbn [dll_seg] in Hrest. destruct Hrest as (m & Hm & Htb & Hrm & _).
      rewrite count_occurrences_in_word_cons. case_decide as Hmatch.
      * exists (a :: xs). split_and!; [by apply sublist_skip| |].
        -- cbn [length]. rewrite Nat2Z.inj_succ. lia.
        -- intros x [->|Hx]%elem_of_cons; [|by apply Hall]. exists b, n, m.
           destruct Hmatch as [Ha Hb]. split_and!; try done; congruence.
      * exists xs. split_and!; [by apply sublist_cons|lia|done].
Qed.

Lemma recorded_count s addrs toks a b :
  bpe2_inv s addrs toks →
  pairs_recorded (Bpe2.nodes (Bpe2.heap s)) (Bpe2.pairMap s) →
  counts_ok (Bpe2.pairMap s) →
  a ≠ 0 → b ≠ 0 → 0 < count_occurrences_in_word toks (a, b) →
  ∃ d, Bpe2.pairMap s !! (a, b) = Some d
       ∧ count_occurrences_in_word toks (a, b) ≤ Bpe2.freq d.
Proof.
  intros (Hinv & _ & _) Hrec Hc Ha Hb Hpos.
  pose proof (inv_list _ _ _ _ _ Hinv) as Hdll. apply dll_seg_None in Hdll.
  destruct (dll_pair_nodes _ _ _ _ _ (a, b) Hdll) as (xs & Hsub & Hlen & Hall).
  assert (Hxs : ∀ x, x ∈ xs → recorded (Bpe2.pairMap s) (a, b) x).
  { intros x Hx. destruct (Hall x Hx) as [y Hnb]. by apply (Hrec x y). }
  destruct xs as [|x0 xs]; [simpl in Hlen; lia|].
  destruct (Hxs x0) as (d & Hd & _); [set_solver|].
  exists d. split; [done|]. rewrite <- Hlen. destruct (Hc _ _ Hd) as [_ ->].
  apply inj_le, submseteq_length, NoDup_submseteq.
  - apply (sublist_NoDup _ _ (inv_nodup _ _ _ _ _ Hinv) Hsub).
  - intros x Hx. destruct (Hxs x Hx) as (d' & Hd' & Hin). rewrite Hd in Hd'.
    by injection Hd' as <-.
Qed.

Section Bpe2Complete.
Variable iter_pairMap : Bpe2.PairMap → list (Pair * Bpe2.PairData).
Hypothesis iter_pairMap_perm : ∀ m, iter_pairMap m ≡ₚ map_to_list m.

Lemma bpe2_reachable_recorded lines s0 s :
  Bpe2.initial_state lines = Ok s0 → bpe2_reachable iter_pairMap s0 s →
  pairs_recorded (Bpe2.nodes (Bpe2.heap s)) (Bpe2.pairMap s).
Proof.
  intros Hinit. induction 1 as [|s s' Hreach IH Hstep].
  - by eapply bpe2_initial_recorded.
  - destruct (bpe2_reachable_state iter_pairMap iter_pairMap_perm _ _ _ Hinit Hreach)
      as (addrs & toks & Hinv & _).
    by eapply (bpe2_iteration_recorded iter_pairMap iter_pairMap_perm).
Qed.

Lemma bpe2_reachable_count lines s0 s :
  Bpe2.initial_state lines = Ok s0 → bpe2_reachable iter_pairMap s0 s →
  ∃ toks,
    Bpe2.token_sequence (Bpe2.fresh (Bpe2.heap s)) (Bpe2.nodes (Bpe2.heap s))
      (Bpe2.head (Bpe2.heap s)) = Ok toks
    ∧ ∀ a b, a ≠ 0 → b ≠ 0 → 0 < count_occurrences_in_word toks (a, b) →
        ∃ d, Bpe2.pairMap s !! (a, b) = Some d
             ∧ count_occurrences_in_word toks (a, b) ≤ Bpe2.freq d.
Proof.
  intros Hinit Hreach.
  destruct (bpe2_reachable_state iter_pairMap iter_pairMap_perm _ _ _ Hinit Hreach)
    as (addrs & toks & Hinv & _).
  exists toks. split; [by destruct (bpe2_token_walk _ _ _ Hinv)|].
  intros a b. apply (recorded_count s addrs); [done| |].
  - by eapply bpe2_reachable_recorded.
  - by eapply (bpe2_reachable_counts iter_pairMap).
Qed.

(** X24.  The pair map of bpe2.cpp misses no pair.  In every state of the
    merge loop, every pair of non-spacer tokens that stands somewhere on
    the list is a key of the pair map, and the [freq] of its entry is at
    least the number of places of the list at which the pair stands
    (overlapping places counted). *)
Theorem bpe2_records_every_adjacent_pair lines s0 s :
  Bpe2.initial_state lines = Ok s0 → bpe2_reachable iter_pairMap s0 s →
  ∃ toks,
    Bpe2.token_sequence (Bpe2.fresh (Bpe2.heap s)) (Bpe2.nodes (Bpe2.heap s))
      (Bpe2.head (Bpe2.heap s)) = Ok toks
    ∧ ∀ a b, a ≠ 0 → b ≠ 0 → adjacent (a, b) toks →
        ∃ d, Bpe2.pairMap s !! (a, b) = Some d
             ∧ 1 ≤ count_occurrences_in_word toks (a, b) ≤ Bpe2.freq d.
Proof.
  intros Hinit Hreach.
  destruct (bpe2_reachable_count _ _ _ Hinit Hreach) as (toks & Hwalk & Hcount).
  exists toks. split; [done|]. intros a b Ha Hb Hadj.
  apply count_occurrences_in_word_pos in Hadj.
  destruct (Hcount a b Ha Hb Hadj) as (d & Hd & Hle).
  exists d. split; [done|]. lia.
Qed.

(** X25.  bpe2.cpp does not stop early.  The merge loop ends, and in the
    list it leaves no pair of non-spacer tokens stands at two places:
    every pair that is still adjacent on the list occurs exactly once. *)
Theorem bpe2_stops_without_repeated_pairs lines fuel :
  (4 * length (spaced (chars <$> filter (λ line, line ≠ EmptyString) lines)) < fuel)%nat →
  ∃ s0 s toks,
    Bpe2.initial_state lines = Ok s0
    ∧ Bpe2.merge_loop iter_pairMap fuel s0 = Ok s
    ∧ Bpe2.token_sequence (Bpe2.fresh (Bpe2.heap s)) (Bpe2.nodes (Bpe2.heap s))
        (Bpe2.head (Bpe2.heap s)) = Ok toks
    ∧ ∀ a b, a ≠ 0 → b ≠ 0 → count_occurrences_in_word toks (a, b) ≤ 1.
Proof.
  intros Hfuel.
  destruct (bpe2_initial_inv lines)
    as (s0 & addrs0 & toks0 & Hinit & Hinv0 & _ & Hstrs & Hsize).
  assert (Hlen : length addrs0
                 = length (spaced (chars <$> filter (λ line, line ≠ EmptyString) lines))).
  { destruct Hinv0 as (Hinv0 & _).
    rewrite (dll_length _ _ _ _ (inv_list _ _ _ _ _ Hinv0)).
    rewrite <- (length_fmap (token_string (Bpe2.table s0)) toks0), Hstrs.
    apply length_fmap. }
  destruct (bpe2_merge_loop_inv iter_pairMap iter_pairMap_perm fuel s0 addrs0 toks0 Hinv0)
    as (s & addrs & toks' & Hrun & Hreach & _ & Hfin).
  { unfold bpe2_measure. set (sz := size (Bpe2.pairMap s0)) in *. lia. }
  destruct (bpe2_reachable_count _ _ _ Hinit Hreach) as (toks & Hwalk & Hcount).
  exists s0, s, toks. split_and!; try done.
  intros a b Ha Hb.
  destruct (decide (count_occurrences_in_word toks (a, b) ≤ 1)) as [|Hmany]; [done|].
  destruct (Hcount a b Ha Hb) as (d & Hd & Hle); [lia|].
  exfalso. unfold Bpe2.iteration in Hfin.
  destruct (Bpe2.select iter_pairMap s) as [bp f] eqn:Hsel.
  unfold Bpe2.select in Hsel.
  destruct (bpe2_find_best_max _ _ _ _ _ Hsel) as [_ Hmax].
  assert (Bpe2.freq d ≤ f) as Hf.
  { apply (Hmax (a, b)). rewrite (iter_pairMap_perm (Bpe2.pairMap s)).
    by apply elem_of_map_to_list. }
  rewrite decide_False in Hfin by lia.
  destruct (token_string (Bpe2.table s) bp.1); [|done].
  destruct (token_string (Bpe2.table s) bp.2); [|done].
  cbn [of_option mbind result_bind] in Hfin.
  destruct (get_token_id _ _) as [N t'].
  destruct (Bpe2.merge_occurrences _ _ _ _) as [[? ?]|]; done.
Qed.

End Bpe2Complete.

Lemma bpe2_records_every_adjacent_pair_witness :
  (∀ m : Bpe2.PairMap, map_to_list m ≡ₚ map_to_list m)
  ∧ Bpe2.initial_state bpe2_sample_lines = Ok bpe2_sample_s0
  ∧ bpe2_reachable map_to_list bpe2_sample_s0 bpe2_sample_s1
  ∧ ∃ toks,
      Bpe2.token_sequence (Bpe2.fresh (Bpe2.heap bpe2_sample_s1))
        (Bpe2.nodes (Bpe2.heap bpe2_sample_s1)) (Bpe2.head (Bpe2.heap bpe2_sample_s1))
      = Ok toks
      ∧ ∀ a b, a ≠ 0 → b ≠ 0 → adjacent (a, b) toks →
          ∃ d, Bpe2.pairMap bpe2_sample_s1 !! (a, b) = Some d
               ∧ 1 ≤ count_occurrences_in_word toks (a, b) ≤ Bpe2.freq d.
Proof.
  split; [intros m; reflexivity|]. split; [exact bpe2_sample_initial|].
  split; [exact bpe2_sample_reachable|].
  exact (bpe2_records_every_adjacent_pair map_to_list (λ m, reflexivity _)
           bpe2_sample_lines bpe2_sample_s0 bpe2_sample_s1
           bpe2_sample_initial bpe2_sample_reachable).
Defined.

Lemma bpe2_stops_without_repeated_pairs_witness :
  (∀ m : Bpe2.PairMap, map_to_list m ≡ₚ map_to_list m)
  ∧ (4 * length (spaced (chars <$> filter (λ line, line ≠ EmptyString) bpe2_sample_lines))
     < 100)%nat
  ∧ ∃ s0 s toks,
      Bpe2.initial_state bpe2_sample_lines = Ok s0
      ∧ Bpe2.merge_loop map_to_list 100 s0 = Ok s
      ∧ Bpe2.token_sequence (Bpe2.fresh (Bpe2.heap s)) (Bpe2.nodes (Bpe2.heap s))
          (Bpe2.head (Bpe2.heap s)) = Ok toks
      ∧ ∀ a b, a ≠ 0 → b ≠ 0 → count_occurrences_in_word toks (a, b) ≤ 1.
Proof.
  split; [intros m; reflexivity|]. split; [exact bpe2_sample_fuel|].
  exact (bpe2_stops_without_repeated_pairs map_to_list (λ m, reflexivity _)
           bpe2_sample_lines 100 bpe2_sample_fuel).
Defined.
